(** * AVLmap: a shallow embedding of [avl-map.cpp]

    The container is a pointer graph: every [Node] carries a key, a value,
    a stored height, a cached balance and three links ([parent], [left],
    [right]).  The embedding keeps that shape: nodes live in a store
    addressed by pointers, [nullptr] is [None], and every member function
    is a state-passing function over the store that fails ([None]) on a
    null or dangling dereference and when its fuel runs out.

    The template parameters are instantiated at [K = V = int]; keys and
    values are mathematical integers, [V()] is [0]. *)

From stdpp Require Import gmap list.
From Stdlib Require Import ZArith Lia.

Local Open Scope Z_scope.

(** ** Machine integers *)

(** [size_t] (the [height] field) and [unsigned int] (the [size_] field)
    wrap around; [int] is what the balancing code computes with. *)
Definition to_size_t (z : Z) : Z := z mod 2 ^ 64.
Definition to_unsigned (z : Z) : Z := z mod 2 ^ 32.
Definition to_int (z : Z) : Z := (z + 2 ^ 31) mod 2 ^ 32 - 2 ^ 31.

(** ** Nodes and the store *)

Abbreviation ptr := positive (only parsing).

Record Node := mkNode {
  key : Z;
  value : Z;
  height : Z;            (* size_t *)
  balance : Z;           (* int *)
  parent : option ptr;
  left : option ptr;
  right : option ptr
}.

Abbreviation heap := (gmap positive Node) (only parsing).

Definition set_key (k : Z) (n : Node) : Node :=
  mkNode k (value n) (height n) (balance n) (parent n) (left n) (right n).
Definition set_value (v : Z) (n : Node) : Node :=
  mkNode (key n) v (height n) (balance n) (parent n) (left n) (right n).
Definition set_height (h : Z) (n : Node) : Node :=
  mkNode (key n) (value n) h (balance n) (parent n) (left n) (right n).
Definition set_balance (b : Z) (n : Node) : Node :=
  mkNode (key n) (value n) (height n) b (parent n) (left n) (right n).
Definition set_parent (p : option ptr) (n : Node) : Node :=
  mkNode (key n) (value n) (height n) (balance n) p (left n) (right n).
Definition set_left (l : option ptr) (n : Node) : Node :=
  mkNode (key n) (value n) (height n) (balance n) (parent n) l (right n).
Definition set_right (r : option ptr) (n : Node) : Node :=
  mkNode (key n) (value n) (height n) (balance n) (parent n) (left n) r.

(** ** A state-and-failure monad over the store *)

Definition M (A : Type) : Type := gmap positive Node -> option (A * gmap positive Node).

Definition ret {A} (a : A) : M A := fun H => Some (a, H).
Definition fault {A} : M A := fun _ => None.
Definition bind {A B} (m : M A) (k : A -> M B) : M B :=
  fun H => match m H with
           | Some (a, H') => k a H'
           | None => None
           end.

Declare Scope heap_scope.
Delimit Scope heap_scope with heap.
Notation "'let*' x := m 'in' k" := (bind m (fun x => k))
  (at level 10, x pattern, m at level 100, k at level 200) : heap_scope.
Notation "m >> k" := (bind m (fun _ => k))
  (at level 90, right associativity) : heap_scope.
Local Open Scope heap_scope.

(** [p->field] for reading, [p->field = v] for writing. *)
Definition get (p : ptr) : M Node :=
  fun H => match H !! p with Some n => Some (n, H) | None => None end.
Definition upd (p : ptr) (f : Node -> Node) : M unit :=
  fun H => match H !! p with Some n => Some (tt, <[p := f n]> H) | None => None end.
Definition free (p : ptr) : M unit :=
  fun H => match H !! p with Some _ => Some (tt, delete p H) | None => None end.
Definition when (b : bool) (m : M unit) : M unit := if b then m else ret tt.

(** The [height] of a possibly absent child, as the [int] the code reads. *)
Definition child_height (c : option ptr) : M Z :=
  match c with
  | Some p => let* n := get p in ret (to_int (height n))
  | None => ret 0
  end.

(** ** Node methods *)

(** [Node::CreateNode]: a fresh cell, height 1, balance 0, no links. *)
Definition CreateNode (k : Z) : M ptr :=
  fun H => let p := fresh (dom H) in
           Some (p, <[p := mkNode k 0 1 0 None None None]> H).

Fixpoint first (fuel : nat) (this : ptr) : M ptr :=
  match fuel with
  | O => fault
  | S fuel =>
      let* n := get this in
      match left n with
      | None => ret this
      | Some l => first fuel l
      end
  end.

Fixpoint last (fuel : nat) (this : ptr) : M ptr :=
  match fuel with
  | O => fault
  | S fuel =>
      let* n := get this in
      match right n with
      | None => ret this
      | Some r => last fuel r
      end
  end.

Definition is_right_child (this : ptr) : M bool :=
  let* n := get this in
  match parent n with
  | Some q => let* pn := get q in ret (bool_decide (right pn = Some this))
  | None => ret false
  end.

Definition is_left_child (this : ptr) : M bool :=
  let* n := get this in
  match parent n with
  | Some q => let* pn := get q in ret (bool_decide (left pn = Some this))
  | None => ret false
  end.

(** The upward loops of [increment] and [decrement]; the result is the
    node pointer returned, [None] for [nullptr]. *)
Fixpoint up_left (fuel : nat) (successor : option ptr) : M (option ptr) :=
  match fuel with
  | O => fault
  | S fuel =>
      match successor with
      | None => ret None
      | Some s =>
          let* b := is_left_child s in
          let* n := get s in
          if b then ret (parent n) else up_left fuel (parent n)
      end
  end.

Fixpoint up_right (fuel : nat) (predecessor : option ptr) : M (option ptr) :=
  match fuel with
  | O => fault
  | S fuel =>
      match predecessor with
      | None => ret None
      | Some s =>
          let* b := is_right_child s in
          let* n := get s in
          if b then ret (parent n) else up_right fuel (parent n)
      end
  end.

Definition increment (fuel : nat) (this : ptr) : M (option ptr) :=
  let* n := get this in
  match right n with
  | Some r => let* f := first fuel r in ret (Some f)
  | None => up_left fuel (Some this)
  end.

Definition decrement (fuel : nat) (this : ptr) : M (option ptr) :=
  let* n := get this in
  match left n with
  | Some l => let* f := last fuel l in ret (Some f)
  | None => up_right fuel (Some this)
  end.

Definition add_child (this node : ptr) : M unit :=
  upd node (set_parent (Some this)) >>
  let* nd := get node in
  let* n := get this in
  when (key n <? key nd) (upd this (set_right (Some node))) >>
  when (key nd <? key n) (upd this (set_left (Some node))).

Definition replace_child (this : ptr) (to_replace replacement : option ptr) : M unit :=
  match to_replace, replacement with
  | Some old, Some new =>
      let* n := get this in
      when (bool_decide (left n = Some old))
           (upd this (set_left (Some new)) >>
            upd new (set_parent (Some this)) >>
            upd old (set_parent None)) >>
      let* n := get this in
      when (bool_decide (right n = Some old))
           (upd this (set_right (Some new)) >>
            upd new (set_parent (Some this)) >>
            upd old (set_parent None))
  | _, _ => ret tt
  end.

Definition has_children (n : Node) : bool :=
  bool_decide (left n <> None) || bool_decide (right n <> None).

Definition get_only_child (n : Node) : option ptr :=
  match left n, right n with
  | Some l, None => Some l
  | None, Some r => Some r
  | _, _ => None
  end.

Definition rotate_right (this : ptr) : M unit :=
  let* n := get this in
  match left n with
  | None => ret tt
  | Some to_promote =>
      upd this (set_left None) >>
      match parent n with
      | Some q => replace_child q (Some this) (Some to_promote)
      | None => ret tt
      end >>
      upd this (set_parent (Some to_promote)) >>
      let* pn := get to_promote in
      match right pn with
      | Some c =>
          upd this (set_left (Some c)) >>
          upd c (set_parent (Some this)) >>
          upd to_promote (set_right None)
      | None => ret tt
      end >>
      upd to_promote (set_right (Some this))
  end.

Definition rotate_left (this : ptr) : M unit :=
  let* n := get this in
  match right n with
  | None => ret tt
  | Some to_promote =>
      upd this (set_right None) >>
      match parent n with
      | Some q => replace_child q (Some this) (Some to_promote)
      | None => ret tt
      end >>
      upd this (set_parent (Some to_promote)) >>
      let* pn := get to_promote in
      match left pn with
      | Some c =>
          upd this (set_right (Some c)) >>
          upd c (set_parent (Some this)) >>
          upd to_promote (set_left None)
      | None => ret tt
      end >>
      upd to_promote (set_left (Some this))
  end.

Inductive Rotation := NONE | RIGHT | LEFT.

Definition is_rotation (r : Rotation) : bool :=
  match r with NONE => false | _ => true end.

(** [Node::try_fix_balance].  [root] is the map's root field, passed by
    reference in the source; the updated value is returned next to the
    rotation performed.  [right->parent = nullptr] with [right == nullptr]
    is a null dereference, hence [fault]. *)
Definition try_fix_balance (this : ptr) (previous : option ptr) (inserted : ptr)
    (root : option ptr) : M (Rotation * option ptr) :=
  let* n := get this in
  let* balance_l := child_height (left n) in
  let* balance_r := child_height (right n) in
  let b := balance_r - balance_l in
  upd this (set_balance b) >>
  if b =? 0 then ret (NONE, root)
  else if 1 <? b then
    match previous with
    | Some prev =>
        let* ni := get inserted in
        let* np := get prev in
        when (key ni <? key np) (rotate_right prev)
    | None => ret tt
    end >>
    let* root' :=
      (if bool_decide (root = Some this) then
         let* n := get this in
         match right n with
         | Some r => upd r (set_parent None) >> ret (Some r)
         | None => fault
         end
       else ret root) in
    rotate_left this >>
    ret (LEFT, root')
  else if b <? -1 then
    match previous with
    | Some prev =>
        let* ni := get inserted in
        let* np := get prev in
        when (key np <? key ni) (rotate_left prev)
    | None => ret tt
    end >>
    let* root' :=
      (if bool_decide (root = Some this) then
         let* n := get this in
         match left n with
         | Some l => upd l (set_parent None) >> ret (Some l)
         | None => fault
         end
       else ret root) in
    rotate_right this >>
    ret (RIGHT, root')
  else ret (NONE, root).

Fixpoint propagate_height_down (fuel : nat) (this : ptr) : M unit :=
  match fuel with
  | O => fault
  | S fuel =>
      let* n := get this in
      match left n with
      | Some l =>
          upd l (set_height (to_size_t (height n - 1))) >>
          propagate_height_down fuel l
      | None => ret tt
      end >>
      let* n := get this in
      match right n with
      | Some r =>
          upd r (set_height (to_size_t (height n - 1))) >>
          propagate_height_down fuel r
      | None => ret tt
      end
  end.

(** The height refresh at the head of [insert_balance]. *)
Definition update_height (this : ptr) : M unit :=
  let* n := get this in
  if has_children n then
    let* height_l := child_height (left n) in
    let* height_r := child_height (right n) in
    if height_r + 1 <? height_l + 1
    then upd this (set_height (to_size_t (height_l + 1)))
    else upd this (set_height (to_size_t (height_r + 1)))
  else ret tt.

(** [Node::insert_balance]; returns the root field after the walk. *)
Fixpoint insert_balance (fuel : nat) (this : ptr) (previous : option ptr)
    (inserted : ptr) (root : option ptr) : M (option ptr) :=
  match fuel with
  | O => fault
  | S fuel =>
      update_height this >>
      let* (rotation_occured, root) := try_fix_balance this previous inserted root in
      let* n := get this in
      match parent n with
      | Some q => when (is_rotation rotation_occured) (propagate_height_down fuel q)
      | None => ret tt
      end >>
      let* n := get this in
      match parent n with
      | Some q => insert_balance fuel q (Some this) inserted root
      | None => ret root
      end
  end.

(** ** The map *)

Record AVLmap := mkMap {
  root : option ptr;
  size_ : Z              (* unsigned int *)
}.

(** [AVLmap::AVLmap()] *)
Definition empty_map : AVLmap := mkMap None 0.

Definition size (m : AVLmap) : Z := size_ m.

(** The descent shared by [operator[]] and [search_node]: the node holding
    [k] when there is one, otherwise the node at which the loop breaks,
    with the number of links followed. *)
Fixpoint descend (fuel : nat) (k : Z) (current : ptr) (depth : Z) : M (bool * ptr * Z) :=
  match fuel with
  | O => fault
  | S fuel =>
      let* n := get current in
      if k =? key n then ret (true, current, depth)
      else if k <? key n then
        match left n with
        | None => ret (false, current, depth + 1)
        | Some l => descend fuel k l (depth + 1)
        end
      else
        match right n with
        | None => ret (false, current, depth + 1)
        | Some r => descend fuel k r (depth + 1)
        end
  end.

(** [AVLmap::operator[]]; the reference returned is the node holding the
    value. *)
Definition index (fuel : nat) (m : AVLmap) (k : Z) : M (ptr * AVLmap) :=
  match root m with
  | None =>
      let* r := CreateNode k in
      ret (r, mkMap (Some r) (to_unsigned (size_ m + 1)))
  | Some r =>
      let* (found, current, _) := descend fuel k r 0 in
      if found : bool then ret (current, m)
      else
        let* to_add := CreateNode k in
        add_child current to_add >>
        let* root' := insert_balance fuel to_add None to_add (root m) in
        ret (to_add, mkMap root' (to_unsigned (size_ m + 1)))
  end.

(** [m[k] = v] *)
Definition assign (fuel : nat) (m : AVLmap) (k v : Z) : M AVLmap :=
  let* (p, m') := index fuel m k in
  upd p (set_value v) >> ret m'.

(** [AVLmap::search_node] *)
Definition search_node (fuel : nat) (m : AVLmap) (k : Z) : M (option (ptr * Z)) :=
  match root m with
  | None => ret None
  | Some r =>
      let* (found, current, depth) := descend fuel k r 0 in
      if found : bool then ret (Some (current, depth)) else ret None
  end.

(** Cursors: [Some p] points at a node, [None] is the shared end cursor. *)
Definition find (fuel : nat) (m : AVLmap) (k : Z) : M (option ptr) :=
  let* search := search_node fuel m k in
  match search with
  | Some (node, _) => ret (Some node)
  | None => ret None
  end.

Definition begin (fuel : nat) (m : AVLmap) : M (option ptr) :=
  match root m with
  | Some r => let* f := first fuel r in ret (Some f)
  | None => ret None
  end.

Definition end_it : option ptr := None.

(** [AVLmap::erase] *)
Fixpoint erase (fuel : nat) (m : AVLmap) (it : option ptr) : M AVLmap :=
  match fuel with
  | O => fault
  | S fuel =>
      match it with
      | None => ret m
      | Some node =>
          let* n := get node in
          if negb (has_children n) then
            let* isl := is_left_child node in
            match parent n with
            | Some q => when isl (upd q (set_left None))
            | None => ret tt
            end >>
            let* isr := is_right_child node in
            match parent n with
            | Some q => when isr (upd q (set_right None))
            | None => ret tt
            end >>
            let root' := if bool_decide (root m = Some node) then None else root m in
            free node >>
            ret (mkMap root' (to_unsigned (size_ m - 1)))
          else
            match get_only_child n with
            | Some only_child =>
                let* isl := is_left_child node in
                match parent n with
                | Some q => when isl (upd q (set_left (Some only_child)))
                | None => ret tt
                end >>
                let* isr := is_right_child node in
                match parent n with
                | Some q => when isr (upd q (set_right (Some only_child)))
                | None => ret tt
                end >>
                let root' := if bool_decide (root m = Some node) then Some only_child
                             else root m in
                upd only_child (set_parent (parent n)) >>
                free node >>
                ret (mkMap root' (to_unsigned (size_ m - 1)))
            | None =>
                match left n with
                | Some l =>
                    let* predecessor := last fuel l in
                    let* np := get predecessor in
                    upd node (set_key (key np)) >>
                    let* np := get predecessor in
                    upd node (set_value (value np)) >>
                    erase fuel m (Some predecessor)
                | None => fault
                end
            end
      end
  end.

(** The children of a node in the order the breadth-first loops push
    them. *)
Definition children (n : Node) : list ptr :=
  match left n with Some l => [l] | None => [] end ++
  match right n with Some r => [r] | None => [] end.

(** [AVLmap::clear]: the loop over [deletion_queue], then the function. *)
Fixpoint clear_loop (fuel : nat) (deletion_queue : list ptr) (sz : Z) : M Z :=
  match fuel with
  | O => fault
  | S fuel =>
      match deletion_queue with
      | [] => ret sz
      | to_delete :: rest =>
          let* n := get to_delete in
          free to_delete >>
          clear_loop fuel (rest ++ children n) (to_unsigned (sz - 1))
      end
  end.

Definition clear (fuel : nat) (m : AVLmap) : M AVLmap :=
  match root m with
  | None => ret m
  | Some r =>
      let* sz := clear_loop fuel [r] (size_ m) in
      ret (mkMap None sz)
  end.

(** The loop shared by the copy constructor and copy assignment: [self]
    receives every pair found by a breadth-first walk over [rhs]. *)
Fixpoint copy_loop (fuel : nat) (insert_list : list ptr) (self : AVLmap) : M AVLmap :=
  match fuel with
  | O => fault
  | S fuel =>
      match insert_list with
      | [] => ret self
      | current :: rest =>
          let* c := get current in
          let* (p, self) := index fuel self (key c) in
          let* c := get current in
          upd p (set_value (value c)) >>
          copy_loop fuel (rest ++ children c) self
      end
  end.

(** [AVLmap::AVLmap(const AVLmap&)]: [size_] starts at [rhs.size_], [root]
    at its default member initialiser. *)
Definition copy_construct (fuel : nat) (rhs : AVLmap) : M AVLmap :=
  let self := mkMap None (size_ rhs) in
  match root rhs with
  | None => ret self
  | Some r => copy_loop fuel [r] self
  end.

(** [AVLmap::AVLmap(AVLmap&&)]: the new map and what is left of [rhs]. *)
Definition move_construct (rhs : AVLmap) : AVLmap * AVLmap :=
  (mkMap (root rhs) (size_ rhs), mkMap None 0).

(** [AVLmap::sanityCheck]: the loop, then the function.  The loop answers
    [None] when it runs to the end of the list and [Some false] at the
    first complaint. *)
Fixpoint sanity_loop (fuel : nat) (insert_list : list ptr) (seen_keys : list Z)
    (measured_size : Z) : M (bool * Z) :=
  match fuel with
  | O => fault
  | S fuel =>
      match insert_list with
      | [] => ret (true, measured_size)
      | current :: rest =>
          let* c := get current in
          if bool_decide (key c ∈ seen_keys) then ret (false, measured_size)
          else
            let* lok :=
              match left c with
              | Some l => let* nl := get l in ret (negb (value c <=? value nl))
              | None => ret true
              end in
            if negb lok then ret (false, measured_size)
            else
              let* rok :=
                match right c with
                | Some r => let* nr := get r in ret (negb (value nr <=? value c))
                | None => ret true
                end in
              if negb rok then ret (false, measured_size)
              else
                let insert_list := rest ++ children c in
                if bool_decide (current ∈ insert_list)
                then ret (false, measured_size + 1)
                else sanity_loop fuel insert_list (seen_keys ++ [key c])
                       (measured_size + 1)
      end
  end.

Definition sanityCheck (fuel : nat) (m : AVLmap) : M bool :=
  match root m with
  | None => ret true
  | Some r =>
      let* (ok, measured_size) := sanity_loop fuel [r] [] 0 in
      if ok : bool then ret (bool_decide (measured_size = size m)) else ret false
  end.

(** ** Map objects

    Assignment operators take their operands by reference, and the two
    references may name the same object.  Objects therefore live in a
    store of their own, next to the node store. *)

Abbreviation objects := (gmap positive AVLmap) (only parsing).

Definition set_root (r : option ptr) (m : AVLmap) : AVLmap := mkMap r (size_ m).
Definition set_size (s : Z) (m : AVLmap) : AVLmap := mkMap (root m) s.

Definition W (A : Type) : Type :=
  gmap positive Node * gmap positive AVLmap -> option (A * (gmap positive Node * gmap positive AVLmap)).

(** Run a member function of the object [this] and store the object
    back. *)
Definition on_object {A} (this : positive) (f : AVLmap -> M (A * AVLmap)) : W A :=
  fun w =>
    match snd w !! this with
    | Some m =>
        match f m (fst w) with
        | Some ((a, m'), H') => Some (a, (H', <[this := m']> (snd w)))
        | None => None
        end
    | None => None
    end.

Definition wbind {A B} (m : W A) (k : A -> W B) : W B :=
  fun w => match m w with
           | Some (a, w') => k a w'
           | None => None
           end.
Definition wret {A} (a : A) : W A := fun w => Some (a, w).

Definition read_object (o : positive) : W AVLmap :=
  fun w => match snd w !! o with Some m => Some (m, w) | None => None end.
Definition write_object (o : positive) (f : AVLmap -> AVLmap) : W unit :=
  fun w => match snd w !! o with
           | Some m => Some (tt, (fst w, <[o := f m]> (snd w)))
           | None => None
           end.

(** [std::exchange(rhs.root, nullptr)] and [std::exchange(rhs.size_, 0)] *)
Definition exchange_root (o : positive) (new : option ptr) : W (option ptr) :=
  wbind (read_object o) (fun m =>
  wbind (write_object o (set_root new)) (fun _ => wret (root m))).
Definition exchange_size (o : positive) (new : Z) : W Z :=
  wbind (read_object o) (fun m =>
  wbind (write_object o (set_size new)) (fun _ => wret (size_ m))).

Definition lift_unit (f : AVLmap -> M AVLmap) (m : AVLmap) : M (unit * AVLmap) :=
  let* m' := f m in ret (tt, m').

(** [AVLmap::operator=(AVLmap&&)] *)
Definition move_assign (fuel : nat) (this rhs : positive) : W unit :=
  wbind (on_object this (lift_unit (clear fuel))) (fun _ =>
  wbind (exchange_root rhs None) (fun r =>
  wbind (write_object this (set_root r)) (fun _ =>
  wbind (exchange_size rhs 0) (fun s =>
  write_object this (set_size s))))).

(** [AVLmap::operator=(const AVLmap&)] *)
Definition copy_assign (fuel : nat) (this rhs : positive) : W unit :=
  if bool_decide (this = rhs) then wret tt
  else
    wbind (on_object this (lift_unit (clear fuel))) (fun _ =>
    wbind (read_object rhs) (fun r =>
    match root r with
    | None => wret tt
    | Some rt => on_object this (lift_unit (copy_loop fuel [rt]))
    end)).

(** ** Observations used by the statements *)

(** Keys met by stepping a cursor with [increment] until the end cursor. *)
Fixpoint walk (fuel : nat) (it : option ptr) : M (list Z) :=
  match fuel with
  | O => fault
  | S fuel =>
      match it with
      | None => ret []
      | Some p =>
          let* n := get p in
          let* next := increment fuel p in
          let* rest := walk fuel next in
          ret (key n :: rest)
      end
  end.

Definition keys_in_order (fuel : nat) (m : AVLmap) : M (list Z) :=
  let* b := begin fuel m in walk fuel b.

(** Structural observations of the tree hanging from a link, by recursion
    over the child links. *)

(** Number of nodes reachable from [c]. *)
Fixpoint count_nodes (fuel : nat) (c : option ptr) : M Z :=
  match fuel with
  | O => fault
  | S fuel =>
      match c with
      | None => ret 0
      | Some p =>
          let* n := get p in
          let* a := count_nodes fuel (left n) in
          let* b := count_nodes fuel (right n) in
          ret (1 + a + b)
      end
  end.

(** Number of nodes on the longest path from [c] down to a leaf. *)
Fixpoint longest_path (fuel : nat) (c : option ptr) : M Z :=
  match fuel with
  | O => fault
  | S fuel =>
      match c with
      | None => ret 0
      | Some p =>
          let* n := get p in
          let* a := longest_path fuel (left n) in
          let* b := longest_path fuel (right n) in
          ret (1 + Z.max a b)
      end
  end.

(** The balance factor of a node: right-subtree height minus left-subtree
    height. *)
Definition balance_factor (fuel : nat) (p : ptr) : M Z :=
  let* n := get p in
  let* a := longest_path fuel (left n) in
  let* b := longest_path fuel (right n) in
  ret (b - a).

(** Every node below [c] has its balance factor in {-1, 0, 1}. *)
Fixpoint balanced (fuel : nat) (c : option ptr) : M bool :=
  match fuel with
  | O => fault
  | S fuel =>
      match c with
      | None => ret true
      | Some p =>
          let* n := get p in
          let* f := balance_factor fuel p in
          let* a := balanced fuel (left n) in
          let* b := balanced fuel (right n) in
          ret ((-1 <=? f) && (f <=? 1) && a && b)
      end
  end.

(** Every node below [c] stores a height of at least 1 that is the length
    of its longest path to a leaf. *)
Fixpoint heights_exact (fuel : nat) (c : option ptr) : M bool :=
  match fuel with
  | O => fault
  | S fuel =>
      match c with
      | None => ret true
      | Some p =>
          let* n := get p in
          let* h := longest_path fuel c in
          let* a := heights_exact fuel (left n) in
          let* b := heights_exact fuel (right n) in
          ret ((1 <=? height n) && (height n =? h) && a && b)
      end
  end.

(** Key, stored height and length of the longest path to a leaf, for every
    node below [c], left to right. *)
Fixpoint height_table (fuel : nat) (c : option ptr) : M (list (Z * Z * Z)) :=
  match fuel with
  | O => fault
  | S fuel =>
      match c with
      | None => ret []
      | Some p =>
          let* n := get p in
          let* h := longest_path fuel c in
          let* a := height_table fuel (left n) in
          let* b := height_table fuel (right n) in
          ret (a ++ (key n, height n, h) :: b)
      end
  end.

(** Optional bounds: [None] is no bound. *)
Definition above (lo : option Z) (k : Z) : bool :=
  match lo with Some l => l <? k | None => true end.
Definition below (k : Z) (hi : option Z) : bool :=
  match hi with Some h => k <? h | None => true end.

(** Search-tree ordering of the tree below [c], all keys strictly between
    [lo] and [hi]. *)
Fixpoint ordered (fuel : nat) (c : option ptr) (lo hi : option Z) : M bool :=
  match fuel with
  | O => fault
  | S fuel =>
      match c with
      | None => ret true
      | Some p =>
          let* n := get p in
          let* a := ordered fuel (left n) lo (Some (key n)) in
          let* b := ordered fuel (right n) (Some (key n)) hi in
          ret (above lo (key n) && below (key n) hi && a && b)
      end
  end.

(** The (key, value) pairs below [c], left to right. *)
Fixpoint pairs (fuel : nat) (c : option ptr) : M (list (Z * Z)) :=
  match fuel with
  | O => fault
  | S fuel =>
      match c with
      | None => ret []
      | Some p =>
          let* n := get p in
          let* a := pairs fuel (left n) in
          let* b := pairs fuel (right n) in
          ret (a ++ (key n, value n) :: b)
      end
  end.

(** Successive [m[k]] on a list of keys. *)
Fixpoint insert_all (fuel : nat) (ks : list Z) (m : AVLmap) : M AVLmap :=
  match ks with
  | [] => ret m
  | k :: ks => let* (_, m') := index fuel m k in insert_all fuel ks m'
  end.

(** Successive [m.erase(m.find(k))] on a list of keys. *)
Fixpoint erase_all (fuel : nat) (ks : list Z) (m : AVLmap) : M AVLmap :=
  match ks with
  | [] => ret m
  | k :: ks =>
      let* it := find fuel m k in
      let* m' := erase fuel m it in
      erase_all fuel ks m'
  end.

(** The value computed by a program started on a store, the final store
    dropped. *)
Definition result {A} (m : M A) (H : gmap positive Node) : option A :=
  match m H with Some (a, _) => Some a | None => None end.

(** ** The successor of a node, after the wording of the specification *)

(** [leftmost H r f]: [f] is the leftmost descendant of [r], the minimum
    of the subtree at [r]. *)
Inductive leftmost (H : gmap positive Node) : ptr -> ptr -> Prop :=
  | leftmost_here p n :
      H !! p = Some n -> left n = None -> leftmost H p p
  | leftmost_down p n l f :
      H !! p = Some n -> left n = Some l -> leftmost H l f -> leftmost H p f.

(** [left_ancestor H s a]: walking the parent links from [s], [a] is the
    first ancestor entered from its left child; no such ancestor when the
    walk runs past the root. *)
Inductive left_ancestor (H : gmap positive Node) : ptr -> option ptr -> Prop :=
  | left_ancestor_none s n :
      H !! s = Some n -> parent n = None -> left_ancestor H s None
  | left_ancestor_here s n q nq :
      H !! s = Some n -> parent n = Some q -> H !! q = Some nq ->
      left nq = Some s -> left_ancestor H s (Some q)
  | left_ancestor_up s n q nq a :
      H !! s = Some n -> parent n = Some q -> H !! q = Some nq ->
      left nq <> Some s -> left_ancestor H q a -> left_ancestor H s a.

Inductive successor (H : gmap positive Node) : ptr -> option ptr -> Prop :=
  | successor_right this n r f :
      H !! this = Some n -> right n = Some r -> leftmost H r f ->
      successor H this (Some f)
  | successor_up this n a :
      H !! this = Some n -> right n = None -> left_ancestor H this a ->
      successor H this a.

(** [rightmost H l q]: [q] is the rightmost descendant of [l], the maximum
    of the subtree at [l]. *)
Inductive rightmost (H : gmap positive Node) : ptr -> ptr -> Prop :=
  | rightmost_here p n :
      H !! p = Some n -> right n = None -> rightmost H p p
  | rightmost_down p n r q :
      H !! p = Some n -> right n = Some r -> rightmost H r q -> rightmost H p q.

(** [heights_kept H H']: no node of [H'] has a stored height other than
    the one it had in [H]. *)
Definition heights_kept (H H' : gmap positive Node) : Prop :=
  forall p n', H' !! p = Some n' -> exists n, H !! p = Some n /\ height n' = height n.

(** ** Stores and objects used in the concrete runs *)

(** The store left by a program started on the empty store. *)
Definition store_of {A} (m : M A) : gmap positive Node :=
  match m ∅ with Some (_, H) => H | None => ∅ end.

(** A one-element map [a] with [a[7] = 70], copy-constructed into [b]. *)
Definition copy_of_singleton (fuel : nat) : M (AVLmap * AVLmap) :=
  let* a := assign fuel empty_map 7 70 in
  let* b := copy_construct fuel a in
  ret (a, b).

(** A two-node store whose left child holds the larger key, with values
    in the opposite order. *)
Definition misordered_store : gmap positive Node :=
  <[2%positive := mkNode 2 3 1 0 (Some 1%positive) None None]>
    (<[1%positive := mkNode 1 5 2 0 None (Some 2%positive) None]> ∅).
Definition misordered_map : AVLmap := mkMap (Some 1%positive) 2.

(** The map with keys 5, 3, 8, 1, 4, 7, 9 inserted in that order. *)
Definition seven_keys (fuel : nat) : M AVLmap :=
  insert_all fuel [5; 3; 8; 1; 4; 7; 9] empty_map.

(** The world after [AVLmap a; a[7] = 70; AVLmap b(a);] holding [b] as
    object 1, and [b = std::move(b)] run on it. *)
Definition self_move_of_copy (fuel : nat) : option AVLmap :=
  match copy_of_singleton fuel ∅ with
  | Some ((_, b), H) =>
      match move_assign fuel 1%positive 1%positive (H, {[1%positive := b]}) with
      | Some (_, (_, objs)) =>
          objs !! 1%positive
      | None => None
      end
  | None => None
  end.
From Stdlib Require Import Ascii.


(** ** Programs over the public interface

    A cursor is obtained from [end()], [begin()], [find(k)] or by stepping
    another cursor; stepping the end cursor dereferences [nullptr]. *)
Inductive cursor :=
  | c_end
  | c_begin
  | c_find (k : Z)
  | c_next (c : cursor)
  | c_prev (c : cursor).

Fixpoint eval_cursor (fuel : nat) (m : AVLmap) (c : cursor) : M (option ptr) :=
  match c with
  | c_end => ret end_it
  | c_begin => begin fuel m
  | c_find k => find fuel m k
  | c_next c' =>
      let* it := eval_cursor fuel m c' in
      match it with
      | Some p => increment fuel p
      | None => fault
      end
  | c_prev c' =>
      let* it := eval_cursor fuel m c' in
      match it with
      | Some p => decrement fuel p
      | None => fault
      end
  end.

(** One statement of a client program; objects are named by numbers. *)
Inductive op :=
  | op_construct (a : positive)            (* AVLmap a; *)
  | op_index (a : positive) (k : Z)        (* a[k]; *)
  | op_assign (a : positive) (k v : Z)     (* a[k] = v; *)
  | op_erase (a : positive) (c : cursor)   (* a.erase(c); *)
  | op_copy_construct (b a : positive)     (* AVLmap b(a); *)
  | op_copy_assign (a b : positive)        (* a = b; *)
  | op_move_construct (b a : positive)     (* AVLmap b(std::move(a)); *)
  | op_move_assign (a b : positive)        (* a = std::move(b); *)
  | op_destroy (a : positive).             (* a goes out of scope *)

Definition new_object (a : positive) (m : AVLmap) : W unit :=
  fun w => match snd w !! a with
           | Some _ => None
           | None => Some (tt, (fst w, <[a := m]> (snd w)))
           end.

Definition drop_object (a : positive) : W unit :=
  fun w => Some (tt, (fst w, delete a (snd w))).

(** Run a function of the store that does not belong to a stored object. *)
Definition on_store {A} (f : M A) : W A :=
  fun w => match f (fst w) with
           | Some (a, H') => Some (a, (H', snd w))
           | None => None
           end.

Definition step (fuel : nat) (o : op) : W unit :=
  match o with
  | op_construct a => new_object a empty_map
  | op_index a k =>
      on_object a (fun m => let* (_, m') := index fuel m k in ret (tt, m'))
  | op_assign a k v => on_object a (lift_unit (fun m => assign fuel m k v))
  | op_erase a c =>
      on_object a (lift_unit (fun m =>
        let* it := eval_cursor fuel m c in erase fuel m it))
  | op_copy_construct b a =>
      wbind (read_object a) (fun rhs =>
      wbind (on_store (copy_construct fuel rhs)) (fun self =>
      new_object b self))
  | op_copy_assign a b => copy_assign fuel a b
  | op_move_construct b a =>
      wbind (read_object a) (fun rhs =>
      wbind (write_object a (fun _ => snd (move_construct rhs))) (fun _ =>
      new_object b (fst (move_construct rhs))))
  | op_move_assign a b => move_assign fuel a b
  | op_destroy a =>
      wbind (on_object a (lift_unit (clear fuel))) (fun _ => drop_object a)
  end.

Fixpoint run (fuel : nat) (os : list op) : W unit :=
  match os with
  | [] => wret tt
  | o :: os => wbind (step fuel o) (fun _ => run fuel os)
  end.

Definition empty_world : gmap positive Node * gmap positive AVLmap := (∅, ∅).

(** The objects a statement constructs, assigns to, moves from or
    destroys. *)
Definition touches (o : op) : list positive :=
  match o with
  | op_construct a | op_index a _ | op_assign a _ _ | op_erase a _
  | op_destroy a => [a]
  | op_copy_construct b _ => [b]
  | op_copy_assign a _ => [a]
  | op_move_construct b a => [b; a]
  | op_move_assign a b => [a; b]
  end.

(** Statements that run the copy constructor. *)
Definition is_copy_construct (o : op) : bool :=
  match o with op_copy_construct _ _ => true | _ => false end.

(** ** Search-tree ordering, read off the store *)

(** [in_subtree H c q]: [q] is a node of the subtree hanging from the
    link [c]. *)
Inductive in_subtree (H : gmap positive Node) : option ptr -> ptr -> Prop :=
  | in_subtree_here p n :
      H !! p = Some n -> in_subtree H (Some p) p
  | in_subtree_left p n q :
      H !! p = Some n -> in_subtree H (left n) q -> in_subtree H (Some p) q
  | in_subtree_right p n q :
      H !! p = Some n -> in_subtree H (right n) q -> in_subtree H (Some p) q.

(** For every node below [c], the keys of its left subtree are smaller
    than its key and the keys of its right subtree are larger. *)
Definition search_tree (H : gmap positive Node) (c : option ptr) : Prop :=
  forall p n, in_subtree H c p -> H !! p = Some n ->
    (forall q nq, in_subtree H (left n) q -> H !! q = Some nq -> key nq < key n) /\
    (forall q nq, in_subtree H (right n) q -> H !! q = Some nq -> key n < key nq).

(** A client program with every kind of statement, and the world a run
    ends in (the empty world when the run does not end). *)
Definition client_program : list op :=
  [op_construct 1; op_index 1 5; op_assign 1 3 30; op_index 1 8; op_index 1 1;
   op_index 1 4; op_erase 1 (c_find 5); op_copy_construct 2 1;
   op_move_construct 3 2; op_erase 3 (c_next c_begin); op_construct 4;
   op_copy_assign 4 3; op_move_assign 2 4; op_destroy 3].

Definition world_of
    (r : option (unit * (gmap positive Node * gmap positive AVLmap))) :
    gmap positive Node * gmap positive AVLmap :=
  match r with Some (_, w) => w | None => empty_world end.

(** The worlds client programs reach from the empty world, one statement
    after the other. *)
Inductive reachable : gmap positive Node * gmap positive AVLmap -> Prop :=
  | reachable_empty : reachable empty_world
  | reachable_step w fuel o w' :
      reachable w -> step fuel o w = Some (tt, w') -> reachable w'.

(** [AVLmap::getdepth]: the depth [search_node] reports for the key of
    [node], returned as an [unsigned int], or 0 when the search fails. *)
Definition getdepth (fuel : nat) (m : AVLmap) (node : ptr) : M Z :=
  let* n := get node in
  let* search := search_node fuel m (key n) in
  match search with
  | Some (_, depth) => ret (to_unsigned depth)
  | None => ret 0
  end.

(** [AVLmap::get_edge_symbol]: the character '-' for a node without a
    parent, the backslash (code 092) when the left link of the parent is
    the node, '/' otherwise. *)
Definition get_edge_symbol (node : ptr) : M Ascii.ascii :=
  let* n := get node in
  match parent n with
  | None => ret "-"%char
  | Some q =>
      let* nq := get q in
      ret (if bool_decide (left nq = Some node) then "092"%char else "/"%char)
  end.

(** [depth_is H p j]: [j] parent links lead from [p] up to a node without
    a parent. *)
Inductive depth_is (H : gmap positive Node) : ptr -> nat -> Prop :=
  | depth_root p n :
      H !! p = Some n -> parent n = None -> depth_is H p 0
  | depth_child p n q j :
      H !! p = Some n -> parent n = Some q -> depth_is H q j ->
      depth_is H p (S j).

(** What [sanityCheck] compares at a node: the value held by a left child
    is smaller, the value held by a right child is larger. *)
Definition values_ordered_at (H : gmap positive Node) (p : ptr) : Prop :=
  forall n, H !! p = Some n ->
    (forall l nl, left n = Some l -> H !! l = Some nl -> value nl < value n) /\
    (forall r nr, right n = Some r -> H !! r = Some nr -> value n < value nr).

(** The map hanging from the link [c] maps [k] to [v]; it has the key
    [k]. *)
Definition holds (H : gmap positive Node) (c : option ptr) (k v : Z) : Prop :=
  exists p n, in_subtree H c p /\ H !! p = Some n /\ key n = k /\ value n = v.

Definition contains (H : gmap positive Node) (c : option ptr) (k : Z) : Prop :=
  exists v, holds H c k v.

(** The world at the end of [client_program], and the two components of
    the outcome of a program run on a given store. *)
Definition client_world : gmap positive Node * gmap positive AVLmap :=
  world_of (run 50 client_program empty_world).

Definition value_of {A} (d : A) (r : option (A * gmap positive Node)) : A :=
  match r with Some (a, _) => a | None => d end.

Definition store_after {A} (H0 : gmap positive Node)
    (r : option (A * gmap positive Node)) : gmap positive Node :=
  match r with Some (_, H) => H | None => H0 end.

(** The maps 1 and 2 of [client_world]. *)
Definition client_map1 : AVLmap := mkMap (Some 1%positive) 4.
Definition client_map2 : AVLmap := mkMap (Some 9%positive) 3.

(** [client_world] after [map4 = std::move(map1)]. *)
Definition client_move_assigned : gmap positive Node * gmap positive AVLmap :=
  world_of (step 50 (op_move_assign 4 1) client_world).

(** A program of 108 insertions and 85 erasures on one map, the world it
    ends in, and the map object of that world: 23 keys, the root at
    address 7. *)
Definition faulting_program : list op :=
  [op_construct 1; op_index 1 6; op_index 1 89; op_index 1 36;
   op_index 1 106; op_index 1 42; op_index 1 11; op_index 1 81;
   op_index 1 66; op_index 1 80; op_index 1 104; op_index 1 108;
   op_index 1 90; op_index 1 70; op_index 1 83; op_index 1 93;
   op_index 1 52; op_index 1 103; op_index 1 102; op_index 1 53;
   op_index 1 40; op_index 1 2; op_index 1 107; op_index 1 82;
   op_index 1 34; op_index 1 31; op_index 1 72; op_index 1 98;
   op_index 1 57; op_index 1 69; op_index 1 3; op_index 1 32;
   op_index 1 33; op_index 1 14; op_index 1 24; op_index 1 97;
   op_index 1 67; op_index 1 23; op_index 1 21; op_index 1 51;
   op_index 1 76; op_index 1 78; op_index 1 22; op_index 1 48;
   op_index 1 87; op_index 1 19; op_index 1 12; op_index 1 58;
   op_index 1 92; op_index 1 68; op_index 1 64; op_index 1 45;
   op_index 1 105; op_index 1 28; op_index 1 15; op_index 1 86;
   op_index 1 39; op_index 1 4; op_index 1 20; op_index 1 109;
   op_index 1 5; op_index 1 62; op_index 1 74; op_index 1 9; op_index 1 73;
   op_index 1 101; op_index 1 84; op_index 1 100; op_index 1 17;
   op_index 1 47; op_index 1 99; op_index 1 94; op_index 1 56;
   op_index 1 77; op_index 1 96; op_index 1 91; op_index 1 95;
   op_index 1 88; op_index 1 26; op_index 1 30; op_index 1 16;
   op_index 1 37; op_index 1 18; op_index 1 55; op_index 1 54;
   op_index 1 38; op_index 1 50; op_index 1 75; op_index 1 79;
   op_index 1 10; op_index 1 41; op_index 1 60; op_index 1 1; op_index 1 8;
   op_index 1 61; op_index 1 59; op_index 1 46; op_index 1 49;
   op_index 1 13; op_index 1 85; op_index 1 25; op_index 1 65;
   op_index 1 27; op_index 1 71; op_index 1 63; op_index 1 7;
   op_index 1 35; op_index 1 44; op_index 1 43; op_erase 1 (c_find 1);
   op_erase 1 (c_find 2); op_erase 1 (c_find 3); op_erase 1 (c_find 4);
   op_erase 1 (c_find 5); op_erase 1 (c_find 6); op_erase 1 (c_find 7);
   op_erase 1 (c_find 8); op_erase 1 (c_find 12); op_erase 1 (c_find 11);
   op_erase 1 (c_find 14); op_erase 1 (c_find 15); op_erase 1 (c_find 16);
   op_erase 1 (c_find 13); op_erase 1 (c_find 18); op_erase 1 (c_find 17);
   op_erase 1 (c_find 20); op_erase 1 (c_find 21); op_erase 1 (c_find 25);
   op_erase 1 (c_find 41); op_erase 1 (c_find 40); op_erase 1 (c_find 43);
   op_erase 1 (c_find 42); op_erase 1 (c_find 45); op_erase 1 (c_find 46);
   op_erase 1 (c_find 47); op_erase 1 (c_find 44); op_erase 1 (c_find 49);
   op_erase 1 (c_find 50); op_erase 1 (c_find 48); op_erase 1 (c_find 52);
   op_erase 1 (c_find 53); op_erase 1 (c_find 54); op_erase 1 (c_find 55);
   op_erase 1 (c_find 56); op_erase 1 (c_find 60); op_erase 1 (c_find 61);
   op_erase 1 (c_find 62); op_erase 1 (c_find 59); op_erase 1 (c_find 64);
   op_erase 1 (c_find 65); op_erase 1 (c_find 66); op_erase 1 (c_find 63);
   op_erase 1 (c_find 68); op_erase 1 (c_find 69); op_erase 1 (c_find 70);
   op_erase 1 (c_find 71); op_erase 1 (c_find 72); op_erase 1 (c_find 73);
   op_erase 1 (c_find 67); op_erase 1 (c_find 75); op_erase 1 (c_find 76);
   op_erase 1 (c_find 77); op_erase 1 (c_find 78); op_erase 1 (c_find 79);
   op_erase 1 (c_find 80); op_erase 1 (c_find 74); op_erase 1 (c_find 82);
   op_erase 1 (c_find 83); op_erase 1 (c_find 84); op_erase 1 (c_find 85);
   op_erase 1 (c_find 86); op_erase 1 (c_find 87); op_erase 1 (c_find 88);
   op_erase 1 (c_find 89); op_erase 1 (c_find 90); op_erase 1 (c_find 91);
   op_erase 1 (c_find 92); op_erase 1 (c_find 93); op_erase 1 (c_find 94);
   op_erase 1 (c_find 95); op_erase 1 (c_find 96); op_erase 1 (c_find 97);
   op_erase 1 (c_find 98); op_erase 1 (c_find 99); op_erase 1 (c_find 100);
   op_erase 1 (c_find 101); op_erase 1 (c_find 102);
   op_erase 1 (c_find 103); op_erase 1 (c_find 104);
   op_erase 1 (c_find 105); op_erase 1 (c_find 106);
   op_erase 1 (c_find 107); op_erase 1 (c_find 108);
   op_erase 1 (c_find 109)].

Definition faulting_world : gmap positive Node * gmap positive AVLmap :=
  world_of (run 100 faulting_program empty_world).

Definition faulting_map : AVLmap := mkMap (Some 7%positive) 23.

(** ** The tree a store represents

    A [tree] records the shape of a pointer tree together with the
    address and the key of every node.  Stored heights, balances and
    values play no part in it. *)
Inductive tree :=
  | Leaf
  | Fork (l : tree) (p : positive) (k : Z) (r : tree).

Definition rootp (t : tree) : option ptr :=
  match t with Leaf => None | Fork _ p _ _ => Some p end.

Fixpoint ptrs (t : tree) : list positive :=
  match t with Leaf => [] | Fork l p _ r => ptrs l ++ p :: ptrs r end.

Fixpoint keys (t : tree) : list Z :=
  match t with Leaf => [] | Fork l _ k r => keys l ++ k :: keys r end.

(** The cell at [p] holds key [k] and the three links given. *)
Definition cell (H : gmap positive Node) (p : positive) (k : Z)
    (par lp rp : option ptr) : Prop :=
  exists n, H !! p = Some n /\ key n = k /\ parent n = par /\
            left n = lp /\ right n = rp.

(** [Rep H par t]: the store holds [t], whose root has parent link
    [par]. *)
Fixpoint Rep (H : gmap positive Node) (par : option ptr) (t : tree) : Prop :=
  match t with
  | Leaf => True
  | Fork l p k r =>
      cell H p k par (rootp l) (rootp r) /\ Rep H (Some p) l /\ Rep H (Some p) r
  end.

(** Strictly increasing lists of keys. *)
Fixpoint increasing (l : list Z) : Prop :=
  match l with
  | [] => True
  | x :: l' => Forall (fun y => x < y) l' /\ increasing l'
  end.

(** One step of a path from a node up to the root: the node is the left
    child of [p] with sibling subtree [r], or the right child of [p] with
    sibling subtree [l]. *)
Inductive frame :=
  | FrL (p : positive) (k : Z) (r : tree)
  | FrR (l : tree) (p : positive) (k : Z).

Definition plug1 (f : frame) (t : tree) : tree :=
  match f with
  | FrL p k r => Fork t p k r
  | FrR l p k => Fork l p k t
  end.

(** A context is the list of frames from a node up to the root. *)
Fixpoint plug (c : list frame) (t : tree) : tree :=
  match c with
  | [] => t
  | f :: c' => plug c' (plug1 f t)
  end.

Definition fptr (f : frame) : positive :=
  match f with FrL p _ _ => p | FrR _ p _ => p end.

Definition cparent (c : list frame) : option ptr :=
  match c with [] => None | f :: _ => Some (fptr f) end.

(** Keys and addresses to the left and to the right of the hole. *)
Fixpoint ckeys_l (c : list frame) : list Z :=
  match c with
  | [] => []
  | FrL _ _ _ :: c' => ckeys_l c'
  | FrR l _ k :: c' => ckeys_l c' ++ keys l ++ [k]
  end.
Fixpoint ckeys_r (c : list frame) : list Z :=
  match c with
  | [] => []
  | FrL _ k r :: c' => k :: keys r ++ ckeys_r c'
  | FrR _ _ _ :: c' => ckeys_r c'
  end.
Fixpoint cptrs_l (c : list frame) : list positive :=
  match c with
  | [] => []
  | FrL _ _ _ :: c' => cptrs_l c'
  | FrR l p _ :: c' => cptrs_l c' ++ ptrs l ++ [p]
  end.
Fixpoint cptrs_r (c : list frame) : list positive :=
  match c with
  | [] => []
  | FrL p _ r :: c' => p :: ptrs r ++ cptrs_r c'
  | FrR _ _ _ :: c' => cptrs_r c'
  end.

(** [RepCtx H c hole]: the store holds the frames of [c] around a subtree
    whose root link is [hole]. *)
Fixpoint RepCtx (H : gmap positive Node) (c : list frame) (hole : option ptr) : Prop :=
  match c with
  | [] => True
  | FrL p k r :: c' =>
      cell H p k (cparent c') hole (rootp r) /\ Rep H (Some p) r /\
      RepCtx H c' (Some p)
  | FrR l p k :: c' =>
      cell H p k (cparent c') (rootp l) hole /\ Rep H (Some p) l /\
      RepCtx H c' (Some p)
  end.

(** What the store owes a map object: it holds a tree with distinct
    addresses hanging from the object's root, with increasing keys. *)
Definition tree_inv (H : gmap positive Node) (rt : option ptr) (t : tree) : Prop :=
  Rep H None t /\ rootp t = rt /\ NoDup (ptrs t) /\ increasing (keys t).

(** [H'] differs from [H] only inside [ps] and at addresses [H] did not
    use. *)
Definition frame_of (ps : list positive) (H H' : gmap positive Node) : Prop :=
  forall p, p ∉ ps -> is_Some (H !! p) -> H' !! p = H !! p.

(** Two lists of addresses without a common element. *)
Definition disj (l1 l2 : list positive) : Prop := forall x, x ∈ l1 -> x ∉ l2.

(** [owns tr w]: every object of [w] owns the tree [tr] gives it, and two
    objects share no node. *)
Definition owns (tr : positive -> tree)
    (w : gmap positive Node * gmap positive AVLmap) : Prop :=
  (forall a m, snd w !! a = Some m -> tree_inv (fst w) (root m) (tr a)) /\
  (forall a b ma mb, a <> b -> snd w !! a = Some ma -> snd w !! b = Some mb ->
                     disj (ptrs (tr a)) (ptrs (tr b))).


(** The tree of one object replaced. *)
Definition retree (tr : positive -> tree) (a : positive) (t : tree) :
    positive -> tree :=
  fun x => if decide (x = a) then t else tr x.

(** [links_kept H H']: every node of [H] is still there in [H'] with the
    same key and the same three links. *)
Definition links_kept (H H' : gmap positive Node) : Prop :=
  forall p n, H !! p = Some n ->
    exists n', H' !! p = Some n' /\ key n' = key n /\ parent n' = parent n /\
               left n' = left n /\ right n' = right n.

(** [tstep H t H' t']: the store went from holding [t] to holding [t']
    with the same addresses and the same keys in the same order, and
    nothing outside the tree was touched. *)
Definition tstep (H : gmap positive Node) (t : tree)
    (H' : gmap positive Node) (t' : tree) : Prop :=
  Rep H' None t' /\ ptrs t' = ptrs t /\ keys t' = keys t /\
  frame_of (ptrs t) H H'.

(** A cursor or a remembered node that still has a parent link. *)
Definition has_parent (H : gmap positive Node) (p : positive) : Prop :=
  exists n q, H !! p = Some n /\ parent n = Some q.

(** [fits k c]: the key [k] lies between the keys to the left and the
    keys to the right of the hole of [c]. *)
Definition fits (k : Z) (c : list frame) : Prop :=
  (forall x, x ∈ ckeys_l c -> x < k) /\ (forall y, y ∈ ckeys_r c -> k < y).

(** Programs that only read leave the store as it is. *)
Definition read_only {A} (m : M A) : Prop :=
  forall H a H', m H = Some (a, H') -> H' = H.

(** A link that is null or points into the list of addresses [ps]. *)
Definition inside (ps : list positive) (c : option ptr) : Prop :=
  match c with Some p => p ∈ ps | None => True end.

(** What takes the place of a node with at most one child. *)
Definition graft (l r : tree) : tree :=
  match l with Leaf => r | Fork _ _ _ _ => l end.

(** The pair a node holds, and the pairs of a tree from left to right. *)
Definition kv_of (H : gmap positive Node) (p : positive) : option (Z * Z) :=
  (fun n => (key n, value n)) <$> H !! p.

Definition node_pair (H : gmap positive Node) (p : positive) : Z * Z :=
  default (0, 0) (kv_of H p).

Definition contents (H : gmap positive Node) (t : tree) : list (Z * Z) :=
  map (node_pair H) (ptrs t).

(** [kv_kept H H']: every node of [H] is still there in [H'] and holds the
    same key and value. *)
Definition kv_kept (H H' : gmap positive Node) : Prop :=
  forall p n, H !! p = Some n ->
    exists n', H' !! p = Some n' /\ key n' = key n /\ value n' = value n.

(** [kv_same H H']: the two stores have the same nodes, with the same keys
    and values. *)
Definition kv_same (H H' : gmap positive Node) : Prop :=
  forall p, kv_of H' p = kv_of H p.

(** Programs that rewrite no key and no value, take no node and release
    none. *)
Definition keeps_kv {A} (m : M A) : Prop :=
  forall H a H', m H = Some (a, H') -> kv_same H H'.

(** [covered ps ps' H H']: a node in use in [H'] is one of [ps'], or it was
    in use in [H] and is none of [ps]. *)
Definition covered (ps ps' : list positive) (H H' : gmap positive Node) : Prop :=
  forall q, is_Some (H' !! q) -> q ∈ ps' \/ (is_Some (H !! q) /\ q ∉ ps).

(** The addresses of a list of trees, and [n] times [--size_]. *)
Definition forest_ptrs (ts : list tree) : list positive := concat (map ptrs ts).

Definition countdown (n : nat) (sz : Z) : Z :=
  Nat.iter n (fun s => to_unsigned (s - 1)) sz.

(** The keys of a list of trees, and [n] times [++size_]. *)
Definition forest_keys (ts : list tree) : list Z := concat (map keys ts).

Definition countup (n : nat) (sz : Z) : Z :=
  Nat.iter n (fun s => to_unsigned (s + 1)) sz.

(** [covers tr w]: every node in use in the store of [w] is a node of the
    tree of one of its objects. *)
Definition covers (tr : positive -> tree)
    (w : gmap positive Node * gmap positive AVLmap) : Prop :=
  forall q, is_Some (fst w !! q) ->
    exists a m, snd w !! a = Some m /\ q ∈ ptrs (tr a).

(** [sized tr w]: the counter of every object is the number of nodes of
    its tree, as an [unsigned int]. *)
Definition sized (tr : positive -> tree)
    (w : gmap positive Node * gmap positive AVLmap) : Prop :=
  forall a m, snd w !! a = Some m ->
    size_ m = to_unsigned (Z.of_nat (length (ptrs (tr a)))).

(** [apart tr tr' ts w w']: the objects other than those of [ts] are in
    [w'] what they were in [w], with the same tree, whose nodes hold what
    they held. *)
Definition apart (tr tr' : positive -> tree) (ts : list positive)
    (w w' : gmap positive Node * gmap positive AVLmap) : Prop :=
  forall b mb, b ∉ ts -> snd w !! b = Some mb ->
    snd w' !! b = Some mb /\ tr' b = tr b /\
    forall q, q ∈ ptrs (tr b) -> fst w' !! q = fst w !! q.

(** The invariant of the whole world. *)
Definition world_inv (w : gmap positive Node * gmap positive AVLmap) : Prop :=
  exists tr : positive -> tree, owns tr w /\ covers tr w.

(** * Reasoning about programs in the store monad *)

Lemma bind_Some {A B} (m : M A) (k : A -> M B) H b H' :
  bind m k H = Some (b, H') <->
  exists a H1, m H = Some (a, H1) /\ k a H1 = Some (b, H').
Proof.
  unfold bind. split.
  - destruct (m H) as [[a H1]|]; [|discriminate]. eauto.
  - intros (a & H1 & -> & Hk). exact Hk.
Qed.

Lemma get_Some p H n H' :
  get p H = Some (n, H') <-> H !! p = Some n /\ H' = H.
Proof.
  unfold get. destruct (H !! p); split; intros Hx.
  - by inversion Hx.
  - destruct Hx as [Hx ->]. by inversion Hx.
  - discriminate.
  - destruct Hx; discriminate.
Qed.

Lemma upd_Some p f H u H' :
  upd p f H = Some (u, H') <-> exists n, H !! p = Some n /\ H' = <[p := f n]> H.
Proof.
  unfold upd. destruct (H !! p) as [n|]; split; intros Hx.
  - inversion Hx. eauto.
  - destruct Hx as (n' & Hn & ->). inversion Hn. by destruct u.
  - discriminate.
  - destruct Hx as (? & ? & ?). discriminate.
Qed.

Lemma free_Some p H u H' :
  free p H = Some (u, H') <-> is_Some (H !! p) /\ H' = delete p H.
Proof.
  unfold free. destruct (H !! p) as [n|]; split; intros Hx.
  - inversion Hx. eauto.
  - destruct Hx as (_ & ->). by destruct u.
  - discriminate.
  - destruct Hx as ([? ?] & ?). discriminate.
Qed.

Lemma ret_Some {A} (a b : A) H H' :
  ret a H = Some (b, H') <-> b = a /\ H' = H.
Proof. unfold ret. split; [intros Hx; by inversion Hx | intros [-> ->]; done]. Qed.

Lemma fault_Some {A} H (r : A * gmap positive Node) : @fault A H = Some r <-> False.
Proof. unfold fault. split; [discriminate | tauto]. Qed.

(** Take apart a hypothesis saying that a monadic program succeeded. *)
Ltac minv1 :=
  match goal with
  | Hx : bind _ _ _ = Some (_, _) |- _ =>
      apply bind_Some in Hx; destruct Hx as (? & ? & ? & ?)
  | Hx : get _ _ = Some (_, _) |- _ =>
      apply get_Some in Hx; destruct Hx as [? ?]; subst
  | Hx : upd _ _ _ = Some (_, _) |- _ =>
      apply upd_Some in Hx; destruct Hx as (? & ? & ?); subst
  | Hx : free _ _ = Some (_, _) |- _ =>
      apply free_Some in Hx; destruct Hx as [? ?]; subst
  | Hx : ret _ _ = Some (_, _) |- _ =>
      apply ret_Some in Hx; destruct Hx as [? ?]; subst
  | Hx : fault _ = Some _ |- _ =>
      apply fault_Some in Hx; destruct Hx
  | Hx : when ?b _ _ = Some (_, _) |- _ =>
      unfold when in Hx; destruct b eqn:?
  end.
Ltac minv := repeat minv1.

(** ** Programs that only read *)

Lemma read_only_get p : read_only (get p).
Proof. intros H a H' Hx. by minv. Qed.

Lemma read_only_ret {A} (a : A) : read_only (ret a).
Proof. intros H b H' Hx. by minv. Qed.

Lemma read_only_bind {A B} (m : M A) (k : A -> M B) :
  read_only m -> (forall a, read_only (k a)) -> read_only (bind m k).
Proof.
  intros Hm Hk H b H' Hx. minv.
  match goal with Hy : m _ = _ |- _ => apply Hm in Hy; subst end.
  by eapply Hk.
Qed.

Lemma read_only_fault {A} : read_only (@fault A).
Proof. intros H a H' Hx. by minv. Qed.

Lemma read_only_first fuel p : read_only (first fuel p).
Proof.
  revert p. induction fuel as [|fuel IH]; intros p; simpl.
  - apply read_only_fault.
  - apply read_only_bind; [apply read_only_get|].
    intros n. destruct (left n); [apply IH | apply read_only_ret].
Qed.

Lemma read_only_last fuel p : read_only (last fuel p).
Proof.
  revert p. induction fuel as [|fuel IH]; intros p; simpl.
  - apply read_only_fault.
  - apply read_only_bind; [apply read_only_get|].
    intros n. destruct (right n); [apply IH | apply read_only_ret].
Qed.

Lemma read_only_is_left_child p : read_only (is_left_child p).
Proof.
  unfold is_left_child. apply read_only_bind; [apply read_only_get|].
  intros n. destruct (parent n); [|apply read_only_ret].
  apply read_only_bind; [apply read_only_get|]. intros; apply read_only_ret.
Qed.

Lemma read_only_is_right_child p : read_only (is_right_child p).
Proof.
  unfold is_right_child. apply read_only_bind; [apply read_only_get|].
  intros n. destruct (parent n); [|apply read_only_ret].
  apply read_only_bind; [apply read_only_get|]. intros; apply read_only_ret.
Qed.

Lemma read_only_up_left fuel s : read_only (up_left fuel s).
Proof.
  revert s. induction fuel as [|fuel IH]; intros s; simpl.
  - apply read_only_fault.
  - destruct s as [s|]; [|apply read_only_ret].
    apply read_only_bind; [apply read_only_is_left_child|]. intros b.
    apply read_only_bind; [apply read_only_get|]. intros n.
    destruct b; [apply read_only_ret | apply IH].
Qed.

Lemma read_only_increment fuel p : read_only (increment fuel p).
Proof.
  unfold increment. apply read_only_bind; [apply read_only_get|].
  intros n. destruct (right n).
  - apply read_only_bind; [apply read_only_first|]. intros; apply read_only_ret.
  - apply read_only_up_left.
Qed.

Lemma read_only_child_height c : read_only (child_height c).
Proof.
  destruct c; simpl; [|apply read_only_ret].
  apply read_only_bind; [apply read_only_get|]. intros; apply read_only_ret.
Qed.

Lemma read_only_descend fuel k p d : read_only (descend fuel k p d).
Proof.
  revert p d. induction fuel as [|fuel IH]; intros p d; simpl.
  - apply read_only_fault.
  - apply read_only_bind; [apply read_only_get|]. intros n.
    destruct (k =? key n); [apply read_only_ret|].
    destruct (k <? key n).
    + destruct (left n); [apply IH | apply read_only_ret].
    + destruct (right n); [apply IH | apply read_only_ret].
Qed.

Lemma read_only_search_node fuel m k : read_only (search_node fuel m k).
Proof.
  unfold search_node. destruct (root m); [|apply read_only_ret].
  apply read_only_bind; [apply read_only_descend|].
  intros [[[] ?] ?]; apply read_only_ret.
Qed.

Lemma read_only_find fuel m k : read_only (find fuel m k).
Proof.
  unfold find. apply read_only_bind; [apply read_only_search_node|].
  intros [[? ?]|]; apply read_only_ret.
Qed.

(** * Cursor stepping against the specification's successor *)

Lemma first_leftmost fuel r H f H' :
  first fuel r H = Some (f, H') -> leftmost H r f.
Proof.
  revert r. induction fuel as [|fuel IH]; intros r Hx; simpl in Hx.
  - by minv.
  - minv. destruct (left _) as [l|] eqn:Hl.
    + eapply leftmost_down; eauto.
    + minv. eapply leftmost_here; eauto.
Qed.

Lemma leftmost_first H r f :
  leftmost H r f ->
  exists fuel0, forall fuel, (fuel0 <= fuel)%nat -> first fuel r H = Some (f, H).
Proof.
  induction 1 as [p n Hp Hl | p n l f Hp Hl _ [fuel0 IH]].
  - exists 1%nat. intros [|fuel] Hle; [lia|]. simpl.
    unfold bind, get. rewrite Hp, Hl. reflexivity.
  - exists (S fuel0). intros [|fuel] Hle; [lia|]. simpl.
    unfold bind, get. rewrite Hp, Hl. apply IH. lia.
Qed.

Lemma last_rightmost fuel r H f H' :
  last fuel r H = Some (f, H') -> rightmost H r f.
Proof.
  revert r. induction fuel as [|fuel IH]; intros r Hx; simpl in Hx.
  - by minv.
  - minv. destruct (right _) as [l|] eqn:Hl.
    + eapply rightmost_down; eauto.
    + minv. eapply rightmost_here; eauto.
Qed.

Lemma rightmost_last H r f :
  rightmost H r f ->
  exists fuel0, forall fuel, (fuel0 <= fuel)%nat -> last fuel r H = Some (f, H).
Proof.
  induction 1 as [p n Hp Hl | p n l f Hp Hl _ [fuel0 IH]].
  - exists 1%nat. intros [|fuel] Hle; [lia|]. simpl.
    unfold bind, get. rewrite Hp, Hl. reflexivity.
  - exists (S fuel0). intros [|fuel] Hle; [lia|]. simpl.
    unfold bind, get. rewrite Hp, Hl. apply IH. lia.
Qed.

Lemma is_left_child_eq s H n :
  H !! s = Some n ->
  is_left_child s H =
  match parent n with
  | Some q => match H !! q with
              | Some nq => Some (bool_decide (left nq = Some s), H)
              | None => None
              end
  | None => Some (false, H)
  end.
Proof.
  intros Hs. unfold is_left_child, bind, get. rewrite Hs.
  destruct (parent n) as [q|]; [|reflexivity].
  destruct (H !! q); reflexivity.
Qed.

Lemma is_right_child_eq s H n :
  H !! s = Some n ->
  is_right_child s H =
  match parent n with
  | Some q => match H !! q with
              | Some nq => Some (bool_decide (right nq = Some s), H)
              | None => None
              end
  | None => Some (false, H)
  end.
Proof.
  intros Hs. unfold is_right_child, bind, get. rewrite Hs.
  destruct (parent n) as [q|]; [|reflexivity].
  destruct (H !! q); reflexivity.
Qed.

Lemma up_left_left_ancestor fuel s H a H' :
  up_left fuel (Some s) H = Some (a, H') -> left_ancestor H s a.
Proof.
  revert s. induction fuel as [|fuel IH]; intros s Hx; simpl in Hx.
  - by minv.
  - apply bind_Some in Hx. destruct Hx as (b & H1 & Hb & Hx).
    pose proof (read_only_is_left_child _ _ _ _ Hb) as ->.
    apply bind_Some in Hx. destruct Hx as (n & H1 & Hn & Hx).
    apply get_Some in Hn. destruct Hn as [Hs ->].
    rewrite (is_left_child_eq _ _ _ Hs) in Hb.
    destruct (parent n) as [q|] eqn:Hq.
    + destruct (H !! q) as [nq|] eqn:Hnq; [|discriminate].
      inversion Hb; subst b; clear Hb.
      case_bool_decide.
      * minv. eapply left_ancestor_here; eauto.
      * eapply left_ancestor_up; eauto.
    + inversion Hb; subst b; clear Hb.
      destruct fuel; simpl in Hx; minv.
      eapply left_ancestor_none; eauto.
Qed.

Lemma left_ancestor_up_left H s a :
  left_ancestor H s a ->
  exists fuel0, forall fuel, (fuel0 <= fuel)%nat ->
    up_left fuel (Some s) H = Some (a, H).
Proof.
  induction 1 as [s n Hs Hp | s n q nq Hs Hp Hq Hl
                 | s n q nq a Hs Hp Hq Hl _ [fuel0 IH]].
  - exists 2%nat. intros [|[|fuel]] Hle; [lia|lia|]. simpl.
    unfold bind at 1. rewrite (is_left_child_eq _ _ _ Hs), Hp.
    unfold bind, get. rewrite Hs, Hp. reflexivity.
  - exists 1%nat. intros [|fuel] Hle; [lia|]. simpl.
    unfold bind at 1. rewrite (is_left_child_eq _ _ _ Hs), Hp, Hq.
    rewrite bool_decide_true by done.
    unfold bind, get. rewrite Hs, Hp. reflexivity.
  - exists (S fuel0). intros [|fuel] Hle; [lia|]. simpl.
    unfold bind at 1. rewrite (is_left_child_eq _ _ _ Hs), Hp, Hq.
    rewrite bool_decide_false by done.
    unfold bind, get. rewrite Hs, Hp. apply IH. lia.
Qed.

Lemma increment_successor fuel this H a H' :
  increment fuel this H = Some (a, H') -> successor H this a.
Proof.
  unfold increment. intros Hx. minv.
  destruct (right _) as [r|] eqn:Hr.
  - minv. eapply successor_right; eauto using first_leftmost.
  - eapply successor_up; eauto using up_left_left_ancestor.
Qed.

Lemma successor_increment H this a :
  successor H this a ->
  exists fuel0, forall fuel, (fuel0 <= fuel)%nat ->
    increment fuel this H = Some (a, H).
Proof.
  destruct 1 as [this n r f Hn Hr Hf | this n a Hn Hr Ha].
  - destruct (leftmost_first _ _ _ Hf) as [fuel0 Hfuel].
    exists fuel0. intros fuel Hle. unfold increment, bind, get.
    rewrite Hn, Hr, (Hfuel fuel Hle). reflexivity.
  - destruct (left_ancestor_up_left _ _ _ Ha) as [fuel0 Hfuel].
    exists fuel0. intros fuel Hle. unfold increment, bind, get.
    rewrite Hn, Hr. by apply Hfuel.
Qed.

(** * Local facts about [erase] *)

Lemma heights_kept_refl H : heights_kept H H.
Proof. intros p n Hp. eauto. Qed.

Lemma heights_kept_trans H1 H2 H3 :
  heights_kept H1 H2 -> heights_kept H2 H3 -> heights_kept H1 H3.
Proof.
  intros H12 H23 p n3 Hp. destruct (H23 _ _ Hp) as (n2 & Hn2 & E2).
  destruct (H12 _ _ Hn2) as (n1 & Hn1 & E1). exists n1. split; [done|congruence].
Qed.

Lemma heights_kept_insert H p n f :
  H !! p = Some n -> height (f n) = height n -> heights_kept H (<[p := f n]> H).
Proof.
  intros Hp Hf q n' Hq. destruct (decide (p = q)) as [->|Hne].
  - rewrite lookup_insert_eq in Hq. inversion Hq; subst. eauto.
  - rewrite lookup_insert_ne in Hq by done. eauto.
Qed.

Lemma heights_kept_delete H p : heights_kept H (delete p H).
Proof.
  intros q n' Hq. destruct (decide (p = q)) as [->|Hne].
  - by rewrite lookup_delete_eq in Hq.
  - rewrite lookup_delete_ne in Hq by done. eauto.
Qed.

Ltac heights_step :=
  match goal with
  | |- heights_kept ?H ?H => apply heights_kept_refl
  | |- heights_kept ?H (delete _ ?H') =>
      apply heights_kept_trans with H'; [|apply heights_kept_delete]
  | Hn : ?H' !! ?p = Some ?n |- heights_kept ?H (<[?p := ?f ?n]> ?H') =>
      apply heights_kept_trans with H';
      [|apply (heights_kept_insert H' p n f Hn); reflexivity]
  end.

Lemma erase_heights_kept fuel m it H m' H' :
  erase fuel m it H = Some (m', H') -> heights_kept H H'.
Proof.
  revert m it H m' H'. induction fuel as [|fuel IH]; intros m it H m' H' Hx.
  - simpl in Hx. by minv.
  - simpl in Hx. destruct it as [node|]; [|minv; apply heights_kept_refl].
    apply bind_Some in Hx. destruct Hx as (n & H1 & Hn & Hx).
    apply get_Some in Hn. destruct Hn as [Hn ->].
    destruct (negb (has_children n)).
    { apply bind_Some in Hx. destruct Hx as (isl & H1 & Hl & Hx).
      apply read_only_is_left_child in Hl. subst H1.
      apply bind_Some in Hx. destruct Hx as ([] & H1 & Hl & Hx).
      apply bind_Some in Hx. destruct Hx as (isr & H2 & Hr & Hx).
      apply read_only_is_right_child in Hr. subst H2.
      apply bind_Some in Hx. destruct Hx as ([] & H2 & Hr & Hx).
      assert (heights_kept H H1) as K1.
      { destruct (parent n); minv; repeat heights_step. }
      assert (heights_kept H1 H2) as K2.
      { destruct (parent n); minv; repeat heights_step. }
      minv. repeat heights_step. eapply heights_kept_trans; eauto. }
    destruct (get_only_child n) as [only_child|].
    { apply bind_Some in Hx. destruct Hx as (isl & H1 & Hl & Hx).
      apply read_only_is_left_child in Hl. subst H1.
      apply bind_Some in Hx. destruct Hx as ([] & H1 & Hl & Hx).
      apply bind_Some in Hx. destruct Hx as (isr & H2 & Hr & Hx).
      apply read_only_is_right_child in Hr. subst H2.
      apply bind_Some in Hx. destruct Hx as ([] & H2 & Hr & Hx).
      assert (heights_kept H H1) as K1.
      { destruct (parent n); minv; repeat heights_step. }
      assert (heights_kept H1 H2) as K2.
      { destruct (parent n); minv; repeat heights_step. }
      minv. repeat heights_step. eapply heights_kept_trans; eauto. }
    destruct (left n) as [l|]; [|by minv].
    apply bind_Some in Hx. destruct Hx as (predecessor & H1 & Hl & Hx).
    apply read_only_last in Hl. subst H1.
    apply bind_Some in Hx. destruct Hx as (np & H1 & Hp & Hx).
    apply get_Some in Hp. destruct Hp as [Hp ->].
    apply bind_Some in Hx. destruct Hx as ([] & H1 & Hu & Hx).
    apply upd_Some in Hu. destruct Hu as (n1 & Hn1 & ->).
    apply bind_Some in Hx. destruct Hx as (np2 & H1 & Hp2 & Hx).
    apply get_Some in Hp2. destruct Hp2 as [Hp2 ->].
    apply bind_Some in Hx. destruct Hx as ([] & H1 & Hu & Hx).
    apply upd_Some in Hu. destruct Hu as (n2 & Hn2 & ->).
    apply IH in Hx.
    eapply heights_kept_trans; [|exact Hx].
    repeat heights_step.
Qed.

(** The two-children case: the node takes over the key and value of the
    maximum of its left subtree, and that node is erased instead. *)
Lemma erase_two_children fuel m H node n l r predecessor np :
  H !! node = Some n -> left n = Some l -> right n = Some r ->
  last fuel l H = Some (predecessor, H) -> H !! predecessor = Some np ->
  erase (S fuel) m (Some node) H =
  erase fuel m (Some predecessor)
        (<[node := set_value (value np) (set_key (key np) n)]> H).
Proof.
  intros Hn Hl Hr Hlast Hp. simpl.
  unfold bind at 1. unfold get at 1. rewrite Hn.
  unfold has_children, get_only_child. rewrite Hl, Hr. simpl.
  unfold bind at 1. rewrite Hlast.
  unfold bind at 1. unfold get at 1. rewrite Hp.
  unfold bind at 1. unfold upd at 1. rewrite Hn.
  unfold bind at 1. unfold get at 1.
  destruct (decide (node = predecessor)) as [->|Hne].
  - rewrite lookup_insert_eq. unfold bind at 1. unfold upd at 1.
    rewrite lookup_insert_eq, insert_insert_eq.
    assert (np = n) as -> by congruence. reflexivity.
  - rewrite lookup_insert_ne, Hp by done. unfold bind at 1. unfold upd at 1.
    rewrite lookup_insert_eq, insert_insert_eq. reflexivity.
Qed.

(** The height refresh of [insert_balance] on a node with a child. *)
Lemma update_height_spec this H n u H' :
  H !! this = Some n -> has_children n = true ->
  update_height this H = Some (u, H') ->
  exists hl hr,
    child_height (left n) H = Some (hl, H) /\
    child_height (right n) H = Some (hr, H) /\
    H' = <[this := set_height (to_size_t (1 + Z.max hl hr)) n]> H.
Proof.
  intros Hn Hc Hx. unfold update_height in Hx.
  apply bind_Some in Hx. destruct Hx as (n' & H1 & Hg & Hx).
  apply get_Some in Hg. destruct Hg as [Hg ->].
  assert (n' = n) as -> by congruence. rewrite Hc in Hx.
  apply bind_Some in Hx. destruct Hx as (hl & H1 & Hhl & Hx).
  pose proof (read_only_child_height _ _ _ _ Hhl) as ->.
  apply bind_Some in Hx. destruct Hx as (hr & H1 & Hhr & Hx).
  pose proof (read_only_child_height _ _ _ _ Hhr) as ->.
  exists hl, hr. split; [done|]. split; [done|].
  destruct (hr + 1 <? hl + 1) eqn:Hcmp;
    apply upd_Some in Hx; destruct Hx as (n' & Hn' & ->);
    assert (n' = n) as -> by congruence; do 2 f_equal.
  - apply Z.ltb_lt in Hcmp. f_equal. lia.
  - apply Z.ltb_ge in Hcmp. f_equal. lia.
Qed.

(** * Trees represented in the store *)

Lemma cell_lookup H p k par lp rp :
  cell H p k par lp rp -> is_Some (H !! p).
Proof. intros (n & Hn & _). eauto. Qed.

Lemma cell_agree H H' p k par lp rp :
  H' !! p = H !! p -> cell H p k par lp rp -> cell H' p k par lp rp.
Proof. intros E (n & Hn & Hr). exists n. by rewrite E. Qed.

Lemma cell_insert H p n k par lp rp :
  key n = k -> parent n = par -> left n = lp -> right n = rp ->
  cell (<[p := n]> H) p k par lp rp.
Proof. intros. exists n. by rewrite lookup_insert_eq. Qed.

Lemma cell_fun H p k par lp rp k' par' lp' rp' :
  cell H p k par lp rp -> cell H p k' par' lp' rp' ->
  k = k' /\ par = par' /\ lp = lp' /\ rp = rp'.
Proof.
  intros (n & Hn & <- & <- & <- & <-) (n' & Hn' & <- & <- & <- & <-).
  assert (n = n') as -> by congruence. done.
Qed.

Lemma Rep_agree H H' par t :
  (forall p, p ∈ ptrs t -> H' !! p = H !! p) -> Rep H par t -> Rep H' par t.
Proof.
  revert par. induction t as [|l IHl p k r IHr]; intros par Hag; simpl; [done|].
  intros (Hc & Hl & Hr). split; [|split].
  - eapply cell_agree; [|exact Hc]. apply Hag. simpl. set_solver.
  - apply IHl; [|done]. intros q Hq. apply Hag. simpl. set_solver.
  - apply IHr; [|done]. intros q Hq. apply Hag. simpl. set_solver.
Qed.

Lemma Rep_dom H par t p : Rep H par t -> p ∈ ptrs t -> is_Some (H !! p).
Proof.
  revert par. induction t as [|l IHl q k r IHr]; intros par; simpl.
  - intros _ Hp. by apply elem_of_nil in Hp.
  - intros (Hc & Hl & Hr) Hp.
    apply elem_of_app in Hp. destruct Hp as [Hp|Hp]; [by eapply IHl|].
    apply elem_of_cons in Hp. destruct Hp as [->|Hp]; [|by eapply IHr].
    by eapply cell_lookup.
Qed.

Lemma Rep_insert_ne H par t p n :
  p ∉ ptrs t -> Rep H par t -> Rep (<[p := n]> H) par t.
Proof.
  intros Hp. apply Rep_agree. intros q Hq.
  apply lookup_insert_ne. intros ->. done.
Qed.

Lemma Rep_delete_ne H par t p :
  p ∉ ptrs t -> Rep H par t -> Rep (delete p H) par t.
Proof.
  intros Hp. apply Rep_agree. intros q Hq.
  apply lookup_delete_ne. intros ->. done.
Qed.

(** Hanging a represented tree under another parent link only rewrites
    the parent field of its root. *)
Lemma Rep_reparent H par par' l p k r n :
  H !! p = Some n -> p ∉ ptrs l -> p ∉ ptrs r ->
  Rep H par (Fork l p k r) ->
  Rep (<[p := set_parent par' n]> H) par' (Fork l p k r).
Proof.
  intros Hn Hl Hr ((n' & Hn' & Hk & _ & Hlp & Hrp) & Rl & Rr).
  assert (n' = n) as -> by congruence. simpl. split; [|split].
  - by apply cell_insert.
  - by apply Rep_insert_ne.
  - by apply Rep_insert_ne.
Qed.

Lemma rootp_ptrs t p : rootp t = Some p -> p ∈ ptrs t.
Proof. destruct t; simpl; [discriminate|]. intros [= ->]. set_solver. Qed.

Lemma rootp_None t : rootp t = None -> t = Leaf.
Proof. by destruct t. Qed.

(** ** Contexts *)

Lemma ptrs_plug c t : ptrs (plug c t) = cptrs_l c ++ ptrs t ++ cptrs_r c.
Proof.
  revert t. induction c as [|[p k r|l p k] c IH]; intros t; simpl.
  - by rewrite app_nil_r.
  - rewrite IH. simpl. by rewrite <- !app_assoc.
  - rewrite IH. simpl. by rewrite <- !app_assoc.
Qed.

Lemma keys_plug c t : keys (plug c t) = ckeys_l c ++ keys t ++ ckeys_r c.
Proof.
  revert t. induction c as [|[p k r|l p k] c IH]; intros t; simpl.
  - by rewrite app_nil_r.
  - rewrite IH. simpl. by rewrite <- !app_assoc.
  - rewrite IH. simpl. by rewrite <- !app_assoc.
Qed.

Lemma rootp_plug1 f t : rootp (plug1 f t) = Some (fptr f).
Proof. by destruct f. Qed.

Lemma rootp_plug_cons f c t : rootp (plug (f :: c) t) = rootp (plug c (Fork Leaf (fptr f) 0 Leaf)).
Proof.
  simpl. revert f t. induction c as [|g c IH]; intros f t; simpl.
  - by destruct f.
  - rewrite (IH g (plug1 f t)). rewrite (IH g (Fork Leaf (fptr f) 0 Leaf)). done.
Qed.

Lemma rootp_plug_same c t t' :
  c <> [] -> rootp (plug c t) = rootp (plug c t').
Proof.
  destruct c as [|f c]; [done|]. intros _.
  by rewrite (rootp_plug_cons f c t), (rootp_plug_cons f c t').
Qed.

Lemma Rep_plug1 H par f t :
  Rep H par (plug1 f t) <->
  Rep H (Some (fptr f)) t /\
  match f with
  | FrL p k r => cell H p k par (rootp t) (rootp r) /\ Rep H (Some p) r
  | FrR l p k => cell H p k par (rootp l) (rootp t) /\ Rep H (Some p) l
  end.
Proof. destruct f; simpl; tauto. Qed.

Lemma Rep_plug H c t :
  Rep H None (plug c t) <-> Rep H (cparent c) t /\ RepCtx H c (rootp t).
Proof.
  revert t. induction c as [|f c IH]; intros t; simpl.
  - tauto.
  - rewrite IH, Rep_plug1, rootp_plug1. destruct f; simpl; tauto.
Qed.

Lemma RepCtx_agree H H' c hole :
  (forall p, p ∈ cptrs_l c ++ cptrs_r c -> H' !! p = H !! p) ->
  RepCtx H c hole -> RepCtx H' c hole.
Proof.
  revert hole. induction c as [|[p k r|l p k] c IH]; intros hole Hag; simpl; [done| |].
  - intros (Hc & Hr & Hctx). split; [|split].
    + eapply cell_agree; [|exact Hc]. apply Hag. simpl. set_solver.
    + eapply Rep_agree; [|exact Hr]. intros q Hq. apply Hag. simpl. set_solver.
    + apply IH; [|done]. intros q Hq. apply Hag. simpl. set_solver.
  - intros (Hc & Hr & Hctx). split; [|split].
    + eapply cell_agree; [|exact Hc]. apply Hag. simpl. set_solver.
    + eapply Rep_agree; [|exact Hr]. intros q Hq. apply Hag. simpl. set_solver.
    + apply IH; [|done]. intros q Hq. apply Hag. simpl. set_solver.
Qed.

(** Every node of a tree sits at the focus of some context. *)
Lemma focus t p :
  p ∈ ptrs t -> exists c l k r, t = plug c (Fork l p k r).
Proof.
  induction t as [|l IHl q k r IHr]; simpl; intros Hp.
  - by apply elem_of_nil in Hp.
  - apply elem_of_app in Hp. destruct Hp as [Hp|Hp].
    + destruct (IHl Hp) as (c & l' & k' & r' & ->).
      exists (c ++ [FrL q k r]), l', k', r'.
      clear. generalize (Fork l' p k' r'). induction c as [|f c IH]; intros t; simpl; [done|].
      apply IH.
    + apply elem_of_cons in Hp. destruct Hp as [->|Hp].
      * by exists [], l, k, r.
      * destruct (IHr Hp) as (c & l' & k' & r' & ->).
        exists (c ++ [FrR l q k]), l', k', r'.
        clear. generalize (Fork l' p k' r'). induction c as [|f c IH]; intros t; simpl; [done|].
        apply IH.
Qed.

(** ** Increasing key lists *)

Lemma increasing_app l1 l2 :
  increasing (l1 ++ l2) <->
  increasing l1 /\ increasing l2 /\ (forall x y, x ∈ l1 -> y ∈ l2 -> x < y).
Proof.
  induction l1 as [|a l1 IH]; simpl.
  - split; [intros; split_and!; [done|done|]|tauto].
    intros x y Hx. by apply elem_of_nil in Hx.
  - rewrite Forall_app, IH. rewrite !Forall_forall. split.
    + intros ((Ha1 & Ha2) & (I1 & I2 & I12)). split_and!; try done.
      intros x y Hx Hy. apply elem_of_cons in Hx. destruct Hx as [->|Hx]; eauto.
    + intros ((Ha1 & I1) & I2 & I12). split_and!; try done.
      * intros y Hy. apply I12; [set_solver|done].
      * intros x y Hx Hy. apply I12; [set_solver|done].
Qed.

Lemma increasing_remove l1 x l2 :
  increasing (l1 ++ x :: l2) -> increasing (l1 ++ l2).
Proof.
  rewrite !increasing_app. simpl. rewrite Forall_forall.
  intros (I1 & (Hx & I2) & I12). split_and!; try done.
  intros a b Ha Hb. apply I12; [done|set_solver].
Qed.

Lemma increasing_insert l1 x l2 :
  increasing (l1 ++ l2) ->
  (forall a, a ∈ l1 -> a < x) -> (forall b, b ∈ l2 -> x < b) ->
  increasing (l1 ++ x :: l2).
Proof.
  rewrite !increasing_app. simpl. rewrite Forall_forall.
  intros (I1 & I2 & I12) Hl Hr. split_and!; try done.
  intros a b Ha Hb. apply elem_of_cons in Hb. destruct Hb as [->|Hb]; eauto.
Qed.

(** ** Updates that leave keys and links alone *)

Lemma links_kept_refl H : links_kept H H.
Proof. intros p n Hp. exists n. done. Qed.

Lemma links_kept_trans H1 H2 H3 :
  links_kept H1 H2 -> links_kept H2 H3 -> links_kept H1 H3.
Proof.
  intros K12 K23 p n Hp.
  destruct (K12 _ _ Hp) as (n2 & Hp2 & E1 & E2 & E3 & E4).
  destruct (K23 _ _ Hp2) as (n3 & Hp3 & F1 & F2 & F3 & F4).
  exists n3. split; [done|]. split_and!; congruence.
Qed.

Lemma links_kept_insert H p n n' :
  H !! p = Some n -> key n' = key n -> parent n' = parent n ->
  left n' = left n -> right n' = right n ->
  links_kept H (<[p := n']> H).
Proof.
  intros Hp E1 E2 E3 E4 q m Hq. destruct (decide (p = q)) as [->|Hne].
  - exists n'. rewrite lookup_insert_eq. assert (m = n) as -> by congruence. done.
  - exists m. rewrite lookup_insert_ne by done. done.
Qed.

Lemma cell_links_kept H H' p k par lp rp :
  links_kept H H' -> cell H p k par lp rp -> cell H' p k par lp rp.
Proof.
  intros K (n & Hn & <- & <- & <- & <-).
  destruct (K _ _ Hn) as (n' & Hn' & ? & ? & ? & ?). exists n'. done.
Qed.

Lemma Rep_links_kept H H' par t :
  links_kept H H' -> Rep H par t -> Rep H' par t.
Proof.
  intros K. revert par. induction t as [|l IHl p k r IHr]; intros par; simpl; [done|].
  intros (Hc & Hl & Hr). split; [|split]; [by eapply cell_links_kept|by apply IHl|by apply IHr].
Qed.

(** ** What the store says about a node of a represented tree *)

Lemma Rep_cell H par t p :
  Rep H par t -> p ∈ ptrs t ->
  exists k pp lp rp,
    cell H p k pp lp rp /\ k ∈ keys t /\
    (forall l, lp = Some l -> l ∈ ptrs t) /\
    (forall r, rp = Some r -> r ∈ ptrs t) /\
    (pp = par \/ exists q, pp = Some q /\ q ∈ ptrs t).
Proof.
  revert par. induction t as [|l IHl q k r IHr]; intros par; simpl.
  - intros _ Hp. by apply elem_of_nil in Hp.
  - intros (Hc & Hl & Hr) Hp.
    apply elem_of_app in Hp. destruct Hp as [Hp|Hp].
    { destruct (IHl _ Hl Hp) as (k' & pp & lp & rp & Hc' & Hk & Hlp & Hrp & Hpp).
      exists k', pp, lp, rp. split; [done|]. split; [set_solver|].
      split; [intros x Hx; specialize (Hlp x Hx); set_solver|].
      split; [intros x Hx; specialize (Hrp x Hx); set_solver|].
      right. destruct Hpp as [->|(q' & -> & Hq')]; [exists q|exists q']; set_solver. }
    apply elem_of_cons in Hp. destruct Hp as [->|Hp].
    { exists k, par, (rootp l), (rootp r). split; [done|]. split; [set_solver|].
      split; [intros x Hx; apply rootp_ptrs in Hx; set_solver|].
      split; [intros x Hx; apply rootp_ptrs in Hx; set_solver|].
      by left. }
    destruct (IHr _ Hr Hp) as (k' & pp & lp & rp & Hc' & Hk & Hlp & Hrp & Hpp).
    exists k', pp, lp, rp. split; [done|]. split; [set_solver|].
    split; [intros x Hx; specialize (Hlp x Hx); set_solver|].
    split; [intros x Hx; specialize (Hrp x Hx); set_solver|].
    right. destruct Hpp as [->|(q' & -> & Hq')]; [exists q|exists q']; set_solver.
Qed.

Lemma Rep_key H par t p n :
  Rep H par t -> p ∈ ptrs t -> H !! p = Some n -> key n ∈ keys t.
Proof.
  intros HR Hp Hn.
  destruct (Rep_cell _ _ _ _ HR Hp) as (k & pp & lp & rp & (n' & Hn' & <- & _) & Hk & _).
  congruence.
Qed.

Lemma in_subtree_Rep H par t q :
  Rep H par t -> in_subtree H (rootp t) q -> q ∈ ptrs t.
Proof.
  intros HR Hin. remember (rootp t) as c eqn:Hc.
  revert par t HR Hc.
  induction Hin as [p n Hn | p n q Hn Hin IH | p n q Hn Hin IH];
    intros par t HR Hc; destruct t as [|l p' k r]; simpl in Hc; try discriminate;
    inversion Hc; subst p'; clear Hc; simpl.
  - set_solver.
  - destruct HR as ((n' & Hn' & _ & _ & Hl & _) & Rl & _).
    assert (n' = n) as -> by congruence.
    specialize (IH _ _ Rl Hl). set_solver.
  - destruct HR as ((n' & Hn' & _ & _ & _ & Hr) & _ & Rr).
    assert (n' = n) as -> by congruence.
    specialize (IH _ _ Rr Hr). set_solver.
Qed.

(** The ordering claimed of the store follows from the increasing keys of
    the tree it represents. *)
Lemma tree_inv_search_tree H rt t : tree_inv H rt t -> search_tree H rt.
Proof.
  intros (HR & <- & Hnd & Hinc) p n Hin Hn.
  pose proof (in_subtree_Rep _ _ _ _ HR Hin) as Hp.
  destruct (focus _ _ Hp) as (c & l & k & r & ->).
  apply Rep_plug in HR. destruct HR as [HR _]. simpl in HR.
  destruct HR as ((n' & Hn' & Hk & _ & Hl & Hr) & Rl & Rr).
  assert (n' = n) as -> by congruence.
  rewrite keys_plug in Hinc. simpl in Hinc.
  apply increasing_app in Hinc. destruct Hinc as (_ & Hinc & _).
  apply increasing_app in Hinc. destruct Hinc as (Hinc & _ & _).
  apply increasing_app in Hinc. destruct Hinc as (_ & Hinc & Hlt).
  simpl in Hinc. destruct Hinc as [Hgt _]. rewrite Forall_forall in Hgt.
  split.
  - intros q nq Hq Hnq. rewrite Hl in Hq.
    pose proof (in_subtree_Rep _ _ _ _ Rl Hq) as Hql.
    pose proof (Rep_key _ _ _ _ _ Rl Hql Hnq) as Hkq.
    rewrite Hk. apply Hlt; [done|set_solver].
  - intros q nq Hq Hnq. rewrite Hr in Hq.
    pose proof (in_subtree_Rep _ _ _ _ Rr Hq) as Hqr.
    pose proof (Rep_key _ _ _ _ _ Rr Hqr Hnq) as Hkq.
    rewrite Hk. by apply Hgt.
Qed.

Lemma Rep_in_subtree H par t p :
  Rep H par t -> p ∈ ptrs t -> in_subtree H (rootp t) p.
Proof.
  revert par. induction t as [|l IHl q k r IHr]; intros par; simpl.
  - intros _ Hp. by apply elem_of_nil in Hp.
  - intros ((n & Hn & Kn & Pn & Ln & Rn) & Rl & Rr) Hp.
    apply elem_of_app in Hp. destruct Hp as [Hp|Hp].
    + eapply in_subtree_left; [exact Hn|]. rewrite Ln. by eapply IHl.
    + apply elem_of_cons in Hp. destruct Hp as [->|Hp].
      * by eapply in_subtree_here.
      * eapply in_subtree_right; [exact Hn|]. rewrite Rn. by eapply IHr.
Qed.

Lemma tree_inv_in_subtree H rt t p :
  tree_inv H rt t -> (in_subtree H rt p <-> p ∈ ptrs t).
Proof.
  intros (HR & <- & _). split.
  - by apply (in_subtree_Rep H None).
  - by apply (Rep_in_subtree H None).
Qed.


(** ** Distinct addresses *)

Lemma NoDup_app_disj (l k : list positive) :
  NoDup (l ++ k) <-> NoDup l /\ NoDup k /\ disj l k.
Proof. rewrite NoDup_app. unfold disj. tauto. Qed.

Lemma NoDup_cons_disj (x : positive) l : NoDup (x :: l) <-> (x ∉ l) /\ NoDup l.
Proof. apply NoDup_cons. Qed.

Lemma NoDup_nil_disj : NoDup ([] : list positive) <-> True.
Proof. split; [done|]. intros _. apply NoDup_nil_2. Qed.

Lemma disj_app_l a b c : disj (a ++ b) c <-> disj a c /\ disj b c.
Proof.
  unfold disj. split.
  - intros Hd. split; intros x Hx; apply Hd; apply elem_of_app; auto.
  - intros [Ha Hb] x Hx. apply elem_of_app in Hx. destruct Hx; auto.
Qed.

Lemma disj_cons_l x a c : disj (x :: a) c <-> (x ∉ c) /\ disj a c.
Proof.
  unfold disj. split.
  - intros Hd. split; [apply Hd; left|]. intros y Hy. apply Hd. by right.
  - intros [Hx Ha] y Hy. apply elem_of_cons in Hy. destruct Hy as [->|Hy]; auto.
Qed.

Lemma disj_nil_l c : disj [] c <-> True.
Proof. unfold disj. split; [done|]. intros _ x Hx. by apply elem_of_nil in Hx. Qed.

Lemma disj_app_r a b c : disj a (b ++ c) <-> disj a b /\ disj a c.
Proof.
  unfold disj. split.
  - intros Hd. split; intros x Hx Hx'; apply (Hd x Hx); apply elem_of_app; auto.
  - intros [Hb Hc] x Hx Hx'. apply elem_of_app in Hx'. destruct Hx'; [by eapply Hb|by eapply Hc].
Qed.

Lemma disj_cons_r a x c : disj a (x :: c) <-> (x ∉ a) /\ disj a c.
Proof.
  unfold disj. split.
  - intros Hd. split; [intros Hx; apply (Hd x Hx); left|].
    intros y Hy Hy'. apply (Hd y Hy). by right.
  - intros [Hx Hc] y Hy Hy'. apply elem_of_cons in Hy'.
    destruct Hy' as [->|Hy']; [done|by eapply Hc].
Qed.

Lemma disj_nil_r a : disj a [] <-> True.
Proof. unfold disj. split; [done|]. intros _ x _ Hx. by apply elem_of_nil in Hx. Qed.

Lemma disj_sym a b : disj a b -> disj b a.
Proof. unfold disj. intros Hd x Hx Hx'. by eapply Hd. Qed.

Lemma not_in_app (x : positive) (a b : list positive) : x ∉ a ++ b <-> (x ∉ a) /\ (x ∉ b).
Proof. rewrite elem_of_app. tauto. Qed.

Lemma not_in_cons (x y : positive) (a : list positive) : x ∉ y :: a <-> x <> y /\ (x ∉ a).
Proof. rewrite elem_of_cons. tauto. Qed.

Lemma not_in_nil (x : positive) : x ∉ ([] : list positive) <-> True.
Proof. split; [done|]. intros _ Hx. by apply elem_of_nil in Hx. Qed.

Lemma disj_not_in a b x : disj a b -> x ∈ a -> x ∉ b.
Proof. intros Hd. apply Hd. Qed.

Lemma disj_not_in' a b x : disj a b -> x ∈ b -> x ∉ a.
Proof. intros Hd Hx Hx'. by eapply Hd. Qed.

Lemma in_not_in_ne (x y : positive) (l : list positive) : x ∈ l -> y ∉ l -> x <> y.
Proof. intros Hx Hy ->. done. Qed.

Lemma disj_ne a b (x y : positive) : disj a b -> x ∈ a -> y ∈ b -> x <> y.
Proof. intros Hd Hx Hy ->. by eapply Hd. Qed.

Create Rewrite HintDb nd.
#[export] Hint Rewrite NoDup_app_disj NoDup_cons_disj NoDup_nil_disj
  disj_app_l disj_cons_l disj_nil_l disj_app_r disj_cons_r disj_nil_r
  not_in_app not_in_cons not_in_nil : nd.

(** Break every fact about distinct addresses into atoms. *)
Ltac nd_norm :=
  autorewrite with nd in *;
  repeat match goal with
  | Hx : _ /\ _ |- _ => destruct Hx
  | Hx : True |- _ => clear Hx
  end.

Ltac nd_atom :=
  match goal with
  | |- True => exact I
  | |- ?x <> ?y => assumption || (apply not_eq_sym; assumption)
  | Hx : ?x ∈ ?l, Hy : ?y ∉ ?l |- ?x <> ?y => exact (in_not_in_ne _ _ _ Hx Hy)
  | Hx : ?x ∈ ?l, Hy : ?y ∉ ?l |- ?y <> ?x =>
      apply not_eq_sym; exact (in_not_in_ne _ _ _ Hx Hy)
  | Hd : disj ?a ?b, Hx : ?x ∈ ?a, Hy : ?y ∈ ?b |- ?x <> ?y =>
      exact (disj_ne _ _ _ _ Hd Hx Hy)
  | Hd : disj ?a ?b, Hx : ?x ∈ ?a, Hy : ?y ∈ ?b |- ?y <> ?x =>
      apply not_eq_sym; exact (disj_ne _ _ _ _ Hd Hx Hy)
  | |- _ ∉ _ => assumption
  | Hd : disj ?a ?b, Hx : ?x ∈ ?a |- ?x ∉ ?b => exact (disj_not_in _ _ _ Hd Hx)
  | Hd : disj ?a ?b, Hx : ?x ∈ ?b |- ?x ∉ ?a => exact (disj_not_in' _ _ _ Hd Hx)
  | |- disj _ _ => assumption || (apply disj_sym; assumption)
  | |- NoDup _ => assumption
  end.

(** Solve a goal about distinct addresses from the atoms at hand. *)
Ltac nd_solve :=
  autorewrite with nd; repeat split; nd_atom.

(** * Executing the pointer code on represented trees *)

Lemma bind_get H p n {B} (k : Node -> M B) :
  H !! p = Some n -> bind (get p) k H = k n H.
Proof. intros E. unfold bind, get. by rewrite E. Qed.

Lemma bind_upd H p n f {B} (k : unit -> M B) :
  H !! p = Some n -> bind (upd p f) k H = k tt (<[p := f n]> H).
Proof. intros E. unfold bind, upd. by rewrite E. Qed.

Lemma bind_ret {A B} (a : A) (k : A -> M B) H : bind (ret a) k H = k a H.
Proof. reflexivity. Qed.

Lemma upd_eq H p n f :
  H !! p = Some n -> upd p f H = Some (tt, <[p := f n]> H).
Proof. intros E. unfold upd. by rewrite E. Qed.

Lemma bind_bind {A B C} (m : M A) (f : A -> M B) (g : B -> M C) H :
  bind (bind m f) g H = bind m (fun a => bind (f a) g) H.
Proof. unfold bind. destruct (m H) as [[a H1]|]; reflexivity. Qed.

Lemma RepCtx_insert_ne H c hole p n :
  p ∉ cptrs_l c -> p ∉ cptrs_r c -> RepCtx H c hole -> RepCtx (<[p := n]> H) c hole.
Proof.
  intros Hp Hp'. apply RepCtx_agree. intros q Hq.
  apply lookup_insert_ne. intros ->. apply elem_of_app in Hq. tauto.
Qed.

Lemma rootp_ne t p : p ∉ ptrs t -> rootp t <> Some p.
Proof. intros Hp E. apply rootp_ptrs in E. done. Qed.

Lemma bind_free H p n {B} (k : unit -> M B) :
  H !! p = Some n -> bind (free p) k H = k tt (delete p H).
Proof. intros E. unfold bind, free. by rewrite E. Qed.

Lemma RepCtx_delete_ne H c hole p :
  p ∉ cptrs_l c -> p ∉ cptrs_r c -> RepCtx H c hole -> RepCtx (delete p H) c hole.
Proof.
  intros Hp Hp'. apply RepCtx_agree. intros q Hq.
  apply lookup_delete_ne. intros ->. apply elem_of_app in Hq. tauto.
Qed.

Ltac lk :=
  repeat (rewrite lookup_insert_eq || (rewrite lookup_insert_ne by congruence)
          || (rewrite lookup_delete_ne by congruence)).

Ltac mstep1 :=
  first
  [ rewrite bind_bind
  | erewrite bind_get by (lk; eassumption || reflexivity)
  | erewrite bind_upd by (lk; eassumption || reflexivity)
  | erewrite upd_eq by (lk; eassumption || reflexivity)
  | erewrite bind_free by (lk; eassumption || reflexivity)
  | rewrite bind_ret
  | progress cbn [when] ];
  cbn [key value height balance parent left right set_key set_value set_height
       set_balance set_parent set_left set_right when].

Ltac cell_solve :=
  eexists; lk; split; [reflexivity|];
  cbn [key value height balance parent left right set_key set_value set_height
       set_balance set_parent set_left set_right];
  split_and!; (assumption || reflexivity || congruence).
Ltac rep_frame :=
  repeat (first [apply Rep_insert_ne | apply Rep_delete_ne]; [nd_solve|]);
  try assumption.
Ltac ctx_frame :=
  repeat (first [apply RepCtx_insert_ne | apply RepCtx_delete_ne];
          [nd_solve|nd_solve|]);
  try assumption.


Ltac frame_solve :=
  let p := fresh "p" in let Hp := fresh "Hp" in
  intros p Hp _; rewrite ?ptrs_plug in Hp; simpl in Hp;
  autorewrite with nd in Hp;
  repeat match goal with Hx : _ /\ _ |- _ => destruct Hx end;
  lk; reflexivity.

Ltac rep_solve :=
  apply Rep_plug; simpl; split_and!;
  try exact I; try cell_solve; try rep_frame; try ctx_frame.

(** Rotation about a node with a parent. *)
Lemma rotate_left_ctx H f c a x kx b y ky cc :
  Rep H None (plug (f :: c) (Fork a x kx (Fork b y ky cc))) ->
  NoDup (ptrs (plug (f :: c) (Fork a x kx (Fork b y ky cc)))) ->
  exists H',
    rotate_left x H = Some (tt, H') /\
    Rep H' None (plug (f :: c) (Fork (Fork a x kx b) y ky cc)) /\
    frame_of (ptrs (plug (f :: c) (Fork a x kx (Fork b y ky cc)))) H H'.
Proof.
  intros HR Hnd.
  apply Rep_plug in HR. destruct HR as [HR HC].
  simpl in HR. destruct HR as (Cx & Ra & Cy & Rb & Rcc).
  rewrite ptrs_plug in Hnd. simpl in Hnd.
  destruct Cx as (nx & Hx & Kx & Px & Lx & Rx).
  destruct Cy as (ny & Hy & Ky & Py & Ly & Ry).
  unfold rotate_left.
  mstep1. rewrite Rx. mstep1. rewrite Px.
  destruct f as [q kq r|l q kq]; simpl in HC, Hnd |- *.
  - destruct HC as ((nq & Hq & Kq & Pq & Lq & Rq) & Rr & HC).
    destruct b as [|bl pb kb br]; simpl in Hnd, Rb, Ly.
    + nd_norm.
      assert (rootp r <> Some x) by (apply rootp_ne; nd_solve).
      unfold replace_child.
      repeat mstep1. rewrite Lq, bool_decide_true by done.
      repeat mstep1. rewrite Rq, bool_decide_false by done.
      repeat mstep1. rewrite Ly.
      repeat mstep1. eexists. split; [reflexivity|].
      split; [rep_solve|frame_solve].
    + destruct Rb as ((nb & Hb & Kb & Pb & Lb & Rb') & Rbl & Rbr).
      nd_norm.
      assert (rootp r <> Some x) by (apply rootp_ne; nd_solve).
      unfold replace_child.
      repeat mstep1. rewrite Lq, bool_decide_true by done.
      repeat mstep1. rewrite Rq, bool_decide_false by done.
      repeat mstep1. rewrite Ly.
      repeat mstep1. eexists. split; [reflexivity|].
      split; [rep_solve|frame_solve].
  - destruct HC as ((nq & Hq & Kq & Pq & Lq & Rq) & Rr & HC).
    destruct b as [|bl pb kb br]; simpl in Hnd, Rb, Ly.
    + nd_norm.
      assert (rootp l <> Some x) by (apply rootp_ne; nd_solve).
      unfold replace_child.
      repeat mstep1. rewrite Lq, bool_decide_false by done.
      repeat mstep1. rewrite Rq, bool_decide_true by done.
      repeat mstep1. rewrite Ly.
      repeat mstep1. eexists. split; [reflexivity|].
      split; [rep_solve|frame_solve].
    + destruct Rb as ((nb & Hb & Kb & Pb & Lb & Rb') & Rbl & Rbr).
      nd_norm.
      assert (rootp l <> Some x) by (apply rootp_ne; nd_solve).
      unfold replace_child.
      repeat mstep1. rewrite Lq, bool_decide_false by done.
      repeat mstep1. rewrite Rq, bool_decide_true by done.
      repeat mstep1. rewrite Ly.
      repeat mstep1. eexists. split; [reflexivity|].
      split; [rep_solve|frame_solve].
Qed.

Lemma rotate_right_ctx H f c a x kx b y ky cc :
  Rep H None (plug (f :: c) (Fork (Fork a x kx b) y ky cc)) ->
  NoDup (ptrs (plug (f :: c) (Fork (Fork a x kx b) y ky cc))) ->
  exists H',
    rotate_right y H = Some (tt, H') /\
    Rep H' None (plug (f :: c) (Fork a x kx (Fork b y ky cc))) /\
    frame_of (ptrs (plug (f :: c) (Fork (Fork a x kx b) y ky cc))) H H'.
Proof.
  intros HR Hnd.
  apply Rep_plug in HR. destruct HR as [HR HC].
  simpl in HR. destruct HR as (Cy & (Cx & Ra & Rb) & Rcc).
  rewrite ptrs_plug in Hnd. simpl in Hnd.
  destruct Cx as (nx & Hx & Kx & Px & Lx & Rx).
  destruct Cy as (ny & Hy & Ky & Py & Ly & Ry).
  unfold rotate_right.
  mstep1. rewrite Ly. mstep1. rewrite Py.
  destruct f as [q kq r|l q kq]; simpl in HC, Hnd |- *.
  - destruct HC as ((nq & Hq & Kq & Pq & Lq & Rq) & Rr & HC).
    destruct b as [|bl pb kb br]; simpl in Hnd, Rb, Rx.
    + nd_norm.
      assert (rootp r <> Some y) by (apply rootp_ne; nd_solve).
      unfold replace_child.
      repeat mstep1. rewrite Lq, bool_decide_true by done.
      repeat mstep1. rewrite Rq, bool_decide_false by done.
      repeat mstep1. rewrite Rx.
      repeat mstep1. eexists. split; [reflexivity|].
      split; [rep_solve|frame_solve].
    + destruct Rb as ((nb & Hb & Kb & Pb & Lb & Rb') & Rbl & Rbr).
      nd_norm.
      assert (rootp r <> Some y) by (apply rootp_ne; nd_solve).
      unfold replace_child.
      repeat mstep1. rewrite Lq, bool_decide_true by done.
      repeat mstep1. rewrite Rq, bool_decide_false by done.
      repeat mstep1. rewrite Rx.
      repeat mstep1. eexists. split; [reflexivity|].
      split; [rep_solve|frame_solve].
  - destruct HC as ((nq & Hq & Kq & Pq & Lq & Rq) & Rr & HC).
    destruct b as [|bl pb kb br]; simpl in Hnd, Rb, Rx.
    + nd_norm.
      assert (rootp l <> Some y) by (apply rootp_ne; nd_solve).
      unfold replace_child.
      repeat mstep1. rewrite Lq, bool_decide_false by done.
      repeat mstep1. rewrite Rq, bool_decide_true by done.
      repeat mstep1. rewrite Rx.
      repeat mstep1. eexists. split; [reflexivity|].
      split; [rep_solve|frame_solve].
    + destruct Rb as ((nb & Hb & Kb & Pb & Lb & Rb') & Rbl & Rbr).
      nd_norm.
      assert (rootp l <> Some y) by (apply rootp_ne; nd_solve).
      unfold replace_child.
      repeat mstep1. rewrite Lq, bool_decide_false by done.
      repeat mstep1. rewrite Rq, bool_decide_true by done.
      repeat mstep1. rewrite Rx.
      repeat mstep1. eexists. split; [reflexivity|].
      split; [rep_solve|frame_solve].
Qed.

(** Rotation about the root, after the caller has moved the root link to
    the child about to be promoted. *)
Lemma rotate_left_root H a x kx b y ky cc :
  Rep H None (Fork a x kx (Fork b y ky cc)) ->
  NoDup (ptrs (Fork a x kx (Fork b y ky cc))) ->
  exists H',
    (upd y (set_parent None) >> rotate_left x) H = Some (tt, H') /\
    Rep H' None (Fork (Fork a x kx b) y ky cc) /\
    frame_of (ptrs (Fork a x kx (Fork b y ky cc))) H H'.
Proof.
  intros HR Hnd.
  simpl in HR. destruct HR as (Cx & Ra & Cy & Rb & Rcc).
  simpl in Hnd.
  destruct Cx as (nx & Hx & Kx & Px & Lx & Rx).
  destruct Cy as (ny & Hy & Ky & Py & Ly & Ry).
  unfold rotate_left.
  destruct b as [|bl pb kb br]; simpl in Hnd, Rb, Ly.
  - nd_norm. repeat mstep1. rewrite Rx. repeat mstep1. rewrite Px.
    repeat mstep1. rewrite Ly. repeat mstep1.
    eexists. split; [reflexivity|].
    split; [simpl; split_and!; try exact I; try cell_solve; try rep_frame
           |frame_solve].
  - destruct Rb as ((nb & Hb & Kb & Pb & Lb & Rb') & Rbl & Rbr).
    nd_norm. repeat mstep1. rewrite Rx. repeat mstep1. rewrite Px.
    repeat mstep1. rewrite Ly. repeat mstep1.
    eexists. split; [reflexivity|].
    split; [simpl; split_and!; try exact I; try cell_solve; try rep_frame
           |frame_solve].
Qed.

Lemma rotate_right_root H a x kx b y ky cc :
  Rep H None (Fork (Fork a x kx b) y ky cc) ->
  NoDup (ptrs (Fork (Fork a x kx b) y ky cc)) ->
  exists H',
    (upd x (set_parent None) >> rotate_right y) H = Some (tt, H') /\
    Rep H' None (Fork a x kx (Fork b y ky cc)) /\
    frame_of (ptrs (Fork (Fork a x kx b) y ky cc)) H H'.
Proof.
  intros HR Hnd.
  simpl in HR. destruct HR as (Cy & (Cx & Ra & Rb) & Rcc).
  simpl in Hnd.
  destruct Cx as (nx & Hx & Kx & Px & Lx & Rx).
  destruct Cy as (ny & Hy & Ky & Py & Ly & Ry).
  unfold rotate_right.
  destruct b as [|bl pb kb br]; simpl in Hnd, Rb, Rx.
  - nd_norm. repeat mstep1. rewrite Ly. repeat mstep1. rewrite Py.
    repeat mstep1. rewrite Rx. repeat mstep1.
    eexists. split; [reflexivity|].
    split; [simpl; split_and!; try exact I; try cell_solve; try rep_frame
           |frame_solve].
  - destruct Rb as ((nb & Hb & Kb & Pb & Lb & Rb') & Rbl & Rbr).
    nd_norm. repeat mstep1. rewrite Ly. repeat mstep1. rewrite Py.
    repeat mstep1. rewrite Rx. repeat mstep1.
    eexists. split; [reflexivity|].
    split; [simpl; split_and!; try exact I; try cell_solve; try rep_frame
           |frame_solve].
Qed.

(** ** Rotations anywhere in a tree *)

Lemma frame_of_refl ps H : frame_of ps H H.
Proof. intros p _ _. done. Qed.

Lemma frame_of_trans ps H1 H2 H3 :
  frame_of ps H1 H2 -> frame_of ps H2 H3 -> frame_of ps H1 H3.
Proof.
  intros F12 F23 p Hp Hs. rewrite <- (F12 p Hp Hs).
  apply F23; [done|]. by rewrite (F12 p Hp Hs).
Qed.

Lemma frame_of_insert ps H p n : p ∈ ps -> frame_of ps H (<[p := n]> H).
Proof. intros Hp q Hq _. apply lookup_insert_ne. by intros ->. Qed.

Lemma frame_of_mono ps ps' H H' :
  (forall p, p ∈ ps -> p ∈ ps') -> frame_of ps H H' -> frame_of ps' H H'.
Proof. intros Hsub F p Hp. apply F. intros Hp'. by apply Hp, Hsub. Qed.

Lemma tstep_refl H t : Rep H None t -> tstep H t H t.
Proof. intros HR. split_and!; try done. Qed.

Lemma tstep_trans H1 t1 H2 t2 H3 t3 :
  tstep H1 t1 H2 t2 -> tstep H2 t2 H3 t3 -> tstep H1 t1 H3 t3.
Proof.
  intros (R2 & P2 & K2 & F2) (R3 & P3 & K3 & F3).
  split_and!; [done|congruence|congruence|].
  eapply frame_of_trans; [done|]. by rewrite <- P2.
Qed.

Lemma tstep_links_kept H t H' :
  Rep H None t -> links_kept H H' -> frame_of (ptrs t) H H' -> tstep H t H' t.
Proof. intros HR K F. split_and!; try done. by eapply Rep_links_kept. Qed.

(** A node other than the root has a parent link. *)
Lemma Rep_focus H t c l p k r :
  t = plug c (Fork l p k r) -> Rep H None t ->
  cell H p k (cparent c) (rootp l) (rootp r).
Proof. intros -> HR. apply Rep_plug in HR. destruct HR as [HR _]. apply HR. Qed.

Lemma not_root_has_parent H t p :
  Rep H None t -> p ∈ ptrs t -> rootp t <> Some p -> has_parent H p.
Proof.
  intros HR Hp Hroot. destruct (focus _ _ Hp) as (c & l & k & r & ->).
  destruct c as [|f c]; [simpl in Hroot; done|].
  destruct (Rep_focus _ _ _ _ _ _ _ eq_refl HR) as (n & Hn & _ & Hpar & _).
  exists n, (fptr f). done.
Qed.

Lemma root_no_parent H t p n :
  Rep H None t -> rootp t = Some p -> H !! p = Some n -> parent n = None.
Proof.
  intros HR Hroot Hn. destruct t as [|l q k r]; simpl in Hroot; [done|].
  inversion Hroot; subst q. destruct HR as ((n' & Hn' & _ & Hpar & _) & _).
  congruence.
Qed.

Lemma ptrs_rot a x kx b y ky cc :
  ptrs (Fork (Fork a x kx b) y ky cc) = ptrs (Fork a x kx (Fork b y ky cc)).
Proof. simpl. by rewrite <- app_assoc. Qed.

Lemma keys_rot a x kx b y ky cc :
  keys (Fork (Fork a x kx b) y ky cc) = keys (Fork a x kx (Fork b y ky cc)).
Proof. simpl. by rewrite <- app_assoc. Qed.

Lemma rotate_left_any H t p :
  Rep H None t -> NoDup (ptrs t) -> p ∈ ptrs t -> has_parent H p ->
  exists H' t',
    rotate_left p H = Some (tt, H') /\ tstep H t H' t' /\ rootp t' = rootp t.
Proof.
  intros HR Hnd Hp (n & q & Hn & Hq).
  destruct (focus _ _ Hp) as (c & l & k & r & ->).
  pose proof (Rep_focus _ _ _ _ _ _ _ eq_refl HR) as (n' & Hn' & Hk & Hpar & Hl & Hr).
  assert (n' = n) as -> by congruence.
  destruct c as [|f c]; [simpl in Hpar; congruence|].
  destruct r as [|b y ky cc].
  - exists H, (plug (f :: c) (Fork l p k Leaf)). split; [|split; [by apply tstep_refl|done]].
    unfold rotate_left. erewrite bind_get by eassumption. by rewrite Hr.
  - destruct (rotate_left_ctx _ _ _ _ _ _ _ _ _ _ HR Hnd) as (H' & Hrot & HR' & Hfr).
    exists H', (plug (f :: c) (Fork (Fork l p k b) y ky cc)).
    split; [done|]. split; [|apply rootp_plug_same; discriminate].
    split_and!; [done| | |done].
    + by rewrite !ptrs_plug, ptrs_rot.
    + by rewrite !keys_plug, keys_rot.
Qed.

Lemma rotate_right_any H t p :
  Rep H None t -> NoDup (ptrs t) -> p ∈ ptrs t -> has_parent H p ->
  exists H' t',
    rotate_right p H = Some (tt, H') /\ tstep H t H' t' /\ rootp t' = rootp t.
Proof.
  intros HR Hnd Hp (n & q & Hn & Hq).
  destruct (focus _ _ Hp) as (c & l & k & r & ->).
  pose proof (Rep_focus _ _ _ _ _ _ _ eq_refl HR) as (n' & Hn' & Hk & Hpar & Hl & Hr).
  assert (n' = n) as -> by congruence.
  destruct c as [|f c]; [simpl in Hpar; congruence|].
  destruct l as [|a x kx b].
  - exists H, (plug (f :: c) (Fork Leaf p k r)). split; [|split; [by apply tstep_refl|done]].
    unfold rotate_right. erewrite bind_get by eassumption. by rewrite Hl.
  - destruct (rotate_right_ctx _ _ _ _ _ _ _ _ _ _ HR Hnd) as (H' & Hrot & HR' & Hfr).
    exists H', (plug (f :: c) (Fork a x kx (Fork b p k r))).
    split; [done|]. split; [|apply rootp_plug_same; discriminate].
    split_and!; [done| | |done].
    + by rewrite !ptrs_plug, ptrs_rot.
    + by rewrite !keys_plug, keys_rot.
Qed.

(** ** The rebalancing walk keeps the tree *)

Lemma has_parent_links_kept H H' p :
  links_kept H H' -> has_parent H p -> has_parent H' p.
Proof.
  intros K (n & q & Hn & Hq). destruct (K _ _ Hn) as (n' & Hn' & _ & Hp & _).
  exists n', q. split; [done|congruence].
Qed.

Lemma has_parent_tstep H t H' t' p :
  Rep H None t -> p ∈ ptrs t -> rootp t <> Some p ->
  tstep H t H' t' -> rootp t' = rootp t -> has_parent H' p.
Proof.
  intros HR Hp Hroot (HR' & HP & _) Hroot'.
  eapply not_root_has_parent; [done| |]; congruence.
Qed.

Lemma has_parent_not_root H t p :
  Rep H None t -> has_parent H p -> rootp t <> Some p.
Proof.
  intros HR (n & q & Hn & Hq) Hroot.
  pose proof (root_no_parent _ _ _ _ HR Hroot Hn). congruence.
Qed.

Lemma links_kept_upd H p f u H' :
  (forall n, key (f n) = key n /\ parent (f n) = parent n /\
             left (f n) = left n /\ right (f n) = right n) ->
  upd p f H = Some (u, H') -> links_kept H H'.
Proof.
  intros Hf Hx. apply upd_Some in Hx. destruct Hx as (n & Hn & ->).
  destruct (Hf n) as (? & ? & ? & ?). by eapply links_kept_insert.
Qed.

Lemma frame_of_upd ps H p f u H' :
  p ∈ ps -> upd p f H = Some (u, H') -> frame_of ps H H'.
Proof.
  intros Hp Hx. apply upd_Some in Hx. destruct Hx as (n & Hn & ->).
  by apply frame_of_insert.
Qed.

Lemma update_height_quiet H this u H' ps :
  this ∈ ps -> update_height this H = Some (u, H') ->
  links_kept H H' /\ frame_of ps H H'.
Proof.
  intros Hp Hx. unfold update_height in Hx.
  apply bind_Some in Hx. destruct Hx as (n & H1 & Hg & Hx).
  apply get_Some in Hg. destruct Hg as [Hg ->].
  destruct (has_children n).
  - apply bind_Some in Hx. destruct Hx as (hl & H1 & Hhl & Hx).
    pose proof (read_only_child_height _ _ _ _ Hhl) as ->.
    apply bind_Some in Hx. destruct Hx as (hr & H1 & Hhr & Hx).
    pose proof (read_only_child_height _ _ _ _ Hhr) as ->.
    destruct (hr + 1 <? hl + 1);
      (split; [eapply links_kept_upd; [|exact Hx]; intros; done
              |eapply frame_of_upd; [|exact Hx]; done]).
  - apply ret_Some in Hx. destruct Hx as [_ ->].
    split; [apply links_kept_refl|apply frame_of_refl].
Qed.

Lemma propagate_quiet t fuel q H u H' :
  Rep H None t -> q ∈ ptrs t ->
  propagate_height_down fuel q H = Some (u, H') ->
  links_kept H H' /\ frame_of (ptrs t) H H'.
Proof.
  revert q H u H'. induction fuel as [|fuel IH]; intros q H u H' HR Hq Hx; simpl in Hx.
  - by apply fault_Some in Hx.
  - apply bind_Some in Hx. destruct Hx as (n & H0 & Hg & Hx).
    apply get_Some in Hg. destruct Hg as [Hg ->].
    apply bind_Some in Hx. destruct Hx as ([] & H1 & Hl & Hx).
    assert (links_kept H H1 /\ frame_of (ptrs t) H H1 /\ Rep H1 None t) as (K1 & F1 & R1).
    { destruct (left n) as [l|] eqn:Hln.
      - apply bind_Some in Hl. destruct Hl as ([] & H2 & Hu & Hl).
        assert (l ∈ ptrs t) as Hlt.
        { destruct (Rep_cell _ _ _ _ HR Hq) as (k & pp & lp & rp & (n' & Hn' & _ & _ & Hlp & _) & _ & Hc & _).
          apply Hc. congruence. }
        assert (links_kept H H2) as K2
          by (eapply links_kept_upd; [|exact Hu]; intros; done).
        assert (frame_of (ptrs t) H H2) as F2 by (by eapply frame_of_upd).
        assert (Rep H2 None t) as R2 by (by eapply Rep_links_kept).
        destruct (IH _ _ _ _ R2 Hlt Hl) as [K3 F3].
        split; [by eapply links_kept_trans|].
        split; [by eapply frame_of_trans|].
        eapply Rep_links_kept; [|exact R2]. done.
      - apply ret_Some in Hl. destruct Hl as [_ ->].
        split; [apply links_kept_refl|]. split; [apply frame_of_refl|done]. }
    apply bind_Some in Hx. destruct Hx as (n1 & H0 & Hg1 & Hx).
    apply get_Some in Hg1. destruct Hg1 as [Hg1 ->].
    destruct (right n1) as [r|] eqn:Hrn.
    + apply bind_Some in Hx. destruct Hx as ([] & H2 & Hu & Hx).
      assert (r ∈ ptrs t) as Hrt.
      { destruct (Rep_cell _ _ _ _ R1 Hq) as (k & pp & lp & rp & (n' & Hn' & _ & _ & _ & Hrp) & _ & _ & Hc & _).
        apply Hc. congruence. }
      assert (links_kept H1 H2) as K2
        by (eapply links_kept_upd; [|exact Hu]; intros; done).
      assert (frame_of (ptrs t) H1 H2) as F2 by (by eapply frame_of_upd).
      assert (Rep H2 None t) as R2 by (by eapply Rep_links_kept).
      destruct (IH _ _ _ _ R2 Hrt Hx) as [K3 F3].
      split; [eauto using links_kept_trans|eauto using frame_of_trans].
    + apply ret_Some in Hx. destruct Hx as [_ ->]. done.
Qed.

(** The rotation about [previous] that prepares a double rotation. *)
Lemma inner_rotation_inv (rot : ptr -> M unit) (cmp : Z -> Z -> bool)
    H t previous inserted u H' :
  (forall H t p, Rep H None t -> NoDup (ptrs t) -> p ∈ ptrs t -> has_parent H p ->
     exists H' t', rot p H = Some (tt, H') /\ tstep H t H' t' /\ rootp t' = rootp t) ->
  Rep H None t -> NoDup (ptrs t) ->
  (forall pv, previous = Some pv -> pv ∈ ptrs t /\ has_parent H pv) ->
  match previous with
  | Some prev =>
      let* ni := get inserted in
      let* np := get prev in
      when (cmp (key ni) (key np)) (rot prev)
  | None => ret tt
  end H = Some (u, H') ->
  exists t', tstep H t H' t' /\ rootp t' = rootp t.
Proof.
  intros Hrot HR Hnd Hprev Hx. destruct previous as [pv|].
  - apply bind_Some in Hx. destruct Hx as (ni & H1 & Hg & Hx).
    apply get_Some in Hg. destruct Hg as [Hg ->].
    apply bind_Some in Hx. destruct Hx as (np & H1 & Hg' & Hx).
    apply get_Some in Hg'. destruct Hg' as [Hg' ->].
    destruct (Hprev pv eq_refl) as [Hpv Hpar].
    destruct (cmp (key ni) (key np)); simpl in Hx.
    + destruct (Hrot _ _ _ HR Hnd Hpv Hpar) as (H2 & t2 & Hr & Hs & Hroot).
      rewrite Hr in Hx. inversion Hx; subst. eauto.
    + apply ret_Some in Hx. destruct Hx as [_ ->].
      exists t. split; [by apply tstep_refl|done].
  - apply ret_Some in Hx. destruct Hx as [_ ->].
    exists t. split; [by apply tstep_refl|done].
Qed.

(** The rotation about [this], with the root link moved first when
    [this] is the root. *)
Lemma outer_left_inv H t this rt r H' :
  Rep H None t -> NoDup (ptrs t) -> this ∈ ptrs t -> rootp t = rt ->
  (let* root' :=
     (if bool_decide (rt = Some this) then
        let* n := get this in
        match right n with
        | Some r => upd r (set_parent None) >> ret (Some r)
        | None => fault
        end
      else ret rt) in
   rotate_left this >> ret (LEFT, root')) H = Some (r, H') ->
  exists t', tstep H t H' t' /\ rootp t' = snd r.
Proof.
  intros HR Hnd Hthis Hroot Hx.
  apply bind_Some in Hx. destruct Hx as (root' & H1 & Hr & Hx).
  apply bind_Some in Hx. destruct Hx as ([] & H2 & Hrot & Hx).
  apply ret_Some in Hx. destruct Hx as [-> ->]. simpl.
  case_bool_decide as Hrt.
  - subst rt. destruct t as [|a x kx rr]; simpl in Hrt; [done|].
    inversion Hrt; subst x; clear Hrt.
    apply bind_Some in Hr. destruct Hr as (n & H0 & Hg & Hr).
    apply get_Some in Hg. destruct Hg as [Hg ->].
    pose proof HR as ((n' & Hn' & _ & _ & _ & Hrn) & _).
    assert (n' = n) as -> by congruence.
    destruct rr as [|b y ky cc]; simpl in Hrn; rewrite Hrn in Hr;
      [by apply fault_Some in Hr|].
    apply bind_Some in Hr. destruct Hr as ([] & H3 & Hu & Hr).
    apply ret_Some in Hr. destruct Hr as [-> ->].
    destruct (rotate_left_root _ _ _ _ _ _ _ _ HR Hnd) as (H4 & Hboth & HR4 & HF4).
    unfold bind in Hboth. rewrite Hu, Hrot in Hboth. inversion Hboth; subst H4.
    exists (Fork (Fork a this kx b) y ky cc). split; [|done].
    split_and!; [done|apply ptrs_rot|apply keys_rot|done].
  - apply ret_Some in Hr. destruct Hr as [-> ->].
    assert (has_parent H this) as Hpar
      by (eapply not_root_has_parent; [done|done|congruence]).
    destruct (rotate_left_any _ _ _ HR Hnd Hthis Hpar) as (H3 & t3 & Hr3 & Hs & Hroot3).
    rewrite Hr3 in Hrot. inversion Hrot; subst. eauto.
Qed.

Lemma outer_right_inv H t this rt r H' :
  Rep H None t -> NoDup (ptrs t) -> this ∈ ptrs t -> rootp t = rt ->
  (let* root' :=
     (if bool_decide (rt = Some this) then
        let* n := get this in
        match left n with
        | Some l => upd l (set_parent None) >> ret (Some l)
        | None => fault
        end
      else ret rt) in
   rotate_right this >> ret (RIGHT, root')) H = Some (r, H') ->
  exists t', tstep H t H' t' /\ rootp t' = snd r.
Proof.
  intros HR Hnd Hthis Hroot Hx.
  apply bind_Some in Hx. destruct Hx as (root' & H1 & Hr & Hx).
  apply bind_Some in Hx. destruct Hx as ([] & H2 & Hrot & Hx).
  apply ret_Some in Hx. destruct Hx as [-> ->]. simpl.
  case_bool_decide as Hrt.
  - subst rt. destruct t as [|ll y ky cc]; simpl in Hrt; [done|].
    inversion Hrt; subst y; clear Hrt.
    apply bind_Some in Hr. destruct Hr as (n & H0 & Hg & Hr).
    apply get_Some in Hg. destruct Hg as [Hg ->].
    pose proof HR as ((n' & Hn' & _ & _ & Hln & _) & _).
    assert (n' = n) as -> by congruence.
    destruct ll as [|a x kx b]; simpl in Hln; rewrite Hln in Hr;
      [by apply fault_Some in Hr|].
    apply bind_Some in Hr. destruct Hr as ([] & H3 & Hu & Hr).
    apply ret_Some in Hr. destruct Hr as [-> ->].
    destruct (rotate_right_root _ _ _ _ _ _ _ _ HR Hnd) as (H4 & Hboth & HR4 & HF4).
    unfold bind in Hboth. rewrite Hu, Hrot in Hboth. inversion Hboth; subst H4.
    exists (Fork a x kx (Fork b this ky cc)). split; [|done].
    split_and!; [done|symmetry; apply ptrs_rot|symmetry; apply keys_rot|done].
  - apply ret_Some in Hr. destruct Hr as [-> ->].
    assert (has_parent H this) as Hpar
      by (eapply not_root_has_parent; [done|done|congruence]).
    destruct (rotate_right_any _ _ _ HR Hnd Hthis Hpar) as (H3 & t3 & Hr3 & Hs & Hroot3).
    rewrite Hr3 in Hrot. inversion Hrot; subst. eauto.
Qed.

Lemma try_fix_balance_inv H t this previous inserted rt r H' :
  Rep H None t -> NoDup (ptrs t) -> rootp t = rt -> this ∈ ptrs t ->
  (forall pv, previous = Some pv -> pv ∈ ptrs t /\ has_parent H pv) ->
  try_fix_balance this previous inserted rt H = Some (r, H') ->
  exists t', tstep H t H' t' /\ rootp t' = snd r.
Proof.
  intros HR Hnd Hroot Hthis Hprev Hx. unfold try_fix_balance in Hx.
  apply bind_Some in Hx. destruct Hx as (n & H0 & Hg & Hx).
  apply get_Some in Hg. destruct Hg as [Hg ->].
  apply bind_Some in Hx. destruct Hx as (bl & H0 & Hbl & Hx).
  pose proof (read_only_child_height _ _ _ _ Hbl) as ->.
  apply bind_Some in Hx. destruct Hx as (br & H0 & Hbr & Hx).
  pose proof (read_only_child_height _ _ _ _ Hbr) as ->.
  apply bind_Some in Hx. destruct Hx as ([] & H1 & Hu & Hx).
  assert (links_kept H H1) as K1 by (eapply links_kept_upd; [|exact Hu]; intros; done).
  assert (frame_of (ptrs t) H H1) as F1 by (by eapply frame_of_upd).
  assert (tstep H t H1 t) as S1 by (by apply tstep_links_kept).
  assert (Rep H1 None t) as R1 by apply S1.
  assert (forall pv, previous = Some pv -> pv ∈ ptrs t /\ has_parent H1 pv) as Hprev1.
  { intros pv Hpv. destruct (Hprev pv Hpv). eauto using has_parent_links_kept. }
  destruct (br - bl =? 0).
  { apply ret_Some in Hx. destruct Hx as [-> ->]. eauto. }
  destruct (1 <? br - bl).
  { apply bind_Some in Hx. destruct Hx as ([] & H2 & Hin & Hx).
    destruct (inner_rotation_inv rotate_right Z.ltb _ _ _ _ _ _
                rotate_right_any R1 Hnd Hprev1 Hin) as (t2 & S2 & Hroot2).
    destruct S2 as (R2 & P2 & K2 & F2).
    destruct (outer_left_inv H2 t2 this rt r H') as (t3 & S3 & Hroot3);
      [done|by rewrite P2|by rewrite P2|congruence|done|].
    exists t3. split; [|done].
    eapply tstep_trans; [exact S1|]. eapply tstep_trans; [|exact S3]. done. }
  destruct (br - bl <? -1).
  { apply bind_Some in Hx. destruct Hx as ([] & H2 & Hin & Hx).
    destruct (inner_rotation_inv rotate_left (fun a b => Z.ltb b a) _ _ _ _ _ _
                rotate_left_any R1 Hnd Hprev1 Hin) as (t2 & S2 & Hroot2).
    destruct S2 as (R2 & P2 & K2 & F2).
    destruct (outer_right_inv H2 t2 this rt r H') as (t3 & S3 & Hroot3);
      [done|by rewrite P2|by rewrite P2|congruence|done|].
    exists t3. split; [|done].
    eapply tstep_trans; [exact S1|]. eapply tstep_trans; [|exact S3]. done. }
  apply ret_Some in Hx. destruct Hx as [-> ->]. eauto.
Qed.

Lemma insert_balance_inv fuel : forall H t this previous inserted rt rt' H',
  Rep H None t -> NoDup (ptrs t) -> rootp t = rt -> this ∈ ptrs t ->
  (forall pv, previous = Some pv -> pv ∈ ptrs t /\ has_parent H pv) ->
  insert_balance fuel this previous inserted rt H = Some (rt', H') ->
  exists t', tstep H t H' t' /\ rootp t' = rt'.
Proof.
  induction fuel as [|fuel IH];
    intros H t this previous inserted rt rt' H' HR Hnd Hroot Hthis Hprev Hx;
    simpl in Hx.
  - by apply fault_Some in Hx.
  - apply bind_Some in Hx. destruct Hx as ([] & H1 & Hu & Hx).
    destruct (update_height_quiet _ _ _ _ _ Hthis Hu) as [K1 F1].
    assert (tstep H t H1 t) as S1 by (by apply tstep_links_kept).
    assert (Rep H1 None t) as R1 by apply S1.
    apply bind_Some in Hx. destruct Hx as ([rot rt1] & H2 & Hfix & Hx).
    assert (forall pv, previous = Some pv -> pv ∈ ptrs t /\ has_parent H1 pv) as Hprev1.
    { intros pv Hpv. destruct (Hprev pv Hpv). eauto using has_parent_links_kept. }
    destruct (try_fix_balance_inv H1 t this previous inserted rt _ _
                R1 Hnd Hroot Hthis Hprev1 Hfix) as (t2 & S2 & Hroot2).
    simpl in Hroot2. pose proof S2 as (R2 & P2 & K2 & F2).
    apply bind_Some in Hx. destruct Hx as (n & H0 & Hg & Hx).
    apply get_Some in Hg. destruct Hg as [Hg ->].
    apply bind_Some in Hx. destruct Hx as ([] & H3 & Hprop & Hx).
    assert (this ∈ ptrs t2) as Hthis2 by (by rewrite P2).
    assert (forall q, parent n = Some q -> q ∈ ptrs t2) as Hpar.
    { intros q Hq.
      destruct (Rep_cell _ _ _ _ R2 Hthis2)
        as (k & pp & lp & rp & (n' & Hn' & _ & Hpp & _) & _ & _ & _ & Hc).
      assert (n' = n) as -> by congruence.
      destruct Hc as [->|(q' & -> & Hq')]; congruence. }
    assert (links_kept H2 H3 /\ frame_of (ptrs t2) H2 H3) as [K3 F3].
    { destruct (parent n) as [q|] eqn:Hq.
      - destruct (is_rotation rot); simpl in Hprop.
        + eapply propagate_quiet; [exact R2| |exact Hprop]. by apply Hpar.
        + apply ret_Some in Hprop. destruct Hprop as [_ ->].
          split; [apply links_kept_refl|apply frame_of_refl].
      - apply ret_Some in Hprop. destruct Hprop as [_ ->].
        split; [apply links_kept_refl|apply frame_of_refl]. }
    assert (tstep H2 t2 H3 t2) as S3 by (by apply tstep_links_kept).
    assert (Rep H3 None t2) as R3 by apply S3.
    assert (tstep H t H3 t2) as S03.
    { eapply tstep_trans; [exact S1|]. eapply tstep_trans; [exact S2|exact S3]. }
    apply bind_Some in Hx. destruct Hx as (n3 & H0 & Hg3 & Hx).
    apply get_Some in Hg3. destruct Hg3 as [Hg3 ->].
    destruct (parent n3) as [q|] eqn:Hq3.
    + assert (q ∈ ptrs t2) as Hq2.
      { destruct (Rep_cell _ _ _ _ R3 Hthis2)
          as (k & pp & lp & rp & (n' & Hn' & _ & Hpp & _) & _ & _ & _ & Hc).
        assert (n' = n3) as -> by congruence.
        destruct Hc as [->|(q' & -> & Hq')]; congruence. }
      destruct (IH H3 t2 q (Some this) inserted rt1 rt' H') as (t4 & S4 & Hroot4);
        try done.
      * by rewrite P2.
      * intros pv [= <-]. split; [done|]. by exists n3, q.
      * exists t4. split; [|done]. eapply tstep_trans; [exact S03|exact S4].
    + apply ret_Some in Hx. destruct Hx as [-> ->].
      exists t2. done.
Qed.
(** * What a map holds *)

Lemma node_pair_lookup H p n : H !! p = Some n -> node_pair H p = (key n, value n).
Proof. intros Hn. unfold node_pair, kv_of. by rewrite Hn. Qed.

Lemma keys_contents H par t : Rep H par t -> keys t = (contents H t).*1.
Proof.
  unfold contents. revert par.
  induction t as [|l IHl p k r IHr]; intros par; simpl; [done|].
  intros ((n & Hn & Kn & _) & Rl & Rr).
  rewrite map_app, fmap_app. simpl. rewrite (node_pair_lookup _ _ _ Hn). simpl.
  by rewrite (IHl _ Rl), (IHr _ Rr), Kn.
Qed.

Lemma elem_of_contents H t k v :
  (k, v) ∈ contents H t <-> exists p, p ∈ ptrs t /\ node_pair H p = (k, v).
Proof.
  unfold contents. rewrite list_elem_of_fmap. split.
  - intros (p & E & Hp). by exists p.
  - intros (p & Hp & E). by exists p.
Qed.

Lemma holds_contents H rt t k v :
  tree_inv H rt t -> (holds H rt k v <-> (k, v) ∈ contents H t).
Proof.
  intros Hinv. rewrite elem_of_contents. split.
  - intros (p & n & Hp & Hn & <- & <-). exists p. split.
    + by apply (tree_inv_in_subtree _ _ _ _ Hinv).
    + by apply node_pair_lookup.
  - intros (p & Hp & E). pose proof Hinv as (HR & _).
    destruct (Rep_dom _ _ _ _ HR Hp) as [n Hn].
    rewrite (node_pair_lookup _ _ _ Hn) in E. injection E as <- <-.
    exists p, n. split_and!; try done.
    by apply (tree_inv_in_subtree _ _ _ _ Hinv).
Qed.

Lemma contains_keys H rt t k :
  tree_inv H rt t -> (contains H rt k <-> k ∈ keys t).
Proof.
  intros Hinv. pose proof Hinv as (HR & _).
  rewrite (keys_contents _ _ _ HR). unfold contains. split.
  - intros (v & Hv). apply (holds_contents _ _ _ _ _ Hinv) in Hv.
    apply list_elem_of_fmap. by exists (k, v).
  - intros Hk. apply list_elem_of_fmap in Hk. destruct Hk as ([k' v] & -> & Hin).
    exists v. by apply (holds_contents _ _ _ _ _ Hinv).
Qed.

Lemma increasing_NoDup l : increasing l -> NoDup l.
Proof.
  induction l as [|x l IH]; simpl; [intros _; apply NoDup_nil_2|].
  intros [Hx Hl]. apply NoDup_cons. split; [|by apply IH].
  intros Hin. rewrite Forall_forall in Hx. specialize (Hx x Hin). lia.
Qed.

(** Pairs of a list with distinct keys. *)
Lemma NoDup_fst_unique (l : list (Z * Z)) k v v' :
  NoDup l.*1 -> (k, v) ∈ l -> (k, v') ∈ l -> v = v'.
Proof.
  induction l as [|[a b] l IH]; simpl; intros Hnd Hv Hv'.
  - by apply elem_of_nil in Hv.
  - apply NoDup_cons in Hnd. destruct Hnd as [Ha Hnd].
    apply elem_of_cons in Hv. apply elem_of_cons in Hv'.
    destruct Hv as [E|Hv]; destruct Hv' as [E'|Hv'].
    + congruence.
    + injection E as -> ->. exfalso. apply Ha. apply list_elem_of_fmap.
      by exists (a, v').
    + injection E' as -> ->. exfalso. apply Ha. apply list_elem_of_fmap.
      by exists (a, v).
    + by apply IH.
Qed.

Lemma holds_unique H rt t k v v' :
  tree_inv H rt t -> holds H rt k v -> holds H rt k v' -> v = v'.
Proof.
  intros Hinv Hv Hv'. pose proof Hinv as (HR & _ & _ & Hinc).
  apply (holds_contents _ _ _ _ _ Hinv) in Hv, Hv'.
  eapply NoDup_fst_unique; [|exact Hv|exact Hv'].
  rewrite <- (keys_contents _ _ _ HR). by apply increasing_NoDup.
Qed.

(** Two nodes of a tree with the same key are the same node. *)
Lemma key_unique H rt t p q n nq :
  tree_inv H rt t -> p ∈ ptrs t -> q ∈ ptrs t ->
  H !! p = Some n -> H !! q = Some nq -> key n = key nq -> p = q.
Proof.
  intros (HR & _ & Hnd & Hinc) Hp Hq Hn Hnq Ek.
  apply increasing_NoDup in Hinc. rewrite (keys_contents _ _ _ HR) in Hinc.
  unfold contents in Hinc. rewrite <- list_fmap_compose in Hinc.
  assert (forall (l : list positive), NoDup ((fst ∘ node_pair H) <$> l) ->
            p ∈ l -> q ∈ l -> p = q) as Hgen.
  { induction l as [|x l IH]; simpl; intros Hd Hpl Hql.
    - by apply elem_of_nil in Hpl.
    - apply NoDup_cons in Hd. destruct Hd as [Hx Hd].
      apply elem_of_cons in Hpl. apply elem_of_cons in Hql.
      destruct Hpl as [->|Hpl]; destruct Hql as [->|Hql]; try done.
      + exfalso. apply Hx. apply list_elem_of_fmap. exists q. split; [|done].
        simpl. by rewrite (node_pair_lookup _ _ _ Hn), (node_pair_lookup _ _ _ Hnq).
      + exfalso. apply Hx. apply list_elem_of_fmap. exists p. split; [|done].
        simpl. by rewrite (node_pair_lookup _ _ _ Hn), (node_pair_lookup _ _ _ Hnq).
      + by apply IH. }
  by apply (Hgen (ptrs t)).
Qed.

Lemma node_pair_kv_kept H H' p :
  kv_kept H H' -> is_Some (H !! p) -> node_pair H' p = node_pair H p.
Proof.
  intros K [n Hn]. destruct (K p n Hn) as (n' & Hn' & Ek & Ev).
  rewrite (node_pair_lookup _ _ _ Hn), (node_pair_lookup _ _ _ Hn'). congruence.
Qed.

Lemma map_node_pair_ext (H H' : gmap positive Node) (ps : list positive) :
  (forall p, p ∈ ps -> node_pair H' p = node_pair H p) ->
  map (node_pair H') ps = map (node_pair H) ps.
Proof.
  induction ps as [|x ps IH]; simpl; intros Hext; [done|].
  rewrite Hext by (by left). rewrite IH; [done|].
  intros p Hp. apply Hext. by right.
Qed.

Lemma elem_of_middle {A} (x y : A) (l1 l2 : list A) :
  x ∈ l1 ++ y :: l2 <-> x = y \/ x ∈ l1 ++ l2.
Proof. rewrite !elem_of_app, elem_of_cons. tauto. Qed.

(** The pairs of the tree after [operator[]] has added a key. *)
Lemma index_contents (H H' : gmap positive Node) t t' A B p k n :
  Rep H None t -> kv_kept H H' -> ptrs t = A ++ B -> ptrs t' = A ++ p :: B ->
  H' !! p = Some n -> key n = k -> value n = 0 ->
  contents H' t' = map (node_pair H) A ++ (k, 0) :: map (node_pair H) B /\
  contents H t = map (node_pair H) A ++ map (node_pair H) B.
Proof.
  intros HR K EA EA' Hn Kn Vn. unfold contents. rewrite EA, EA', !map_app. simpl.
  rewrite (node_pair_lookup _ _ _ Hn), Kn, Vn. split; [|done].
  f_equal; [|f_equal]; apply map_node_pair_ext; intros q Hq;
    apply node_pair_kv_kept; try done;
    apply (Rep_dom _ _ _ _ HR); rewrite EA; apply elem_of_app; auto.
Qed.

Lemma contents_set_value (H : gmap positive Node) A B p n v :
  NoDup (A ++ p :: B) -> H !! p = Some n ->
  map (node_pair (<[p := set_value v n]> H)) (A ++ p :: B) =
  map (node_pair H) A ++ (key n, v) :: map (node_pair H) B.
Proof.
  intros Hnd Hn. rewrite map_app. simpl.
  rewrite (node_pair_lookup _ p (set_value v n)) by apply lookup_insert_eq.
  apply NoDup_app in Hnd. destruct Hnd as (_ & HAB & HB).
  apply NoDup_cons in HB. destruct HB as [HpB _].
  f_equal; [|f_equal]; apply map_node_pair_ext; intros q Hq;
    unfold node_pair, kv_of; rewrite lookup_insert_ne; try done.
  - intros <-. apply (HAB p Hq). by left.
  - by intros <-.
Qed.
(** ** The balancing walk rewrites no key and no value *)

Lemma kv_kept_refl H : kv_kept H H.
Proof. intros p n Hp. by exists n. Qed.

Lemma kv_kept_trans H1 H2 H3 : kv_kept H1 H2 -> kv_kept H2 H3 -> kv_kept H1 H3.
Proof.
  intros K12 K23 p n Hp. destruct (K12 p n Hp) as (n2 & Hn2 & Ek & Ev).
  destruct (K23 p n2 Hn2) as (n3 & Hn3 & Ek' & Ev'). exists n3.
  split; [done|]. split; congruence.
Qed.

Lemma kv_same_refl H : kv_same H H.
Proof. by intros p. Qed.

Lemma kv_same_trans H1 H2 H3 : kv_same H1 H2 -> kv_same H2 H3 -> kv_same H1 H3.
Proof. intros K12 K23 p. by rewrite K23, K12. Qed.

Lemma kv_same_kept H H' : kv_same H H' -> kv_kept H H'.
Proof.
  intros K p n Hn. specialize (K p). unfold kv_of in K. rewrite Hn in K.
  destruct (H' !! p) as [n'|]; simpl in K; [|done].
  injection K as Ek Ev. by exists n'.
Qed.

Lemma kv_same_None H H' q : kv_same H H' -> (H' !! q = None <-> H !! q = None).
Proof.
  intros K. specialize (K q). unfold kv_of in K.
  destruct (H' !! q), (H !! q); simpl in K; split; congruence.
Qed.

Lemma kv_same_is_Some H H' q : kv_same H H' -> (is_Some (H' !! q) <-> is_Some (H !! q)).
Proof.
  intros K. rewrite <- !not_eq_None_Some. by rewrite (kv_same_None _ _ q K).
Qed.

Lemma keeps_kv_ret {A} (a : A) : keeps_kv (ret a).
Proof. intros H b H' Hx. apply ret_Some in Hx. destruct Hx as [_ ->]. apply kv_same_refl. Qed.

Lemma keeps_kv_fault {A} : keeps_kv (@fault A).
Proof. intros H b H' Hx. by apply fault_Some in Hx. Qed.

Lemma keeps_kv_get p : keeps_kv (get p).
Proof. intros H b H' Hx. apply get_Some in Hx. destruct Hx as [_ ->]. apply kv_same_refl. Qed.

Lemma keeps_kv_bind {A B} (m : M A) (k : A -> M B) :
  keeps_kv m -> (forall a, keeps_kv (k a)) -> keeps_kv (bind m k).
Proof.
  intros Hm Hk H b H' Hx. apply bind_Some in Hx.
  destruct Hx as (a & H1 & Ha & Hx).
  eapply kv_same_trans; [by eapply Hm|by eapply Hk].
Qed.

Lemma keeps_kv_upd p f :
  (forall n, key (f n) = key n /\ value (f n) = value n) -> keeps_kv (upd p f).
Proof.
  intros Hf H b H' Hx. apply upd_Some in Hx. destruct Hx as (n & Hn & ->).
  intros q. unfold kv_of. destruct (decide (q = p)) as [->|Hne].
  - rewrite lookup_insert_eq, Hn. simpl. destruct (Hf n) as [-> ->]. done.
  - by rewrite lookup_insert_ne.
Qed.

Lemma keeps_kv_when b (m : M unit) : keeps_kv m -> keeps_kv (when b m).
Proof. intros Hm. destruct b; simpl; [done|apply keeps_kv_ret]. Qed.

(** Break a program down to its reads and writes. *)
Ltac kv_auto :=
  repeat first
    [ apply keeps_kv_ret
    | apply keeps_kv_fault
    | apply keeps_kv_get
    | apply keeps_kv_upd; intros ?; split; reflexivity
    | apply keeps_kv_when
    | apply keeps_kv_bind; [|intros ?]
    | assumption
    | match goal with
      | |- keeps_kv (match ?x with _ => _ end) => destruct x
      end ].

Lemma keeps_kv_child_height c : keeps_kv (child_height c).
Proof. unfold child_height. kv_auto. Qed.

Lemma keeps_kv_replace_child this a b : keeps_kv (replace_child this a b).
Proof. unfold replace_child. kv_auto. Qed.

Lemma keeps_kv_rotate_right this : keeps_kv (rotate_right this).
Proof.
  pose proof keeps_kv_replace_child as R. unfold rotate_right.
  kv_auto; apply R.
Qed.

Lemma keeps_kv_rotate_left this : keeps_kv (rotate_left this).
Proof.
  pose proof keeps_kv_replace_child as R. unfold rotate_left.
  kv_auto; apply R.
Qed.

Lemma keeps_kv_update_height this : keeps_kv (update_height this).
Proof.
  pose proof keeps_kv_child_height as C. unfold update_height.
  kv_auto; apply C.
Qed.

Lemma keeps_kv_try_fix_balance this previous inserted rt :
  keeps_kv (try_fix_balance this previous inserted rt).
Proof.
  pose proof keeps_kv_child_height as C.
  pose proof keeps_kv_rotate_left as L.
  pose proof keeps_kv_rotate_right as R.
  unfold try_fix_balance.
  kv_auto; first [apply C | apply L | apply R].
Qed.

Lemma keeps_kv_propagate_height_down fuel : forall this,
  keeps_kv (propagate_height_down fuel this).
Proof.
  induction fuel as [|fuel IH]; intros this; simpl; [apply keeps_kv_fault|].
  kv_auto; apply IH.
Qed.

Lemma keeps_kv_insert_balance fuel : forall this previous inserted rt,
  keeps_kv (insert_balance fuel this previous inserted rt).
Proof.
  induction fuel as [|fuel IH]; intros this previous inserted rt; simpl;
    [apply keeps_kv_fault|].
  pose proof keeps_kv_child_height as C.
  pose proof keeps_kv_update_height as U.
  pose proof keeps_kv_try_fix_balance as T.
  pose proof (keeps_kv_propagate_height_down fuel) as P.
  kv_auto; first [apply U | apply T | apply P | apply IH | apply C].
Qed.

Lemma keeps_kv_add_child this node : keeps_kv (add_child this node).
Proof. unfold add_child. kv_auto. Qed.

(** ** The indexer keeps the tree *)

Lemma increasing_focus c l k r :
  increasing (keys (plug c (Fork l k.1 k.2 r))) ->
  (forall x, x ∈ keys l -> x < k.2) /\ (forall y, y ∈ keys r -> k.2 < y).
Proof.
  rewrite keys_plug. simpl. intros Hinc.
  apply increasing_app in Hinc. destruct Hinc as (_ & Hinc & _).
  apply increasing_app in Hinc. destruct Hinc as (Hinc & _ & _).
  apply increasing_app in Hinc. destruct Hinc as (_ & Hinc & Hlt).
  simpl in Hinc. destruct Hinc as [Hgt _]. rewrite Forall_forall in Hgt.
  split; [|done]. intros x Hx. apply Hlt; [done|set_solver].
Qed.

Lemma descend_inv fuel : forall k c l cur kc r d H res H',
  Rep H None (plug c (Fork l cur kc r)) ->
  increasing (keys (plug c (Fork l cur kc r))) -> fits k c ->
  descend fuel k cur d H = Some (res, H') ->
  H' = H /\
  exists c' l' k' r',
    plug c (Fork l cur kc r) = plug c' (Fork l' res.1.2 k' r') /\ fits k c' /\
    (res.1.1 = true -> k' = k) /\
    (res.1.1 = false -> (k < k' /\ l' = Leaf) \/ (k' < k /\ r' = Leaf)).
Proof.
  induction fuel as [|fuel IH]; intros k c l cur kc r d H res H' HR Hinc Hfit Hx;
    simpl in Hx.
  - by apply fault_Some in Hx.
  - apply bind_Some in Hx. destruct Hx as (n & H0 & Hg & Hx).
    apply get_Some in Hg. destruct Hg as [Hg ->].
    destruct (Rep_focus _ _ _ _ _ _ _ eq_refl HR) as (n' & Hn' & Hk & _ & Hl & Hr).
    assert (n' = n) as -> by congruence.
    destruct (increasing_focus c l (cur, kc) r Hinc) as [Hlt Hgt]. simpl in Hlt, Hgt.
    destruct (k =? key n) eqn:Heq.
    { apply ret_Some in Hx. destruct Hx as [-> ->]. split; [done|].
      exists c, l, kc, r. simpl. split_and!; try done.
      intros _. apply Z.eqb_eq in Heq. congruence. }
    apply Z.eqb_neq in Heq.
    destruct (k <? key n) eqn:Hltb.
    + apply Z.ltb_lt in Hltb. rewrite Hl in Hx.
      destruct l as [|ll lp lk lr]; simpl in Hx.
      * apply ret_Some in Hx. destruct Hx as [-> ->]. split; [done|].
        exists c, Leaf, kc, r. simpl. split_and!; try done.
        intros _. left. split; [lia|done].
      * eapply (IH k (FrL cur kc r :: c)) in Hx; [exact Hx|exact HR|exact Hinc|].
        destruct Hfit as [Fl Fr]. split; simpl; [done|].
        intros y Hy. apply elem_of_cons in Hy. destruct Hy as [->|Hy]; [lia|].
        apply elem_of_app in Hy. destruct Hy as [Hy|Hy]; [|by apply Fr].
        specialize (Hgt y Hy). lia.
    + apply Z.ltb_ge in Hltb. rewrite Hr in Hx.
      destruct r as [|rl rp rk rr]; simpl in Hx.
      * apply ret_Some in Hx. destruct Hx as [-> ->]. split; [done|].
        exists c, l, kc, Leaf. simpl. split_and!; try done.
        intros _. right. split; [lia|done].
      * eapply (IH k (FrR l cur kc :: c)) in Hx; [exact Hx|exact HR|exact Hinc|].
        destruct Hfit as [Fl Fr]. split; simpl; [|done].
        intros y Hy. apply elem_of_app in Hy. destruct Hy as [Hy|Hy]; [by apply Fl|].
        apply elem_of_app in Hy. destruct Hy as [Hy|Hy].
        -- specialize (Hlt y Hy). lia.
        -- apply list_elem_of_singleton in Hy. lia.
Qed.

Lemma fits_nil k : fits k [].
Proof. split; intros x Hx; by apply elem_of_nil in Hx. Qed.

Lemma Rep_fresh H par t : Rep H par t -> fresh (dom H) ∉ ptrs t.
Proof.
  intros HR Hin. apply (Rep_dom _ _ _ _ HR) in Hin.
  apply elem_of_dom in Hin. by apply is_fresh in Hin.
Qed.

Lemma fresh_lookup (H : gmap positive Node) : H !! fresh (dom H) = None.
Proof. apply not_elem_of_dom, is_fresh. Qed.

Lemma bind_CreateNode {B} k (f : ptr -> M B) H :
  bind (CreateNode k) f H =
  f (fresh (dom H)) (<[fresh (dom H) := mkNode k 0 1 0 None None None]> H).
Proof. reflexivity. Qed.

(** A new leaf hung to the left or to the right of the node where the
    descent stopped. *)
Lemma add_leaf_left H c cur kc r k :
  Rep H None (plug c (Fork Leaf cur kc r)) ->
  NoDup (ptrs (plug c (Fork Leaf cur kc r))) -> k < kc ->
  exists H',
    (let* to_add := CreateNode k in add_child cur to_add >> ret to_add) H
      = Some (fresh (dom H), H') /\
    Rep H' None (plug c (Fork (Fork Leaf (fresh (dom H)) k Leaf) cur kc r)) /\
    frame_of (ptrs (plug c (Fork Leaf cur kc r))) H H'.
Proof.
  intros HR Hnd Hlt.
  pose proof (Rep_fresh _ _ _ HR) as Hfresh.
  pose proof (fresh_lookup H) as Hnone.
  rewrite bind_CreateNode. unfold add_child.
  remember (fresh (dom H)) as p eqn:Ep. clear Ep.
  apply Rep_plug in HR. destruct HR as [HR HC]. simpl in HR.
  destruct HR as ((n & Hn & Kn & Pn & Ln & Rn) & _ & Rr).
  rewrite ptrs_plug in Hnd, Hfresh. simpl in Hnd, Hfresh. nd_norm.
  repeat mstep1.
  assert ((key n <? k) = false) as -> by (apply Z.ltb_ge; lia).
  assert ((k <? key n) = true) as -> by (apply Z.ltb_lt; lia).
  repeat mstep1. eexists. split; [reflexivity|]. split.
  - rep_solve.
  - intros q Hq Hs. rewrite ptrs_plug in Hq. simpl in Hq.
    autorewrite with nd in Hq.
    assert (q <> p) by (intros ->; rewrite Hnone in Hs; by apply is_Some_None in Hs).
    repeat match goal with Hx : _ /\ _ |- _ => destruct Hx end.
    lk. reflexivity.
Qed.

Lemma add_leaf_right H c l cur kc k :
  Rep H None (plug c (Fork l cur kc Leaf)) ->
  NoDup (ptrs (plug c (Fork l cur kc Leaf))) -> kc < k ->
  exists H',
    (let* to_add := CreateNode k in add_child cur to_add >> ret to_add) H
      = Some (fresh (dom H), H') /\
    Rep H' None (plug c (Fork l cur kc (Fork Leaf (fresh (dom H)) k Leaf))) /\
    frame_of (ptrs (plug c (Fork l cur kc Leaf))) H H'.
Proof.
  intros HR Hnd Hlt.
  pose proof (Rep_fresh _ _ _ HR) as Hfresh.
  pose proof (fresh_lookup H) as Hnone.
  rewrite bind_CreateNode. unfold add_child.
  remember (fresh (dom H)) as p eqn:Ep. clear Ep.
  apply Rep_plug in HR. destruct HR as [HR HC]. simpl in HR.
  destruct HR as ((n & Hn & Kn & Pn & Ln & Rn) & Rl & _).
  rewrite ptrs_plug in Hnd, Hfresh. simpl in Hnd, Hfresh. nd_norm.
  repeat mstep1.
  assert ((key n <? k) = true) as -> by (apply Z.ltb_lt; lia).
  repeat mstep1.
  assert ((k <? key n) = false) as -> by (apply Z.ltb_ge; lia).
  repeat mstep1. eexists. split; [reflexivity|]. split.
  - rep_solve.
  - intros q Hq Hs. rewrite ptrs_plug in Hq. simpl in Hq.
    autorewrite with nd in Hq.
    assert (q <> p) by (intros ->; rewrite Hnone in Hs; by apply is_Some_None in Hs).
    repeat match goal with Hx : _ /\ _ |- _ => destruct Hx end.
    lk. reflexivity.
Qed.

Lemma rootp_plug_fork c l p k r l' r' :
  rootp (plug c (Fork l p k r)) = rootp (plug c (Fork l' p k r')).
Proof.
  destruct c as [|f c]; [done|]. by apply rootp_plug_same.
Qed.

Lemma add_leaf_run H c cur kc l r k H1 (t1 : tree) :
  (exists H',
    (let* to_add := CreateNode k in add_child cur to_add >> ret to_add) H
      = Some (fresh (dom H), H') /\
    Rep H' None t1 /\ frame_of (ptrs (plug c (Fork l cur kc r))) H H') ->
  add_child cur (fresh (dom H)) (<[fresh (dom H) := mkNode k 0 1 0 None None None]> H)
    = Some (tt, H1) ->
  Rep H1 None t1 /\ frame_of (ptrs (plug c (Fork l cur kc r))) H H1.
Proof.
  intros (H' & E & HR & HF) Hadd. rewrite bind_CreateNode in E.
  apply bind_Some in E. destruct E as ([] & H2 & E & Er).
  apply ret_Some in Er. destruct Er as [_ ->].
  assert (H1 = H2) as -> by congruence. done.
Qed.

Lemma fits_not_in k c l p k' r :
  increasing (keys (plug c (Fork l p k' r))) -> fits k c ->
  (k < k' /\ l = Leaf) \/ (k' < k /\ r = Leaf) ->
  k ∉ keys (plug c (Fork l p k' r)).
Proof.
  intros Hinc [Fl Fr] Hcase.
  destruct (increasing_focus c l (p, k') r Hinc) as [Hlt Hgt]. simpl in Hlt, Hgt.
  rewrite keys_plug. simpl. intros Hin.
  apply elem_of_app in Hin. destruct Hin as [Hin|Hin].
  { specialize (Fl k Hin). lia. }
  apply elem_of_app in Hin. destruct Hin as [Hin|Hin]; [|specialize (Fr k Hin); lia].
  apply elem_of_app in Hin. destruct Hin as [Hin|Hin].
  - destruct Hcase as [[_ ->]|[? _]]; [by apply elem_of_nil in Hin|].
    specialize (Hlt k Hin). lia.
  - apply elem_of_cons in Hin. destruct Hin as [->|Hin].
    + destruct Hcase as [[? _]|[? _]]; lia.
    + destruct Hcase as [[? _]|[_ ->]]; [|by apply elem_of_nil in Hin].
      specialize (Hgt k Hin). lia.
Qed.

(** What the new leaf and the balancing walk after it add up to. *)
Lemma index_grow fuel H t t1 a k rt rt' H1 H2 A B :
  Rep H None t -> NoDup (ptrs t) -> H !! a = None ->
  kv_same (<[a := mkNode k 0 1 0 None None None]> H) H1 ->
  Rep H1 None t1 -> frame_of (ptrs t) H H1 ->
  ptrs t = A ++ B -> ptrs t1 = A ++ a :: B -> rootp t1 = rt ->
  insert_balance fuel a None a rt H1 = Some (rt', H2) ->
  kv_same (<[a := mkNode k 0 1 0 None None None]> H) H2 /\
  frame_of (ptrs t) H H2 /\
  (exists n, H2 !! a = Some n /\ key n = k /\ value n = 0) /\
  exists t2, Rep H2 None t2 /\ rootp t2 = rt' /\ NoDup (ptrs t2) /\
    ptrs t2 = A ++ a :: B /\ keys t2 = keys t1.
Proof.
  intros HR Hnd Hnone K1 HR1 HF1 EA EA1 Hroot Hb.
  assert (a ∉ ptrs t) as Hfresh.
  { intros Hin. destruct (Rep_dom _ _ _ _ HR Hin) as [x Hx]. congruence. }
  assert (NoDup (ptrs t1)) as Hnd1.
  { rewrite EA1. rewrite EA in Hnd, Hfresh. apply NoDup_app in Hnd.
    destruct Hnd as (NA & HAB & NB). apply NoDup_app. split; [done|]. split.
    - intros x Hx Hx'. apply elem_of_cons in Hx'. destruct Hx' as [->|Hx'].
      + apply Hfresh. apply elem_of_app. by left.
      + by eapply HAB.
    - apply NoDup_cons. split; [|done]. intros Hin. apply Hfresh.
      apply elem_of_app. by right. }
  destruct (insert_balance_inv fuel H1 t1 a None a rt rt' H2 HR1 Hnd1 Hroot)
    as (t2 & (HR2 & HP2 & HK2 & HF2) & Hroot2); try done.
  { rewrite EA1. apply elem_of_app. right. left. }
  assert (kv_same (<[a := mkNode k 0 1 0 None None None]> H) H2) as K2.
  { eapply kv_same_trans; [exact K1|]. by eapply keeps_kv_insert_balance. }
  split_and!.
  - exact K2.
  - intros q Hq Hs.
    assert (q <> a) by (intros ->; rewrite Hnone in Hs; by apply is_Some_None in Hs).
    rewrite <- (HF1 q Hq Hs). apply HF2.
    + rewrite EA1. rewrite EA in Hq. intros Hin. apply Hq.
      apply elem_of_app in Hin. apply elem_of_app. destruct Hin as [Hin|Hin]; [by left|].
      apply elem_of_cons in Hin. destruct Hin as [->|Hin]; [done|by right].
    + by rewrite (HF1 q Hq Hs).
  - destruct (kv_same_kept _ _ K2 a (mkNode k 0 1 0 None None None))
      as (n & Hn & Ek & Ev).
    { apply lookup_insert_eq. }
    by exists n.
  - exists t2. split_and!; try done; congruence.
Qed.

Lemma add_child_kv H cur k H1 :
  add_child cur (fresh (dom H)) (<[fresh (dom H) := mkNode k 0 1 0 None None None]> H)
    = Some (tt, H1) ->
  kv_same (<[fresh (dom H) := mkNode k 0 1 0 None None None]> H) H1.
Proof. apply keeps_kv_add_child. Qed.

(** [operator[]] either finds the key, and then changes nothing, or hangs
    one new node holding the key and the default value into the tree and
    rebalances; it rewrites no key or value of the nodes that were
    there. *)
Lemma index_store fuel m k H t p m' H' :
  tree_inv H (root m) t ->
  index fuel m k H = Some ((p, m'), H') ->
  (k ∈ keys t /\ H' = H /\ m' = m /\ p ∈ ptrs t /\
     exists n, H !! p = Some n /\ key n = k)
  \/
  ((k ∉ keys t) /\ H !! p = None /\ size_ m' = to_unsigned (size_ m + 1) /\
   kv_same (<[p := mkNode k 0 1 0 None None None]> H) H' /\ frame_of (ptrs t) H H' /\
   (exists n, H' !! p = Some n /\ key n = k /\ value n = 0) /\
   exists t' A B, tree_inv H' (root m') t' /\
     ptrs t = A ++ B /\ ptrs t' = A ++ p :: B).
Proof.
  intros (HR & Hroot & Hnd & Hinc) Hx. unfold index in Hx.
  destruct (root m) as [rt|] eqn:Hrt.
  - destruct t as [|l0 p0 k0 r0]; [done|]. simpl in Hroot.
    injection Hroot as ->.
    apply bind_Some in Hx. destruct Hx as ([[found cur] d] & H0 & Hd & Hx).
    destruct (descend_inv fuel k [] l0 rt k0 r0 0 H _ H0 HR Hinc (fits_nil k) Hd)
      as (-> & c & l & k' & r & Ht & Hfit & Hfound & Hnot).
    simpl in Ht, Hfound, Hnot.
    destruct found.
    + apply ret_Some in Hx. destruct Hx as [[= <- <-] <-]. left.
      rewrite (Hfound eq_refl) in Ht.
      split_and!; try done.
      * rewrite Ht, keys_plug. simpl. set_solver.
      * rewrite Ht, ptrs_plug. simpl. set_solver.
      * destruct (Rep_focus _ _ _ _ _ _ _ Ht HR) as (n & Hn & Kn & _). by exists n.
    + right. simpl in Ht. rewrite Ht in HR, Hnd, Hinc |- *.
      pose proof (fresh_lookup H) as Hnone.
      destruct (increasing_focus c l (cur, k') r Hinc) as [Hlt Hgt].
      simpl in Hlt, Hgt.
      pose proof (fits_not_in k c l cur k' r Hinc Hfit (Hnot eq_refl)) as Hnotin.
      rewrite bind_CreateNode in Hx.
      apply bind_Some in Hx. destruct Hx as ([] & H1 & Hadd & Hx).
      apply bind_Some in Hx. destruct Hx as (rt' & H2 & Hb & Hx).
      apply ret_Some in Hx. destruct Hx as [[= Ep Em] EH].
      pose proof (add_child_kv _ _ _ _ Hadd) as K1.
      remember (fresh (dom H)) as a eqn:Ea in *. subst p m' H'. simpl.
      destruct (Hnot eq_refl) as [[Hk ->]|[Hk ->]].
      * assert (Rep H1 None (plug c (Fork (Fork Leaf a k Leaf) cur k' r)) /\
                frame_of (ptrs (plug c (Fork Leaf cur k' r))) H H1) as [HR1 HF1].
        { subst a. eapply add_leaf_run; [|exact Hadd].
          by apply add_leaf_left. }
        destruct (index_grow fuel H _ _ a k (Some rt) rt' H1 H2
                    (cptrs_l c) (cur :: ptrs r ++ cptrs_r c)
                    HR Hnd Hnone K1 HR1 HF1)
          as (K2 & HF2 & Hnew & t2 & HR2 & Hroot2 & Hnd2 & HP2 & HK2); try done.
        { rewrite ptrs_plug. simpl. done. }
        { rewrite ptrs_plug. simpl. done. }
        { by rewrite (rootp_plug_fork c _ cur k' _ Leaf r), <- Ht. }
        split_and!; try done.
        exists t2, (cptrs_l c), (cur :: ptrs r ++ cptrs_r c). split_and!.
        -- split_and!; try done. rewrite HK2.
           rewrite keys_plug in Hinc |- *. simpl in Hinc |- *.
           destruct Hfit as [Fl Fr].
           apply (increasing_insert (ckeys_l c) k (k' :: keys r ++ ckeys_r c));
             [done|done|].
           intros b Hb'. apply elem_of_cons in Hb'. destruct Hb' as [->|Hb']; [done|].
           apply elem_of_app in Hb'. destruct Hb' as [Hb'|Hb']; [|by apply Fr].
           specialize (Hgt b Hb'). lia.
        -- rewrite ptrs_plug. simpl. done.
        -- done.
      * assert (Rep H1 None (plug c (Fork l cur k' (Fork Leaf a k Leaf))) /\
                frame_of (ptrs (plug c (Fork l cur k' Leaf))) H H1) as [HR1 HF1].
        { subst a. eapply add_leaf_run; [|exact Hadd].
          by apply add_leaf_right. }
        destruct (index_grow fuel H _ _ a k (Some rt) rt' H1 H2
                    (cptrs_l c ++ ptrs l ++ [cur]) (cptrs_r c)
                    HR Hnd Hnone K1 HR1 HF1)
          as (K2 & HF2 & Hnew & t2 & HR2 & Hroot2 & Hnd2 & HP2 & HK2); try done.
        { rewrite ptrs_plug. simpl. by rewrite <- !app_assoc. }
        { rewrite ptrs_plug. simpl. rewrite <- !app_assoc. simpl. done. }
        { by rewrite (rootp_plug_fork c _ cur k' _ l Leaf), <- Ht. }
        split_and!; try done.
        exists t2, (cptrs_l c ++ ptrs l ++ [cur]), (cptrs_r c). split_and!.
        -- split_and!; try done. rewrite HK2.
           rewrite keys_plug in Hinc |- *. simpl in Hinc |- *.
           destruct Hfit as [Fl Fr].
           replace (ckeys_l c ++ (keys l ++ k' :: [k]) ++ ckeys_r c)
             with ((ckeys_l c ++ keys l ++ [k']) ++ k :: ckeys_r c)
             by (rewrite <- ?app_assoc; simpl; rewrite <- ?app_assoc; reflexivity).
           apply increasing_insert; [| |done].
           ++ rewrite <- ?app_assoc. rewrite <- ?app_assoc in Hinc. exact Hinc.
           ++ intros b Hb'. apply elem_of_app in Hb'.
              destruct Hb' as [Hb'|Hb']; [by apply Fl|].
              apply elem_of_app in Hb'. destruct Hb' as [Hb'|Hb'].
              ** specialize (Hlt b Hb'). lia.
              ** apply list_elem_of_singleton in Hb'. lia.
        -- rewrite ptrs_plug. simpl. by rewrite <- !app_assoc.
        -- done.
  - right. apply rootp_None in Hroot. subst t.
    rewrite bind_CreateNode in Hx. apply ret_Some in Hx.
    destruct Hx as [[= Ep Em] EH]. subst p m' H'. simpl.
    pose proof (fresh_lookup H) as Hnone.
    split_and!; try done.
    + intros Hin. by apply elem_of_nil in Hin.
    + intros q _ Hs. apply lookup_insert_ne. intros <-.
      rewrite Hnone in Hs. by apply is_Some_None in Hs.
    + eexists. rewrite lookup_insert_eq. done.
    + exists (Fork Leaf (fresh (dom H)) k Leaf), [], []. split_and!; try done.
      split_and!; simpl; try done.
      * split_and!; try done. eexists. rewrite lookup_insert_eq. done.
      * apply NoDup_singleton.
Qed.

Lemma kv_same_insert_kept H H' p n :
  H !! p = None -> kv_same (<[p := n]> H) H' -> kv_kept H H'.
Proof.
  intros Hnone K q nq Hq. apply (kv_same_kept _ _ K).
  rewrite lookup_insert_ne; [done|]. congruence.
Qed.

Lemma index_cases fuel m k H t p m' H' :
  tree_inv H (root m) t ->
  index fuel m k H = Some ((p, m'), H') ->
  (k ∈ keys t /\ H' = H /\ m' = m /\ p ∈ ptrs t /\
     exists n, H !! p = Some n /\ key n = k)
  \/
  ((k ∉ keys t) /\ H !! p = None /\ size_ m' = to_unsigned (size_ m + 1) /\
   kv_kept H H' /\ frame_of (ptrs t) H H' /\
   (exists n, H' !! p = Some n /\ key n = k /\ value n = 0) /\
   exists t' A B, tree_inv H' (root m') t' /\
     ptrs t = A ++ B /\ ptrs t' = A ++ p :: B).
Proof.
  intros Hinv Hx.
  destruct (index_store _ _ _ _ _ _ _ _ Hinv Hx)
    as [?|(Hnot & Hnone & Hsz & K & HF & Hn & Ht)]; [by left|right].
  split_and!; try done. by eapply kv_same_insert_kept.
Qed.

(** [operator[]] keeps the tree of the map: afterwards the store holds a
    tree with increasing keys again, whose addresses are the old ones and
    possibly one that was not in use. *)
Lemma index_inv fuel m k H t p m' H' :
  tree_inv H (root m) t ->
  index fuel m k H = Some ((p, m'), H') ->
  exists t', tree_inv H' (root m') t' /\ p ∈ ptrs t' /\
    frame_of (ptrs t) H H' /\
    (forall q, q ∈ ptrs t' -> q ∈ ptrs t \/ H !! q = None).
Proof.
  intros Hinv Hx.
  destruct (index_cases _ _ _ _ _ _ _ _ Hinv Hx)
    as [(_ & -> & -> & Hp & _)|(_ & Hnone & _ & _ & HF & _ & t' & A & B & Hinv' & EA & EA')].
  - exists t. split; [done|]. split; [done|]. split; [apply frame_of_refl|]. by left.
  - exists t'. split_and!; try done.
    + rewrite EA'. set_solver.
    + intros q Hq. rewrite EA' in Hq. rewrite EA.
      apply elem_of_app in Hq. destruct Hq as [Hq|Hq]; [left; set_solver|].
      apply elem_of_cons in Hq. destruct Hq as [->|Hq]; [by right|left; set_solver].
Qed.
(** ** Cursors stay inside the tree *)

Lemma node_links H t p n :
  Rep H None t -> p ∈ ptrs t -> H !! p = Some n ->
  inside (ptrs t) (parent n) /\ inside (ptrs t) (left n) /\
  inside (ptrs t) (right n).
Proof.
  intros HR Hp Hn.
  destruct (Rep_cell _ _ _ _ HR Hp)
    as (k & pp & lp & rp & (n' & Hn' & _ & Ep & El & Er) & _ & Hl & Hr & Hpar).
  assert (n' = n) as -> by congruence. subst pp lp rp. split_and!.
  - destruct Hpar as [->|(q & -> & Hq)]; simpl; done.
  - destruct (left n); simpl; [by apply Hl|done].
  - destruct (right n); simpl; [by apply Hr|done].
Qed.

Lemma first_inside fuel : forall H t p q H',
  Rep H None t -> p ∈ ptrs t -> first fuel p H = Some (q, H') ->
  H' = H /\ q ∈ ptrs t.
Proof.
  induction fuel as [|fuel IH]; intros H t p q H' HR Hp Hx; simpl in Hx.
  - by apply fault_Some in Hx.
  - apply bind_Some in Hx. destruct Hx as (n & H0 & Hg & Hx).
    apply get_Some in Hg. destruct Hg as [Hn ->].
    destruct (node_links _ _ _ _ HR Hp Hn) as (_ & Hl & _).
    destruct (left n) as [l|]; simpl in Hl.
    + by eapply IH.
    + apply ret_Some in Hx. by destruct Hx as [-> ->].
Qed.

Lemma last_inside fuel : forall H t p q H',
  Rep H None t -> p ∈ ptrs t -> last fuel p H = Some (q, H') ->
  H' = H /\ q ∈ ptrs t.
Proof.
  induction fuel as [|fuel IH]; intros H t p q H' HR Hp Hx; simpl in Hx.
  - by apply fault_Some in Hx.
  - apply bind_Some in Hx. destruct Hx as (n & H0 & Hg & Hx).
    apply get_Some in Hg. destruct Hg as [Hn ->].
    destruct (node_links _ _ _ _ HR Hp Hn) as (_ & _ & Hr).
    destruct (right n) as [r|]; simpl in Hr.
    + by eapply IH.
    + apply ret_Some in Hx. by destruct Hx as [-> ->].
Qed.

Lemma up_left_inside fuel : forall H t s q H',
  Rep H None t -> inside (ptrs t) s -> up_left fuel s H = Some (q, H') ->
  H' = H /\ inside (ptrs t) q.
Proof.
  induction fuel as [|fuel IH]; intros H t s q H' HR Hs Hx; simpl in Hx.
  - by apply fault_Some in Hx.
  - destruct s as [s|].
    + apply bind_Some in Hx. destruct Hx as (b & H0 & Hb & Hx).
      apply read_only_is_left_child in Hb. subst H0.
      apply bind_Some in Hx. destruct Hx as (n & H0 & Hg & Hx).
      apply get_Some in Hg. destruct Hg as [Hn ->].
      destruct (node_links _ _ _ _ HR Hs Hn) as (Hpar & _ & _).
      destruct b.
      * apply ret_Some in Hx. by destruct Hx as [-> ->].
      * by eapply IH.
    + apply ret_Some in Hx. by destruct Hx as [-> ->].
Qed.

Lemma up_right_inside fuel : forall H t s q H',
  Rep H None t -> inside (ptrs t) s -> up_right fuel s H = Some (q, H') ->
  H' = H /\ inside (ptrs t) q.
Proof.
  induction fuel as [|fuel IH]; intros H t s q H' HR Hs Hx; simpl in Hx.
  - by apply fault_Some in Hx.
  - destruct s as [s|].
    + apply bind_Some in Hx. destruct Hx as (b & H0 & Hb & Hx).
      apply read_only_is_right_child in Hb. subst H0.
      apply bind_Some in Hx. destruct Hx as (n & H0 & Hg & Hx).
      apply get_Some in Hg. destruct Hg as [Hn ->].
      destruct (node_links _ _ _ _ HR Hs Hn) as (Hpar & _ & _).
      destruct b.
      * apply ret_Some in Hx. by destruct Hx as [-> ->].
      * by eapply IH.
    + apply ret_Some in Hx. by destruct Hx as [-> ->].
Qed.

Lemma increment_inside fuel H t p q H' :
  Rep H None t -> p ∈ ptrs t -> increment fuel p H = Some (q, H') ->
  H' = H /\ inside (ptrs t) q.
Proof.
  intros HR Hp Hx. unfold increment in Hx.
  apply bind_Some in Hx. destruct Hx as (n & H0 & Hg & Hx).
  apply get_Some in Hg. destruct Hg as [Hn ->].
  destruct (node_links _ _ _ _ HR Hp Hn) as (_ & _ & Hr).
  destruct (right n) as [r|]; simpl in Hr.
  - apply bind_Some in Hx. destruct Hx as (f & H0 & Hf & Hx).
    apply ret_Some in Hx. destruct Hx as [-> ->].
    simpl. by eapply first_inside.
  - eapply up_left_inside; [exact HR| |exact Hx]. exact Hp.
Qed.

Lemma decrement_inside fuel H t p q H' :
  Rep H None t -> p ∈ ptrs t -> decrement fuel p H = Some (q, H') ->
  H' = H /\ inside (ptrs t) q.
Proof.
  intros HR Hp Hx. unfold decrement in Hx.
  apply bind_Some in Hx. destruct Hx as (n & H0 & Hg & Hx).
  apply get_Some in Hg. destruct Hg as [Hn ->].
  destruct (node_links _ _ _ _ HR Hp Hn) as (_ & Hl & _).
  destruct (left n) as [l|]; simpl in Hl.
  - apply bind_Some in Hx. destruct Hx as (f & H0 & Hf & Hx).
    apply ret_Some in Hx. destruct Hx as [-> ->].
    simpl. by eapply last_inside.
  - eapply up_right_inside; [exact HR| |exact Hx]. exact Hp.
Qed.

Lemma descend_inside fuel : forall k H t p d res H',
  Rep H None t -> p ∈ ptrs t -> descend fuel k p d H = Some (res, H') ->
  H' = H /\ res.1.2 ∈ ptrs t.
Proof.
  induction fuel as [|fuel IH]; intros k H t p d res H' HR Hp Hx; simpl in Hx.
  - by apply fault_Some in Hx.
  - apply bind_Some in Hx. destruct Hx as (n & H0 & Hg & Hx).
    apply get_Some in Hg. destruct Hg as [Hn ->].
    destruct (node_links _ _ _ _ HR Hp Hn) as (_ & Hl & Hr).
    destruct (k =? key n).
    { apply ret_Some in Hx. by destruct Hx as [-> ->]. }
    destruct (k <? key n).
    + destruct (left n) as [l|]; simpl in Hl.
      * by eapply IH.
      * apply ret_Some in Hx. by destruct Hx as [-> ->].
    + destruct (right n) as [r|]; simpl in Hr.
      * by eapply IH.
      * apply ret_Some in Hx. by destruct Hx as [-> ->].
Qed.

Lemma find_inside fuel m k H t q H' :
  tree_inv H (root m) t -> find fuel m k H = Some (q, H') ->
  H' = H /\ inside (ptrs t) q.
Proof.
  intros (HR & Hroot & _) Hx. unfold find, search_node in Hx.
  apply bind_Some in Hx. destruct Hx as (s & H0 & Hs & Hx).
  destruct (root m) as [rt|].
  - apply bind_Some in Hs. destruct Hs as ([[found cur] d] & H1 & Hd & Hs).
    apply rootp_ptrs in Hroot.
    destruct (descend_inside _ _ _ _ _ _ _ _ HR Hroot Hd) as [-> Hc].
    simpl in Hc. destruct found.
    + apply ret_Some in Hs. destruct Hs as [-> ->].
      apply ret_Some in Hx. by destruct Hx as [-> ->].
    + apply ret_Some in Hs. destruct Hs as [-> ->].
      apply ret_Some in Hx. by destruct Hx as [-> ->].
  - apply ret_Some in Hs. destruct Hs as [-> ->].
    apply ret_Some in Hx. by destruct Hx as [-> ->].
Qed.

Lemma begin_inside fuel m H t q H' :
  tree_inv H (root m) t -> begin fuel m H = Some (q, H') ->
  H' = H /\ inside (ptrs t) q.
Proof.
  intros (HR & Hroot & _) Hx. unfold begin in Hx.
  destruct (root m) as [rt|].
  - apply bind_Some in Hx. destruct Hx as (f & H0 & Hf & Hx).
    apply ret_Some in Hx. destruct Hx as [-> ->].
    apply rootp_ptrs in Hroot. simpl. by eapply first_inside.
  - apply ret_Some in Hx. by destruct Hx as [-> ->].
Qed.

Lemma eval_cursor_inside fuel m c : forall H t q H',
  tree_inv H (root m) t -> eval_cursor fuel m c H = Some (q, H') ->
  H' = H /\ inside (ptrs t) q.
Proof.
  induction c as [| |k|c IH|c IH]; intros H t q H' Hinv Hx; simpl in Hx.
  - apply ret_Some in Hx. by destruct Hx as [-> ->].
  - by eapply begin_inside.
  - by eapply find_inside.
  - apply bind_Some in Hx. destruct Hx as (it & H0 & Hc & Hx).
    destruct (IH _ _ _ _ Hinv Hc) as [-> Hit].
    destruct it as [p|]; [|by apply fault_Some in Hx].
    eapply increment_inside; [apply Hinv|exact Hit|exact Hx].
  - apply bind_Some in Hx. destruct Hx as (it & H0 & Hc & Hx).
    destruct (IH _ _ _ _ Hinv Hc) as [-> Hit].
    destruct it as [p|]; [|by apply fault_Some in Hx].
    eapply decrement_inside; [apply Hinv|exact Hit|exact Hx].
Qed.
(** ** Erasing keeps the tree *)

(** The three shapes of a node with at most one child. *)
Lemma one_child_cases H par l r (P : Prop) :
  l = Leaf \/ r = Leaf -> Rep H par l -> Rep H par r ->
  (l = Leaf -> r = Leaf -> P) ->
  (forall a p k b n, l = Leaf -> r = Fork a p k b -> H !! p = Some n ->
     parent n = par -> left n = rootp a -> right n = rootp b ->
     key n = k -> Rep H (Some p) a -> Rep H (Some p) b -> P) ->
  (forall a p k b n, r = Leaf -> l = Fork a p k b -> H !! p = Some n ->
     parent n = par -> left n = rootp a -> right n = rootp b ->
     key n = k -> Rep H (Some p) a -> Rep H (Some p) b -> P) ->
  P.
Proof.
  intros Hleaf Rl Rr P0 P1 P2.
  destruct Hleaf as [-> | ->].
  - destruct r as [|a p k b]; [by apply P0|].
    destruct Rr as ((n & Hn & Kn & Pn & Ln & Rn) & Ra & Rb). by eapply P1.
  - destruct l as [|a p k b]; [by apply P0|].
    destruct Rl as ((n & Hn & Kn & Pn & Ln & Rn) & Ra & Rb). by eapply P2.
Qed.

(** Reading the pair of a node after a run of writes and one release. *)
Ltac kv_solve :=
  let q := fresh "q" in
  let Hq := fresh "Hq" in
  intros q Hq; unfold kv_of;
  rewrite ?lookup_delete_ne by congruence;
  repeat match goal with
  | |- context [<[?a := _]> _ !! q] =>
      destruct (decide (q = a)) as [->|?];
      [rewrite lookup_insert_eq|rewrite lookup_insert_ne by congruence]
  end;
  try match goal with
  | Hx : ?H !! ?a = Some _ |- context [?H !! ?a] => rewrite Hx
  end;
  reflexivity.

Lemma erase_simple fuel m H c l node k r :
  Rep H None (plug c (Fork l node k r)) ->
  NoDup (ptrs (plug c (Fork l node k r))) ->
  rootp (plug c (Fork l node k r)) = root m ->
  l = Leaf \/ r = Leaf ->
  exists H',
    erase (S fuel) m (Some node) H =
      Some (mkMap (rootp (plug c (graft l r))) (to_unsigned (size_ m - 1)), H') /\
    Rep H' None (plug c (graft l r)) /\
    frame_of (ptrs (plug c (Fork l node k r))) H H' /\
    (forall q, q <> node -> kv_of H' q = kv_of H q) /\
    H' !! node = None.
Proof.
  intros HR Hnd Hroot Hleaf. pose proof HR as HR0.
  apply Rep_plug in HR. destruct HR as [HR HC].
  simpl in HR. destruct HR as ((n & Hn & Kn & Pn & Ln & Rn) & Rl & Rr).
  rewrite ptrs_plug in Hnd. simpl in Hnd.
  cbn [erase]. mstep1. unfold has_children, get_only_child.
  unfold is_left_child, is_right_child.
  rewrite Ln, Rn.
  destruct c as [|[q kq rq|lq q kq] c]; simpl in HC, Hnd, Pn, Hroot |- *;
    rewrite Pn.
  - rewrite <- Hroot, (bool_decide_true (Some node = Some node)) by done.
    apply (one_child_cases _ _ _ _ _ Hleaf Rl Rr).
    + intros -> ->. simpl in Hnd |- *. nd_norm.
      repeat (first [mstep1 | rewrite Pn]).
      eexists. split; [reflexivity|]. split; [done|].
      split; [frame_solve|]. split; [kv_solve|apply lookup_delete_eq].
    + intros a p kp b np -> -> Hp Pp Lp Rp Kp Ra Rb. simpl in Hnd |- *. nd_norm.
      repeat (first [mstep1 | rewrite Pn]).
      eexists. split; [reflexivity|]. split.
      { split_and!; [cell_solve|rep_frame|rep_frame]. }
      split; [frame_solve|]. split; [kv_solve|apply lookup_delete_eq].
    + intros a p kp b np -> -> Hp Pp Lp Rp Kp Ra Rb. simpl in Hnd |- *. nd_norm.
      repeat (first [mstep1 | rewrite Pn]).
      eexists. split; [reflexivity|]. split.
      { split_and!; [cell_solve|rep_frame|rep_frame]. }
      split; [frame_solve|]. split; [kv_solve|apply lookup_delete_eq].
  - assert (root m <> Some node) as Hne.
    { intros E. rewrite E in Hroot.
      pose proof (root_no_parent _ _ _ _ HR0 Hroot Hn). congruence. }
    rewrite (rootp_plug_fork c _ q kq _ (graft l r) rq) in Hroot.
    rewrite (bool_decide_false _ Hne), <- Hroot.
    destruct HC as ((nq & Hq & Kq & Pq & Lq & Rq) & Rrq & HC).
    assert (rootp rq <> Some node) as Hrq by (apply rootp_ne; nd_norm; nd_solve).
    apply (one_child_cases _ _ _ _ _ Hleaf Rl Rr);
      [intros -> -> | intros a p kp b np -> -> Hp Pp Lp Rp Kp Ra Rb ..];
      simpl in Hnd |- *; nd_norm;
      repeat (first [mstep1 | rewrite Pn | rewrite Lq, bool_decide_true by done
                    | rewrite Rq, bool_decide_false by done]);
      (eexists; split; [reflexivity|]; split; [rep_solve|];
       split; [frame_solve|]; split; [kv_solve|apply lookup_delete_eq]).
  - assert (root m <> Some node) as Hne.
    { intros E. rewrite E in Hroot.
      pose proof (root_no_parent _ _ _ _ HR0 Hroot Hn). congruence. }
    rewrite (rootp_plug_fork c lq q kq _ lq (graft l r)) in Hroot.
    rewrite (bool_decide_false _ Hne), <- Hroot.
    destruct HC as ((nq & Hq & Kq & Pq & Lq & Rq) & Rlq & HC).
    assert (rootp lq <> Some node) as Hlq by (apply rootp_ne; nd_norm; nd_solve).
    apply (one_child_cases _ _ _ _ _ Hleaf Rl Rr);
      [intros -> -> | intros a p kp b np -> -> Hp Pp Lp Rp Kp Ra Rb ..];
      simpl in Hnd |- *; nd_norm;
      repeat (first [mstep1 | rewrite Pn | rewrite Lq, bool_decide_false by done
                    | rewrite Rq, bool_decide_true by done]);
      (eexists; split; [reflexivity|]; split; [rep_solve|];
       split; [frame_solve|]; split; [kv_solve|apply lookup_delete_eq]).
Qed.

Lemma plug_app c1 c2 t : plug (c1 ++ c2) t = plug c2 (plug c1 t).
Proof. revert t. induction c1 as [|f c1 IH]; intros t; simpl; [done|apply IH]. Qed.

Lemma ckeys_l_app c1 c2 : ckeys_l (c1 ++ c2) = ckeys_l c2 ++ ckeys_l c1.
Proof.
  induction c1 as [|[p k r|l p k] c1 IH]; simpl.
  - by rewrite app_nil_r.
  - done.
  - by rewrite IH, <- !app_assoc.
Qed.

Lemma ckeys_r_app c1 c2 : ckeys_r (c1 ++ c2) = ckeys_r c1 ++ ckeys_r c2.
Proof.
  induction c1 as [|[p k r|l p k] c1 IH]; simpl; [done| |done].
  by rewrite IH, <- !app_assoc.
Qed.

Lemma cptrs_l_app c1 c2 : cptrs_l (c1 ++ c2) = cptrs_l c2 ++ cptrs_l c1.
Proof.
  induction c1 as [|[p k r|l p k] c1 IH]; simpl.
  - by rewrite app_nil_r.
  - done.
  - by rewrite IH, <- !app_assoc.
Qed.

Lemma cptrs_r_app c1 c2 : cptrs_r (c1 ++ c2) = cptrs_r c1 ++ cptrs_r c2.
Proof.
  induction c1 as [|[p k r|l p k] c1 IH]; simpl; [done| |done].
  by rewrite IH, <- !app_assoc.
Qed.

(** [last] walks down the right spine: the node it returns has no right
    child and nothing of the subtree lies to its right. *)
Lemma last_spine fuel : forall H c a p k b q H',
  Rep H None (plug c (Fork a p k b)) ->
  last fuel p H = Some (q, H') ->
  H' = H /\ exists cl ll kq,
    Fork a p k b = plug cl (Fork ll q kq Leaf) /\
    ckeys_r cl = [] /\ cptrs_r cl = [].
Proof.
  induction fuel as [|fuel IH]; intros H c a p k b q H' HR Hx; simpl in Hx.
  - by apply fault_Some in Hx.
  - apply bind_Some in Hx. destruct Hx as (n & H0 & Hg & Hx).
    apply get_Some in Hg. destruct Hg as [Hn ->].
    destruct (Rep_focus _ _ _ _ _ _ _ eq_refl HR) as (n' & Hn' & _ & _ & _ & Hr).
    assert (n' = n) as -> by congruence. rewrite Hr in Hx.
    destruct b as [|b1 pb kb b2]; simpl in Hx.
    + apply ret_Some in Hx. destruct Hx as [-> ->]. split; [done|].
      by exists [], a, k.
    + destruct (IH H (FrR a p k :: c) b1 pb kb b2 q H' HR Hx)
        as (-> & cl & ll & kq & E & Ek & Ep).
      split; [done|]. exists (cl ++ [FrR a p k]), ll, kq.
      rewrite plug_app, ckeys_r_app, cptrs_r_app, Ek, Ep, <- E. done.
Qed.

Lemma Rep_rekey H c l p k r n n' k' :
  Rep H None (plug c (Fork l p k r)) ->
  NoDup (ptrs (plug c (Fork l p k r))) ->
  H !! p = Some n -> key n' = k' -> parent n' = parent n ->
  left n' = left n -> right n' = right n ->
  Rep (<[p := n']> H) None (plug c (Fork l p k' r)).
Proof.
  intros HR Hnd Hn Ek Ep El Er.
  apply Rep_plug in HR. destruct HR as [HR HC]. simpl in HR.
  destruct HR as ((n0 & Hn0 & K0 & P0 & L0 & R0) & Rl & Rr).
  assert (n0 = n) as -> by congruence.
  rewrite ptrs_plug in Hnd. simpl in Hnd. nd_norm.
  apply Rep_plug. simpl. split_and!.
  - eexists. rewrite lookup_insert_eq. split; [done|]. split_and!; congruence.
  - rep_frame.
  - rep_frame.
  - destruct c as [|[q kq rq|lq q kq] c]; simpl in *; [done| |].
    + destruct HC as ((nq & Hq & Kq & Pq & Lq & Rq) & Rrq & HC). nd_norm.
      split_and!; [|rep_frame|ctx_frame].
      exists nq. rewrite lookup_insert_ne by congruence. done.
    + destruct HC as ((nq & Hq & Kq & Pq & Lq & Rq) & Rlq & HC). nd_norm.
      split_and!; [|rep_frame|ctx_frame].
      exists nq. rewrite lookup_insert_ne by congruence. done.
Qed.

Lemma rootp_plug_key c l p k k' r :
  rootp (plug c (Fork l p k r)) = rootp (plug c (Fork l p k' r)).
Proof.
  destruct c as [|f c]; [done|]. by apply rootp_plug_same.
Qed.

Lemma keys_graft l r : l = Leaf \/ r = Leaf -> keys (graft l r) = keys l ++ keys r.
Proof.
  intros [-> | ->]; [done|]. destruct l; simpl; [done|]. by rewrite app_nil_r.
Qed.

Lemma ptrs_graft l r q : q ∈ ptrs (graft l r) -> q ∈ ptrs l ++ ptrs r.
Proof. destruct l; simpl; set_solver. Qed.

Lemma NoDup_graft c l p k r :
  NoDup (ptrs (plug c (Fork l p k r))) -> NoDup (ptrs (plug c (graft l r))).
Proof.
  rewrite !ptrs_plug. simpl. intros Hnd. nd_norm.
  destruct l; simpl in *; nd_norm; nd_solve.
Qed.

Lemma ptrs_graft_eq l r : l = Leaf \/ r = Leaf -> ptrs (graft l r) = ptrs l ++ ptrs r.
Proof.
  intros [-> | ->]; [done|]. destruct l; simpl; [done|]. by rewrite app_nil_r.
Qed.

Lemma kv_of_None H q : kv_of H q = None <-> H !! q = None.
Proof. unfold kv_of. destruct (H !! q); simpl; split; congruence. Qed.

Lemma map_node_pair_but (H H1 : gmap positive Node) node (ps : list positive) :
  (forall q, q <> node -> kv_of H1 q = kv_of H q) -> node ∉ ps ->
  map (node_pair H1) ps = map (node_pair H) ps.
Proof.
  intros Hkv Hnot. apply map_node_pair_ext. intros q Hq. unfold node_pair.
  rewrite Hkv; [done|]. by intros ->.
Qed.

(** Erasing a node with at most one child, in terms of the pairs of the
    tree: the pair of the node goes, the others stay in place. *)
Lemma erase_simple_pairs fuel m H c l node k r :
  Rep H None (plug c (Fork l node k r)) ->
  NoDup (ptrs (plug c (Fork l node k r))) ->
  rootp (plug c (Fork l node k r)) = root m ->
  l = Leaf \/ r = Leaf ->
  exists H',
    erase (S fuel) m (Some node) H =
      Some (mkMap (rootp (plug c (graft l r))) (to_unsigned (size_ m - 1)), H') /\
    Rep H' None (plug c (graft l r)) /\
    frame_of (ptrs (plug c (Fork l node k r))) H H' /\
    contents H' (plug c (graft l r)) =
      map (node_pair H) (cptrs_l c ++ ptrs l) ++
      map (node_pair H) (ptrs r ++ cptrs_r c) /\
    (forall q, H' !! q = None <-> q = node \/ H !! q = None).
Proof.
  intros HR Hnd Hroot Hleaf.
  destruct (erase_simple fuel m H c l node k r HR Hnd Hroot Hleaf)
    as (H' & E & HR' & HF & Hkv & Hgone).
  exists H'. split_and!; try done.
  - unfold contents. rewrite ptrs_plug, (ptrs_graft_eq _ _ Hleaf).
    rewrite ptrs_plug in Hnd. simpl in Hnd.
    replace (cptrs_l c ++ (ptrs l ++ ptrs r) ++ cptrs_r c)
      with ((cptrs_l c ++ ptrs l) ++ (ptrs r ++ cptrs_r c))
      by (by rewrite <- !app_assoc).
    rewrite map_app. clear HR HR' HF Hgone E Hroot.
    f_equal; apply (map_node_pair_but _ _ node); try done; nd_norm; nd_solve.
  - intros q. destruct (decide (q = node)) as [->|Hne]; [tauto|].
    rewrite <- (kv_of_None H' q), (Hkv q Hne), kv_of_None. tauto.
Qed.

(** Erasing the node in focus: what is left is a tree again; its pairs
    are the old ones without the pair that was in focus, the size field
    goes down by one, and exactly one node is released. *)
Lemma erase_node_inv fuel m H c l node k r m' H' :
  Rep H None (plug c (Fork l node k r)) ->
  NoDup (ptrs (plug c (Fork l node k r))) ->
  rootp (plug c (Fork l node k r)) = root m ->
  erase fuel m (Some node) H = Some (m', H') ->
  exists t', Rep H' None t' /\ rootp t' = root m' /\ NoDup (ptrs t') /\
    keys t' = ckeys_l c ++ keys l ++ keys r ++ ckeys_r c /\
    (forall q, q ∈ ptrs t' -> q ∈ ptrs (plug c (Fork l node k r))) /\
    frame_of (ptrs (plug c (Fork l node k r))) H H' /\
    size_ m' = to_unsigned (size_ m - 1) /\
    contents H' t' =
      map (node_pair H) (cptrs_l c ++ ptrs l) ++
      map (node_pair H) (ptrs r ++ cptrs_r c) /\
    exists gone, gone ∈ ptrs (plug c (Fork l node k r)) /\
      forall q, H' !! q = None <-> q = gone \/ H !! q = None.
Proof.
  intros HR Hnd Hroot Hx.
  destruct fuel as [|fuel]; [by apply fault_Some in Hx|].
  assert (l = Leaf \/ r = Leaf \/ (l <> Leaf /\ r <> Leaf)) as [Hl|[Hr|[Hl Hr]]]
    by (destruct l, r; auto).
  1,2: destruct (erase_simple_pairs fuel m H c l node k r HR Hnd Hroot)
         as (H1 & E & HR1 & HF1 & Hc1 & Hg1); [tauto|];
       rewrite E in Hx; injection Hx as <- <-;
       exists (plug c (graft l r)); split_and!;
         [done|done|by apply (NoDup_graft c l node k r)
         |rewrite keys_plug, keys_graft by tauto; by rewrite <- !app_assoc
         | |done|done|done|];
       [intros q; rewrite !ptrs_plug; simpl; intros Hq;
        apply elem_of_app in Hq; destruct Hq as [Hq|Hq]; [set_solver|];
        apply elem_of_app in Hq; destruct Hq as [Hq|Hq]; [|set_solver];
        apply ptrs_graft in Hq; set_solver
       |exists node; split; [rewrite ptrs_plug; simpl; set_solver|done]].
  destruct l as [|la lp lk lb]; [done|]. destruct r as [|ra rp rk rb]; [done|].
  clear Hl Hr. simpl in Hx.
  apply bind_Some in Hx. destruct Hx as (n & H0 & Hg & Hx).
  apply get_Some in Hg. destruct Hg as [Hn ->].
  destruct (Rep_focus _ _ _ _ _ _ _ eq_refl HR) as (n' & Hn' & Kn & Pn & Ln & Rn).
  assert (n' = n) as -> by congruence. simpl in Ln, Rn.
  unfold has_children, get_only_child in Hx. rewrite Ln, Rn in Hx. simpl in Hx.
  apply bind_Some in Hx. destruct Hx as (pred & H0 & Hlast & Hx).
  destruct (last_spine fuel H (FrL node k (Fork ra rp rk rb) :: c) la lp lk lb
              pred H0 HR Hlast) as (-> & cl & ll & kq & El & Ek & Ep).
  rewrite El in HR, Hnd, Hroot |- *.
  change (plug c (Fork (plug cl (Fork ll pred kq Leaf)) node k (Fork ra rp rk rb)))
    with (plug (FrL node k (Fork ra rp rk rb) :: c) (plug cl (Fork ll pred kq Leaf)))
    in HR.
  rewrite <- plug_app in HR.
  destruct (Rep_focus _ _ _ _ _ _ _ eq_refl HR) as (np & Hp & Kp & _).
  assert (pred <> node) as Hne.
  { pose proof Hnd as Hnd'. rewrite ptrs_plug in Hnd'. simpl in Hnd'.
    rewrite ptrs_plug in Hnd'. simpl in Hnd'.
    autorewrite with nd in Hnd'. intros ->. tauto. }
  apply bind_Some in Hx. destruct Hx as (np1 & H0 & Hg & Hx).
  apply get_Some in Hg. destruct Hg as [Hp1 ->].
  assert (np1 = np) as -> by congruence.
  apply bind_Some in Hx. destruct Hx as ([] & H1 & Hu & Hx).
  apply upd_Some in Hu. destruct Hu as (n1 & Hn1 & ->).
  assert (n1 = n) as -> by congruence.
  apply bind_Some in Hx. destruct Hx as (np2 & H0 & Hg & Hx).
  apply get_Some in Hg. destruct Hg as [Hp2 ->].
  rewrite lookup_insert_ne in Hp2 by done.
  assert (np2 = np) as -> by congruence.
  apply bind_Some in Hx. destruct Hx as ([] & H2 & Hu & Hx).
  apply upd_Some in Hu. destruct Hu as (n2 & Hn2 & ->).
  rewrite lookup_insert_eq in Hn2. injection Hn2 as <-.
  rewrite insert_insert_eq in Hx.
  destruct fuel as [|fuel]; [by apply fault_Some in Hx|].
  rewrite plug_app in HR. simpl in HR.
  pose proof (Rep_rekey H c _ node k _ n
                (set_value (value np) (set_key (key np) n)) kq HR Hnd Hn Kp
                eq_refl eq_refl eq_refl) as HR1.
  change (plug c (Fork (plug cl (Fork ll pred kq Leaf)) node kq (Fork ra rp rk rb)))
    with (plug (FrL node kq (Fork ra rp rk rb) :: c) (plug cl (Fork ll pred kq Leaf)))
    in HR1.
  rewrite <- plug_app in HR1.
  assert (forall x, ptrs (plug (cl ++ FrL node x (Fork ra rp rk rb) :: c)
                             (Fork ll pred kq Leaf)) =
                    ptrs (plug c (Fork (plug cl (Fork ll pred kq Leaf)) node k
                                       (Fork ra rp rk rb)))) as Eptrs.
  { intros x. rewrite plug_app. simpl. by rewrite !ptrs_plug. }
  set (H2 := <[node := set_value (value np) (set_key (key np) n)]> H) in *.
  destruct (erase_simple_pairs fuel m H2 _ ll pred kq Leaf HR1)
    as (H3 & E & HR3 & HF3 & Hc3 & Hg3).
  { by rewrite Eptrs. }
  { rewrite <- Hroot, plug_app. simpl. apply rootp_plug_key. }
  { by right. }
  rewrite E in Hx. injection Hx as <- <-.
  exists (plug (cl ++ FrL node kq (Fork ra rp rk rb) :: c) (graft ll Leaf)).
  split_and!.
  - done.
  - done.
  - apply (NoDup_graft _ ll pred kq Leaf). by rewrite Eptrs.
  - rewrite keys_plug, keys_graft, ckeys_l_app, ckeys_r_app, Ek by tauto.
    rewrite keys_plug, Ek. simpl.
    repeat (rewrite app_nil_r || rewrite <- app_assoc || simpl). done.
  - intros q Hq. rewrite <- (Eptrs kq). revert Hq.
    rewrite !ptrs_plug. simpl. intros Hq.
    apply elem_of_app in Hq. destruct Hq as [Hq|Hq]; [set_solver|].
    apply elem_of_app in Hq. destruct Hq as [Hq|Hq]; [|set_solver].
    apply ptrs_graft in Hq. set_solver.
  - apply (frame_of_trans _ _ H2).
    + apply frame_of_insert. rewrite ptrs_plug. simpl. set_solver.
    + by rewrite <- (Eptrs kq).
  - done.
  - rewrite Hc3. rewrite cptrs_l_app, cptrs_r_app, Ep. simpl.
    rewrite ptrs_plug, Ep. simpl.
    pose proof Hnd as Hnd'. rewrite ptrs_plug in Hnd'. simpl in Hnd'.
    rewrite ptrs_plug, Ep in Hnd'. simpl in Hnd'.
    rewrite !app_nil_r in *.
    assert (node_pair H2 node = node_pair H pred) as Enode.
    { rewrite (node_pair_lookup H2 node (set_value (value np) (set_key (key np) n)))
        by apply lookup_insert_eq.
      by rewrite (node_pair_lookup _ _ _ Hp). }
    assert (forall ps, node ∉ ps -> map (node_pair H2) ps = map (node_pair H) ps)
      as Hsame.
    { intros ps Hps. apply map_node_pair_ext. intros q Hq.
      unfold node_pair, kv_of, H2. rewrite lookup_insert_ne; [done|].
      by intros <-. }
    assert (node ∉ (cptrs_l c ++ cptrs_l cl) ++ ptrs ll) as N1
      by (clear -Hnd'; nd_norm; nd_solve).
    assert (node ∉ (ptrs ra ++ rp :: ptrs rb) ++ cptrs_r c) as N2
      by (clear -Hnd'; nd_norm; nd_solve).
    rewrite Enode, (Hsame _ N1), (Hsame _ N2).
    rewrite !map_app. simpl. rewrite <- !app_assoc. simpl. done.
  - exists pred. split.
    + rewrite ptrs_plug. simpl. rewrite ptrs_plug. simpl. set_solver.
    + intros q. rewrite (Hg3 q). unfold H2.
      destruct (decide (q = node)) as [->|Hq].
      * rewrite lookup_insert_eq, Hn. split; intros [?|?]; auto; done.
      * by rewrite lookup_insert_ne.
Qed.

(** [erase] keeps the tree of the map. *)
Lemma erase_inv fuel m it H t m' H' :
  tree_inv H (root m) t -> inside (ptrs t) it ->
  erase fuel m it H = Some (m', H') ->
  exists t', tree_inv H' (root m') t' /\
    (forall q, q ∈ ptrs t' -> q ∈ ptrs t) /\ frame_of (ptrs t) H H'.
Proof.
  intros (HR & Hroot & Hnd & Hinc) Hit Hx.
  destruct it as [node|].
  - simpl in Hit. destruct (focus _ _ Hit) as (c & l & k & r & ->).
    destruct (erase_node_inv _ _ _ _ _ _ _ _ _ _ HR Hnd Hroot Hx)
      as (t' & HR' & Hroot' & Hnd' & Hk' & Hsub & HF & _).
    exists t'. split; [|done]. split_and!; try done.
    rewrite Hk'. rewrite keys_plug in Hinc. simpl in Hinc.
    assert (forall (A B C D : list Z) x,
              A ++ (B ++ x :: C) ++ D = (A ++ B) ++ x :: (C ++ D)) as E
      by (intros; rewrite <- !app_assoc; done).
    rewrite E in Hinc. apply increasing_remove in Hinc.
    by rewrite <- app_assoc in Hinc.
  - destruct fuel as [|fuel]; [by apply fault_Some in Hx|]. simpl in Hx.
    apply ret_Some in Hx. destruct Hx as [-> ->].
    exists t. split; [done|]. split; [done|]. apply frame_of_refl.
Qed.
(** ** Frames of the store *)

Lemma tree_inv_links_kept H H' rt t :
  links_kept H H' -> tree_inv H rt t -> tree_inv H' rt t.
Proof.
  intros K (HR & Hroot & Hnd & Hinc). split_and!; try done.
  by eapply Rep_links_kept.
Qed.

Lemma children_inside H t p n q :
  Rep H None t -> p ∈ ptrs t -> H !! p = Some n -> q ∈ children n -> q ∈ ptrs t.
Proof.
  intros HR Hp Hn Hq.
  destruct (node_links _ _ _ _ HR Hp Hn) as (_ & Hl & Hr).
  unfold children in Hq. apply elem_of_app in Hq.
  destruct Hq as [Hq|Hq].
  - destruct (left n); simpl in Hl; [|by apply elem_of_nil in Hq].
    apply list_elem_of_singleton in Hq. by subst.
  - destruct (right n); simpl in Hr; [|by apply elem_of_nil in Hq].
    apply list_elem_of_singleton in Hq. by subst.
Qed.

Lemma frame_of_grow (ps ps1 : list positive) H H1 H2 :
  frame_of ps H H1 ->
  (forall q, q ∈ ps1 -> q ∈ ps \/ H !! q = None) ->
  frame_of ps1 H1 H2 -> frame_of ps H H2.
Proof.
  intros F1 Hnew F2 q Hq Hs. rewrite <- (F1 q Hq Hs). apply F2.
  - intros Hq1. destruct (Hnew q Hq1) as [Hin|Hnone]; [done|].
    rewrite Hnone in Hs. by apply is_Some_None in Hs.
  - by rewrite (F1 q Hq Hs).
Qed.

Lemma fresh_grow (ps ps1 ps2 : list positive) (H H1 : gmap positive Node) :
  frame_of ps H H1 ->
  (forall q, q ∈ ps1 -> q ∈ ps \/ H !! q = None) ->
  (forall q, q ∈ ps2 -> q ∈ ps1 \/ H1 !! q = None) ->
  forall q, q ∈ ps2 -> q ∈ ps \/ H !! q = None.
Proof.
  intros F1 Hnew1 Hnew2 q Hq.
  destruct (Hnew2 q Hq) as [Hin|Hnone]; [by apply Hnew1|].
  destruct (decide (q ∈ ps)) as [Hin|Hout]; [by left|right].
  destruct (H !! q) as [n|] eqn:E; [|done].
  rewrite (F1 q Hout) in Hnone by (by rewrite E). congruence.
Qed.

(** Another tree of the store, apart from the one being changed, stays
    what it was. *)
Lemma Rep_frame_of ps H H' par t :
  frame_of ps H H' -> disj (ptrs t) ps -> Rep H par t -> Rep H' par t.
Proof.
  intros F Hd HR. eapply Rep_agree; [|exact HR].
  intros p Hp. apply F; [by apply Hd|by eapply Rep_dom].
Qed.

Lemma tree_inv_Leaf H : tree_inv H None Leaf.
Proof. split_and!; simpl; try done. apply NoDup_nil_2. Qed.

(** * The claims *)

(** C1 (the code departs from the claim): the copy constructor starts
    [size_] at [rhs.size_] and then re-inserts every pair through the
    indexer, which counts each of them again.  For a one-element map the
    copy holds the same pair in one reachable node, yet reports size 2. *)
Theorem C1_copy_construct_counts_twice :
  result (let* (a, b) := copy_of_singleton 50 in
          let* pa := pairs 50 (root a) in
          let* pb := pairs 50 (root b) in
          let* n := count_nodes 50 (root b) in
          ret (pa, pb, size a, n, size b)) ∅
  = Some ([(7, 70)], [(7, 70)], 1, 1, 2).
Proof. vm_compute. reflexivity. Qed.

(** C2 (the code departs from the claim): [sanityCheck] compares the
    values of a node and its children, not their keys.  After [m[2]; m[1];]
    the tree has distinct keys in search-tree order and as many nodes as
    [size_], and the check answers false; on a two-node store whose left
    child holds the larger key it answers true. *)
Theorem C2_sanityCheck_compares_values :
  result (let* m := insert_all 50 [2; 1] empty_map in
          let* ks := keys_in_order 50 m in
          let* o := ordered 50 (root m) None None in
          let* n := count_nodes 50 (root m) in
          let* s := sanityCheck 50 m in
          ret (ks, o, n, size m, s)) ∅
  = Some ([1; 2], true, 2, 2, false)
  /\ result (let* o := ordered 50 (root misordered_map) None None in
             let* s := sanityCheck 50 misordered_map in
             ret (o, s)) misordered_store
     = Some (false, true).
Proof. split; vm_compute; reflexivity. Qed.

(** C3 (the code departs from the claim): after inserting the distinct
    keys 1, 4, 2, 3, 5 into an empty map the root has balance factor -2,
    so the tree is not balanced. *)
Theorem C3_insertions_unbalanced :
  result (let* m := insert_all 50 [1; 4; 2; 3; 5] empty_map in
          let* f := match root m with
                    | Some r => balance_factor 50 r
                    | None => ret 0
                    end in
          let* b := balanced 50 (root m) in
          let* ks := keys_in_order 50 m in
          ret (ks, f, b)) ∅
  = Some ([1; 2; 3; 4; 5], -2, false).
Proof. vm_compute. reflexivity. Qed.

(** C5 (the code departs from the claim): the stored heights are wrong
    after insertions alone.  [m[1]; m[3]; m[2];] ends with a double
    rotation at the root: the promoted node 2 still stores the height 1 it
    was created with, [propagate_height_down] writes that height less one
    into both children, and the refresh on 2 recomputes 1 from them.  The
    three nodes store 0, 1, 0 where the longest paths have 1, 2, 1 nodes.
    After the keys 1, 4, 2, 3, 5 the node holding 1 stores 2^64 - 1.  And
    [erase] never rewrites a height: after [m[2]; m[1]; m.erase(m.find(1));]
    the leaf that is left still stores 2.  Each row below is key, stored
    height, longest path. *)
Theorem C5_stored_heights_wrong :
  result (let* m := insert_all 50 [1; 3; 2] empty_map in
          let* t := height_table 50 (root m) in
          let* e := heights_exact 50 (root m) in
          ret (t, e)) ∅
  = Some ([(1, 0, 1); (2, 1, 2); (3, 0, 1)], false)
  /\ result (let* m := insert_all 50 [1; 4; 2; 3; 5] empty_map in
             let* t := height_table 50 (root m) in
             let* e := heights_exact 50 (root m) in
             ret (t, e)) ∅
     = Some ([(1, 2 ^ 64 - 1, 1); (2, 0, 2); (3, 1, 3); (4, 2, 4); (5, 1, 1)],
             false)
  /\ result (let* m := insert_all 50 [2; 1] empty_map in
             let* m := erase_all 50 [1] m in
             let* t := height_table 50 (root m) in
             let* e := heights_exact 50 (root m) in
             ret (t, e)) ∅
     = Some ([(2, 2, 1)], false).
Proof. split; [|split]; vm_compute; reflexivity. Qed.

(** C6: stepping from [begin()] to [end()] over the map built from
    5, 3, 8, 1, 4, 7, 9 meets 1, 3, 4, 5, 7, 8, 9; and [increment] computes
    the successor of the specification: with a right child, the leftmost
    node below it; otherwise the first ancestor entered from a left
    child, or the end cursor when there is none. *)
Theorem C6_sorted_traversal_and_successor :
  result (let* m := seven_keys 50 in keys_in_order 50 m) ∅
  = Some [1; 3; 4; 5; 7; 8; 9]
  /\ forall H this a,
       successor H this a <->
       exists fuel0, forall fuel, (fuel0 <= fuel)%nat ->
         increment fuel this H = Some (a, H).
Proof.
  split; [vm_compute; reflexivity|].
  intros H this a. split.
  - apply successor_increment.
  - intros [fuel0 Hf]. eapply increment_successor. apply (Hf fuel0). lia.
Qed.

(** C6 at the node holding 4 in the seven-key map: it has no right child
    and is the right child of 3, which is the left child of 5. *)
Lemma C6_sorted_traversal_and_successor_witness :
  exists fuel0, forall fuel, (fuel0 <= fuel)%nat ->
    increment fuel 5%positive (store_of (seven_keys 50))
    = Some (Some 1%positive, store_of (seven_keys 50)).
Proof.
  apply (proj1 (proj2 C6_sorted_traversal_and_successor _ _ _)).
  eapply successor_up; [vm_compute; reflexivity | reflexivity |].
  eapply left_ancestor_up;
    [vm_compute; reflexivity | reflexivity | vm_compute; reflexivity
    | vm_compute; discriminate |].
  eapply left_ancestor_here;
    [vm_compute; reflexivity | reflexivity | vm_compute; reflexivity
    | vm_compute; reflexivity ].
Defined.

(** C7: [erase] on the end cursor returns at once; the map object and the
    whole store are unchanged. *)
Theorem C7_erase_end_is_noop :
  forall fuel m H, erase (S fuel) m end_it H = Some (m, H).
Proof. reflexivity. Qed.

(** C10 (the code departs from the claim): [clear] brings [size_] down by
    one per node torn down, and the exchange hands that value back.  On
    the copy-constructed singleton, whose [size_] is 2, [b = std::move(b)]
    leaves a null root and size 1. *)
Theorem C10_self_move_keeps_a_count :
  self_move_of_copy 50 = Some (mkMap None 1).
Proof. vm_compute. reflexivity. Qed.
(** * Searching *)

Lemma find_tree fuel m k H t it H' :
  tree_inv H (root m) t -> find fuel m k H = Some (it, H') ->
  H' = H /\
  match it with
  | Some p => p ∈ ptrs t /\ exists n, H !! p = Some n /\ key n = k
  | None => k ∉ keys t
  end.
Proof.
  intros (HR & Hroot & Hnd & Hinc) Hx. unfold find, search_node in Hx.
  apply bind_Some in Hx. destruct Hx as (s & H0 & Hs & Hx).
  destruct (root m) as [rt|].
  - destruct t as [|l0 p0 k0 r0]; [done|]. simpl in Hroot. injection Hroot as ->.
    apply bind_Some in Hs. destruct Hs as ([[found cur] d] & H1 & Hd & Hs).
    destruct (descend_inv fuel k [] l0 rt k0 r0 0 H _ H1 HR Hinc (fits_nil k) Hd)
      as (-> & c & l & k' & r & Ht & Hfit & Hfound & Hnot).
    simpl in Ht, Hfound, Hnot. destruct found.
    + apply ret_Some in Hs. destruct Hs as [-> ->].
      apply ret_Some in Hx. destruct Hx as [-> ->]. split; [done|].
      rewrite (Hfound eq_refl) in Ht. split.
      * rewrite Ht, ptrs_plug. simpl. set_solver.
      * destruct (Rep_focus _ _ _ _ _ _ _ Ht HR) as (n & Hn & Kn & _). by exists n.
    + apply ret_Some in Hs. destruct Hs as [-> ->].
      apply ret_Some in Hx. destruct Hx as [-> ->]. split; [done|].
      rewrite Ht in Hinc |- *. by apply fits_not_in; [| |apply Hnot].
  - apply ret_Some in Hs. destruct Hs as [-> ->].
    apply ret_Some in Hx. destruct Hx as [-> ->]. split; [done|].
    apply rootp_None in Hroot. subst t. intros Hin. by apply elem_of_nil in Hin.
Qed.

Lemma descend_total fuel : forall k c l cur kc r d H,
  Rep H None (plug c (Fork l cur kc r)) ->
  (length (ptrs (Fork l cur kc r)) <= fuel)%nat ->
  exists res, descend fuel k cur d H = Some (res, H).
Proof.
  induction fuel as [|fuel IH]; intros k c l cur kc r d H HR Hlen.
  - simpl in Hlen. rewrite length_app in Hlen. simpl in Hlen. lia.
  - destruct (Rep_focus H _ c l cur kc r eq_refl HR) as (n & Hn & Kn & _ & Ln & Rn).
    simpl. rewrite (bind_get _ _ _ _ Hn).
    simpl in Hlen. rewrite length_app in Hlen. simpl in Hlen.
    destruct (k =? key n); [by eexists|].
    destruct (k <? key n).
    + rewrite Ln. destruct l as [|la lp lk lb]; simpl; [by eexists|].
      apply (IH k (FrL cur kc r :: c) la lp lk lb); [exact HR|]. simpl in *.
      rewrite length_app in *. simpl in *. lia.
    + rewrite Rn. destruct r as [|ra rp rk rb]; simpl; [by eexists|].
      apply (IH k (FrR l cur kc :: c) ra rp rk rb); [exact HR|]. simpl in *.
      rewrite !length_app in *. simpl in *. lia.
Qed.

Lemma find_total fuel m k H t :
  tree_inv H (root m) t -> (length (ptrs t) <= fuel)%nat ->
  exists it, find fuel m k H = Some (it, H).
Proof.
  intros (HR & Hroot & _) Hlen. unfold find, search_node.
  destruct (root m) as [rt|]; [|by eexists].
  destruct t as [|l0 p0 k0 r0]; [done|]. simpl in Hroot. injection Hroot as ->.
  destruct (descend_total fuel k [] l0 rt k0 r0 0 H HR Hlen) as ([[found cur] d] & E).
  rewrite bind_bind. unfold bind at 1. rewrite E.
  destruct found; by eexists.
Qed.
(** * Enough fuel: the loops come to an end *)

Lemma last_total fuel : forall H c a p k b,
  Rep H None (plug c (Fork a p k b)) ->
  (length (ptrs b) < fuel)%nat ->
  exists q, last fuel p H = Some (q, H).
Proof.
  induction fuel as [|fuel IH]; intros H c a p k b HR Hlen; [lia|].
  destruct (Rep_focus H _ c a p k b eq_refl HR) as (n & Hn & _ & _ & _ & Rn).
  simpl. rewrite (bind_get _ _ _ _ Hn), Rn.
  destruct b as [|b1 pb kb b2]; simpl; [by eexists|].
  apply (IH H (FrR a p k :: c) b1 pb kb b2); [exact HR|].
  simpl in Hlen. rewrite length_app in Hlen. simpl in Hlen. lia.
Qed.

Lemma first_total fuel : forall H c a p k b,
  Rep H None (plug c (Fork a p k b)) ->
  (length (ptrs a) < fuel)%nat ->
  exists q, first fuel p H = Some (q, H).
Proof.
  induction fuel as [|fuel IH]; intros H c a p k b HR Hlen; [lia|].
  destruct (Rep_focus H _ c a p k b eq_refl HR) as (n & Hn & _ & _ & Ln & _).
  simpl. rewrite (bind_get _ _ _ _ Hn), Ln.
  destruct a as [|a1 pa ka a2]; simpl; [by eexists|].
  apply (IH H (FrL p k b :: c) a1 pa ka a2); [exact HR|].
  simpl in Hlen. rewrite length_app in Hlen. simpl in Hlen. lia.
Qed.

(** [erase] at a node of the tree returns: no link it follows is null. *)
Lemma erase_total fuel m H c l node k r :
  Rep H None (plug c (Fork l node k r)) ->
  NoDup (ptrs (plug c (Fork l node k r))) ->
  rootp (plug c (Fork l node k r)) = root m ->
  (length (ptrs l) + 2 <= fuel)%nat ->
  exists m' H', erase fuel m (Some node) H = Some (m', H').
Proof.
  intros HR Hnd Hroot Hlen.
  destruct fuel as [|fuel]; [lia|].
  assert (l = Leaf \/ r = Leaf \/ (l <> Leaf /\ r <> Leaf)) as [Hl|[Hr|[Hl Hr]]]
    by (destruct l, r; auto).
  1,2: destruct (erase_simple fuel m H c l node k r HR Hnd Hroot)
         as (H1 & E & _); [tauto|]; by eexists _, _.
  destruct l as [|la lp lk lb]; [done|]. destruct r as [|ra rp rk rb]; [done|].
  clear Hl Hr.
  destruct (Rep_focus H _ c _ node k _ eq_refl HR) as (n & Hn & Kn & Pn & Ln & Rn).
  simpl in Ln, Rn.
  destruct (last_total fuel H (FrL node k (Fork ra rp rk rb) :: c) la lp lk lb HR)
    as [pred Hlast].
  { simpl in Hlen. rewrite !length_app in Hlen. simpl in Hlen. lia. }
  destruct (last_spine fuel H (FrL node k (Fork ra rp rk rb) :: c) la lp lk lb
              pred H HR Hlast) as (_ & cl & ll & kq & El & Ek & Ep).
  rewrite El in HR, Hnd, Hroot.
  change (plug c (Fork (plug cl (Fork ll pred kq Leaf)) node k (Fork ra rp rk rb)))
    with (plug (FrL node k (Fork ra rp rk rb) :: c) (plug cl (Fork ll pred kq Leaf)))
    in HR.
  rewrite <- plug_app in HR.
  destruct (Rep_focus H _ _ _ pred kq _ eq_refl HR) as (np & Hp & Kp & _).
  rewrite (erase_two_children fuel m H node n lp rp pred np Hn Ln Rn Hlast Hp).
  destruct fuel as [|fuel]; [simpl in Hlen; lia|].
  rewrite plug_app in HR. simpl in HR.
  pose proof (Rep_rekey H c _ node k _ n
                (set_value (value np) (set_key (key np) n)) kq HR Hnd Hn Kp
                eq_refl eq_refl eq_refl) as HR1.
  change (plug c (Fork (plug cl (Fork ll pred kq Leaf)) node kq (Fork ra rp rk rb)))
    with (plug (FrL node kq (Fork ra rp rk rb) :: c) (plug cl (Fork ll pred kq Leaf)))
    in HR1.
  rewrite <- plug_app in HR1.
  destruct (erase_simple fuel m _ _ ll pred kq Leaf HR1) as (H3 & E & _).
  { rewrite plug_app. simpl. by rewrite !ptrs_plug in *. }
  { rewrite <- Hroot, plug_app. simpl. apply rootp_plug_key. }
  { by right. }
  by eexists _, _.
Qed.
(** ** Erasing a node with two children *)

Lemma graft_Leaf_r l : graft l Leaf = l.
Proof. by destruct l. Qed.

(** Erasing a node with two children, on the tree: the rightmost node of
    the left subtree goes, and its key takes the place of the key of the
    node. *)
Lemma erase_two_tree fuel m H c la lp lk lb node k ra rp rk rb :
  Rep H None (plug c (Fork (Fork la lp lk lb) node k (Fork ra rp rk rb))) ->
  NoDup (ptrs (plug c (Fork (Fork la lp lk lb) node k (Fork ra rp rk rb)))) ->
  rootp (plug c (Fork (Fork la lp lk lb) node k (Fork ra rp rk rb))) = root m ->
  (length (ptrs (Fork la lp lk lb)) + 2 <= fuel)%nat ->
  exists pred np l' H',
    rightmost H lp pred /\ H !! pred = Some np /\ pred <> node /\
    ptrs (Fork la lp lk lb) = ptrs l' ++ [pred] /\
    keys (Fork la lp lk lb) = keys l' ++ [key np] /\
    erase fuel m (Some node) H =
      Some (mkMap (rootp (plug c (Fork l' node (key np) (Fork ra rp rk rb))))
                  (to_unsigned (size_ m - 1)), H') /\
    Rep H' None (plug c (Fork l' node (key np) (Fork ra rp rk rb))) /\
    H' !! pred = None /\
    kv_of H' node = Some (key np, value np) /\
    (forall q, q <> node -> q <> pred -> kv_of H' q = kv_of H q).
Proof.
  intros HR Hnd Hroot Hlen.
  destruct fuel as [|fuel]; [lia|].
  destruct (Rep_focus H _ c _ node k _ eq_refl HR) as (n & Hn & Kn & Pn & Ln & Rn).
  simpl in Ln, Rn.
  destruct (last_total fuel H (FrL node k (Fork ra rp rk rb) :: c) la lp lk lb HR)
    as [pred Hlast].
  { simpl in Hlen. rewrite !length_app in Hlen. simpl in Hlen. lia. }
  destruct (last_spine fuel H (FrL node k (Fork ra rp rk rb) :: c) la lp lk lb
              pred H HR Hlast) as (_ & cl & ll & kq & El & Ek & Ep).
  pose proof (last_rightmost _ _ _ _ _ Hlast) as Hright.
  rewrite El in HR, Hnd, Hroot |- *.
  change (plug c (Fork (plug cl (Fork ll pred kq Leaf)) node k (Fork ra rp rk rb)))
    with (plug (FrL node k (Fork ra rp rk rb) :: c) (plug cl (Fork ll pred kq Leaf)))
    in HR.
  rewrite <- plug_app in HR.
  destruct (Rep_focus H _ _ _ pred kq _ eq_refl HR) as (np & Hp & Kp & _).
  assert (pred <> node) as Hne.
  { pose proof Hnd as Hnd'. rewrite ptrs_plug in Hnd'. simpl in Hnd'.
    rewrite ptrs_plug in Hnd'. simpl in Hnd'.
    autorewrite with nd in Hnd'. intros ->. tauto. }
  rewrite (erase_two_children fuel m H node n lp rp pred np Hn Ln Rn Hlast Hp).
  destruct fuel as [|fuel]; [simpl in Hlen; lia|].
  rewrite plug_app in HR. simpl in HR.
  pose proof (Rep_rekey H c _ node k _ n
                (set_value (value np) (set_key (key np) n)) kq HR Hnd Hn Kp
                eq_refl eq_refl eq_refl) as HR1.
  change (plug c (Fork (plug cl (Fork ll pred kq Leaf)) node kq (Fork ra rp rk rb)))
    with (plug (FrL node kq (Fork ra rp rk rb) :: c) (plug cl (Fork ll pred kq Leaf)))
    in HR1.
  rewrite <- plug_app in HR1.
  set (H2 := <[node := set_value (value np) (set_key (key np) n)]> H) in *.
  destruct (erase_simple fuel m H2 _ ll pred kq Leaf HR1)
    as (H3 & E & HR3 & HF3 & Hkv3 & Hgone).
  { rewrite plug_app. simpl. by rewrite !ptrs_plug in *. }
  { rewrite <- Hroot, plug_app. simpl. apply rootp_plug_key. }
  { by right. }
  rewrite graft_Leaf_r, plug_app in E, HR3. simpl in E, HR3.
  exists pred, np, (plug cl ll), H3. subst kq.
  split; [done|]. split; [done|]. split; [done|]. split.
  { rewrite !ptrs_plug, Ep. simpl. by rewrite !app_nil_r, <- !app_assoc. }
  split.
  { rewrite !keys_plug, Ek. simpl. by rewrite !app_nil_r, <- !app_assoc. }
  split; [exact E|]. split; [exact HR3|]. split; [exact Hgone|]. split.
  - rewrite (Hkv3 node) by done. unfold kv_of, H2. by rewrite lookup_insert_eq.
  - intros q Hq1 Hq2. rewrite (Hkv3 q Hq2). unfold kv_of, H2.
    by rewrite lookup_insert_ne.
Qed.

Lemma increasing_before (A : list Z) x y B z :
  increasing (A ++ x :: y :: B) -> z ∈ A ++ x :: y :: B -> z < y -> z <= x.
Proof.
  rewrite increasing_app. simpl. rewrite !Forall_forall.
  intros (IA & (Hx & Hy & IB) & HAB) Hz Hlt.
  apply elem_of_app in Hz. destruct Hz as [Hz|Hz].
  - assert (z < x) by (apply HAB; [done|set_solver]). lia.
  - apply elem_of_cons in Hz. destruct Hz as [->|Hz]; [lia|].
    apply elem_of_cons in Hz. destruct Hz as [->|Hz]; [lia|].
    specialize (Hy z Hz). lia.
Qed.

(** * Clearing releases the tree, all of it and nothing else *)

Lemma countdown_S n sz : countdown (S n) sz = countdown n (to_unsigned (sz - 1)).
Proof. unfold countdown. by rewrite Nat.iter_succ_r. Qed.

Lemma countdown_closed n sz :
  (0 < n)%nat -> countdown n sz = to_unsigned (sz - Z.of_nat n).
Proof.
  unfold countdown, to_unsigned. induction n as [|n IH]; [lia|]. intros _.
  destruct n as [|n].
  - simpl. done.
  - rewrite Nat.iter_succ, IH by lia.
    rewrite Zminus_mod_idemp_l. f_equal. lia.
Qed.

Lemma children_roots n l r :
  left n = rootp l -> right n = rootp r -> children n = omap rootp [l; r].
Proof.
  intros Hl Hr. unfold children. rewrite Hl, Hr. by destruct l, r.
Qed.

Lemma elem_of_forest p t ts : p ∈ ptrs t -> t ∈ ts -> p ∈ forest_ptrs ts.
Proof.
  intros Hp Ht. unfold forest_ptrs. induction ts as [|t' ts IH]; simpl.
  - by apply elem_of_nil in Ht.
  - apply elem_of_app. apply elem_of_cons in Ht. destruct Ht as [->|Ht]; auto.
Qed.

Lemma clear_loop_exact fuel : forall ts sz H,
  Forall (fun t => exists par, Rep H par t) ts ->
  NoDup (forest_ptrs ts) ->
  (length (forest_ptrs ts) < fuel)%nat ->
  exists H',
    clear_loop fuel (omap rootp ts) sz H
      = Some (countdown (length (forest_ptrs ts)) sz, H') /\
    forall q, H' !! q = if decide (q ∈ forest_ptrs ts) then None else H !! q.
Proof.
  induction fuel as [|fuel IH]; intros ts sz H Hall Hnd Hlen; [lia|].
  induction ts as [|t ts IHts].
  - exists H. split; [done|]. intros q. rewrite decide_False; [done|].
    unfold forest_ptrs. simpl. by intros Hq%elem_of_nil.
  - destruct t as [|l p k r].
    + apply Forall_cons in Hall. destruct Hall as [_ Hall].
      apply (IHts Hall Hnd Hlen).
    + apply Forall_cons in Hall. destruct Hall as [[par HR] Hall].
      destruct HR as ((n & Hn & Kn & Pn & Ln & Rn) & Rl & Rr).
      unfold forest_ptrs in Hnd, Hlen. simpl in Hnd, Hlen.
      fold (forest_ptrs ts) in Hnd, Hlen.
      assert (forest_ptrs (ts ++ [l; r]) ≡ₚ ptrs l ++ ptrs r ++ forest_ptrs ts)
        as Eperm.
      { unfold forest_ptrs. rewrite map_app, concat_app. simpl.
        rewrite app_nil_r. fold (forest_ptrs ts).
        rewrite (Permutation_app_comm (forest_ptrs ts)). by rewrite <- app_assoc. }
      assert ((ptrs l ++ p :: ptrs r) ++ forest_ptrs ts
              ≡ₚ p :: forest_ptrs (ts ++ [l; r])) as Eperm'.
      { rewrite Eperm. rewrite <- app_assoc. simpl.
        by rewrite <- Permutation_middle. }
      rewrite Eperm' in Hnd. apply NoDup_cons in Hnd. destruct Hnd as [Hp Hnd'].
      assert (length ((ptrs l ++ p :: ptrs r) ++ forest_ptrs ts)
              = S (length (forest_ptrs (ts ++ [l; r])))) as Elen.
      { by rewrite Eperm'. }
      destruct (IH (ts ++ [l; r]) (to_unsigned (sz - 1)) (delete p H))
        as (H' & E & Hdom).
      * apply Forall_app. split.
        -- rewrite Forall_forall in Hall. apply Forall_forall. intros t Ht.
           destruct (Hall t Ht) as [par' HRt].
           exists par'. apply Rep_delete_ne; [|done].
           intros Hin. apply Hp. rewrite Eperm, !elem_of_app. right. right.
           by eapply elem_of_forest.
        -- repeat apply Forall_cons_2; [| |apply Forall_nil_2];
             exists (Some p); (apply Rep_delete_ne; [|done]);
             intros Hin; apply Hp; rewrite Eperm, !elem_of_app; auto.
      * done.
      * lia.
      * exists H'. split.
        -- simpl. rewrite (bind_get _ _ _ _ Hn), (bind_free _ _ _ _ Hn).
           rewrite (children_roots n l r Ln Rn), <- omap_app.
           unfold forest_ptrs at 1. simpl. fold (forest_ptrs ts).
           by rewrite Elen, countdown_S.
        -- intros q. rewrite Hdom.
           unfold forest_ptrs at 2. simpl. fold (forest_ptrs ts).
           destruct (decide (q ∈ forest_ptrs (ts ++ [l; r]))) as [Hq|Hq].
           ++ rewrite decide_True; [done|]. rewrite Eperm'. by right.
           ++ destruct (decide (q = p)) as [->|Hne].
              ** rewrite lookup_delete_eq, decide_True; [done|].
                 rewrite Eperm'. by left.
              ** rewrite lookup_delete_ne by done. rewrite decide_False; [done|].
                 rewrite Eperm'. intros Hin. apply elem_of_cons in Hin.
                 destruct Hin; done.
Qed.

(** [clear] on a tree: the root field is reset, the nodes of the tree are
    released, every other address keeps what it had, and [size_] has been
    decremented once per node. *)
Lemma clear_exact fuel m H t :
  tree_inv H (root m) t -> (length (ptrs t) < fuel)%nat ->
  exists m' H',
    clear fuel m H = Some (m', H') /\ root m' = None /\
    size_ m' = countdown (length (ptrs t)) (size_ m) /\
    forall q, H' !! q = if decide (q ∈ ptrs t) then None else H !! q.
Proof.
  intros (HR & Hroot & Hnd & _) Hlen. unfold clear.
  destruct (root m) as [rt|] eqn:Hrt.
  - destruct t as [|l p k r]; [done|]. simpl in Hroot. injection Hroot as ->.
    destruct (clear_loop_exact fuel [Fork l rt k r] (size_ m) H) as (H' & E & Hdom).
    + apply Forall_cons_2; [by exists None|apply Forall_nil_2].
    + unfold forest_ptrs. simpl. by rewrite app_nil_r.
    + unfold forest_ptrs. simpl. by rewrite app_nil_r.
    + unfold forest_ptrs in E, Hdom. simpl in E, Hdom. rewrite app_nil_r in E, Hdom.
      eexists _, H'. unfold bind. rewrite E. split; [reflexivity|]. done.
  - apply rootp_None in Hroot. subst t. exists m, H. split; [done|].
    split; [done|]. split; [done|]. intros q. rewrite decide_False; [done|].
    by intros Hq%elem_of_nil.
Qed.

Lemma count_nodes_tree fuel : forall H par t n H',
  Rep H par t -> count_nodes fuel (rootp t) H = Some (n, H') ->
  n = Z.of_nat (length (ptrs t)) /\ H' = H.
Proof.
  induction fuel as [|fuel IH]; intros H par t n H' HR Hx; simpl in Hx.
  - by apply fault_Some in Hx.
  - destruct t as [|l p k r]; simpl in Hx.
    + apply ret_Some in Hx. by destruct Hx as [-> ->].
    + destruct HR as ((np & Hnp & _ & _ & Ln & Rn) & Rl & Rr).
      apply bind_Some in Hx. destruct Hx as (n0 & H0 & Hg & Hx).
      apply get_Some in Hg. destruct Hg as [Hg ->].
      assert (n0 = np) as -> by congruence. rewrite Ln, Rn in Hx.
      apply bind_Some in Hx. destruct Hx as (a & H1 & Ha & Hx).
      destruct (IH _ _ _ _ _ Rl Ha) as [-> ->].
      apply bind_Some in Hx. destruct Hx as (b & H1 & Hb & Hx).
      destruct (IH _ _ _ _ _ Rr Hb) as [-> ->].
      apply ret_Some in Hx. destruct Hx as [-> ->]. split; [|done].
      simpl. rewrite length_app. simpl. lia.
Qed.
(** * Stepping cursors *)

Lemma up_left_step f s H n :
  H !! s = Some n ->
  up_left (S f) (Some s) H =
  match parent n with
  | Some q =>
      match H !! q with
      | Some nq => if bool_decide (left nq = Some s) then Some (Some q, H)
                   else up_left f (Some q) H
      | None => None
      end
  | None => up_left f None H
  end.
Proof.
  intros Hs. simpl. unfold bind at 1. rewrite (is_left_child_eq _ _ _ Hs).
  destruct (parent n) as [q|] eqn:Hp.
  - destruct (H !! q) as [nq|]; [|done].
    rewrite (bind_get _ _ _ _ Hs), Hp. by destruct (bool_decide _).
  - by rewrite (bind_get _ _ _ _ Hs), Hp.
Qed.

Lemma up_right_step f s H n :
  H !! s = Some n ->
  up_right (S f) (Some s) H =
  match parent n with
  | Some q =>
      match H !! q with
      | Some nq => if bool_decide (right nq = Some s) then Some (Some q, H)
                   else up_right f (Some q) H
      | None => None
      end
  | None => up_right f None H
  end.
Proof.
  intros Hs. simpl. unfold bind at 1. rewrite (is_right_child_eq _ _ _ Hs).
  destruct (parent n) as [q|] eqn:Hp.
  - destruct (H !! q) as [nq|]; [|done].
    rewrite (bind_get _ _ _ _ Hs), Hp. by destruct (bool_decide _).
  - by rewrite (bind_get _ _ _ _ Hs), Hp.
Qed.

(** The upward loop of [increment] stops at the first node entered from
    its left child: the first address to the right of the hole. *)
Lemma up_left_ctx fuel : forall H c l p k r,
  Rep H None (plug c (Fork l p k r)) ->
  NoDup (ptrs (plug c (Fork l p k r))) ->
  (forall res H', up_left fuel (Some p) H = Some (res, H') ->
     res = head (cptrs_r c) /\ H' = H) /\
  ((length c + 1 < fuel)%nat ->
     up_left fuel (Some p) H = Some (head (cptrs_r c), H)).
Proof.
  induction fuel as [|fuel IH]; intros H c l p k r HR Hnd.
  { split; [intros res H' Hx; by apply fault_Some in Hx|lia]. }
  destruct (Rep_focus H _ c l p k r eq_refl HR) as (n & Hn & _ & Pn & _).
  rewrite (up_left_step _ _ _ _ Hn), Pn.
  destruct c as [|[q kq rq|lq q kq] c]; simpl.
  - destruct fuel; simpl; split; try lia; try done.
    intros res H' Hx. apply ret_Some in Hx. by destruct Hx as [-> ->].
  - pose proof HR as HR'. apply Rep_plug in HR'. destruct HR' as [_ HC].
    simpl in HC. destruct HC as ((nq & Hq & _ & _ & Lq & _) & _).
    rewrite Hq, Lq. simpl. rewrite bool_decide_true by done.
    split; [|done]. intros res H' [= <- <-]. done.
  - pose proof HR as HR'. apply Rep_plug in HR'. destruct HR' as [_ HC].
    simpl in HC. destruct HC as ((nq & Hq & _ & _ & Lq & _) & _).
    rewrite Hq, Lq.
    assert (rootp lq <> Some p) as Hne.
    { apply rootp_ne. rewrite ptrs_plug in Hnd. simpl in Hnd.
      clear -Hnd. nd_norm. nd_solve. }
    rewrite bool_decide_false by done.
    destruct (IH H c lq q kq (Fork l p k r) HR Hnd) as [Hb Hf].
    split; [exact Hb|]. intros Hlen. apply Hf. simpl in Hlen. lia.
Qed.

(** The upward loop of [decrement]: the last address to the left of the
    hole. *)
Lemma up_right_ctx fuel : forall H c l p k r,
  Rep H None (plug c (Fork l p k r)) ->
  NoDup (ptrs (plug c (Fork l p k r))) ->
  (forall res H', up_right fuel (Some p) H = Some (res, H') ->
     res = list.last (cptrs_l c) /\ H' = H) /\
  ((length c + 1 < fuel)%nat ->
     up_right fuel (Some p) H = Some (list.last (cptrs_l c), H)).
Proof.
  induction fuel as [|fuel IH]; intros H c l p k r HR Hnd.
  { split; [intros res H' Hx; by apply fault_Some in Hx|lia]. }
  destruct (Rep_focus H _ c l p k r eq_refl HR) as (n & Hn & _ & Pn & _).
  rewrite (up_right_step _ _ _ _ Hn), Pn.
  destruct c as [|[q kq rq|lq q kq] c]; simpl.
  - destruct fuel; simpl; split; try lia; try done.
    intros res H' Hx. apply ret_Some in Hx. by destruct Hx as [-> ->].
  - pose proof HR as HR'. apply Rep_plug in HR'. destruct HR' as [_ HC].
    simpl in HC. destruct HC as ((nq & Hq & _ & _ & _ & Rq) & _).
    rewrite Hq, Rq.
    assert (rootp rq <> Some p) as Hne.
    { apply rootp_ne. rewrite ptrs_plug in Hnd. simpl in Hnd.
      clear -Hnd. nd_norm. nd_solve. }
    rewrite bool_decide_false by done.
    destruct (IH H c (Fork l p k r) q kq rq HR Hnd) as [Hb Hf].
    split; [exact Hb|]. intros Hlen. apply Hf. simpl in Hlen. lia.
  - pose proof HR as HR'. apply Rep_plug in HR'. destruct HR' as [_ HC].
    simpl in HC. destruct HC as ((nq & Hq & _ & _ & _ & Rq) & _).
    rewrite Hq, Rq. simpl. rewrite bool_decide_true by done.
    rewrite app_assoc, last_snoc.
    split; [|done]. intros res H' [= <- <-]. done.
Qed.

Lemma first_head fuel : forall H c a p k b q H',
  Rep H None (plug c (Fork a p k b)) ->
  first fuel p H = Some (q, H') ->
  head (ptrs (Fork a p k b)) = Some q /\ H' = H.
Proof.
  induction fuel as [|fuel IH]; intros H c a p k b q H' HR Hx; simpl in Hx.
  - by apply fault_Some in Hx.
  - destruct (Rep_focus H _ c a p k b eq_refl HR) as (n & Hn & _ & _ & Ln & _).
    rewrite (bind_get _ _ _ _ Hn), Ln in Hx.
    destruct a as [|a1 pa ka a2]; simpl in Hx.
    + apply ret_Some in Hx. by destruct Hx as [-> ->].
    + destruct (IH H (FrL p k b :: c) a1 pa ka a2 q H' HR Hx) as [Hh ->].
      split; [|done]. simpl in Hh |- *.
      destruct (ptrs a1 ++ pa :: ptrs a2) eqn:E; [done|]. simpl in *. done.
Qed.

Lemma last_last fuel : forall H c a p k b q H',
  Rep H None (plug c (Fork a p k b)) ->
  last fuel p H = Some (q, H') ->
  list.last (ptrs (Fork a p k b)) = Some q /\ H' = H.
Proof.
  induction fuel as [|fuel IH]; intros H c a p k b q H' HR Hx; simpl in Hx.
  - by apply fault_Some in Hx.
  - destruct (Rep_focus H _ c a p k b eq_refl HR) as (n & Hn & _ & _ & _ & Rn).
    rewrite (bind_get _ _ _ _ Hn), Rn in Hx.
    destruct b as [|b1 pb kb b2]; simpl in Hx.
    + apply ret_Some in Hx. destruct Hx as [-> ->]. split; [|done].
      simpl. by rewrite last_snoc.
    + destruct (IH H (FrR a p k :: c) b1 pb kb b2 q H' HR Hx) as [Hh ->].
      split; [|done]. simpl in Hh |- *.
      by rewrite last_app, last_cons, Hh.
Qed.

Lemma head_app_Some {A} (l1 l2 : list A) x :
  head l1 = Some x -> head (l1 ++ l2) = Some x.
Proof. by destruct l1. Qed.

Lemma last_app_Some {A} (l1 l2 : list A) x :
  list.last l2 = Some x -> list.last (l1 ++ l2) = Some x.
Proof. intros Hx. by rewrite last_app, Hx. Qed.

(** [increment] at the node in focus: the next address of the tree from
    left to right, or null when there is none. *)
Lemma increment_focus fuel H c l p k r :
  Rep H None (plug c (Fork l p k r)) ->
  NoDup (ptrs (plug c (Fork l p k r))) ->
  (forall res H', increment fuel p H = Some (res, H') ->
     res = head (ptrs r ++ cptrs_r c) /\ H' = H) /\
  ((length (ptrs l ++ p :: ptrs r) + length c + 1 < fuel)%nat ->
     increment fuel p H = Some (head (ptrs r ++ cptrs_r c), H)).
Proof.
  intros HR Hnd. unfold increment.
  destruct (Rep_focus H _ c l p k r eq_refl HR) as (n & Hn & _ & _ & _ & Rn).
  rewrite (bind_get _ _ _ _ Hn), Rn.
  destruct r as [|r1 pr kr r2]; cbn [rootp].
  - simpl. destruct (up_left_ctx fuel H c l p k Leaf HR Hnd) as [Hb Hf].
    split; [exact Hb|]. intros Hlen. apply Hf. lia.
  - split.
    + intros res H' Hx. apply bind_Some in Hx. destruct Hx as (q & H0 & Hq & Hx).
      apply ret_Some in Hx. destruct Hx as [-> ->].
      destruct (first_head fuel H (FrR l p k :: c) r1 pr kr r2 q H0 HR Hq)
        as [Hh ->].
      split; [|done]. symmetry. by apply head_app_Some.
    + intros Hlen.
      destruct (first_total fuel H (FrR l p k :: c) r1 pr kr r2 HR) as [q Hq].
      { rewrite length_app in Hlen. simpl in Hlen. rewrite length_app in Hlen.
        simpl in Hlen. lia. }
      destruct (first_head fuel H (FrR l p k :: c) r1 pr kr r2 q H HR Hq)
        as [Hh _].
      unfold bind. rewrite Hq. unfold ret.
      by rewrite (head_app_Some _ _ _ Hh).
Qed.

Lemma decrement_focus fuel H c l p k r :
  Rep H None (plug c (Fork l p k r)) ->
  NoDup (ptrs (plug c (Fork l p k r))) ->
  (forall res H', decrement fuel p H = Some (res, H') ->
     res = list.last (cptrs_l c ++ ptrs l) /\ H' = H) /\
  ((length (ptrs l ++ p :: ptrs r) + length c + 1 < fuel)%nat ->
     decrement fuel p H = Some (list.last (cptrs_l c ++ ptrs l), H)).
Proof.
  intros HR Hnd. unfold decrement.
  destruct (Rep_focus H _ c l p k r eq_refl HR) as (n & Hn & _ & _ & Ln & _).
  rewrite (bind_get _ _ _ _ Hn), Ln.
  destruct l as [|l1 pl kl l2]; cbn [rootp].
  - simpl. rewrite app_nil_r.
    destruct (up_right_ctx fuel H c Leaf p k r HR Hnd) as [Hb Hf].
    split; [exact Hb|]. intros Hlen. apply Hf. lia.
  - split.
    + intros res H' Hx. apply bind_Some in Hx. destruct Hx as (q & H0 & Hq & Hx).
      apply ret_Some in Hx. destruct Hx as [-> ->].
      destruct (last_last fuel H (FrL p k r :: c) l1 pl kl l2 q H0 HR Hq)
        as [Hh ->].
      split; [|done]. symmetry. by apply last_app_Some.
    + intros Hlen.
      destruct (last_total fuel H (FrL p k r :: c) l1 pl kl l2 HR) as [q Hq].
      { rewrite length_app in Hlen. simpl in Hlen. rewrite length_app in Hlen.
        simpl in Hlen. lia. }
      destruct (last_last fuel H (FrL p k r :: c) l1 pl kl l2 q H HR Hq)
        as [Hh _].
      unfold bind. rewrite Hq. unfold ret.
      by rewrite (last_app_Some _ _ _ Hh).
Qed.

Lemma NoDup_split_unique (A B P Q : list positive) x :
  NoDup (A ++ x :: B) -> A ++ x :: B = P ++ x :: Q -> A = P /\ B = Q.
Proof.
  revert P. induction A as [|a A IH]; intros P Hnd E; simpl in *.
  - destruct P as [|y P]; simpl in E.
    + by injection E as ->.
    + injection E as -> E. apply NoDup_cons in Hnd. destruct Hnd as [Hx _].
      exfalso. apply Hx. rewrite E. set_solver.
  - apply NoDup_cons in Hnd. destruct Hnd as [Ha Hnd].
    destruct P as [|y P]; simpl in E.
    + injection E as -> E. exfalso. apply Ha. set_solver.
    + injection E as -> E. destruct (IH P Hnd E) as [-> ->]. done.
Qed.

Lemma focus_split {A} (a l r b : list A) x :
  a ++ (l ++ x :: r) ++ b = (a ++ l) ++ x :: (r ++ b).
Proof. by rewrite <- !app_assoc. Qed.

Lemma length_ctx c : (length c <= length (cptrs_l c) + length (cptrs_r c))%nat.
Proof.
  induction c as [|[p k r|l p k] c IH]; simpl; [lia| |].
  - rewrite length_app. lia.
  - rewrite !length_app. simpl. lia.
Qed.

(** [increment] and [decrement] on the list of the addresses of the tree
    from left to right. *)
Lemma increment_list fuel H t P p Q :
  Rep H None t -> NoDup (ptrs t) -> ptrs t = P ++ p :: Q ->
  (forall res H', increment fuel p H = Some (res, H') ->
     res = head Q /\ H' = H) /\
  ((length (ptrs t) + 1 < fuel)%nat -> increment fuel p H = Some (head Q, H)).
Proof.
  intros HR Hnd E.
  assert (p ∈ ptrs t) as Hp by (rewrite E; set_solver).
  destruct (focus _ _ Hp) as (c & l & k & r & ->).
  rewrite ptrs_plug in E. simpl in E. rewrite focus_split in E.
  assert (cptrs_l c ++ ptrs l = P /\ ptrs r ++ cptrs_r c = Q) as [<- <-].
  { apply (NoDup_split_unique _ _ _ _ p); [|done].
    rewrite ptrs_plug in Hnd. simpl in Hnd. by rewrite focus_split in Hnd. }
  destruct (increment_focus fuel H c l p k r HR Hnd) as [Hb Hf].
  split; [exact Hb|]. intros Hlen. apply Hf.
  rewrite ptrs_plug in Hlen. simpl in Hlen. rewrite !length_app in Hlen.
  pose proof (length_ctx c). rewrite length_app. simpl in *. lia.
Qed.

Lemma decrement_list fuel H t P p Q :
  Rep H None t -> NoDup (ptrs t) -> ptrs t = P ++ p :: Q ->
  (forall res H', decrement fuel p H = Some (res, H') ->
     res = list.last P /\ H' = H) /\
  ((length (ptrs t) + 1 < fuel)%nat -> decrement fuel p H = Some (list.last P, H)).
Proof.
  intros HR Hnd E.
  assert (p ∈ ptrs t) as Hp by (rewrite E; set_solver).
  destruct (focus _ _ Hp) as (c & l & k & r & ->).
  rewrite ptrs_plug in E. simpl in E. rewrite focus_split in E.
  assert (cptrs_l c ++ ptrs l = P /\ ptrs r ++ cptrs_r c = Q) as [<- <-].
  { apply (NoDup_split_unique _ _ _ _ p); [|done].
    rewrite ptrs_plug in Hnd. simpl in Hnd. by rewrite focus_split in Hnd. }
  destruct (decrement_focus fuel H c l p k r HR Hnd) as [Hb Hf].
  split; [exact Hb|]. intros Hlen. apply Hf.
  rewrite ptrs_plug in Hlen. simpl in Hlen. rewrite !length_app in Hlen.
  pose proof (length_ctx c). rewrite length_app. simpl in *. lia.
Qed.

(** Walking from a node to the end meets the keys of the nodes from there
    on, from left to right. *)
Lemma walk_list fuel : forall H t P p Q,
  Rep H None t -> NoDup (ptrs t) -> ptrs t = P ++ p :: Q ->
  (forall ks H', walk fuel (Some p) H = Some (ks, H') ->
     ks = (map (node_pair H) (p :: Q)).*1 /\ H' = H) /\
  ((length (ptrs t) + length Q + 2 < fuel)%nat ->
     walk fuel (Some p) H = Some ((map (node_pair H) (p :: Q)).*1, H)).
Proof.
  induction fuel as [|fuel IH]; intros H t P p Q HR Hnd E.
  { split; [intros ks H' Hx; by apply fault_Some in Hx|lia]. }
  assert (p ∈ ptrs t) as Hp by (rewrite E; set_solver).
  destruct (Rep_dom _ _ _ _ HR Hp) as [n Hn].
  destruct (increment_list fuel H t P p Q HR Hnd E) as [Ib If].
  simpl. rewrite (bind_get _ _ _ _ Hn), (node_pair_lookup _ _ _ Hn). simpl.
  destruct Q as [|q Q].
  - split.
    + intros ks H' Hx. apply bind_Some in Hx. destruct Hx as (nx & H0 & Hi & Hx).
      destruct (Ib _ _ Hi) as [-> ->]. simpl in Hx.
      apply bind_Some in Hx. destruct Hx as (rest & H0 & Hw & Hx).
      apply ret_Some in Hx. destruct Hx as [-> ->].
      destruct fuel; simpl in Hw; [by apply fault_Some in Hw|].
      apply ret_Some in Hw. by destruct Hw as [-> ->].
    + intros Hlen. unfold bind at 1. rewrite If by lia. simpl.
      destruct fuel; [lia|]. done.
  - assert (ptrs t = (P ++ [p]) ++ q :: Q) as E' by (by rewrite <- app_assoc).
    destruct (IH H t (P ++ [p]) q Q HR Hnd E') as [Wb Wf].
    split.
    + intros ks H' Hx. apply bind_Some in Hx. destruct Hx as (nx & H0 & Hi & Hx).
      destruct (Ib _ _ Hi) as [-> ->]. simpl in Hx.
      apply bind_Some in Hx. destruct Hx as (rest & H0 & Hw & Hx).
      apply ret_Some in Hx. destruct Hx as [-> ->].
      destruct (Wb _ _ Hw) as [-> ->]. done.
    + intros Hlen. unfold bind at 1. rewrite If by lia. simpl.
      unfold bind. rewrite Wf by (simpl in Hlen; lia). done.
Qed.

(** The traversal from [begin()] to [end()] meets the keys of the tree
    from left to right. *)
Lemma keys_in_order_tree fuel m H t :
  tree_inv H (root m) t ->
  (forall ks H', keys_in_order fuel m H = Some (ks, H') ->
     ks = keys t /\ H' = H) /\
  ((2 * length (ptrs t) + 2 < fuel)%nat ->
     keys_in_order fuel m H = Some (keys t, H)).
Proof.
  intros (HR & Hroot & Hnd & _). unfold keys_in_order, begin.
  rewrite (keys_contents _ _ _ HR). unfold contents.
  destruct (root m) as [rt|].
  - destruct t as [|l p k r]; [done|]. simpl in Hroot. injection Hroot as ->.
    split.
    + intros ks H' Hx. apply bind_Some in Hx. destruct Hx as (b & H0 & Hb & Hx).
      apply bind_Some in Hb. destruct Hb as (f & H1 & Hf & Hb).
      apply ret_Some in Hb. destruct Hb as [-> ->].
      destruct (first_head fuel H [] l rt k r f H1 HR Hf) as [Hh ->].
      destruct (ptrs (Fork l rt k r)) as [|x Q] eqn:E; [done|].
      simpl in Hh. injection Hh as ->. rewrite <- E in Hnd.
      destruct (walk_list fuel H (Fork l rt k r) [] f Q HR Hnd E) as [Wb _].
      by apply Wb.
    + intros Hlen.
      destruct (first_total fuel H [] l rt k r HR) as [f Hf].
      { simpl in Hlen. rewrite length_app in Hlen. simpl in Hlen. lia. }
      destruct (first_head fuel H [] l rt k r f H HR Hf) as [Hh _].
      destruct (ptrs (Fork l rt k r)) as [|x Q] eqn:E; [done|].
      simpl in Hh. injection Hh as ->. rewrite <- E in Hnd.
      destruct (walk_list fuel H (Fork l rt k r) [] f Q HR Hnd E) as [_ Wf].
      rewrite bind_bind. unfold bind at 1. rewrite Hf. rewrite bind_ret.
      apply Wf. rewrite E. simpl in *. lia.
  - apply rootp_None in Hroot. subst t. simpl. split.
    + intros ks H' Hx. rewrite bind_ret in Hx.
      destruct fuel; simpl in Hx; [by apply fault_Some in Hx|].
      apply ret_Some in Hx. by destruct Hx as [-> ->].
    + intros Hlen. rewrite bind_ret. destruct fuel; [lia|]. done.
Qed.
(** * What assignment and copying do to the store *)

Lemma pairs_insert (L R : list (Z * Z)) k v k' v' :
  NoDup (L ++ (k, v) :: R).*1 ->
  (k', v') ∈ L ++ (k, v) :: R <->
  (k' = k /\ v' = v) \/ (k' <> k /\ (k', v') ∈ L ++ R).
Proof.
  intros Hnd. rewrite elem_of_middle. split.
  - intros [E|Hin]; [left; by injection E|right]. split; [|done].
    intros ->. rewrite fmap_app, fmap_cons in Hnd. simpl in Hnd.
    apply NoDup_app in Hnd. destruct Hnd as (_ & HLR & HR).
    apply NoDup_cons in HR. destruct HR as [HkR _].
    apply elem_of_app in Hin. destruct Hin as [Hin|Hin].
    + apply (HLR k); [|left]. apply list_elem_of_fmap. by exists (k, v').
    + apply HkR. apply list_elem_of_fmap. by exists (k, v').
  - intros [[-> ->]|[_ Hin]]; auto.
Qed.

Lemma pairs_replace (L R : list (Z * Z)) k v v0 k' v' :
  NoDup (L ++ (k, v0) :: R).*1 ->
  (k', v') ∈ L ++ (k, v) :: R <->
  (k' = k /\ v' = v) \/ (k' <> k /\ (k', v') ∈ L ++ (k, v0) :: R).
Proof.
  intros Hnd. rewrite pairs_insert.
  - rewrite (pairs_insert L R k v0 k' v' Hnd). tauto.
  - by rewrite fmap_app, fmap_cons in Hnd |- *.
Qed.

(** Assignment through [operator[]]: the tree afterwards, the addresses in
    use, the pairs and the counter. *)
Lemma assign_store fuel m k v H t m' H' :
  tree_inv H (root m) t ->
  assign fuel m k v H = Some (m', H') ->
  exists t', tree_inv H' (root m') t' /\ frame_of (ptrs t) H H' /\
    (forall q, q ∈ ptrs t -> q ∈ ptrs t') /\
    (forall q, q ∈ ptrs t' -> q ∈ ptrs t \/ H !! q = None) /\
    (forall q, is_Some (H' !! q) -> q ∈ ptrs t' \/ is_Some (H !! q)) /\
    (forall k' v', (k', v') ∈ contents H' t' <->
       (k' = k /\ v' = v) \/ (k' <> k /\ (k', v') ∈ contents H t)) /\
    ((m' = m /\ length (ptrs t') = length (ptrs t)) \/
     (size_ m' = to_unsigned (size_ m + 1) /\
      length (ptrs t') = S (length (ptrs t)))).
Proof.
  intros Hinv Hx. unfold assign in Hx. pose proof Hinv as (HR & _ & Hnd & Hinc).
  apply bind_Some in Hx. destruct Hx as ([p m1] & H1 & Hi & Hx).
  apply bind_Some in Hx. destruct Hx as ([] & H2 & Hu & Hx).
  apply ret_Some in Hx. destruct Hx as [-> ->].
  apply upd_Some in Hu. destruct Hu as (n1 & Hn1 & ->).
  destruct (index_store _ _ _ _ _ _ _ _ Hinv Hi)
    as [(Hin & -> & -> & Hp & n & Hn & Kn)
       |(Hnot & Hnone & Hsz & K & HF & (n & Hn & Kn & Vn) & t' & A & B &
         Hinv' & EA & EA')].
  - assert (n1 = n) as -> by congruence.
    exists t. split_and!.
    + eapply tree_inv_links_kept; [|exact Hinv]. by eapply links_kept_insert.
    + by apply frame_of_insert.
    + done.
    + by left.
    + intros q Hs. destruct (decide (q = p)) as [->|Hne]; [by left|right].
      by rewrite lookup_insert_ne in Hs.
    + intros k' v'. apply list_elem_of_split in Hp. destruct Hp as (A & B & EA).
      assert (contents H t
              = map (node_pair H) A ++ (k, value n) :: map (node_pair H) B) as E.
      { unfold contents. rewrite EA, map_app. simpl.
        by rewrite (node_pair_lookup _ _ _ Hn), Kn. }
      rewrite E. unfold contents. rewrite EA in Hnd |- *.
      rewrite (contents_set_value _ _ _ _ _ _ Hnd Hn), Kn.
      apply pairs_replace. rewrite <- E.
      rewrite <- (keys_contents _ _ _ HR). by apply increasing_NoDup.
    + by left.
  - assert (n1 = n) as -> by congruence.
    pose proof Hinv' as (HR' & _ & Hnd' & Hinc').
    assert (kv_kept H H1) as K' by (by eapply kv_same_insert_kept).
    assert (tree_inv (<[p := set_value v n]> H1) (root m1) t') as Hinv2.
    { eapply tree_inv_links_kept; [|exact Hinv']. by eapply links_kept_insert. }
    exists t'. split_and!.
    + done.
    + intros q Hq Hs. rewrite lookup_insert_ne; [by apply HF|].
      intros <-. rewrite Hnone in Hs. by apply is_Some_None in Hs.
    + intros q. rewrite EA, EA', elem_of_middle. auto.
    + intros q. rewrite EA, EA', elem_of_middle. intros [->|Hq]; auto.
    + intros q Hs. destruct (decide (q = p)) as [->|Hne].
      { left. rewrite EA'. apply elem_of_middle. by left. }
      right. rewrite lookup_insert_ne in Hs by done.
      apply (kv_same_is_Some _ _ q K) in Hs.
      by rewrite lookup_insert_ne in Hs.
    + intros k' v'.
      assert (contents (<[p := set_value v n]> H1) t'
              = map (node_pair H) A ++ (k, v) :: map (node_pair H) B) as E'.
      { unfold contents. rewrite EA' in Hnd' |- *.
        rewrite (contents_set_value _ _ _ _ _ _ Hnd' Hn), Kn.
        f_equal; [|f_equal]; apply map_node_pair_ext; intros q Hq;
          apply node_pair_kv_kept; try done;
          apply (Rep_dom _ _ _ _ HR); rewrite EA; apply elem_of_app; auto. }
      assert (contents H t = map (node_pair H) A ++ map (node_pair H) B) as E.
      { unfold contents. by rewrite EA, map_app. }
      rewrite E', E. apply pairs_insert. rewrite <- E'.
      destruct Hinv2 as (HR2 & _ & _ & Hinc2).
      rewrite <- (keys_contents _ _ _ HR2). by apply increasing_NoDup.
    + right. split; [done|]. rewrite EA, EA', !length_app. simpl. lia.
Qed.

Lemma countup_add a b sz : countup (a + b) sz = countup a (countup b sz).
Proof. unfold countup. by rewrite Nat.iter_add. Qed.

Lemma countup_closed n sz :
  (0 < n)%nat -> countup n sz = to_unsigned (sz + Z.of_nat n).
Proof.
  unfold countup, to_unsigned. induction n as [|n IH]; [lia|]. intros _.
  destruct n as [|n].
  - simpl. done.
  - rewrite Nat.iter_succ, IH by lia.
    rewrite Zplus_mod_idemp_l. f_equal. lia.
Qed.

Lemma forest_ptrs_step l p k r ts :
  forest_ptrs (Fork l p k r :: ts) ≡ₚ p :: forest_ptrs (ts ++ [l; r]).
Proof.
  unfold forest_ptrs. rewrite map_app, concat_app. simpl. rewrite app_nil_r.
  rewrite <- app_assoc. simpl. rewrite <- Permutation_middle.
  apply perm_skip. rewrite app_assoc. apply Permutation_app_comm.
Qed.

Lemma forest_keys_step l p k r ts :
  forest_keys (Fork l p k r :: ts) ≡ₚ k :: forest_keys (ts ++ [l; r]).
Proof.
  unfold forest_keys. rewrite map_app, concat_app. simpl. rewrite app_nil_r.
  rewrite <- app_assoc. simpl. rewrite <- Permutation_middle.
  apply perm_skip. rewrite app_assoc. apply Permutation_app_comm.
Qed.

Lemma forest_dom H ts q :
  Forall (fun t => exists par, Rep H par t) ts -> q ∈ forest_ptrs ts ->
  is_Some (H !! q) /\ exists t, t ∈ ts /\ q ∈ ptrs t.
Proof.
  unfold forest_ptrs. induction ts as [|t ts IH]; simpl; intros Hall Hq.
  - by apply elem_of_nil in Hq.
  - apply Forall_cons in Hall. destruct Hall as [[par HR] Hall].
    apply elem_of_app in Hq. destruct Hq as [Hq|Hq].
    + split; [by eapply Rep_dom|]. exists t. split; [left|done].
    + destruct (IH Hall Hq) as (Hs & t' & Ht' & Hq'). split; [done|].
      exists t'. split; [by right|done].
Qed.

(** The copying loop, run on the trees still to be visited: [self] ends
    up with their pairs on top of its own, and every node taken from the
    store is a node of its tree. *)
Lemma copy_loop_store fuel : forall ts self H tS self' H',
  tree_inv H (root self) tS ->
  Forall (fun t => exists par, Rep H par t) ts ->
  disj (forest_ptrs ts) (ptrs tS) ->
  NoDup (forest_keys ts) ->
  copy_loop fuel (omap rootp ts) self H = Some (self', H') ->
  exists tS', tree_inv H' (root self') tS' /\ frame_of (ptrs tS) H H' /\
    (forall q, q ∈ ptrs tS -> q ∈ ptrs tS') /\
    (forall q, q ∈ ptrs tS' -> q ∈ ptrs tS \/ H !! q = None) /\
    (forall q, is_Some (H' !! q) -> q ∈ ptrs tS' \/ is_Some (H !! q)) /\
    (forall k v, (k, v) ∈ contents H' tS' <->
       (k, v) ∈ map (node_pair H) (forest_ptrs ts) \/
       ((k, v) ∈ contents H tS /\ k ∉ forest_keys ts)) /\
    size_ self' = countup (length (ptrs tS') - length (ptrs tS)) (size_ self).
Proof.
  induction fuel as [|fuel IH]; intros ts self H tS self' H' Hinv Hall Hd Hnd Hx.
  { simpl in Hx. by apply fault_Some in Hx. }
  induction ts as [|t ts IHts].
  - simpl in Hx. apply ret_Some in Hx. destruct Hx as [-> ->].
    exists tS. split_and!.
    + done.
    + apply frame_of_refl.
    + done.
    + by left.
    + by right.
    + intros k v. unfold forest_ptrs, forest_keys. simpl. split.
      * intros Hin. right. split; [done|]. by intros ?%elem_of_nil.
      * intros [Hin|[Hin _]]; [by apply elem_of_nil in Hin|done].
    + by rewrite Nat.sub_diag.
  - destruct t as [|l p k r].
    { apply Forall_cons in Hall. destruct Hall as [_ Hall].
      by apply IHts. }
    clear IHts.
    apply Forall_cons in Hall. destruct Hall as [[par HR] Hall].
    pose proof HR as ((n & Hn & Kn & Pn & Ln & Rn) & Rl & Rr).
    pose proof (forest_ptrs_step l p k r ts) as Pp.
    pose proof (forest_keys_step l p k r ts) as Pk.
    rewrite Pk in Hnd. apply NoDup_cons in Hnd. destruct Hnd as [Hk Hnd'].
    assert (forall q, q ∈ forest_ptrs (ts ++ [l; r]) ->
              (q ∉ ptrs tS) /\ is_Some (H !! q)) as Hforest.
    { intros q Hq. split.
      - apply Hd. rewrite Pp. by right.
      - apply (forest_dom H (Fork l p k r :: ts)).
        + apply Forall_cons. split; [by exists par|done].
        + rewrite Pp. by right. }
    assert (p ∉ ptrs tS) as HpS by (apply Hd; rewrite Pp; left).
    simpl in Hx.
    apply bind_Some in Hx. destruct Hx as (c & H0 & Hg & Hx).
    apply get_Some in Hg. destruct Hg as [Hc ->].
    assert (c = n) as -> by congruence.
    apply bind_Some in Hx. destruct Hx as ([p' self1] & H1 & Hi & Hx).
    destruct (index_inv _ _ _ _ _ _ _ _ Hinv Hi) as (t0 & _ & _ & HF0 & _).
    apply bind_Some in Hx. destruct Hx as (c' & H0 & Hg & Hx).
    apply get_Some in Hg. destruct Hg as [Hc' ->].
    assert (c' = n) as ->.
    { rewrite (HF0 p HpS) in Hc' by (by rewrite Hn). congruence. }
    apply bind_Some in Hx. destruct Hx as ([] & H2 & Hu & Hx).
    assert (assign fuel self (key n) (value n) H = Some (self1, H2)) as Ha.
    { unfold assign, bind. rewrite Hi. simpl. unfold bind. by rewrite Hu. }
    destruct (assign_store _ _ _ _ _ _ _ _ Hinv Ha)
      as (t1 & Hinv1 & HF1 & Hsub1 & Hnew1 & Hdom1 & Hc1 & Hsz1).
    rewrite (children_roots n l r Ln Rn), <- omap_app in Hx.
    destruct (IH (ts ++ [l; r]) self1 H2 t1 self' H' Hinv1)
      as (tS' & Hinv' & HF' & Hsub' & Hnew' & Hdom' & Hc'' & Hsz'); try done.
    + assert (forall t, (exists par, Rep H par t) -> t ∈ ts ++ [l; r] ->
                exists par, Rep H2 par t) as Hkeep.
      { intros t [par' HRt] Ht. exists par'.
        eapply Rep_frame_of; [exact HF1| |exact HRt].
        intros q Hq. apply Hforest. by eapply elem_of_forest. }
      apply Forall_forall. intros t Ht. apply Hkeep; [|done].
      apply elem_of_app in Ht. destruct Ht as [Ht|Ht].
      * rewrite Forall_forall in Hall. by apply Hall.
      * apply elem_of_cons in Ht. destruct Ht as [->|Ht]; [by exists (Some p)|].
        apply list_elem_of_singleton in Ht. subst t. by exists (Some p).
    + intros q Hq Hq1. destruct (Hforest q Hq) as [HqS Hs].
      destruct (Hnew1 q Hq1) as [Hin|Hnone]; [done|].
      rewrite Hnone in Hs. by apply is_Some_None in Hs.
    + assert (map (node_pair H2) (forest_ptrs (ts ++ [l; r]))
              = map (node_pair H) (forest_ptrs (ts ++ [l; r]))) as E2.
      { apply map_node_pair_ext. intros q Hq. destruct (Hforest q Hq) as [HqS Hs].
        unfold node_pair, kv_of. by rewrite (HF1 q HqS Hs). }
      assert (length (ptrs t1) <= length (ptrs tS'))%nat as Hle.
      { apply submseteq_length, NoDup_submseteq; [|done]. by destruct Hinv1 as (_ & _ & ? & _). }
      exists tS'. split_and!; try done.
      * by eapply frame_of_grow.
      * auto.
      * by eapply (fresh_grow (ptrs tS) (ptrs t1) (ptrs tS') H H2).
      * intros q Hs. destruct (Hdom' q Hs) as [Hin|Hs2]; [by left|].
        destruct (Hdom1 q Hs2) as [Hin|Hs0]; auto.
      * intros k' v'. rewrite Hc'', E2, Hc1.
        assert ((k', v') ∈ map (node_pair H) (forest_ptrs (Fork l p k r :: ts)) <->
                (k', v') = (k, value n) \/
                (k', v') ∈ map (node_pair H) (forest_ptrs (ts ++ [l; r]))) as ->.
        { rewrite !list_elem_of_fmap. split.
          - intros (q & E & Hq). rewrite Pp in Hq. apply elem_of_cons in Hq.
            destruct Hq as [->|Hq].
            + left. by rewrite E, (node_pair_lookup _ _ _ Hn), Kn.
            + right. by exists q.
          - intros [E|(q & E & Hq)].
            + exists p. rewrite (node_pair_lookup _ _ _ Hn), Kn. split; [done|].
              rewrite Pp. left.
            + exists q. split; [done|]. rewrite Pp. by right. }
        assert (k' ∉ forest_keys (Fork l p k r :: ts) <->
                k' <> k /\ k' ∉ forest_keys (ts ++ [l; r])) as ->.
        { rewrite Pk, not_elem_of_cons. tauto. }
        rewrite Kn. split.
        -- intros [Hin|[[[-> ->]|[Hne Hin]] Hout]]; auto.
        -- intros [[E|Hin]|[Hin [Hne Hout]]]; auto.
           injection E as -> ->. right. split; [by left|done].
      * rewrite Hsz'. destruct Hsz1 as [[-> El]|[Es El]].
        -- by rewrite El.
        -- rewrite Es.
           assert (to_unsigned (size_ self + 1) = countup 1 (size_ self)) as -> by done.
           rewrite <- countup_add. f_equal. lia.
Qed.

Lemma covered_grow (ps ps' : list positive) (H H' : gmap positive Node) :
  (forall q, q ∈ ps -> q ∈ ps') ->
  (forall q, is_Some (H' !! q) -> q ∈ ps' \/ is_Some (H !! q)) ->
  covered ps ps' H H'.
Proof.
  intros Hsub Hdom q Hs. destruct (Hdom q Hs) as [Hin|Hs0]; [by left|].
  destruct (decide (q ∈ ps)) as [Hin|Hout]; [left; by apply Hsub|by right].
Qed.

(** [operator[]] takes at most the node it returns from the store, and
    never drops a node of the tree. *)
Lemma index_cover fuel m k H t p m' H' :
  tree_inv H (root m) t ->
  index fuel m k H = Some ((p, m'), H') ->
  exists t', tree_inv H' (root m') t' /\ frame_of (ptrs t) H H' /\
    (forall q, q ∈ ptrs t' -> q ∈ ptrs t \/ H !! q = None) /\
    covered (ptrs t) (ptrs t') H H' /\
    ((m' = m /\ length (ptrs t') = length (ptrs t)) \/
     (size_ m' = to_unsigned (size_ m + 1) /\
      length (ptrs t') = S (length (ptrs t)))).
Proof.
  intros Hinv Hx.
  destruct (index_store _ _ _ _ _ _ _ _ Hinv Hx)
    as [(_ & -> & -> & Hp & _)
       |(_ & Hnone & Hsz & K & HF & _ & t' & A & B & Hinv' & EA & EA')].
  - exists t. split; [done|]. split; [apply frame_of_refl|]. split; [by left|].
    split; [|by left]. apply covered_grow; [done|by right].
  - exists t'. split_and!; try done.
    + intros q. rewrite EA, EA', elem_of_middle. intros [->|Hq]; auto.
    + apply covered_grow.
      * intros q. rewrite EA, EA', elem_of_middle. auto.
      * intros q Hs. destruct (decide (q = p)) as [->|Hne].
        { left. rewrite EA'. apply elem_of_middle. by left. }
        right. apply (kv_same_is_Some _ _ q K) in Hs.
        by rewrite lookup_insert_ne in Hs.
    + right. split; [done|]. rewrite EA, EA', !length_app. simpl. lia.
Qed.

(** More fuel does not change what the loop of [clear] returns. *)
Lemma clear_loop_mono fuel : forall queue sz H res fuel',
  clear_loop fuel queue sz H = Some res -> (fuel <= fuel')%nat ->
  clear_loop fuel' queue sz H = Some res.
Proof.
  induction fuel as [|fuel IH]; intros queue sz H [res H'] fuel' Hx Hle;
    simpl in Hx.
  - by apply fault_Some in Hx.
  - destruct fuel' as [|fuel']; [lia|]. simpl.
    destruct queue as [|p rest]; [done|].
    apply bind_Some in Hx. destruct Hx as (n & H0 & Hg & Hx).
    apply get_Some in Hg. destruct Hg as [Hn ->].
    apply bind_Some in Hx. destruct Hx as ([] & H1 & Hf & Hx).
    apply free_Some in Hf. destruct Hf as [_ ->].
    rewrite (bind_get _ _ _ _ Hn), (bind_free _ _ _ _ Hn).
    apply IH; [done|lia].
Qed.

(** Whenever [clear] returns, it has reset the root field, released the
    nodes of the tree and nothing else, and decremented [size_] once per
    node. *)
Lemma clear_store fuel m H t m' H' :
  tree_inv H (root m) t ->
  clear fuel m H = Some (m', H') ->
  root m' = None /\ size_ m' = countdown (length (ptrs t)) (size_ m) /\
  forall q, H' !! q = if decide (q ∈ ptrs t) then None else H !! q.
Proof.
  intros Hinv Hx.
  destruct (clear_exact (Nat.max fuel (S (length (ptrs t)))) m H t Hinv)
    as (m2 & H2 & E & Hroot & Hsz & Hdom); [lia|].
  assert (clear (Nat.max fuel (S (length (ptrs t)))) m H = Some (m', H')) as E'.
  { unfold clear in Hx |- *. destruct (root m) as [rt|]; [|done].
    apply bind_Some in Hx. destruct Hx as (sz & H1 & Hl & Hx).
    unfold bind. rewrite (clear_loop_mono _ _ _ _ _ _ Hl); [done|lia]. }
  rewrite E in E'. injection E' as <- <-. done.
Qed.

(** [erase] releases one node of the tree, or none, and keeps the others
    in the tree. *)
Lemma erase_store fuel m it H t m' H' :
  tree_inv H (root m) t -> inside (ptrs t) it ->
  erase fuel m it H = Some (m', H') ->
  exists t', tree_inv H' (root m') t' /\
    (forall q, q ∈ ptrs t' -> q ∈ ptrs t) /\ frame_of (ptrs t) H H' /\
    covered (ptrs t) (ptrs t') H H' /\
    ((m' = m /\ length (ptrs t') = length (ptrs t)) \/
     (size_ m' = to_unsigned (size_ m - 1) /\
      S (length (ptrs t')) = length (ptrs t))).
Proof.
  intros Hinv Hit Hx. pose proof Hinv as (HR & Hroot & Hnd & Hinc).
  destruct it as [node|].
  - simpl in Hit. destruct (focus _ _ Hit) as (c & l & k & r & ->).
    destruct (erase_node_inv _ _ _ _ _ _ _ _ _ _ HR Hnd Hroot Hx)
      as (t' & HR' & Hroot' & Hnd' & Hk' & Hsub & HF & Hsz & Hc & gone & Hg & Hdom).
    assert (increasing (keys t')) as Hinc'.
    { rewrite Hk'. rewrite keys_plug in Hinc. simpl in Hinc.
      assert (forall (A B C D : list Z) x,
                A ++ (B ++ x :: C) ++ D = (A ++ B) ++ x :: (C ++ D)) as E
        by (intros; rewrite <- !app_assoc; done).
      rewrite E in Hinc. apply increasing_remove in Hinc.
      by rewrite <- app_assoc in Hinc. }
    exists t'. split; [done|]. split; [done|]. split; [done|].
    assert (gone ∉ ptrs t') as Hgone.
      { intros Hin. destruct (Rep_dom _ _ _ _ HR' Hin) as [x Hx'].
        rewrite (proj2 (Hdom gone)) in Hx' by (by left). done. }
      apply list_elem_of_split in Hg. destruct Hg as (A & B & EA).
      rewrite EA in Hsub, Hnd |- *.
      assert (length (ptrs t') = length (A ++ B)) as Elen.
      { apply (f_equal length) in Hc. unfold contents in Hc.
        rewrite length_app, !length_map in Hc. rewrite Hc.
        apply (f_equal length) in EA. rewrite ptrs_plug in EA. simpl in EA.
        rewrite !length_app in EA |- *. simpl in EA. rewrite !length_app in EA.
        simpl in EA. lia. }
      assert (ptrs t' ≡ₚ A ++ B) as Ep.
      { apply submseteq_length_Permutation; [|lia].
        apply NoDup_submseteq; [done|]. intros q Hq.
        specialize (Hsub q Hq). apply elem_of_middle in Hsub.
        destruct Hsub as [->|Hq']; done. }
      split; [|right; split; [done|]; rewrite Elen, !length_app; simpl; lia].
      intros q Hs. apply not_eq_None_Some in Hs.
      destruct (decide (q ∈ A ++ gone :: B)) as [Hin|Hout].
      * left. rewrite Ep. apply elem_of_middle in Hin.
        destruct Hin as [->|Hin]; [|done].
        exfalso. apply Hs. apply Hdom. by left.
      * right. split; [|done]. apply not_eq_None_Some. intros Hnone.
        apply Hs. apply Hdom. by right.
  - destruct fuel as [|fuel]; [by apply fault_Some in Hx|]. simpl in Hx.
    apply ret_Some in Hx. destruct Hx as [-> ->].
    exists t. split; [done|]. split; [done|]. split; [apply frame_of_refl|].
    split; [|by left]. apply covered_grow; [done|by right].
Qed.

Lemma NoDup_fst {A B} (l : list (A * B)) : NoDup l.*1 -> NoDup l.
Proof. apply NoDup_fmap_1. Qed.

(** The copy constructor: the new tree is made of nodes taken from the
    store, holds the pairs of [rhs], and [size_] has been incremented
    once per pair, starting from [rhs.size_]. *)
Lemma copy_construct_store fuel rhs H tR self H' :
  tree_inv H (root rhs) tR ->
  copy_construct fuel rhs H = Some (self, H') ->
  exists tS, tree_inv H' (root self) tS /\ frame_of [] H H' /\
    (forall q, q ∈ ptrs tS -> H !! q = None) /\
    (forall q, is_Some (H' !! q) -> q ∈ ptrs tS \/ is_Some (H !! q)) /\
    (forall k v, (k, v) ∈ contents H' tS <-> (k, v) ∈ contents H tR) /\
    size_ self = countup (length (ptrs tR)) (size_ rhs).
Proof.
  intros (HR & Hroot & Hnd & Hinc) Hx. unfold copy_construct in Hx.
  destruct (root rhs) as [rt|] eqn:Hrt.
  - assert (omap rootp [tR] = [rt]) as Eq by (simpl; by rewrite Hroot).
    rewrite <- Eq in Hx.
    destruct (copy_loop_store fuel [tR] (mkMap None (size_ rhs)) H Leaf self H')
      as (tS & Hinv & HF & _ & Hnew & Hdom & Hc & Hsz); try done.
    + apply tree_inv_Leaf.
    + apply Forall_cons_2; [by exists None|apply Forall_nil_2].
    + intros q _ Hq. by apply elem_of_nil in Hq.
    + unfold forest_keys. simpl. rewrite app_nil_r. by apply increasing_NoDup.
    + unfold forest_ptrs, forest_keys in Hc. simpl in Hc, Hsz.
      rewrite app_nil_r in Hc.
      assert (forall k v, (k, v) ∈ contents H' tS <-> (k, v) ∈ contents H tR) as Hc'.
      { intros k v. rewrite Hc. split; [|by left].
        intros [Hin|[Hin _]]; [done|by apply elem_of_nil in Hin]. }
      exists tS. split_and!; try done.
      * intros q Hq. destruct (Hnew q Hq) as [Hin|Hnone]; [|done].
        by apply elem_of_nil in Hin.
      * rewrite Hsz, Nat.sub_0_r. f_equal.
        assert (contents H' tS ≡ₚ contents H tR) as Ep.
        { apply NoDup_Permutation.
          - apply NoDup_fst. destruct Hinv as (HRS & _ & _ & HincS).
            rewrite <- (keys_contents _ _ _ HRS). by apply increasing_NoDup.
          - apply NoDup_fst. rewrite <- (keys_contents _ _ _ HR).
            by apply increasing_NoDup.
          - intros [k v]. apply Hc'. }
        apply Permutation_length in Ep. unfold contents in Ep.
        by rewrite !length_map in Ep.
  - apply ret_Some in Hx. destruct Hx as [-> ->]. simpl.
    apply rootp_None in Hroot. subst tR.
    exists Leaf. split; [apply tree_inv_Leaf|]. split; [apply frame_of_refl|].
    split; [intros q Hq; by apply elem_of_nil in Hq|]. split; [by right|]. done.
Qed.
(** ** Steps of a program keep the invariant of the world *)

Lemma owns_put tr H objs a ps m' t' H' :
  owns tr (H, objs) ->
  (forall b mb, b <> a -> objs !! b = Some mb -> disj ps (ptrs (tr b))) ->
  tree_inv H' (root m') t' -> frame_of ps H H' ->
  (forall q, q ∈ ptrs t' -> q ∈ ps \/ H !! q = None) ->
  owns (retree tr a t') (H', <[a := m']> objs).
Proof.
  intros [Htree Hdisj] Hps Hinv HF Hnew. simpl in Htree, Hdisj.
  assert (forall b mb, b <> a -> objs !! b = Some mb ->
            disj (ptrs t') (ptrs (tr b))) as Hd'.
  { intros b mb Hne Hb q Hq Hq'.
    destruct (Hnew q Hq) as [Hin|Hnone].
    - by eapply (Hps b mb).
    - destruct (Htree b mb Hb) as (HR & _).
      destruct (Rep_dom _ _ _ _ HR Hq') as [x Hx]. congruence. }
  split; simpl.
  - intros c mc Hc. unfold retree. destruct (decide (c = a)) as [->|Hne].
    + rewrite lookup_insert_eq in Hc. by injection Hc as <-.
    + rewrite lookup_insert_ne in Hc by done.
      destruct (Htree c mc Hc) as (HR & Hroot & Hnd & Hinc).
      split_and!; try done.
      eapply Rep_frame_of; [exact HF| |exact HR].
      apply disj_sym. by eapply Hps.
  - intros c d mc md Hne Hc Hd. unfold retree.
    destruct (decide (c = a)) as [->|Hca]; destruct (decide (d = a)) as [->|Hda];
      try done.
    + rewrite lookup_insert_ne in Hd by done. by eapply Hd'.
    + rewrite lookup_insert_ne in Hc by done. apply disj_sym. by eapply Hd'.
    + rewrite lookup_insert_ne in Hc, Hd by done. by eapply Hdisj.
Qed.

(** A member function run on a stored object. *)
Lemma owns_local tr H objs a m m' t' H' :
  owns tr (H, objs) -> objs !! a = Some m ->
  tree_inv H' (root m') t' -> frame_of (ptrs (tr a)) H H' ->
  (forall q, q ∈ ptrs t' -> q ∈ ptrs (tr a) \/ H !! q = None) ->
  owns (retree tr a t') (H', <[a := m']> objs).
Proof.
  intros Hown Ha Hinv HF Hnew. eapply owns_put; try done.
  intros b mb Hne Hb. destruct Hown as [_ Hdisj].
  eapply (Hdisj a b m mb); [congruence|done|done].
Qed.

(** Coverage: the nodes in use are the nodes of the objects. *)
Lemma covers_put tr H objs a m' t' H' :
  covers tr (H, objs) ->
  (forall q, is_Some (H' !! q) ->
     q ∈ ptrs t' \/
     (is_Some (H !! q) /\ forall m, objs !! a = Some m -> q ∉ ptrs (tr a))) ->
  covers (retree tr a t') (H', <[a := m']> objs).
Proof.
  intros Hcov Hc q Hs. simpl in Hs |- *. destruct (Hc q Hs) as [Hin|[Hs0 Hout]].
  - exists a, m'. rewrite lookup_insert_eq. split; [done|].
    unfold retree. by rewrite decide_True.
  - destruct (Hcov q Hs0) as (b & mb & Hb & Hq). simpl in Hb.
    destruct (decide (b = a)) as [->|Hne]; [by destruct (Hout mb Hb)|].
    exists b, mb. rewrite lookup_insert_ne by done. split; [done|].
    unfold retree. by rewrite decide_False.
Qed.

Lemma covers_local tr H objs a m' t' H' :
  covers tr (H, objs) -> covered (ptrs (tr a)) (ptrs t') H H' ->
  covers (retree tr a t') (H', <[a := m']> objs).
Proof.
  intros Hcov Hc. eapply covers_put; [exact Hcov|].
  intros q Hs. destruct (Hc q Hs) as [Hin|[Hs0 Hout]]; auto.
Qed.

Lemma covers_write tr H objs o m m' :
  covers tr (H, objs) -> objs !! o = Some m -> covers tr (H, <[o := m']> objs).
Proof.
  intros Hcov Ho q Hs. destruct (Hcov q Hs) as (b & mb & Hb & Hq). simpl in Hb |- *.
  destruct (decide (b = o)) as [->|Hne].
  - exists o, m'. by rewrite lookup_insert_eq.
  - exists b, mb. by rewrite lookup_insert_ne.
Qed.

Lemma covers_delete tr H objs o :
  covers tr (H, objs) -> ptrs (tr o) = [] -> covers tr (H, delete o objs).
Proof.
  intros Hcov Ho q Hs. destruct (Hcov q Hs) as (b & mb & Hb & Hq). simpl in Hb |- *.
  destruct (decide (b = o)) as [->|Hne].
  - rewrite Ho in Hq. by apply elem_of_nil in Hq.
  - exists b, mb. by rewrite lookup_delete_ne.
Qed.

(** The tree of [o] handed over to [b], which has none of its own. *)
Lemma covers_move tr H objs o b mo' m' :
  covers tr (H, objs) ->
  (forall mb, objs !! b = Some mb -> ptrs (tr b) = []) ->
  covers (retree (retree tr o Leaf) b (tr o)) (H, <[b := m']> (<[o := mo']> objs)).
Proof.
  intros Hcov Hb q Hs. destruct (Hcov q Hs) as (c & mc & Hc & Hq). simpl in Hc |- *.
  destruct (decide (c = o)) as [->|Hco].
  - exists b, m'. rewrite lookup_insert_eq. split; [done|].
    unfold retree. by rewrite decide_True.
  - destruct (decide (c = b)) as [->|Hcb].
    + rewrite (Hb mc Hc) in Hq. by apply elem_of_nil in Hq.
    + exists c, mc. rewrite !lookup_insert_ne by done. split; [done|].
      unfold retree. by rewrite !decide_False.
Qed.

(** The other objects: a statement leaves them alone. *)
Lemma apart_put tr H objs a m' t' H' ps :
  owns tr (H, objs) -> frame_of ps H H' ->
  (forall b mb, b <> a -> objs !! b = Some mb -> disj ps (ptrs (tr b))) ->
  apart tr (retree tr a t') [a] (H, objs) (H', <[a := m']> objs).
Proof.
  intros [Htree _] HF Hd b mb Hb Hmb. simpl in Hmb |- *.
  assert (b <> a) as Hne by (intros ->; apply Hb; left).
  rewrite lookup_insert_ne by done. split; [done|]. split.
  - unfold retree. by rewrite decide_False.
  - intros q Hq. apply HF.
    + intros Hq'. by apply (Hd b mb Hne Hmb q).
    + destruct (Htree b mb Hmb) as (HR & _). by eapply Rep_dom.
Qed.

Lemma apart_local tr H objs a m m' t' H' :
  owns tr (H, objs) -> objs !! a = Some m -> frame_of (ptrs (tr a)) H H' ->
  apart tr (retree tr a t') [a] (H, objs) (H', <[a := m']> objs).
Proof.
  intros Hown Ha HF. eapply apart_put; [exact Hown|exact HF|].
  intros b mb Hne Hb. destruct Hown as [_ Hdisj].
  eapply (Hdisj a b m mb); [congruence|done|done].
Qed.

Lemma apart_refl tr ts w : apart tr tr ts w w.
Proof. by intros b mb _ Hb. Qed.

Lemma apart_trans tr1 tr2 tr3 ts w1 w2 w3 :
  apart tr1 tr2 ts w1 w2 -> apart tr2 tr3 ts w2 w3 -> apart tr1 tr3 ts w1 w3.
Proof.
  intros A12 A23 b mb Hb Hmb.
  destruct (A12 b mb Hb Hmb) as (Hmb2 & E2 & Hq2).
  destruct (A23 b mb Hb Hmb2) as (Hmb3 & E3 & Hq3).
  split; [done|]. split; [congruence|].
  intros q Hq. rewrite <- (Hq2 q Hq). apply Hq3. by rewrite E2.
Qed.

Lemma apart_objs tr ts H objs objs' :
  (forall b, b ∉ ts -> objs' !! b = objs !! b) ->
  apart tr tr ts (H, objs) (H, objs').
Proof. intros Hsame b mb Hb Hmb. simpl. by rewrite (Hsame b Hb). Qed.

(** Counters: [size_] against the number of nodes. *)
Lemma sized_put tr H objs a m' t' H' :
  sized tr (H, objs) ->
  size_ m' = to_unsigned (Z.of_nat (length (ptrs t'))) ->
  sized (retree tr a t') (H', <[a := m']> objs).
Proof.
  intros Hs Hm c mc Hc. simpl in Hc. unfold retree.
  destruct (decide (c = a)) as [->|Hne].
  - rewrite lookup_insert_eq in Hc. by injection Hc as <-.
  - rewrite lookup_insert_ne in Hc by done. by apply Hs.
Qed.

Lemma sized_delete tr H objs o :
  sized tr (H, objs) -> sized tr (H, delete o objs).
Proof.
  intros Hs c mc Hc. simpl in Hc. apply lookup_delete_Some in Hc.
  destruct Hc as [_ Hc]. by apply Hs.
Qed.

Lemma size_incr s n :
  s = to_unsigned (Z.of_nat n) ->
  to_unsigned (s + 1) = to_unsigned (Z.of_nat (S n)).
Proof.
  intros ->. unfold to_unsigned. rewrite Zplus_mod_idemp_l. f_equal. lia.
Qed.

Lemma size_decr s n :
  s = to_unsigned (Z.of_nat (S n)) ->
  to_unsigned (s - 1) = to_unsigned (Z.of_nat n).
Proof.
  intros ->. unfold to_unsigned. rewrite Zminus_mod_idemp_l. f_equal. lia.
Qed.

Lemma countdown_all n s :
  s = to_unsigned (Z.of_nat n) -> countdown n s = to_unsigned 0.
Proof.
  intros ->. destruct n as [|n]; [done|].
  rewrite countdown_closed by lia. unfold to_unsigned.
  rewrite Zminus_mod_idemp_l. f_equal. lia.
Qed.

Lemma countup_all n s :
  s = to_unsigned 0 -> countup n s = to_unsigned (Z.of_nat n).
Proof.
  intros ->. destruct n as [|n]; [done|].
  rewrite countup_closed by lia. unfold to_unsigned.
  rewrite Zplus_mod_idemp_l. f_equal.
Qed.

Lemma on_object_Some {A} a (f : AVLmap -> M (A * AVLmap)) w x w' :
  on_object a f w = Some (x, w') ->
  exists m m' H', snd w !! a = Some m /\ f m (fst w) = Some ((x, m'), H') /\
    w' = (H', <[a := m']> (snd w)).
Proof.
  unfold on_object. intros Hx.
  destruct (snd w !! a) as [m|] eqn:Ea; [|done].
  destruct (f m (fst w)) as [[[y m'] H']|] eqn:Ef; [|done].
  injection Hx as Ex Ew. subst x w'. by exists m, m', H'.
Qed.

Lemma wbind_Some {A B} (m : W A) (k : A -> W B) w b w' :
  wbind m k w = Some (b, w') ->
  exists a w1, m w = Some (a, w1) /\ k a w1 = Some (b, w').
Proof.
  unfold wbind. destruct (m w) as [[a w1]|]; [|done]. intros Hx. by exists a, w1.
Qed.

Lemma read_object_Some o w m w' :
  read_object o w = Some (m, w') -> snd w !! o = Some m /\ w' = w.
Proof.
  unfold read_object. destruct (snd w !! o) as [m0|]; [|done].
  by intros [= <- <-].
Qed.

Lemma write_object_Some o f w u w' :
  write_object o f w = Some (u, w') ->
  exists m, snd w !! o = Some m /\ w' = (fst w, <[o := f m]> (snd w)).
Proof.
  unfold write_object. destruct (snd w !! o) as [m|]; [|done].
  intros [= <- <-]. by exists m.
Qed.

Lemma new_object_Some a m w u w' :
  new_object a m w = Some (u, w') ->
  snd w !! a = None /\ w' = (fst w, <[a := m]> (snd w)).
Proof.
  unfold new_object. destruct (snd w !! a) as [m0|]; [done|].
  by intros [= <- <-].
Qed.

Lemma lift_unit_Some (f : AVLmap -> M AVLmap) m H u m' H' :
  lift_unit f m H = Some ((u, m'), H') -> f m H = Some (m', H').
Proof.
  unfold lift_unit. intros Hx. apply bind_Some in Hx.
  destruct Hx as (m1 & H1 & Hf & Hx). apply ret_Some in Hx.
  destruct Hx as [E ->]. congruence.
Qed.

Lemma on_store_Some {A} (f : M A) w x w' :
  on_store f w = Some (x, w') ->
  exists H', f (fst w) = Some (x, H') /\ w' = (H', snd w).
Proof.
  unfold on_store. destruct (f (fst w)) as [[y H']|] eqn:Ef; [|done].
  intros Hx. injection Hx as Ex Ew. subst x w'. by exists H'.
Qed.

(** Objects that keep their root keep their tree. *)
Lemma owns_objs tr H objs objs' :
  owns tr (H, objs) ->
  (forall c mc', objs' !! c = Some mc' ->
     exists mc, objs !! c = Some mc /\ root mc = root mc') ->
  owns tr (H, objs').
Proof.
  intros [Htree Hdisj] Hsame. simpl in Htree, Hdisj. split; simpl.
  - intros c mc' Hc. destruct (Hsame c mc' Hc) as (mc & Hc0 & <-). by eapply Htree.
  - intros c d mc' md' Hne Hc Hd.
    destruct (Hsame c mc' Hc) as (mc & Hc0 & _).
    destruct (Hsame d md' Hd) as (md & Hd0 & _). by eapply Hdisj.
Qed.

Lemma owns_write tr H objs o m m' :
  owns tr (H, objs) -> objs !! o = Some m -> root m' = root m ->
  owns tr (H, <[o := m']> objs).
Proof.
  intros Hown Ho Hroot. eapply owns_objs; [exact Hown|].
  intros c mc' Hc. destruct (decide (c = o)) as [->|Hne].
  - rewrite lookup_insert_eq in Hc. injection Hc as <-. by exists m.
  - rewrite lookup_insert_ne in Hc by done. by exists mc'.
Qed.

Lemma owns_delete tr H objs o :
  owns tr (H, objs) -> owns tr (H, delete o objs).
Proof.
  intros Hown. eapply owns_objs; [exact Hown|].
  intros c mc' Hc. apply lookup_delete_Some in Hc. destruct Hc as [_ Hc].
  by exists mc'.
Qed.

(** An object gives its tree away. *)
Lemma owns_release tr H objs o m m' :
  owns tr (H, objs) -> objs !! o = Some m -> root m' = None ->
  owns (retree tr o Leaf) (H, <[o := m']> objs).
Proof.
  intros Hown Ho Hroot. eapply owns_local; [exact Hown|exact Ho| | |].
  - rewrite Hroot. apply tree_inv_Leaf.
  - apply frame_of_refl.
  - intros q Hq. by apply elem_of_nil in Hq.
Qed.

(** An object takes over the tree another object has released. *)
Lemma owns_adopt tr H objs o b mo t m' :
  owns (retree tr o Leaf) (H, objs) -> objs !! o = Some mo ->
  tree_inv H (root m') t ->
  (forall c mc, c <> o -> objs !! c = Some mc -> disj (ptrs t) (ptrs (tr c))) ->
  owns (retree (retree tr o Leaf) b t) (H, <[b := m']> objs).
Proof.
  intros Hown Ho Hinv Hd.
  eapply (owns_put _ _ _ _ (ptrs t)); [exact Hown| |exact Hinv| |].
  - intros c mc Hne Hc. unfold retree. destruct (decide (c = o)) as [->|Hco].
    + intros q _ Hq. by apply elem_of_nil in Hq.
    + by eapply Hd.
  - apply frame_of_refl.
  - intros q Hq. by left.
Qed.

Lemma clear_object_inv fuel a tr w u w' :
  owns tr w -> covers tr w ->
  on_object a (lift_unit (clear fuel)) w = Some (u, w') ->
  owns (retree tr a Leaf) w' /\ covers (retree tr a Leaf) w' /\
  (forall q, fst w' !! q = if decide (q ∈ ptrs (tr a)) then None else fst w !! q) /\
  (sized tr w -> sized (retree tr a Leaf) w') /\
  apart tr (retree tr a Leaf) [a] w w' /\
  exists m', snd w' = <[a := m']> (snd w) /\ root m' = None.
Proof.
  destruct w as [H objs]. intros Hown Hcov Hx.
  apply on_object_Some in Hx. destruct Hx as (m & m' & H' & Hm & Hf & ->).
  simpl in Hm, Hf. apply lift_unit_Some in Hf.
  destruct (clear_store fuel m H (tr a) m' H') as (Hroot & Hsz & Hdom);
    [by apply Hown|done|].
  split_and!.
  - eapply owns_local; [exact Hown|exact Hm| | |].
    + rewrite Hroot. apply tree_inv_Leaf.
    + intros q Hq _. rewrite Hdom. by rewrite decide_False.
    + intros q Hq. by apply elem_of_nil in Hq.
  - eapply covers_local; [exact Hcov|]. intros q Hs. right. rewrite Hdom in Hs.
    destruct (decide (q ∈ ptrs (tr a))); [by apply is_Some_None in Hs|done].
  - exact Hdom.
  - intros Hs. eapply sized_put; [exact Hs|]. rewrite Hsz. simpl.
    apply countdown_all. by apply (Hs a m).
  - eapply apart_local; [exact Hown|exact Hm|].
    intros q Hq _. rewrite Hdom. by rewrite decide_False.
  - by exists m'.
Qed.

(** Move assignment: [this] is cleared and takes the root and the counter
    of [rhs], which is left empty. *)
Lemma move_assign_store fuel this rhs tr w u w' :
  owns tr w -> covers tr w ->
  move_assign fuel this rhs w = Some (u, w') ->
  exists tr', owns tr' w' /\ covers tr' w' /\ (sized tr w -> sized tr' w') /\
    apart tr tr' [this; rhs] w w' /\
    (this <> rhs ->
     exists mr, snd w !! rhs = Some mr /\
       snd w' !! this = Some (mkMap (root mr) (size_ mr)) /\
       snd w' !! rhs = Some (mkMap None 0) /\
       tr' this = tr rhs /\
       (forall q, fst w' !! q =
                  if decide (q ∈ ptrs (tr this)) then None else fst w !! q)).
Proof.
  intros Hown Hcov Hx. unfold move_assign in Hx.
  apply wbind_Some in Hx. destruct Hx as ([] & w1 & Hc & Hx).
  destruct (clear_object_inv _ _ _ _ _ _ Hown Hcov Hc)
    as (Hown1 & Hcov1 & Hdom & Hsz1 & Hap1 & mc & Hobjs1 & Hrc).
  clear Hown Hcov Hc. destruct w as [H objs]. destruct w1 as [H1 objs1].
  simpl in Hobjs1, Hdom.
  assert (objs1 !! this = Some mc) as Hmc by (subst objs1; apply lookup_insert_eq).
  unfold exchange_root in Hx.
  apply wbind_Some in Hx. destruct Hx as (r & w2 & He & Hx).
  apply wbind_Some in He. destruct He as (mr & w0 & Hr & He).
  apply read_object_Some in Hr. destruct Hr as [Hmr ->]. simpl in Hmr.
  apply wbind_Some in He. destruct He as ([] & w0 & Hw & He).
  apply write_object_Some in Hw. destruct Hw as (mr' & Hmr' & ->).
  simpl in Hmr'. assert (mr' = mr) as -> by congruence.
  injection He as <- <-. simpl in Hx.
  apply wbind_Some in Hx. destruct Hx as ([] & w3 & Hw & Hx).
  apply write_object_Some in Hw. destruct Hw as (mt & Hmt & ->). simpl in Hmt, Hx.
  unfold exchange_size in Hx.
  apply wbind_Some in Hx. destruct Hx as (s & w4 & He & Hx).
  apply wbind_Some in He. destruct He as (ms & w0 & Hr & He).
  apply read_object_Some in Hr. destruct Hr as [Hms ->]. simpl in Hms.
  apply wbind_Some in He. destruct He as ([] & w0 & Hw & He).
  apply write_object_Some in Hw. destruct Hw as (ms' & Hms' & ->).
  simpl in Hms'. assert (ms' = ms) as -> by congruence.
  injection He as <- <-. simpl in Hx.
  apply write_object_Some in Hx. destruct Hx as (mf & Hmf & ->). simpl in Hmf.
  pose proof Hown1 as [Htree1 Hdisj1]. simpl in Htree1, Hdisj1.
  set (tr1 := retree tr this Leaf) in *.
  exists (retree (retree tr1 rhs Leaf) this (tr1 rhs)). simpl. split_and!.
  - eapply owns_write; [|exact Hmf|done].
    eapply owns_write; [|exact Hms|done].
    eapply (owns_adopt tr1 H1 _ rhs this (set_root None mr) (tr1 rhs)).
    + by eapply owns_release.
    + by rewrite lookup_insert_eq.
    + simpl. by eapply Htree1.
    + intros c mc' Hne Hc'. rewrite lookup_insert_ne in Hc' by done.
      eapply (Hdisj1 rhs c); [congruence|exact Hmr|exact Hc'].
  - eapply covers_write; [|exact Hmf].
    eapply covers_write; [|exact Hms].
    apply covers_move; [exact Hcov1|].
    intros mb _. unfold tr1, retree. by rewrite decide_True.
  - intros Hs0 c mc' Hc'. specialize (Hsz1 Hs0). fold tr1 in Hsz1.
    pose proof (Hsz1 rhs mr Hmr) as Hsr. simpl in Hc'.
    assert (size_ ms = size_ mr) as Ems.
    { destruct (decide (rhs = this)) as [->|Hne].
      - rewrite lookup_insert_eq in Hms. injection Hms as <-. simpl.
        rewrite lookup_insert_eq in Hmt. by injection Hmt as <-.
      - rewrite lookup_insert_ne, lookup_insert_eq in Hms by done.
        by injection Hms as <-. }
    unfold retree at 1. destruct (decide (c = this)) as [->|Hct].
    + rewrite lookup_insert_eq in Hc'. injection Hc' as <-. simpl. congruence.
    + rewrite lookup_insert_ne in Hc' by done. unfold retree at 1.
      destruct (decide (c = rhs)) as [->|Hcr].
      * rewrite lookup_insert_eq in Hc'. by injection Hc' as <-.
      * rewrite !lookup_insert_ne in Hc' by done. by apply (Hsz1 c mc').
  - intros c mc' Hc' Hmc'.
    assert (c <> this /\ c <> rhs) as [Hct Hcr] by set_solver.
    destruct (Hap1 c mc') as (Hmc1 & Etr & Hq1); [set_solver|done|].
    simpl in Hmc1, Hq1 |- *. rewrite !lookup_insert_ne by done.
    split; [done|]. split; [|done].
    unfold retree at 1. rewrite decide_False by done.
    unfold retree at 1. by rewrite decide_False.
  - intros Hne. exists mr.
    rewrite lookup_insert_ne in Hmt by done.
    rewrite lookup_insert_ne, lookup_insert_eq in Hms by done.
    rewrite lookup_insert_ne, lookup_insert_eq in Hmf by done.
    assert (mt = mc) as -> by congruence.
    injection Hms as <-. injection Hmf as <-.
    split_and!.
    + subst objs1. by rewrite lookup_insert_ne in Hmr.
    + by rewrite lookup_insert_eq.
    + rewrite lookup_insert_ne, lookup_insert_eq by done. done.
    + unfold retree. rewrite decide_True by done. unfold tr1, retree.
      by rewrite decide_False.
    + exact Hdom.
Qed.

(** Copy assignment from another object: [this] ends up with a tree of
    its own that holds the pairs of [rhs], whose nodes are untouched. *)
Lemma copy_assign_store fuel this rhs tr w u w' :
  owns tr w -> covers tr w -> this <> rhs ->
  copy_assign fuel this rhs w = Some (u, w') ->
  exists mr m' tr',
    snd w !! rhs = Some mr /\ snd w' = <[this := m']> (snd w) /\
    owns tr' w' /\ covers tr' w' /\ (sized tr w -> sized tr' w') /\
    apart tr tr' [this] w w' /\
    (forall k v, (k, v) ∈ contents (fst w') (tr' this) <->
                 (k, v) ∈ contents (fst w) (tr rhs)).
Proof.
  intros Hown Hcov Hne Hx. unfold copy_assign in Hx.
  rewrite bool_decide_false in Hx by done.
  apply wbind_Some in Hx. destruct Hx as ([] & w1 & Hc & Hx).
  destruct (clear_object_inv _ _ _ _ _ _ Hown Hcov Hc)
    as (Hown1 & Hcov1 & Hdom & Hsz1 & Hap1 & mc & Hobjs1 & Hrc).
  apply on_object_Some in Hc. destruct Hc as (m0 & _ & _ & Hm0 & _).
  destruct w as [H objs]. destruct w1 as [H1 objs1].
  simpl in Hobjs1, Hdom, Hm0.
  assert (objs1 !! this = Some mc) as Hmc by (subst objs1; apply lookup_insert_eq).
  apply wbind_Some in Hx. destruct Hx as (r & w0 & Hr & Hx).
  apply read_object_Some in Hr. destruct Hr as [Hmr ->]. simpl in Hmr.
  assert (objs !! rhs = Some r) as Hmr0.
  { subst objs1. by rewrite lookup_insert_ne in Hmr. }
  pose proof Hown as [Htree Hdisj]. simpl in Htree, Hdisj.
  assert (forall q, q ∈ ptrs (tr rhs) -> H1 !! q = H !! q) as Hkeep.
  { intros q Hq. rewrite Hdom, decide_False; [done|].
    intros Hq'. by apply (Hdisj this rhs m0 r Hne Hm0 Hmr0 q). }
  pose proof Hown1 as [Htree1 Hdisj1]. simpl in Htree1, Hdisj1.
  set (tr1 := retree tr this Leaf) in *.
  assert (tr1 this = Leaf) as Ethis.
  { unfold tr1, retree. by rewrite decide_True. }
  assert (tr1 rhs = tr rhs) as Erhs.
  { unfold tr1, retree. rewrite decide_False; [done|congruence]. }
  pose proof (Htree1 _ _ Hmr) as (HRr & Hrootr & _ & Hincr).
  assert (contents H1 (tr rhs) = contents H (tr rhs)) as Ec1.
  { apply map_node_pair_ext. intros q Hq. unfold node_pair, kv_of.
    by rewrite (Hkeep q Hq). }
  destruct (root r) as [rt|] eqn:Hrt.
  - apply on_object_Some in Hx. destruct Hx as (m & m' & H' & Hm & Hf & ->).
    simpl in Hm, Hf. assert (m = mc) as -> by congruence.
    apply lift_unit_Some in Hf.
    pose proof (Htree1 _ _ Hmc) as Hinvc. rewrite Ethis in Hinvc.
    assert (omap rootp [tr1 rhs] = [rt]) as Eq.
    { simpl. by rewrite Hrootr. }
    rewrite <- Eq in Hf.
    destruct (copy_loop_store fuel [tr1 rhs] mc H1 Leaf m' H')
      as (tS & Hinv & HF & Hsub & Hnew & Hdom' & Hcont & Hsz); try done.
    + apply Forall_cons_2; [by exists None|apply Forall_nil_2].
    + intros q _ Hq. by apply elem_of_nil in Hq.
    + unfold forest_keys. simpl. rewrite app_nil_r. by apply increasing_NoDup.
    + assert (retree tr1 this tS this = tS) as Ethis'.
      { unfold retree. by rewrite decide_True. }
      exists r, m', (retree tr1 this tS). simpl. split_and!.
      * done.
      * subst objs1. by rewrite insert_insert_eq.
      * eapply owns_local; [exact Hown1|exact Hmc|exact Hinv| |];
          by rewrite Ethis.
      * eapply covers_local; [exact Hcov1|]. rewrite Ethis.
        by apply covered_grow.
      * intros Hs0. specialize (Hsz1 Hs0). fold tr1 in Hsz1.
        eapply sized_put; [exact Hsz1|]. rewrite Hsz. simpl. rewrite Nat.sub_0_r.
        apply countup_all. pose proof (Hsz1 this mc Hmc) as E.
        by rewrite Ethis in E.
      * eapply apart_trans; [exact Hap1|].
        eapply apart_local; [exact Hown1|exact Hmc|by rewrite Ethis].
      * intros k v. rewrite Ethis', Hcont. unfold forest_ptrs. simpl.
        rewrite app_nil_r, Erhs. fold (contents H1 (tr rhs)). rewrite Ec1.
        split; [|by left]. intros [Hin|[Hin _]]; [done|].
        by apply elem_of_nil in Hin.
  - injection Hx as _ <-. exists r, mc, tr1. simpl. split_and!; try done.
    rewrite Ethis. rewrite Erhs in Hrootr. apply rootp_None in Hrootr.
    by rewrite Hrootr.
Qed.

Lemma copy_assign_world fuel this rhs tr w u w' :
  owns tr w -> covers tr w -> copy_assign fuel this rhs w = Some (u, w') ->
  exists tr', owns tr' w' /\ covers tr' w' /\ (sized tr w -> sized tr' w') /\
    apart tr tr' [this] w w'.
Proof.
  intros Hown Hcov Hx.
  destruct (decide (this = rhs)) as [->|Hne].
  - unfold copy_assign in Hx. rewrite bool_decide_true in Hx by done.
    injection Hx as _ <-. exists tr. by split_and!.
  - destruct (copy_assign_store _ _ _ _ _ _ _ Hown Hcov Hne Hx)
      as (mr & m' & tr' & _ & _ & ? & ? & ? & ? & _).
    by exists tr'.
Qed.

(** One statement of a client program: every object keeps a search tree
    of its own, no node is lost, and, the copy constructor apart, the
    counters stay right. *)
Lemma step_store fuel o tr w u w' :
  owns tr w -> covers tr w -> step fuel o w = Some (u, w') ->
  exists tr', owns tr' w' /\ covers tr' w' /\
    (is_copy_construct o = false -> sized tr w -> sized tr' w') /\
    apart tr tr' (touches o) w w'.
Proof.
  intros Hown Hcov Hx.
  destruct o as [a|a k|a k v|a c|b a|a b|b a|a b|a]; simpl in Hx;
    cbn [touches].
  - (* construction *)
    destruct w as [H objs].
    apply new_object_Some in Hx. destruct Hx as [Hnone ->]. simpl.
    exists (retree tr a Leaf). split_and!.
    + eapply (owns_put _ _ _ _ []); [exact Hown| | | |].
      * intros c mc _ _ q Hq. by apply elem_of_nil in Hq.
      * apply tree_inv_Leaf.
      * apply frame_of_refl.
      * intros q Hq. by apply elem_of_nil in Hq.
    + eapply covers_put; [exact Hcov|]. intros q Hs. right. split; [done|].
      simpl in Hnone. intros m Hm. congruence.
    + intros _ Hs. eapply sized_put; [exact Hs|done].
    + eapply (apart_put _ _ _ _ _ _ _ []); [exact Hown|apply frame_of_refl|].
      intros c mc _ _ q Hq. by apply elem_of_nil in Hq.
  - (* indexing *)
    destruct w as [H objs].
    apply on_object_Some in Hx. destruct Hx as (m & m' & H' & Hm & Hf & ->).
    simpl in Hm, Hf.
    apply bind_Some in Hf. destruct Hf as ([p m1] & H1 & Hi & Hf).
    apply ret_Some in Hf. destruct Hf as [E ->].
    assert (m1 = m') as -> by congruence.
    destruct (index_cover _ _ _ _ (tr a) _ _ _ (proj1 Hown _ _ Hm) Hi)
      as (t' & Hinv & HF & Hnew & Hc & Hsz).
    exists (retree tr a t'). split_and!;
      [by eapply owns_local|by eapply covers_local| |by eapply apart_local].
    intros _ Hs. eapply sized_put; [exact Hs|]. pose proof (Hs a m Hm) as Esz.
    destruct Hsz as [[-> ->]|[-> ->]]; [done|by apply size_incr].
  - (* assignment through the indexer *)
    destruct w as [H objs].
    apply on_object_Some in Hx. destruct Hx as (m & m' & H' & Hm & Hf & ->).
    simpl in Hm, Hf. apply lift_unit_Some in Hf.
    destruct (assign_store _ _ _ _ _ (tr a) _ _ (proj1 Hown _ _ Hm) Hf)
      as (t' & Hinv & HF & Hsub & Hnew & Hdom & _ & Hsz).
    exists (retree tr a t'). split_and!;
      [by eapply owns_local| | |by eapply apart_local].
    + eapply covers_local; [exact Hcov|]. by apply covered_grow.
    + intros _ Hs. eapply sized_put; [exact Hs|]. pose proof (Hs a m Hm) as Esz.
      destruct Hsz as [[-> ->]|[-> ->]]; [done|by apply size_incr].
  - (* erasure *)
    destruct w as [H objs].
    apply on_object_Some in Hx. destruct Hx as (m & m' & H' & Hm & Hf & ->).
    simpl in Hm, Hf. apply lift_unit_Some in Hf.
    apply bind_Some in Hf. destruct Hf as (it & H0 & Hc & Hf).
    pose proof (proj1 Hown _ _ Hm) as Hinv. simpl in Hinv.
    destruct (eval_cursor_inside _ _ _ _ _ _ _ Hinv Hc) as [-> Hit].
    destruct (erase_store _ _ _ _ _ _ _ Hinv Hit Hf)
      as (t' & Hinv' & Hsub & HF & Hcv & Hsz).
    exists (retree tr a t'). split_and!;
      [|by eapply covers_local| |by eapply apart_local].
    + eapply owns_local; try done.
      intros q Hq. left. by apply Hsub.
    + intros _ Hs. eapply sized_put; [exact Hs|]. pose proof (Hs a m Hm) as Esz.
      destruct Hsz as [[-> ->]|[-> El]]; [done|].
      apply size_decr. by rewrite El.
  - (* copy construction *)
    destruct w as [H objs].
    apply wbind_Some in Hx. destruct Hx as (rhs & w0 & Hr & Hx).
    apply read_object_Some in Hr. destruct Hr as [Hrhs ->]. simpl in Hrhs.
    apply wbind_Some in Hx. destruct Hx as (self & w1 & Hs & Hx).
    apply on_store_Some in Hs. destruct Hs as (H' & Hs & ->). simpl in Hs.
    apply new_object_Some in Hx. destruct Hx as [Hnone ->]. simpl in Hnone |- *.
    destruct (copy_construct_store _ _ _ (tr a) _ _ (proj1 Hown _ _ Hrhs) Hs)
      as (tS & Hinv & HF & Hnew & Hdom & _).
    exists (retree tr b tS). split_and!; [| |done|].
    + eapply (owns_put _ _ _ _ []); [exact Hown| |exact Hinv|exact HF|].
      * intros c mc _ _ q Hq. by apply elem_of_nil in Hq.
      * intros q Hq. right. by apply Hnew.
    + eapply covers_put; [exact Hcov|]. intros q Hq.
      destruct (Hdom q Hq) as [Hin|Hs0]; [by left|right]. split; [done|].
      intros m Hm. congruence.
    + eapply (apart_put _ _ _ _ _ _ _ []); [exact Hown|exact HF|].
      intros c mc _ _ q Hq. by apply elem_of_nil in Hq.
  - destruct (copy_assign_world _ _ _ _ _ _ _ Hown Hcov Hx)
      as (tr' & ? & ? & ? & ?).
    exists tr'. auto.
  - (* move construction *)
    destruct w as [H objs].
    apply wbind_Some in Hx. destruct Hx as (rhs & w0 & Hr & Hx).
    apply read_object_Some in Hr. destruct Hr as [Hrhs ->]. simpl in Hrhs.
    apply wbind_Some in Hx. destruct Hx as ([] & w1 & Hwr & Hx).
    apply write_object_Some in Hwr. destruct Hwr as (m0 & Hm0 & ->).
    simpl in Hm0.
    apply new_object_Some in Hx. destruct Hx as [Hnone ->]. simpl in Hnone |- *.
    pose proof Hown as [Htree Hdisj]. simpl in Htree, Hdisj.
    assert (b <> a) as Hba.
    { intros ->. by rewrite lookup_insert_eq in Hnone. }
    rewrite lookup_insert_ne in Hnone by done.
    exists (retree (retree tr a Leaf) b (tr a)). split_and!.
    + eapply (owns_adopt tr H _ a b).
      * by eapply owns_release.
      * by rewrite lookup_insert_eq.
      * simpl. by eapply Htree.
      * intros c mc' Hne Hc'. rewrite lookup_insert_ne in Hc' by done.
        eapply (Hdisj a c); [congruence|exact Hrhs|exact Hc'].
    + apply covers_move; [exact Hcov|]. intros mb Hb. congruence.
    + intros _ Hs. eapply (sized_put _ H).
      * eapply (sized_put _ H); [exact Hs|done].
      * simpl. by apply (Hs a rhs).
    + intros c mc' Hc' Hmc'. simpl in Hmc' |- *.
      assert (c <> b /\ c <> a) as [Hcb Hca] by set_solver.
      rewrite !lookup_insert_ne by done. split; [done|]. split; [|done].
      unfold retree at 1. rewrite decide_False by done.
      unfold retree at 1. by rewrite decide_False.
  - destruct (move_assign_store _ _ _ _ _ _ _ Hown Hcov Hx)
      as (tr' & ? & ? & ? & ? & _).
    exists tr'. auto.
  - (* destruction *)
    apply wbind_Some in Hx. destruct Hx as ([] & w1 & Hc & Hx).
    destruct (clear_object_inv _ _ _ _ _ _ Hown Hcov Hc)
      as (Hown1 & Hcov1 & _ & Hsz1 & Hap1 & _).
    unfold drop_object in Hx. injection Hx as _ <-.
    exists (retree tr a Leaf). destruct w1 as [H1 objs1]. split_and!.
    + by apply owns_delete.
    + apply covers_delete; [done|]. unfold retree. by rewrite decide_True.
    + intros _ Hs. apply sized_delete. by apply Hsz1.
    + intros c mc' Hc' Hmc'. destruct (Hap1 c mc' Hc' Hmc') as (Hmc1 & ? & ?).
      split; [|done]. simpl in Hmc1 |- *. rewrite lookup_delete_ne; [done|].
      set_solver.
Qed.

Lemma step_inv fuel o w u w' :
  world_inv w -> step fuel o w = Some (u, w') -> world_inv w'.
Proof.
  intros (tr & Hown & Hcov) Hx.
  destruct (step_store _ _ _ _ _ _ Hown Hcov Hx) as (tr' & ? & ? & _).
  by exists tr'.
Qed.

(** A program without copy construction, run from a world whose counters
    are right. *)
Lemma run_sized fuel os : forall tr w u w',
  owns tr w -> covers tr w -> sized tr w ->
  forallb (fun o => negb (is_copy_construct o)) os = true ->
  run fuel os w = Some (u, w') ->
  exists tr', owns tr' w' /\ sized tr' w'.
Proof.
  induction os as [|o os IH]; intros tr w u w' Hown Hcov Hs Hall Hx; simpl in Hx.
  - injection Hx as _ <-. by exists tr.
  - simpl in Hall. apply andb_true_iff in Hall. destruct Hall as [Ho Hall].
    apply negb_true_iff in Ho.
    apply wbind_Some in Hx. destruct Hx as ([] & w1 & Hstep & Hx).
    destruct (step_store _ _ _ _ _ _ Hown Hcov Hstep)
      as (tr1 & Hown1 & Hcov1 & Hs1 & _).
    eapply (IH tr1); [done|done|by apply Hs1|done|exact Hx].
Qed.

Lemma run_inv fuel os : forall w u w',
  world_inv w -> run fuel os w = Some (u, w') -> world_inv w'.
Proof.
  induction os as [|o os IH]; intros w u w' Hw Hx; simpl in Hx.
  - injection Hx as _ <-. done.
  - apply wbind_Some in Hx. destruct Hx as ([] & w1 & Hs & Hx).
    eapply IH; [|exact Hx]. by eapply step_inv.
Qed.

Lemma world_inv_empty : world_inv empty_world.
Proof.
  exists (fun _ => Leaf). split; [split|]; simpl.
  - intros a m Ha. by rewrite lookup_empty in Ha.
  - intros a b ma mb _ Ha. by rewrite lookup_empty in Ha.
  - intros q Hs. simpl in Hs. rewrite lookup_empty in Hs.
    by apply is_Some_None in Hs.
Qed.
(** * Further properties of the code *)

Lemma reachable_world_inv w : reachable w -> world_inv w.
Proof.
  induction 1 as [|w fuel o w' _ IH Hstep]; [apply world_inv_empty|].
  by eapply step_inv.
Qed.

Lemma reachable_owns w : reachable w -> exists tr, owns tr w.
Proof.
  intros Hw. destruct (reachable_world_inv w Hw) as (tr & Hown & _). by exists tr.
Qed.

Lemma run_reachable fuel ops : forall w w',
  reachable w -> run fuel ops w = Some (tt, w') -> reachable w'.
Proof.
  induction ops as [|o ops IH]; intros w w' Hw Hx; simpl in Hx.
  - injection Hx as <-. done.
  - apply wbind_Some in Hx. destruct Hx as ([] & w1 & Hs & Hx).
    eapply IH; [|exact Hx]. by eapply reachable_step.
Qed.

Lemma reachable_client :
  reachable (world_of (run 50 client_program empty_world)).
Proof.
  apply (run_reachable 50 client_program empty_world); [apply reachable_empty|].
  vm_compute. reflexivity.
Qed.

(** X1: whatever statements a client program runs on its maps from the
    empty world on (construction, indexing, assignment through the
    indexer, erasure at a cursor, copy and move construction, copy and
    move assignment, destruction), in the state it reaches every node of
    every map has only smaller keys in its left subtree and only larger
    keys in its right subtree. *)
Theorem reachable_search_tree :
  forall w a m,
    reachable w -> snd w !! a = Some m -> search_tree (fst w) (root m).
Proof.
  intros w a m Hw Ha. destruct (reachable_owns w Hw) as [tr [Htree _]].
  eapply tree_inv_search_tree. by apply Htree.
Qed.

(** X1 at the end of [client_program], for the map numbered 2, whose root
    is the node at address 9. *)
Lemma reachable_search_tree_witness :
  search_tree (fst (world_of (run 50 client_program empty_world)))
              (Some 9%positive).
Proof.
  apply (reachable_search_tree (world_of (run 50 client_program empty_world))
           2%positive (mkMap (Some 9%positive) 3) reachable_client).
  vm_compute. reflexivity.
Defined.
(** X2: in every reachable state the links of every map form a tree whose
    parent links mirror its child links: the root has no parent, and a
    node linked as the left or right child of a node of the map is
    allocated and names that node as its parent. *)
Theorem reachable_links_agree :
  forall w a m,
    reachable w -> snd w !! a = Some m ->
    (forall r, root m = Some r ->
       exists n, fst w !! r = Some n /\ parent n = None) /\
    (forall p n c,
       in_subtree (fst w) (root m) p -> fst w !! p = Some n ->
       left n = Some c \/ right n = Some c ->
       exists nc, fst w !! c = Some nc /\ parent nc = Some p).
Proof.
  intros w a m Hw Ha. destruct (reachable_owns w Hw) as [tr [Htree _]].
  pose proof (Htree a m Ha) as Hinv. pose proof Hinv as (HR & Hroot & Hnd & Hinc).
  split.
  - intros r Hr. rewrite Hr in Hroot.
    destruct (tr a) as [|l p k rr]; simpl in Hroot; [done|].
    injection Hroot as ->. destruct HR as ((n & Hn & _ & Pn & _) & _). by exists n.
  - intros p n c Hp Hn Hc.
    apply (tree_inv_in_subtree _ _ _ _ Hinv) in Hp.
    destruct (focus _ _ Hp) as (cx & l & k & r & E). rewrite E in HR.
    apply Rep_plug in HR. destruct HR as [HR _]. simpl in HR.
    destruct HR as ((n' & Hn' & _ & _ & Ln & Rn) & Rl & Rr).
    assert (n' = n) as -> by congruence.
    destruct Hc as [Hc|Hc].
    + rewrite Hc in Ln. destruct l as [|la lp lk lb]; simpl in Ln; [done|].
      injection Ln as ->. destruct Rl as ((nc & Hnc & _ & Pc & _) & _). by exists nc.
    + rewrite Hc in Rn. destruct r as [|ra rp rk rb]; simpl in Rn; [done|].
      injection Rn as ->. destruct Rr as ((nc & Hnc & _ & Pc & _) & _). by exists nc.
Qed.

(** X2 at the root of map 2 at the end of [client_program]: its left
    child, at address 10, names it as parent. *)
Lemma reachable_links_agree_witness :
  exists nc, fst (world_of (run 50 client_program empty_world)) !! 10%positive
             = Some nc /\ parent nc = Some 9%positive.
Proof.
  apply (proj2 (reachable_links_agree
                  (world_of (run 50 client_program empty_world))
                  2%positive (mkMap (Some 9%positive) 3) reachable_client
                  ltac:(vm_compute; reflexivity))
           9%positive
           (mkNode 4 0 2 0 None (Some 10%positive) (Some 11%positive))
           10%positive).
  - eapply in_subtree_here. vm_compute. reflexivity.
  - vm_compute. reflexivity.
  - left. reflexivity.
Defined.

(** X3: in every reachable state two different map objects share no node;
    a copy is a deep copy and a move leaves nothing behind. *)
Theorem reachable_no_sharing :
  forall w a b ma mb p,
    reachable w -> a <> b ->
    snd w !! a = Some ma -> snd w !! b = Some mb ->
    in_subtree (fst w) (root ma) p -> ~ in_subtree (fst w) (root mb) p.
Proof.
  intros w a b ma mb p Hw Hne Ha Hb Hp Hq.
  destruct (reachable_owns w Hw) as [tr [Htree Hdisj]].
  apply (tree_inv_in_subtree _ _ _ _ (Htree a ma Ha)) in Hp.
  apply (tree_inv_in_subtree _ _ _ _ (Htree b mb Hb)) in Hq.
  by apply (Hdisj a b ma mb Hne Ha Hb p).
Qed.

(** X3 for the maps 1 and 2 at the end of [client_program] and the root
    of map 1. *)
Lemma reachable_no_sharing_witness :
  ~ in_subtree (fst (world_of (run 50 client_program empty_world)))
               (Some 9%positive) 1%positive.
Proof.
  apply (reachable_no_sharing (world_of (run 50 client_program empty_world))
           1%positive 2%positive (mkMap (Some 1%positive) 4)
           (mkMap (Some 9%positive) 3) 1%positive reachable_client).
  - discriminate.
  - vm_compute. reflexivity.
  - vm_compute. reflexivity.
  - eapply in_subtree_here. vm_compute. reflexivity.
Defined.
Lemma reachable_tree w a m :
  reachable w -> snd w !! a = Some m -> exists t, tree_inv (fst w) (root m) t.
Proof.
  intros Hw Ha. destruct (reachable_owns w Hw) as [tr [Htree _]].
  exists (tr a). by apply Htree.
Qed.

Lemma reachable_client_world : reachable client_world.
Proof. apply reachable_client. Qed.

(** X4: in a reachable state [find] returns for every fuel that is large
    enough, and what it returns is right: it leaves the store alone, a
    node cursor points at a node of the map that holds the key, and the
    end cursor means that no node of the map holds the key. *)
Theorem find_locates_key :
  forall w a m k,
    reachable w -> snd w !! a = Some m ->
    (exists fuel0, forall fuel, (fuel0 <= fuel)%nat ->
       exists it, find fuel m k (fst w) = Some (it, fst w)) /\
    (forall fuel it H',
       find fuel m k (fst w) = Some (it, H') ->
       H' = fst w /\
       match it with
       | Some p => in_subtree (fst w) (root m) p /\
                   exists n, fst w !! p = Some n /\ key n = k
       | None => ~ contains (fst w) (root m) k
       end).
Proof.
  intros w a m k Hw Ha. destruct (reachable_tree w a m Hw Ha) as [t Hinv].
  split.
  - exists (length (ptrs t)). intros fuel Hf. by eapply find_total.
  - intros fuel it H' Hx.
    destruct (find_tree _ _ _ _ _ _ _ Hinv Hx) as [-> Hit]. split; [done|].
    destruct it as [p|].
    + destruct Hit as [Hp Hn]. split; [|done].
      by apply (tree_inv_in_subtree _ _ _ _ Hinv).
    + by rewrite (contains_keys _ _ _ _ Hinv).
Qed.

(** X4 for the key 5 in map 1 at the end of [client_program], from which
    5 was erased. *)
Lemma find_locates_key_witness :
  ~ contains (fst client_world) (Some 1%positive) 5.
Proof.
  apply (proj2 (find_locates_key client_world 1%positive
                  client_map1 5 reachable_client_world
                  ltac:(vm_compute; reflexivity))
           50%nat None (fst client_world)).
  vm_compute. reflexivity.
Defined.

(** [operator[]] with a key of the tree returns: the descent ends at the
    node holding the key, and nothing is written. *)
Lemma index_present_total fuel m k H t :
  tree_inv H (root m) t -> k ∈ keys t -> (length (ptrs t) <= fuel)%nat ->
  exists p n, index fuel m k H = Some ((p, m), H) /\
    p ∈ ptrs t /\ H !! p = Some n /\ key n = k.
Proof.
  intros Hinv Hk Hlen. pose proof Hinv as (HR & Hroot & Hnd & Hinc).
  destruct t as [|l0 p0 k0 r0]; [by apply elem_of_nil in Hk|].
  simpl in Hroot.
  destruct (descend_total fuel k [] l0 p0 k0 r0 0 H HR Hlen) as ([[found cur] d] & E).
  destruct (descend_inv fuel k [] l0 p0 k0 r0 0 H _ H HR Hinc (fits_nil k) E)
    as (_ & c & l & k' & r & Ht & Hfit & Hfound & Hnot).
  simpl in Ht, Hfound, Hnot.
  destruct found.
  - rewrite (Hfound eq_refl) in Ht.
    destruct (Rep_focus _ _ _ _ _ _ _ Ht HR) as (n & Hn & Kn & _).
    exists cur, n. split_and!; try done.
    + unfold index. rewrite <- Hroot. unfold bind. by rewrite E.
    + rewrite Ht, ptrs_plug. simpl. set_solver.
  - exfalso. rewrite Ht in Hinc, Hk.
    by apply (fits_not_in _ _ _ _ _ _ Hinc Hfit (Hnot eq_refl)).
Qed.

(** X5: [operator[]] with a key the map holds returns, for every fuel that
    is large enough, the node of the map that holds the key, which is the
    node [find] returns; it changes neither the store nor the map object
    (so [size()] stays). *)
Theorem index_present_key :
  forall w a m k,
    reachable w -> snd w !! a = Some m -> contains (fst w) (root m) k ->
    exists p n,
      in_subtree (fst w) (root m) p /\ fst w !! p = Some n /\ key n = k /\
      exists fuel0, forall fuel, (fuel0 <= fuel)%nat ->
        index fuel m k (fst w) = Some ((p, m), fst w) /\
        find fuel m k (fst w) = Some (Some p, fst w).
Proof.
  intros w a m k Hw Ha Hk. destruct (reachable_tree w a m Hw Ha) as [t Hinv].
  apply (contains_keys _ _ _ _ Hinv) in Hk.
  destruct (index_present_total (length (ptrs t)) m k (fst w) t Hinv Hk (Nat.le_refl _))
    as (p & n & _ & Hp & Hn & Kn).
  exists p, n. split; [by apply (tree_inv_in_subtree _ _ _ _ Hinv)|].
  split; [done|]. split; [done|].
  exists (length (ptrs t)). intros fuel Hfuel.
  destruct (index_present_total fuel m k (fst w) t Hinv Hk Hfuel)
    as (p' & n' & E & Hp' & Hn' & Kn').
  assert (p' = p) as ->.
  { eapply key_unique; try done. congruence. }
  split; [done|].
  destruct (find_total fuel m k (fst w) t Hinv Hfuel) as [it Hit].
  destruct (find_tree _ _ _ _ _ _ _ Hinv Hit) as [_ Hres].
  destruct it as [q|]; [|done].
  destruct Hres as (Hq & nq & Hnq & Kq).
  assert (q = p) as ->; [|done].
  eapply key_unique; try done. congruence.
Qed.

(** X5 for the key 8 in map 2 at the end of [client_program]. *)
Lemma index_present_key_witness :
  exists p n,
    in_subtree (fst client_world) (root client_map2) p /\
    fst client_world !! p = Some n /\ key n = 8 /\
    exists fuel0, forall fuel, (fuel0 <= fuel)%nat ->
      index fuel client_map2 8 (fst client_world)
        = Some ((p, client_map2), fst client_world) /\
      find fuel client_map2 8 (fst client_world) = Some (Some p, fst client_world).
Proof.
  apply (index_present_key client_world 2%positive client_map2 8
           reachable_client_world ltac:(vm_compute; reflexivity)).
  exists 0, 11%positive, (mkNode 8 0 1 0 (Some 9%positive) None None).
  split; [|vm_compute; auto].
  eapply in_subtree_right; [vm_compute; reflexivity|].
  eapply in_subtree_here. vm_compute. reflexivity.
Defined.

(** [m[k] = v] in terms of pairs: the pair with key [k] is replaced or
    added, the other pairs stay. *)
Lemma assign_contents fuel m k v H t m' H' :
  tree_inv H (root m) t ->
  assign fuel m k v H = Some (m', H') ->
  exists t' L R, tree_inv H' (root m') t' /\
    contents H' t' = L ++ (k, v) :: R /\
    ((exists v0, contents H t = L ++ (k, v0) :: R /\ m' = m) \/
     (contents H t = L ++ R /\ (k ∉ keys t) /\
      size_ m' = to_unsigned (size_ m + 1))).
Proof.
  intros Hinv Hx. unfold assign in Hx. pose proof Hinv as (HR & _ & Hnd & _).
  apply bind_Some in Hx. destruct Hx as ([p m1] & H1 & Hi & Hx).
  apply bind_Some in Hx. destruct Hx as ([] & H2 & Hu & Hx).
  apply ret_Some in Hx. destruct Hx as [-> ->].
  apply upd_Some in Hu. destruct Hu as (n1 & Hn1 & ->).
  destruct (index_cases _ _ _ _ _ _ _ _ Hinv Hi)
    as [(Hin & -> & -> & Hp & n & Hn & Kn)
       |(Hnot & Hnone & Hsz & K & HF & (n & Hn & Kn & Vn) & t' & A & B &
         Hinv' & EA & EA')].
  - assert (n1 = n) as -> by congruence.
    apply list_elem_of_split in Hp. destruct Hp as (A & B & EA).
    exists t, (map (node_pair H) A), (map (node_pair H) B). split_and!.
    + eapply tree_inv_links_kept; [|exact Hinv].
      by eapply links_kept_insert.
    + unfold contents. rewrite EA in Hnd |- *.
      by rewrite (contents_set_value _ _ _ _ _ _ Hnd Hn), Kn.
    + left. exists (value n). split; [|done]. unfold contents.
      rewrite EA, map_app. simpl. by rewrite (node_pair_lookup _ _ _ Hn), Kn.
  - assert (n1 = n) as -> by congruence.
    destruct (index_contents _ _ _ _ _ _ _ _ _ HR K EA EA' Hn Kn Vn) as [E' E].
    pose proof Hinv' as (_ & _ & Hnd' & _).
    exists t', (map (node_pair H) A), (map (node_pair H) B). split_and!.
    + eapply tree_inv_links_kept; [|exact Hinv'].
      by eapply links_kept_insert.
    + unfold contents. rewrite EA' in Hnd' |- *.
      rewrite (contents_set_value _ _ _ _ _ _ Hnd' Hn), Kn.
      unfold contents in E'. rewrite EA', map_app in E'. simpl in E'.
      apply app_inj_1 in E'; [|by rewrite !length_map].
      destruct E' as [EA1 EB1]. injection EB1 as _ EB1. by rewrite EA1, EB1.
    + right. done.
Qed.

(** [m[k] = v] with a key of the tree returns. *)
Lemma assign_present_total fuel m k v H t :
  tree_inv H (root m) t -> k ∈ keys t -> (length (ptrs t) <= fuel)%nat ->
  exists H', assign fuel m k v H = Some (m, H').
Proof.
  intros Hinv Hk Hlen.
  destruct (index_present_total fuel m k H t Hinv Hk Hlen) as (p & n & E & _ & Hn & _).
  unfold assign. unfold bind at 1. rewrite E. unfold bind, upd. rewrite Hn.
  by eexists.
Qed.

(** X7: [m[k] = v] with a key the map holds returns for every fuel that is
    large enough and leaves the map object as it is; afterwards the map
    holds the pair [(k, v)] and no other value for [k], and for every
    other key it holds what it held before. *)
Theorem assign_then_holds :
  forall w a m k v,
    reachable w -> snd w !! a = Some m -> contains (fst w) (root m) k ->
    exists fuel0, forall fuel, (fuel0 <= fuel)%nat ->
      exists H',
        assign fuel m k v (fst w) = Some (m, H') /\
        holds H' (root m) k v /\
        (forall v', holds H' (root m) k v' -> v' = v) /\
        (forall k' v', k' <> k ->
           (holds H' (root m) k' v' <-> holds (fst w) (root m) k' v')).
Proof.
  intros w a m k v Hw Ha Hk. destruct (reachable_tree w a m Hw Ha) as [t Hinv].
  apply (contains_keys _ _ _ _ Hinv) in Hk.
  exists (length (ptrs t)). intros fuel Hfuel.
  destruct (assign_present_total fuel m k v (fst w) t Hinv Hk Hfuel) as [H' Hx].
  exists H'. split; [done|].
  destruct (assign_contents _ _ _ _ _ _ _ _ Hinv Hx)
    as (t' & L & R & Hinv' & E' & Hcase).
  assert (holds H' (root m) k v) as Hkv.
  { rewrite (holds_contents _ _ _ _ _ Hinv'), E', elem_of_middle. by left. }
  split; [done|]. split.
  - intros v' Hv'. by eapply holds_unique.
  - intros k' v' Hne.
    rewrite (holds_contents _ _ _ _ _ Hinv'), (holds_contents _ _ _ _ _ Hinv), E'.
    destruct Hcase as [(v0 & -> & _)|(-> & _)]; rewrite !elem_of_middle.
    + split; (intros [[= ? ?]|Hin]; [done|by right]).
    + split; [intros [[= ? ?]|Hin]; done|by right].
Qed.

(** X7 for [m[4] = 40] on map 2 at the end of [client_program]. *)
Lemma assign_then_holds_witness :
  exists fuel0, forall fuel, (fuel0 <= fuel)%nat ->
    exists H',
      assign fuel client_map2 4 40 (fst client_world) = Some (client_map2, H') /\
      holds H' (root client_map2) 4 40 /\
      (forall v', holds H' (root client_map2) 4 v' -> v' = 40) /\
      (forall k' v', k' <> 4 ->
         (holds H' (root client_map2) k' v' <->
          holds (fst client_world) (root client_map2) k' v')).
Proof.
  apply (assign_then_holds client_world 2%positive client_map2 4 40
           reachable_client_world ltac:(vm_compute; reflexivity)).
  exists 0, 9%positive,
    (mkNode 4 0 2 0 None (Some 10%positive) (Some 11%positive)).
  split; [|vm_compute; auto].
  eapply in_subtree_here. vm_compute. reflexivity.
Defined.

(** X8: after [m[k] = v] with a key the map holds, [find(k)] returns, for
    every fuel that is large enough, a node that holds the key [k] and the
    value [v]. *)
Theorem assign_then_find :
  forall w a m k v,
    reachable w -> snd w !! a = Some m -> contains (fst w) (root m) k ->
    exists fuel0, forall fuel, (fuel0 <= fuel)%nat ->
      exists H' p n,
        assign fuel m k v (fst w) = Some (m, H') /\
        find fuel m k H' = Some (Some p, H') /\
        H' !! p = Some n /\ key n = k /\ value n = v.
Proof.
  intros w a m k v Hw Ha Hk. destruct (reachable_tree w a m Hw Ha) as [t Hinv].
  apply (contains_keys _ _ _ _ Hinv) in Hk.
  exists (S (length (ptrs t))). intros fuel Hfuel.
  destruct (assign_present_total fuel m k v (fst w) t Hinv Hk) as [H' Hx]; [lia|].
  exists H'.
  destruct (assign_store _ _ _ _ _ _ _ _ Hinv Hx)
    as (t' & Hinv' & _ & _ & _ & _ & Hc & Hlen).
  assert (holds H' (root m) k v) as Hkv.
  { rewrite (holds_contents _ _ _ _ _ Hinv'). apply Hc. by left. }
  destruct (find_total fuel m k H' t' Hinv') as [it Hit].
  { destruct Hlen as [[_ ->]|[_ ->]]; lia. }
  destruct (find_tree _ _ _ _ _ _ _ Hinv' Hit) as [_ Hres].
  destruct it as [p|].
  - destruct Hres as (Hp & n & Hn & Kn). exists p, n. split_and!; try done.
    eapply (holds_unique _ _ _ k); [exact Hinv'| |exact Hkv].
    exists p, n. split_and!; try done.
    by apply (tree_inv_in_subtree _ _ _ _ Hinv').
  - exfalso. apply Hres. apply (contains_keys _ _ _ _ Hinv'). by exists v.
Qed.

(** X8 for [m[8] = 80] on map 2 at the end of [client_program]. *)
Lemma assign_then_find_witness :
  exists fuel0, forall fuel, (fuel0 <= fuel)%nat ->
    exists H' p n,
      assign fuel client_map2 8 80 (fst client_world) = Some (client_map2, H') /\
      find fuel client_map2 8 H' = Some (Some p, H') /\
      H' !! p = Some n /\ key n = 8 /\ value n = 80.
Proof.
  apply (assign_then_find client_world 2%positive client_map2 8 80
           reachable_client_world ltac:(vm_compute; reflexivity)).
  exists 0, 11%positive, (mkNode 8 0 1 0 (Some 9%positive) None None).
  split; [|vm_compute; auto].
  eapply in_subtree_right; [vm_compute; reflexivity|].
  eapply in_subtree_here. vm_compute. reflexivity.
Defined.

Lemma NoDup_fst_remove (L R : list (Z * Z)) k v k' v' :
  NoDup (L ++ (k, v) :: R).*1 ->
  ((k', v') ∈ L ++ R <-> k' <> k /\ (k', v') ∈ L ++ (k, v) :: R).
Proof.
  intros Hnd. rewrite elem_of_middle. split.
  - intros Hin. split; [|by right]. intros ->.
    assert ((k, v) ∈ L ++ (k, v) :: R) as H1 by (rewrite elem_of_middle; by left).
    assert ((k, v') ∈ L ++ (k, v) :: R) as H2 by (rewrite elem_of_middle; by right).
    pose proof (NoDup_fst_unique _ _ _ _ Hnd H1 H2) as ->.
    rewrite fmap_app in Hnd. simpl in Hnd.
    apply NoDup_app in Hnd. destruct Hnd as (_ & HLR & HR).
    apply NoDup_cons in HR. destruct HR as [HkR _].
    apply elem_of_app in Hin. destruct Hin as [Hin|Hin].
    + apply (HLR k); [|by left]. apply list_elem_of_fmap. by exists (k, v').
    + apply HkR. apply list_elem_of_fmap. by exists (k, v').
  - intros [Hne [[= -> ->]|Hin]]; done.
Qed.

(** Erasure at a node of the tree, in terms of what the map holds. *)
Lemma erase_tree fuel m p n H t m' H' :
  tree_inv H (root m) t -> p ∈ ptrs t -> H !! p = Some n ->
  erase fuel m (Some p) H = Some (m', H') ->
  exists t', tree_inv H' (root m') t' /\
    size_ m' = to_unsigned (size_ m - 1) /\
    (forall k' v', holds H' (root m') k' v' <->
                   k' <> key n /\ holds H (root m) k' v') /\
    (exists gone, gone ∈ ptrs t /\
       forall q, H' !! q = None <-> q = gone \/ H !! q = None).
Proof.
  intros Hinv Hp Hn Hx.
  pose proof Hinv as (HR & Hroot & Hnd & Hinc).
  destruct (focus _ _ Hp) as (c & l & k & r & Et). subst t.
  destruct (erase_node_inv _ _ _ _ _ _ _ _ _ _ HR Hnd Hroot Hx)
    as (t' & HR' & Hroot' & Hnd' & Hk' & Hsub & HF & Hsz & Hc' & gone & Hg & Hdom).
  assert (tree_inv H' (root m') t') as Hinv'.
  { split_and!; try done. rewrite Hk'. rewrite keys_plug in Hinc. simpl in Hinc.
    assert (forall (A B C D : list Z) x,
              A ++ (B ++ x :: C) ++ D = (A ++ B) ++ x :: (C ++ D)) as E
      by (intros; rewrite <- !app_assoc; done).
    rewrite E in Hinc. apply increasing_remove in Hinc.
    by rewrite <- app_assoc in Hinc. }
  destruct (Rep_focus _ _ _ _ _ _ _ eq_refl HR) as (n' & Hn' & Kn & _).
  assert (n' = n) as -> by congruence.
  assert (contents H (plug c (Fork l p k r)) =
          map (node_pair H) (cptrs_l c ++ ptrs l) ++
          (key n, value n) :: map (node_pair H) (ptrs r ++ cptrs_r c)) as Ec.
  { unfold contents. rewrite ptrs_plug. simpl.
    replace (cptrs_l c ++ (ptrs l ++ p :: ptrs r) ++ cptrs_r c)
      with ((cptrs_l c ++ ptrs l) ++ p :: (ptrs r ++ cptrs_r c))
      by (by rewrite <- !app_assoc).
    rewrite map_app. simpl. by rewrite (node_pair_lookup _ _ _ Hn). }
  exists t'. split; [done|]. split; [done|]. split.
  - intros k' v'.
    rewrite (holds_contents _ _ _ _ _ Hinv'), (holds_contents _ _ _ _ _ Hinv), Hc', Ec.
    apply NoDup_fst_remove. rewrite <- Ec, <- (keys_contents _ _ _ HR).
    by apply increasing_NoDup.
  - by exists gone.
Qed.

(** X9: erasing at a cursor that points into the map takes the pair of
    that node out of the map and leaves every other pair; [size_] goes
    down by one (modulo 2^32), and exactly one node of the map is
    released. *)
Theorem erase_removes_pair :
  forall w a m p n fuel m' H',
    reachable w -> snd w !! a = Some m ->
    in_subtree (fst w) (root m) p -> fst w !! p = Some n ->
    erase fuel m (Some p) (fst w) = Some (m', H') ->
    size_ m' = to_unsigned (size_ m - 1) /\
    (forall k' v', holds H' (root m') k' v' <->
                   k' <> key n /\ holds (fst w) (root m) k' v') /\
    (exists gone, in_subtree (fst w) (root m) gone /\
       forall q, H' !! q = None <-> q = gone \/ fst w !! q = None).
Proof.
  intros w a m p n fuel m' H' Hw Ha Hp Hn Hx.
  destruct (reachable_tree w a m Hw Ha) as [t Hinv].
  apply (tree_inv_in_subtree _ _ _ _ Hinv) in Hp.
  destruct (erase_tree _ _ _ _ _ _ _ _ Hinv Hp Hn Hx)
    as (t' & _ & Hsz & Hh & gone & Hg & Hdom).
  split; [done|]. split; [done|]. exists gone. split; [|done].
  by apply (tree_inv_in_subtree _ _ _ _ Hinv).
Qed.

(** X9 for the erasure of the root of map 2 (key 4) at the end of
    [client_program]. *)
Lemma erase_removes_pair_witness :
  size_ (value_of empty_map
           (erase 50 client_map2 (Some 9%positive) (fst client_world)))
  = to_unsigned (3 - 1).
Proof.
  apply (erase_removes_pair client_world 2%positive client_map2 9%positive
           (mkNode 4 0 2 0 None (Some 10%positive) (Some 11%positive)) 50%nat
           (value_of empty_map
              (erase 50 client_map2 (Some 9%positive) (fst client_world)))
           (store_after ∅
              (erase 50 client_map2 (Some 9%positive) (fst client_world)))
           reachable_client_world ltac:(vm_compute; reflexivity)
           ltac:(eapply in_subtree_here; vm_compute; reflexivity)
           ltac:(vm_compute; reflexivity) ltac:(vm_compute; reflexivity)).
Defined.
(** X10: in a reachable state [erase] at a cursor that points into the map
    returns for every fuel that is large enough: it never follows a null
    link. *)
Theorem erase_returns :
  forall w a m p,
    reachable w -> snd w !! a = Some m ->
    in_subtree (fst w) (root m) p ->
    exists fuel0, forall fuel, (fuel0 <= fuel)%nat ->
      exists m' H', erase fuel m (Some p) (fst w) = Some (m', H').
Proof.
  intros w a m p Hw Ha Hp.
  destruct (reachable_tree w a m Hw Ha) as [t Hinv].
  pose proof Hinv as (HR & Hroot & Hnd & Hinc).
  apply (tree_inv_in_subtree _ _ _ _ Hinv) in Hp.
  destruct (focus _ _ Hp) as (c & l & k & r & Et). subst t.
  exists (length (ptrs l) + 2)%nat. intros fuel Hf.
  by eapply erase_total.
Qed.

(** X10 at the root of map 1 at the end of [client_program]. *)
Lemma erase_returns_witness :
  exists fuel0, forall fuel, (fuel0 <= fuel)%nat ->
    exists m' H',
      erase fuel client_map1 (Some 1%positive) (fst client_world) = Some (m', H').
Proof.
  apply (erase_returns client_world 1%positive client_map1 1%positive
           reachable_client_world ltac:(vm_compute; reflexivity)
           ltac:(eapply in_subtree_here; vm_compute; reflexivity)).
Defined.

(** X11: after [erase(find(k))] with a key that is there, [find(k)]
    returns the end cursor for every fuel that is large enough. *)
Theorem erase_then_find :
  forall w a m k fuel1 p H1 fuel2 m' H',
    reachable w -> snd w !! a = Some m ->
    find fuel1 m k (fst w) = Some (Some p, H1) ->
    erase fuel2 m (Some p) (fst w) = Some (m', H') ->
    exists fuel0, forall fuel, (fuel0 <= fuel)%nat ->
      find fuel m' k H' = Some (None, H').
Proof.
  intros w a m k fuel1 p H1 fuel2 m' H' Hw Ha Hf Hx.
  destruct (reachable_tree w a m Hw Ha) as [t Hinv].
  destruct (find_tree _ _ _ _ _ _ _ Hinv Hf) as [-> [Hp (n & Hn & Kn)]].
  destruct (erase_tree _ _ _ _ _ _ _ _ Hinv Hp Hn Hx) as (t' & Hinv' & _ & Hholds & _).
  exists (length (ptrs t')). intros fuel Hfuel.
  destruct (find_total fuel m' k H' t' Hinv' Hfuel) as [it Hit].
  destruct (find_tree _ _ _ _ _ _ _ Hinv' Hit) as [_ Hres].
  destruct it as [q|]; [|done].
  destruct Hres as (Hq & nq & Hnq & Kq). exfalso.
  assert (holds H' (root m') k (value nq)) as Hh.
  { exists q, nq. split_and!; try done.
    by apply (tree_inv_in_subtree _ _ _ _ Hinv'). }
  apply Hholds in Hh. destruct Hh as [Hne _]. congruence.
Qed.

(** X11 for the key 8 of map 2 at the end of [client_program]. *)
Lemma erase_then_find_witness :
  exists fuel0, forall fuel, (fuel0 <= fuel)%nat ->
    find fuel
      (value_of empty_map
         (erase 50 client_map2 (Some 11%positive) (fst client_world)))
      8 (store_after ∅
           (erase 50 client_map2 (Some 11%positive) (fst client_world)))
    = Some (None,
            store_after ∅
              (erase 50 client_map2 (Some 11%positive) (fst client_world))).
Proof.
  apply (erase_then_find client_world 2%positive client_map2 8 50%nat
           11%positive (fst client_world) 50%nat
           (value_of empty_map
              (erase 50 client_map2 (Some 11%positive) (fst client_world)))
           (store_after ∅
              (erase 50 client_map2 (Some 11%positive) (fst client_world)))
           reachable_client_world ltac:(vm_compute; reflexivity)
           ltac:(vm_compute; reflexivity) ltac:(vm_compute; reflexivity)).
Defined.
(** X12: in a reachable state [clear] (run by the destructor and by both
    assignment operators) returns for every fuel that is large enough; it
    resets the root, releases every node of the map and touches no other
    address, and it has decremented [size_] once per node. *)
Theorem clear_releases_tree :
  forall w a m,
    reachable w -> snd w !! a = Some m ->
    exists fuel0, forall fuel, (fuel0 <= fuel)%nat ->
      exists m' H',
        clear fuel m (fst w) = Some (m', H') /\ root m' = None /\
        (forall q, in_subtree (fst w) (root m) q -> H' !! q = None) /\
        (forall q, ~ in_subtree (fst w) (root m) q -> H' !! q = fst w !! q) /\
        (forall fuel' n H1,
           count_nodes fuel' (root m) (fst w) = Some (n, H1) -> 0 < n ->
           size_ m' = to_unsigned (size_ m - n)).
Proof.
  intros w a m Hw Ha. destruct (reachable_tree w a m Hw Ha) as [t Hinv].
  exists (S (length (ptrs t))). intros fuel Hf.
  destruct (clear_exact fuel m (fst w) t Hinv) as (m' & H' & E & Hroot & Hsz & Hdom);
    [lia|].
  exists m', H'. split_and!; try done.
  - intros q Hq. apply (tree_inv_in_subtree _ _ _ _ Hinv) in Hq.
    by rewrite Hdom, decide_True.
  - intros q Hq. rewrite Hdom, decide_False; [done|].
    intros Hin. apply Hq. by apply (tree_inv_in_subtree _ _ _ _ Hinv).
  - intros fuel' n H1 Hc Hn. pose proof Hinv as (HR & Hrt & _).
    rewrite <- Hrt in Hc. destruct (count_nodes_tree _ _ _ _ _ _ HR Hc) as [-> _].
    rewrite Hsz. apply countdown_closed. lia.
Qed.

(** X12 for map 1 at the end of [client_program]. *)
Lemma clear_releases_tree_witness :
  exists fuel0, forall fuel, (fuel0 <= fuel)%nat ->
    exists m' H',
      clear fuel client_map1 (fst client_world) = Some (m', H') /\ root m' = None /\
      (forall q, in_subtree (fst client_world) (root client_map1) q ->
                 H' !! q = None) /\
      (forall q, ~ in_subtree (fst client_world) (root client_map1) q ->
                 H' !! q = fst client_world !! q) /\
      (forall fuel' n H1,
         count_nodes fuel' (root client_map1) (fst client_world) = Some (n, H1) ->
         0 < n -> size_ m' = to_unsigned (size_ client_map1 - n)).
Proof.
  apply (clear_releases_tree client_world 1%positive client_map1
           reachable_client_world ltac:(vm_compute; reflexivity)).
Defined.
(** X13: in a reachable state the traversal from [begin()] to [end()] by
    [increment] returns for every fuel that is large enough, leaves the
    store alone, and meets the keys of the map, each once, in strictly
    increasing order. *)
Theorem traversal_sorted :
  forall w a m,
    reachable w -> snd w !! a = Some m ->
    (exists fuel0, forall fuel, (fuel0 <= fuel)%nat ->
       exists ks, keys_in_order fuel m (fst w) = Some (ks, fst w)) /\
    (forall fuel ks H',
       keys_in_order fuel m (fst w) = Some (ks, H') ->
       H' = fst w /\ increasing ks /\
       forall k, k ∈ ks <-> contains (fst w) (root m) k).
Proof.
  intros w a m Hw Ha. destruct (reachable_tree w a m Hw Ha) as [t Hinv].
  split.
  - exists (2 * length (ptrs t) + 3)%nat. intros fuel Hf. exists (keys t).
    apply (keys_in_order_tree fuel m (fst w) t Hinv). lia.
  - intros fuel ks H' Hx.
    destruct (proj1 (keys_in_order_tree fuel m (fst w) t Hinv) _ _ Hx) as [-> ->].
    split; [done|]. split; [apply Hinv|].
    intros k. by rewrite (contains_keys _ _ _ _ Hinv).
Qed.

(** X13 for map 1 at the end of [client_program], with fuel 50: the
    traversal yields 1, 3, 4, 8. *)
Lemma traversal_sorted_witness : increasing [1; 3; 4; 8].
Proof.
  exact (proj1 (proj2 (proj2 (traversal_sorted client_world 1%positive client_map1
                                reachable_client_world
                                ltac:(vm_compute; reflexivity))
                         50%nat [1; 3; 4; 8] (fst client_world)
                         ltac:(vm_compute; reflexivity)))).
Defined.

(** The keys around a node, read off the list of the nodes from left to
    right. *)
Lemma keys_around H rt t P p Q n :
  tree_inv H rt t -> ptrs t = P ++ p :: Q -> H !! p = Some n ->
  (forall k, contains H rt k <->
     k ∈ (map (node_pair H) P).*1 \/ k = key n \/ k ∈ (map (node_pair H) Q).*1) /\
  (forall k, k ∈ (map (node_pair H) P).*1 -> k < key n) /\
  increasing (key n :: (map (node_pair H) Q).*1).
Proof.
  intros Hinv E Hn. pose proof Hinv as (HR & _ & _ & Hinc).
  rewrite (keys_contents _ _ _ HR) in Hinc. unfold contents in Hinc.
  rewrite E, map_app, fmap_app in Hinc. simpl in Hinc.
  rewrite (node_pair_lookup _ _ _ Hn) in Hinc. simpl in Hinc.
  apply increasing_app in Hinc. destruct Hinc as (_ & Hinc & Hlt).
  split; [|split; [|done]].
  - intros k. rewrite (contains_keys _ _ _ _ Hinv), (keys_contents _ _ _ HR).
    unfold contents. rewrite E, map_app, fmap_app. simpl.
    rewrite (node_pair_lookup _ _ _ Hn). simpl.
    rewrite elem_of_app, elem_of_cons. tauto.
  - intros k Hk. apply Hlt; [done|]. by left.
Qed.

(** X14: in a reachable state [increment] at a node of the map returns for
    every fuel that is large enough and leaves the store alone.  A node
    it returns is a node of the map with a larger key, and the map has no
    key strictly between the two; when it returns null, the key of the
    node is the largest key of the map. *)
Theorem increment_next_key :
  forall w a m p n,
    reachable w -> snd w !! a = Some m ->
    in_subtree (fst w) (root m) p -> fst w !! p = Some n ->
    (exists fuel0, forall fuel, (fuel0 <= fuel)%nat ->
       exists res, increment fuel p (fst w) = Some (res, fst w)) /\
    (forall fuel res H',
       increment fuel p (fst w) = Some (res, H') ->
       H' = fst w /\
       match res with
       | Some q =>
           in_subtree (fst w) (root m) q /\
           exists nq, fst w !! q = Some nq /\ key n < key nq /\
             forall k, contains (fst w) (root m) k -> k <= key n \/ key nq <= k
       | None => forall k, contains (fst w) (root m) k -> k <= key n
       end).
Proof.
  intros w a m p n Hw Ha Hp Hn. destruct (reachable_tree w a m Hw Ha) as [t Hinv].
  pose proof Hinv as (HR & Hroot & Hnd & Hinc).
  apply (tree_inv_in_subtree _ _ _ _ Hinv) in Hp.
  destruct (list_elem_of_split _ _ Hp) as (P & Q & E).
  split.
  - exists (length (ptrs t) + 2)%nat. intros fuel Hf. exists (head Q).
    apply (increment_list fuel (fst w) t P p Q HR Hnd E). lia.
  - intros fuel res H' Hx.
    destruct (proj1 (increment_list fuel (fst w) t P p Q HR Hnd E) _ _ Hx)
      as [-> ->].
    split; [done|].
    destruct (keys_around _ _ _ _ _ _ _ Hinv E Hn) as (Hall & Hlt & Hgt).
    destruct Q as [|q Q]; simpl.
    + intros k Hk. apply Hall in Hk. destruct Hk as [Hk|[->|Hk]]; [|lia|].
      * specialize (Hlt k Hk). lia.
      * by apply elem_of_nil in Hk.
    + assert (q ∈ ptrs t) as Hq by (rewrite E; set_solver).
      split; [by apply (tree_inv_in_subtree _ _ _ _ Hinv)|].
      destruct (Rep_dom _ _ _ _ HR Hq) as [nq Hnq]. exists nq. split; [done|].
      simpl in Hgt. rewrite (node_pair_lookup _ _ _ Hnq) in Hgt. simpl in Hgt.
      destruct Hgt as [Hgt1 [Hgt2 _]].
      apply Forall_cons in Hgt1. destruct Hgt1 as [Hnq' _]. split; [done|].
      intros k Hk. apply Hall in Hk. destruct Hk as [Hk|[->|Hk]].
      * specialize (Hlt k Hk). lia.
      * lia.
      * simpl in Hk. rewrite (node_pair_lookup _ _ _ Hnq) in Hk. simpl in Hk.
        apply elem_of_cons in Hk. destruct Hk as [->|Hk]; [lia|].
        rewrite Forall_forall in Hgt2. specialize (Hgt2 k Hk). lia.
Qed.

(** X14 at the node holding 3 in map 1 at the end of [client_program]:
    the next node is the root, which holds 4. *)
Lemma increment_next_key_witness :
  store_after ∅ (increment 50 2%positive (fst client_world)) = fst client_world /\
  in_subtree (fst client_world) (root client_map1) 1%positive /\
  exists nq, fst client_world !! 1%positive = Some nq /\ 3 < key nq /\
    forall k, contains (fst client_world) (root client_map1) k ->
              k <= 3 \/ key nq <= k.
Proof.
  apply (proj2 (increment_next_key client_world 1%positive client_map1 2%positive
                  (mkNode 3 30 2 0 (Some 1%positive) (Some 4%positive) None)
                  reachable_client_world ltac:(vm_compute; reflexivity)
                  ltac:(eapply in_subtree_left;
                        [vm_compute; reflexivity
                        |eapply in_subtree_here; vm_compute; reflexivity])
                  ltac:(vm_compute; reflexivity))
           50%nat (Some 1%positive)
           (store_after ∅ (increment 50 2%positive (fst client_world)))).
  vm_compute. reflexivity.
Defined.

(** X15: [decrement] undoes [increment] and the other way round: when
    [increment] at a node of the map returns a node, [decrement] at that
    node returns the first one, and when [decrement] returns a node,
    [increment] at that node returns the first one (for every fuel that
    is large enough). *)
Theorem increment_decrement_inverse :
  forall w a m p q fuel1 H1,
    reachable w -> snd w !! a = Some m ->
    in_subtree (fst w) (root m) p ->
    (increment fuel1 p (fst w) = Some (Some q, H1) ->
     exists fuel0, forall fuel, (fuel0 <= fuel)%nat ->
       decrement fuel q (fst w) = Some (Some p, fst w)) /\
    (decrement fuel1 p (fst w) = Some (Some q, H1) ->
     exists fuel0, forall fuel, (fuel0 <= fuel)%nat ->
       increment fuel q (fst w) = Some (Some p, fst w)).
Proof.
  intros w a m p q fuel1 H1 Hw Ha Hp.
  destruct (reachable_tree w a m Hw Ha) as [t Hinv].
  pose proof Hinv as (HR & Hroot & Hnd & Hinc).
  apply (tree_inv_in_subtree _ _ _ _ Hinv) in Hp.
  destruct (list_elem_of_split _ _ Hp) as (P & Q & E).
  split; intros Hx.
  - destruct (proj1 (increment_list fuel1 (fst w) t P p Q HR Hnd E) _ _ Hx)
      as [Hq _].
    destruct Q as [|q' Q]; [done|]. simpl in Hq. injection Hq as ->.
    assert (ptrs t = (P ++ [p]) ++ q' :: Q) as E' by (by rewrite <- app_assoc).
    exists (length (ptrs t) + 2)%nat. intros fuel Hf.
    rewrite (proj2 (decrement_list fuel (fst w) t _ q' Q HR Hnd E')) by lia.
    by rewrite last_snoc.
  - destruct (proj1 (decrement_list fuel1 (fst w) t P p Q HR Hnd E) _ _ Hx)
      as [Hq _].
    destruct (list.last P) as [q'|] eqn:El; [|done]. injection Hq as ->.
    apply last_Some in El. destruct El as [P' ->].
    assert (ptrs t = P' ++ q' :: p :: Q) as E' by (by rewrite E, <- app_assoc).
    exists (length (ptrs t) + 2)%nat. intros fuel Hf.
    by rewrite (proj2 (increment_list fuel (fst w) t _ q' _ HR Hnd E')) by lia.
Qed.

(** X15 at the node holding 3 in map 1 at the end of [client_program],
    whose successor is the root. *)
Lemma increment_decrement_inverse_witness :
  exists fuel0, forall fuel, (fuel0 <= fuel)%nat ->
    decrement fuel 1%positive (fst client_world)
    = Some (Some 2%positive, fst client_world).
Proof.
  apply (proj1 (increment_decrement_inverse client_world 1%positive client_map1
                  2%positive 1%positive 50%nat (fst client_world)
                  reachable_client_world ltac:(vm_compute; reflexivity)
                  ltac:(eapply in_subtree_left;
                        [vm_compute; reflexivity
                        |eapply in_subtree_here; vm_compute; reflexivity]))).
  vm_compute. reflexivity.
Defined.
Lemma contents_agree (H H' : gmap positive Node) t :
  (forall q, q ∈ ptrs t -> H' !! q = H !! q) -> contents H' t = contents H t.
Proof.
  intros Hag. apply map_node_pair_ext. intros q Hq.
  unfold node_pair, kv_of. by rewrite (Hag q Hq).
Qed.

(** X16: no node is ever lost.  In every state a client program reaches,
    each node in use in the store is a node of the tree of one of the
    live maps: [erase], [clear], the assignments and the destructor
    release what they unlink, and nothing else stays allocated. *)
Theorem reachable_no_garbage :
  forall w q,
    reachable w -> is_Some (fst w !! q) ->
    exists a m, snd w !! a = Some m /\ in_subtree (fst w) (root m) q.
Proof.
  intros w q Hw Hs. destruct (reachable_world_inv w Hw) as (tr & [Htree _] & Hcov).
  destruct (Hcov q Hs) as (a & m & Ha & Hq). exists a, m. split; [done|].
  by apply (tree_inv_in_subtree _ _ _ _ (Htree a m Ha)).
Qed.

(** X16 for the node at address 10 at the end of [client_program]: it
    belongs to one of the maps. *)
Lemma reachable_no_garbage_witness :
  exists a m, snd client_world !! a = Some m /\
              in_subtree (fst client_world) (root m) 10%positive.
Proof.
  exact (reachable_no_garbage client_world 10%positive reachable_client_world
           ltac:(vm_compute; eauto)).
Defined.

(** X20: move assignment from another map, [a = std::move(b)].
    Afterwards [a] is the object [b] was, root and counter, [b] is the
    empty map, and the tree that changed hands holds what it held. *)
Theorem move_assign_transfers :
  forall w fuel a b mb w',
    reachable w -> a <> b -> snd w !! b = Some mb ->
    step fuel (op_move_assign a b) w = Some (tt, w') ->
    snd w' !! a = Some mb /\ snd w' !! b = Some empty_map /\
    (forall k v, holds (fst w') (root mb) k v <-> holds (fst w) (root mb) k v).
Proof.
  intros w fuel a b mb w' Hw Hne Hb Hx. simpl in Hx.
  destruct (reachable_world_inv w Hw) as (tr & Hown & Hcov).
  destruct (move_assign_store _ _ _ _ _ _ _ Hown Hcov Hx)
    as (tr' & Hown' & _ & _ & _ & Hfacts).
  destruct (Hfacts Hne) as (mr & Hmr & Ha' & Hb' & Etr & Hdom).
  assert (mr = mb) as -> by congruence.
  assert (mkMap (root mb) (size_ mb) = mb) as E by (by destruct mb).
  rewrite E in Ha'.
  pose proof (proj1 Hown b mb Hb) as HinvB.
  pose proof (proj1 Hown' a mb Ha') as HinvA'. rewrite Etr in HinvA'.
  split; [done|]. split; [done|].
  intros k v. rewrite (holds_contents _ _ _ _ _ HinvA'),
    (holds_contents _ _ _ _ _ HinvB).
  rewrite (contents_agree (fst w) (fst w') (tr b)); [done|].
  intros q Hq. destruct HinvA' as (HR' & _).
  destruct (Rep_dom _ _ _ _ HR' Hq) as [x Hx']. rewrite Hdom in Hx' |- *.
  by destruct (decide (q ∈ ptrs (tr a))).
Qed.

(** X20 for [map4 = std::move(map1)] run at the end of [client_program]. *)
Lemma move_assign_transfers_witness :
  snd client_move_assigned !! 4%positive = Some client_map1 /\
  snd client_move_assigned !! 1%positive = Some empty_map /\
  (forall k v, holds (fst client_move_assigned) (root client_map1) k v <->
               holds (fst client_world) (root client_map1) k v).
Proof.
  exact (move_assign_transfers client_world 50%nat 4%positive 1%positive
           client_map1 client_move_assigned reachable_client_world
           ltac:(discriminate) ltac:(vm_compute; reflexivity)
           ltac:(vm_compute; reflexivity)).
Defined.
Lemma count_nodes_total fuel : forall H par t,
  Rep H par t -> (length (ptrs t) < fuel)%nat ->
  count_nodes fuel (rootp t) H = Some (Z.of_nat (length (ptrs t)), H).
Proof.
  induction fuel as [|fuel IH]; intros H par t HR Hlen; [lia|].
  destruct t as [|l p k r]; simpl; [done|].
  destruct HR as ((np & Hnp & _ & _ & Ln & Rn) & Rl & Rr).
  simpl in Hlen. rewrite length_app in Hlen. simpl in Hlen.
  rewrite (bind_get _ _ _ _ Hnp), Ln, Rn. unfold bind.
  rewrite (IH _ _ _ Rl) by lia. rewrite (IH _ _ _ Rr) by lia.
  unfold ret. do 2 f_equal. rewrite length_app. simpl. lia.
Qed.

Lemma sized_empty : sized (fun _ => Leaf) empty_world.
Proof. intros a m Ha. simpl in Ha. by rewrite lookup_empty in Ha. Qed.

Lemma owns_empty : owns (fun _ => Leaf) empty_world /\ covers (fun _ => Leaf) empty_world.
Proof.
  split; [split|]; simpl.
  - intros a m Ha. by rewrite lookup_empty in Ha.
  - intros a b ma mb _ Ha. by rewrite lookup_empty in Ha.
  - intros q Hs. simpl in Hs. rewrite lookup_empty in Hs.
    by apply is_Some_None in Hs.
Qed.

(** X21: size accounting.  In a state reached from the empty world by a
    program that does not run the copy constructor (construction,
    indexing, assignment, erasure, copy and move assignment, move
    construction and destruction are all allowed), counting the nodes of
    a map returns, and [size_] is that count as an [unsigned int]. *)
Theorem size_counts_nodes :
  forall fuel ops w a m,
    forallb (fun o => negb (is_copy_construct o)) ops = true ->
    run fuel ops empty_world = Some (tt, w) ->
    snd w !! a = Some m ->
    (exists fuel0, forall fuel', (fuel0 <= fuel')%nat ->
       exists n, count_nodes fuel' (root m) (fst w) = Some (n, fst w)) /\
    (forall fuel' n H1,
       count_nodes fuel' (root m) (fst w) = Some (n, H1) ->
       size_ m = to_unsigned n).
Proof.
  intros fuel ops w a m Hall Hrun Ha.
  destruct owns_empty as [Hown0 Hcov0].
  destruct (run_sized fuel ops _ _ _ _ Hown0 Hcov0 sized_empty Hall Hrun)
    as (tr & [Htree _] & Hs).
  destruct (Htree a m Ha) as (HR & Hrt & _). rewrite <- Hrt. split.
  - exists (S (length (ptrs (tr a)))). intros fuel' Hf.
    exists (Z.of_nat (length (ptrs (tr a)))).
    apply (count_nodes_total _ _ _ _ HR). lia.
  - intros fuel' n H1 Hc.
    destruct (count_nodes_tree _ _ _ _ _ _ HR Hc) as [-> _]. by apply (Hs a m).
Qed.

(** X21 for map 1 after the first seven statements of [client_program]:
    four nodes, [size_] 4. *)
Lemma size_counts_nodes_witness : size_ client_map1 = to_unsigned 4.
Proof.
  exact (proj2 (size_counts_nodes 50%nat (take 7 client_program)
                  (world_of (run 50 (take 7 client_program) empty_world))
                  1%positive client_map1
                  ltac:(vm_compute; reflexivity) ltac:(vm_compute; reflexivity)
                  ltac:(vm_compute; reflexivity))
           50%nat 4
           (fst (world_of (run 50 (take 7 client_program) empty_world)))
           ltac:(vm_compute; reflexivity)).
Defined.
(** The descent counts the links it follows. *)
Lemma descend_depth fuel : forall k c l cur kc r d H res H',
  Rep H None (plug c (Fork l cur kc r)) ->
  increasing (keys (plug c (Fork l cur kc r))) -> fits k c ->
  descend fuel k cur d H = Some (res, H') ->
  exists c' l' k' r',
    plug c (Fork l cur kc r) = plug c' (Fork l' res.1.2 k' r') /\ fits k c' /\
    (res.1.1 = true ->
       k' = k /\ res.2 + Z.of_nat (length c) = d + Z.of_nat (length c')) /\
    (res.1.1 = false -> (k < k' /\ l' = Leaf) \/ (k' < k /\ r' = Leaf)).
Proof.
  induction fuel as [|fuel IH]; intros k c l cur kc r d H res H' HR Hinc Hfit Hx;
    simpl in Hx.
  - by apply fault_Some in Hx.
  - apply bind_Some in Hx. destruct Hx as (n & H0 & Hg & Hx).
    apply get_Some in Hg. destruct Hg as [Hg ->].
    destruct (Rep_focus _ _ _ _ _ _ _ eq_refl HR) as (n' & Hn' & Hk & _ & Hl & Hr).
    assert (n' = n) as -> by congruence.
    destruct (increasing_focus c l (cur, kc) r Hinc) as [Hlt Hgt]. simpl in Hlt, Hgt.
    destruct (k =? key n) eqn:Heq.
    { apply ret_Some in Hx. destruct Hx as [-> ->].
      exists c, l, kc, r. simpl. split_and!; try done.
      intros _. apply Z.eqb_eq in Heq. split; [congruence|done]. }
    apply Z.eqb_neq in Heq.
    destruct (k <? key n) eqn:Hltb.
    + apply Z.ltb_lt in Hltb. rewrite Hl in Hx.
      destruct l as [|ll lp lk lr]; simpl in Hx.
      * apply ret_Some in Hx. destruct Hx as [-> ->].
        exists c, Leaf, kc, r. simpl. split_and!; try done.
        intros _. left. split; [lia|done].
      * destruct (IH k (FrL cur kc r :: c) ll lp lk lr (d + 1) H res H')
          as (c' & l' & k' & r' & E & Hfit' & Hfound & Hnot); try done.
        { destruct Hfit as [Fl Fr]. split; simpl; [done|].
          intros y Hy. apply elem_of_cons in Hy. destruct Hy as [->|Hy]; [lia|].
          apply elem_of_app in Hy. destruct Hy as [Hy|Hy]; [|by apply Fr].
          specialize (Hgt y Hy). lia. }
        exists c', l', k', r'. split_and!; try done.
        intros Hf. destruct (Hfound Hf) as [-> Ed]. split; [done|].
        simpl in Ed. lia.
    + apply Z.ltb_ge in Hltb. rewrite Hr in Hx.
      destruct r as [|rl rp rk rr]; simpl in Hx.
      * apply ret_Some in Hx. destruct Hx as [-> ->].
        exists c, l, kc, Leaf. simpl. split_and!; try done.
        intros _. right. split; [lia|done].
      * destruct (IH k (FrR l cur kc :: c) rl rp rk rr (d + 1) H res H')
          as (c' & l' & k' & r' & E & Hfit' & Hfound & Hnot); try done.
        { destruct Hfit as [Fl Fr]. split; simpl; [|done].
          intros y Hy. apply elem_of_app in Hy. destruct Hy as [Hy|Hy]; [by apply Fl|].
          apply elem_of_app in Hy. destruct Hy as [Hy|Hy].
          - specialize (Hlt y Hy). lia.
          - apply list_elem_of_singleton in Hy. lia. }
        exists c', l', k', r'. split_and!; try done.
        intros Hf. destruct (Hfound Hf) as [-> Ed]. split; [done|].
        simpl in Ed. lia.
Qed.

(** The focus of a context has as many ancestors as the context has
    frames. *)
Lemma depth_ctx H : forall c l p k r,
  Rep H None (plug c (Fork l p k r)) -> depth_is H p (length c).
Proof.
  induction c as [|f c IH]; intros l p k r HR.
  - destruct (Rep_focus _ _ _ _ _ _ _ eq_refl HR) as (n & Hn & _ & Pn & _).
    by eapply depth_root.
  - destruct (Rep_focus _ _ _ _ _ _ _ eq_refl HR) as (n & Hn & _ & Pn & _).
    simpl in Pn. eapply depth_child; [exact Hn|exact Pn|].
    simpl in HR. destruct f as [fp fk fr|fl fp fk]; simpl in HR |- *;
      by eapply IH.
Qed.

Lemma depth_is_unique H p : forall j j',
  depth_is H p j -> depth_is H p j' -> j = j'.
Proof.
  intros j j' Hj. revert j'. induction Hj as [p n Hn Pn|p n q j Hn Pn Hq IH];
    intros j' Hj'; inversion Hj' as [p' n' Hn' Pn'|p' n' q' j'' Hn' Pn' Hq'];
    subst; try congruence.
  f_equal. apply IH. congruence.
Qed.

Lemma getdepth_tree fuel m H t p :
  tree_inv H (root m) t -> p ∈ ptrs t ->
  (forall d H', getdepth fuel m p H = Some (d, H') ->
     H' = H /\ exists j, depth_is H p j /\ d = to_unsigned (Z.of_nat j)) /\
  ((length (ptrs t) <= fuel)%nat -> exists d, getdepth fuel m p H = Some (d, H)).
Proof.
  intros Hinv Hp. pose proof Hinv as (HR & Hroot & Hnd & Hinc).
  destruct (Rep_dom _ _ _ _ HR Hp) as [n Hn].
  destruct t as [|l0 rt k0 r0]; [by apply elem_of_nil in Hp|].
  simpl in Hroot. unfold getdepth, search_node. rewrite <- Hroot.
  rewrite (bind_get _ _ _ _ Hn). split.
  - intros d H' Hx.
    apply bind_Some in Hx. destruct Hx as (s & H1 & Hs & Hx).
    apply bind_Some in Hs. destruct Hs as ([[found cur] depth] & H0 & Hd & Hs).
    destruct (descend_inv fuel (key n) [] l0 rt k0 r0 0 H _ H0 HR Hinc
                (fits_nil (key n)) Hd) as (-> & _).
    destruct (descend_depth fuel (key n) [] l0 rt k0 r0 0 H _ H HR Hinc
                (fits_nil (key n)) Hd)
      as (c & l & k' & r & Ht & Hfit & Hfound & Hnot).
    simpl in Ht, Hfound, Hnot.
    destruct found.
    + apply ret_Some in Hs. destruct Hs as [Es ->]. subst s.
      apply ret_Some in Hx. destruct Hx as [Ed' ->]. subst d. split; [done|].
      destruct (Hfound eq_refl) as [-> Ed].
      assert (cur = p) as ->.
      { rewrite Ht in HR.
        destruct (Rep_focus _ _ _ _ _ _ _ eq_refl HR) as (nc & Hnc & Kc & _).
        eapply (key_unique H _ _ cur p nc n Hinv); try done.
        rewrite Ht, ptrs_plug. simpl. set_solver. }
      exists (length c). split.
      * rewrite Ht in HR. by eapply depth_ctx.
      * f_equal. simpl in Ed. lia.
    + exfalso. rewrite Ht in Hinc.
      apply (fits_not_in _ _ _ _ _ _ Hinc Hfit (Hnot eq_refl)).
      rewrite <- Ht. by eapply Rep_key.
  - intros Hlen.
    destruct (descend_total fuel (key n) [] l0 rt k0 r0 0 H HR Hlen)
      as ([[found cur] depth] & Hd).
    unfold bind. rewrite Hd. destruct found; by eexists.
Qed.

(** X22: [getdepth] of a node of the map returns for every sufficiently
    large fuel, leaves the store unchanged, and returns the number of
    parent links that lead from the node up to the root, as an
    [unsigned int]. *)
Theorem getdepth_counts_parents :
  forall w a m p,
    reachable w -> snd w !! a = Some m -> in_subtree (fst w) (root m) p ->
    (exists fuel0, forall fuel, (fuel0 <= fuel)%nat ->
       exists d, getdepth fuel m p (fst w) = Some (d, fst w)) /\
    (forall fuel d H',
       getdepth fuel m p (fst w) = Some (d, H') ->
       H' = fst w /\
       exists j, depth_is (fst w) p j /\ d = to_unsigned (Z.of_nat j)).
Proof.
  intros w a m p Hw Ha Hp. destruct (reachable_tree w a m Hw Ha) as [t Hinv].
  apply (tree_inv_in_subtree _ _ _ _ Hinv) in Hp. split.
  - exists (length (ptrs t)). intros fuel Hf.
    by apply (getdepth_tree fuel m (fst w) t p Hinv Hp).
  - intros fuel d H' Hx.
    by apply (getdepth_tree fuel m (fst w) t p Hinv Hp).
Qed.

(** X22 for the node at address 4 of map 1 at the end of
    [client_program], with fuel 50: [getdepth] returns 2 there. *)
Lemma getdepth_counts_parents_witness :
  exists j, depth_is (fst client_world) 4%positive j /\
            2 = to_unsigned (Z.of_nat j).
Proof.
  exact (proj2 (proj2 (getdepth_counts_parents client_world 1%positive client_map1
                         4%positive reachable_client_world
                         ltac:(vm_compute; reflexivity)
                         ltac:(eapply in_subtree_left;
                                 [vm_compute; reflexivity|];
                               eapply in_subtree_left;
                                 [vm_compute; reflexivity|];
                               eapply in_subtree_here; vm_compute; reflexivity))
                  50%nat 2 (fst client_world) ltac:(vm_compute; reflexivity))).
Defined.
Lemma omap_rootp_in ts p :
  p ∈ omap rootp ts -> NoDup (p :: forest_ptrs ts) -> False.
Proof.
  intros Hp Hnd. apply NoDup_cons in Hnd. destruct Hnd as [Hout _].
  apply list_elem_of_omap in Hp. destruct Hp as (t' & Ht' & Hr).
  apply Hout. eapply elem_of_forest; [|exact Ht']. by apply rootp_ptrs.
Qed.

(** One round of the loop of [sanityCheck] at the head of a forest held
    by the store. *)
Lemma sanity_step fuel l p k r rest seen ms H par :
  Rep H par (Fork l p k r) -> k ∉ seen ->
  NoDup (forest_ptrs (Fork l p k r :: rest)) ->
  exists b : bool,
    (b = true <-> values_ordered_at H p) /\
    sanity_loop (S fuel) (omap rootp (Fork l p k r :: rest)) seen ms H =
      if b then sanity_loop fuel (omap rootp (rest ++ [l; r])) (seen ++ [k])
                 (ms + 1) H
      else Some ((false, ms), H).
Proof.
  intros ((n & Hn & Kn & Pn & Ln & Rn) & Rl & Rr) Hk Hnd.
  rewrite (forest_ptrs_step l p k r rest) in Hnd.
  assert (p ∉ omap rootp (rest ++ [l; r])) as Hcirc.
  { intros Hin. by eapply omap_rootp_in. }
  assert (exists lb : bool,
            (lb = true <->
             forall q nq, left n = Some q -> H !! q = Some nq -> value nq < value n) /\
            (match left n with
             | Some q => let* nl := get q in ret (negb (value n <=? value nl))
             | None => ret true
             end) H = Some (lb, H)) as (lb & Hlb & El).
  { rewrite Ln. destruct l as [|ll lp lk lr]; simpl.
    - exists true. split; [|done]. split; [done|]. done.
    - destruct Rl as ((nl & Hnl & _) & _).
      exists (negb (value n <=? value nl)). rewrite (bind_get _ _ _ _ Hnl).
      split; [|done]. rewrite negb_true_iff, Z.leb_gt. split.
      + intros Hlt q nq [= <-] Hq. assert (nq = nl) as -> by congruence. done.
      + intros Hall. by apply (Hall lp nl). }
  assert (exists rb : bool,
            (rb = true <->
             forall q nq, right n = Some q -> H !! q = Some nq -> value n < value nq) /\
            (match right n with
             | Some q => let* nr := get q in ret (negb (value nr <=? value n))
             | None => ret true
             end) H = Some (rb, H)) as (rb & Hrb & Er).
  { rewrite Rn. destruct r as [|rl rp rk rr]; simpl.
    - exists true. split; [|done]. split; [done|]. done.
    - destruct Rr as ((nr & Hnr & _) & _).
      exists (negb (value nr <=? value n)). rewrite (bind_get _ _ _ _ Hnr).
      split; [|done]. rewrite negb_true_iff, Z.leb_gt. split.
      + intros Hlt q nq [= <-] Hq. assert (nq = nr) as -> by congruence. done.
      + intros Hall. by apply (Hall rp nr). }
  exists (lb && rb). split.
  - rewrite andb_true_iff, Hlb, Hrb. unfold values_ordered_at. split.
    + intros [Hl Hr] n' Hn'. assert (n' = n) as -> by congruence. done.
    + intros Hall. by apply Hall.
  - simpl. rewrite (bind_get _ _ _ _ Hn), Kn.
    rewrite bool_decide_false by done.
    unfold bind at 1. rewrite El. destruct lb; simpl; [|done].
    unfold bind at 1. rewrite Er. destruct rb; simpl; [|done].
    rewrite (children_roots n l r Ln Rn), <- omap_app.
    rewrite bool_decide_false by done. done.
Qed.

(** The loop of [sanityCheck] on a forest with distinct addresses and
    keys: the duplicate-key and circular-reference complaints never
    come, the verdict is the comparison of values at every node, and a
    run to the end counts the nodes. *)
Lemma sanity_loop_forest fuel : forall ts seen ms H,
  Forall (fun t => exists par, Rep H par t) ts ->
  NoDup (forest_ptrs ts) -> NoDup (seen ++ forest_keys ts) ->
  (forall ok ms' H',
     sanity_loop fuel (omap rootp ts) seen ms H = Some ((ok, ms'), H') ->
     H' = H /\
     (ok = true <-> forall p, p ∈ forest_ptrs ts -> values_ordered_at H p) /\
     (ok = true -> ms' = ms + Z.of_nat (length (forest_ptrs ts)))) /\
  ((length (forest_ptrs ts) < fuel)%nat ->
   exists res, sanity_loop fuel (omap rootp ts) seen ms H = Some (res, H)).
Proof.
  induction fuel as [|fuel IH]; intros ts seen ms H Hall Hnd Hkeys.
  { split; [|lia]. intros ok ms' H' Hx. simpl in Hx. by apply fault_Some in Hx. }
  induction ts as [|t ts IHts].
  - split; [|by eexists]. intros ok ms' H' Hx. simpl in Hx.
    apply ret_Some in Hx. destruct Hx as [[= <- <-] ->].
    split; [done|]. split; [|intros _; simpl; lia]. split; [|done].
    intros _ p Hp. by apply elem_of_nil in Hp.
  - destruct t as [|l p k r].
    { apply Forall_cons in Hall. destruct Hall as [_ Hall]. by apply IHts. }
    clear IHts. pose proof Hall as Hall0.
    apply Forall_cons in Hall. destruct Hall as [[par HR] Hall].
    pose proof (forest_ptrs_step l p k r ts) as Pp.
    pose proof (forest_keys_step l p k r ts) as Pk.
    assert (k ∉ seen) as Hk.
    { rewrite Pk in Hkeys. apply NoDup_app in Hkeys.
      destruct Hkeys as (_ & Hsk & _). intros Hin. apply (Hsk k Hin). left. }
    destruct (sanity_step fuel l p k r ts seen ms H par HR Hk Hnd)
      as (b & Hb & E).
    rewrite E.
    assert (Forall (fun t => exists par, Rep H par t) (ts ++ [l; r])) as Hall'.
    { destruct HR as (_ & Rl & Rr). apply Forall_app. split; [done|].
      repeat apply Forall_cons_2; [by exists (Some p)|by exists (Some p)|].
      apply Forall_nil_2. }
    assert (NoDup (forest_ptrs (ts ++ [l; r]))) as Hnd'.
    { rewrite Pp in Hnd. by apply NoDup_cons in Hnd as [_ ?]. }
    assert (NoDup ((seen ++ [k]) ++ forest_keys (ts ++ [l; r]))) as Hkeys'.
    { rewrite Pk in Hkeys. rewrite <- app_assoc. done. }
    destruct (IH (ts ++ [l; r]) (seen ++ [k]) (ms + 1) H Hall' Hnd' Hkeys')
      as [Hback Hforw].
    assert (length (forest_ptrs (Fork l p k r :: ts))
            = S (length (forest_ptrs (ts ++ [l; r])))) as Elen by (by rewrite Pp).
    split.
    + intros ok ms' H' Hx. destruct b.
      * destruct (Hback ok ms' H' Hx) as (-> & Hok & Hms). split; [done|]. split.
        -- rewrite Hok. split.
           ++ intros Hall1 q Hq. rewrite Pp in Hq. apply elem_of_cons in Hq.
              destruct Hq as [->|Hq]; [by apply Hb|by apply Hall1].
           ++ intros Hall1 q Hq. apply Hall1. rewrite Pp. by right.
        -- intros Hok'. rewrite (Hms Hok'), Elen. lia.
      * injection Hx as <- <- <-. split; [done|]. split; [|done]. split; [done|].
        intros Hall1. apply Hb. apply Hall1. rewrite Pp. left.
    + intros Hlen. destruct b; [|by eexists]. apply Hforw. lia.
Qed.

(** [sanityCheck] on a search tree held by the store. *)
Lemma sanityCheck_tree fuel m H t :
  tree_inv H (root m) t ->
  (forall b H', sanityCheck fuel m H = Some (b, H') ->
     H' = H /\
     (b = true <->
      (forall p, p ∈ ptrs t -> values_ordered_at H p) /\
      (root m = None \/ size_ m = Z.of_nat (length (ptrs t))))) /\
  ((length (ptrs t) < fuel)%nat -> exists b, sanityCheck fuel m H = Some (b, H)).
Proof.
  intros (HR & Hroot & Hnd & Hinc). unfold sanityCheck.
  destruct (root m) as [rt|] eqn:Hrt.
  - assert (omap rootp [t] = [rt]) as Eq by (simpl; by rewrite Hroot).
    rewrite <- Eq.
    destruct (sanity_loop_forest fuel [t] [] 0 H) as [Hback Hforw].
    { apply Forall_cons_2; [by exists None|apply Forall_nil_2]. }
    { unfold forest_ptrs. simpl. by rewrite app_nil_r. }
    { unfold forest_keys. simpl. rewrite app_nil_r. by apply increasing_NoDup. }
    unfold forest_ptrs in Hback, Hforw. cbn [map concat] in Hback, Hforw.
    rewrite app_nil_r in Hback, Hforw. split.
    + intros b H' Hx. apply bind_Some in Hx.
      destruct Hx as ([ok ms'] & H1 & Hl & Hx).
      destruct (Hback ok ms' H1 Hl) as (-> & Hok & Hms).
      destruct ok.
      * apply ret_Some in Hx. destruct Hx as [Eb ->]. subst b. split; [done|].
        rewrite (Hms eq_refl). unfold size. rewrite bool_decide_eq_true.
        split.
        -- intros E. split; [by apply Hok|]. right. lia.
        -- intros [_ [?|E]]; [done|]. lia.
      * apply ret_Some in Hx. destruct Hx as [Eb ->]. subst b. split; [done|].
        split; [done|]. intros [Hall _]. by apply Hok.
    + intros Hlen. destruct (Hforw Hlen) as ([ok ms'] & E).
      unfold bind. rewrite E. destruct ok; by eexists.
  - apply rootp_None in Hroot. subst t. split; [|by eexists].
    intros b H' Hx. apply ret_Some in Hx. destruct Hx as [Eb ->]. subst b.
    split; [done|]. split; [|done]. intros _. split; [|by left].
    intros p Hp. by apply elem_of_nil in Hp.
Qed.

(** X23: [sanityCheck] on a map of a reachable state returns for every
    sufficiently large fuel and leaves the store unchanged.  Its
    duplicate-key and circular-reference complaints never come; it
    answers true exactly when at every node the value of a left child is
    smaller and the value of a right child is larger than the node's
    value, and the map is empty or [size_] is the number of its nodes. *)
Theorem sanityCheck_verdict :
  forall w a m,
    reachable w -> snd w !! a = Some m ->
    (exists fuel0, forall fuel, (fuel0 <= fuel)%nat ->
       exists b, sanityCheck fuel m (fst w) = Some (b, fst w)) /\
    (forall fuel b H',
       sanityCheck fuel m (fst w) = Some (b, H') ->
       H' = fst w /\
       (b = true <->
        (forall p, in_subtree (fst w) (root m) p ->
                   values_ordered_at (fst w) p) /\
        (root m = None \/
         forall fuel' n H1,
           count_nodes fuel' (root m) (fst w) = Some (n, H1) -> size_ m = n))).
Proof.
  intros w a m Hw Ha. destruct (reachable_tree w a m Hw Ha) as [t Hinv].
  pose proof Hinv as (HR & Hrt & _). split.
  - exists (S (length (ptrs t))). intros fuel Hf.
    apply (sanityCheck_tree fuel m (fst w) t Hinv). lia.
  - intros fuel b H' Hx.
    destruct (proj1 (sanityCheck_tree fuel m (fst w) t Hinv) b H' Hx) as [-> Hb].
    split; [done|]. rewrite Hb. split.
    + intros [Hall Hsz]. split.
      * intros p Hp. apply Hall. by apply (tree_inv_in_subtree _ _ _ _ Hinv).
      * destruct Hsz as [?|Hsz]; [by left|right]. intros fuel' n H1 Hc.
        rewrite <- Hrt in Hc.
        by destruct (count_nodes_tree _ _ _ _ _ _ HR Hc) as [-> _].
    + intros [Hall Hsz]. split.
      * intros p Hp. apply Hall. by apply (tree_inv_in_subtree _ _ _ _ Hinv).
      * destruct Hsz as [?|Hsz]; [by left|right].
        apply (Hsz (S (length (ptrs t))) _ (fst w)). rewrite <- Hrt.
        apply (count_nodes_total _ _ _ _ HR). lia.
Qed.

(** X23 for map 1 at the end of [client_program], with fuel 50: the root
    holds the value 0 and its left child the value 30, and [sanityCheck]
    answers false. *)
Lemma sanityCheck_verdict_witness :
  fst client_world = fst client_world /\
  (false = true <->
   (forall p, in_subtree (fst client_world) (root client_map1) p ->
              values_ordered_at (fst client_world) p) /\
   (root client_map1 = None \/
    forall fuel' n H1,
      count_nodes fuel' (root client_map1) (fst client_world) = Some (n, H1) ->
      size_ client_map1 = n)).
Proof.
  exact (proj2 (sanityCheck_verdict client_world 1%positive client_map1
                  reachable_client_world ltac:(vm_compute; reflexivity))
           50%nat false (fst client_world) ltac:(vm_compute; reflexivity)).
Defined.
Lemma get_edge_symbol_tree H rt t p n :
  tree_inv H rt t -> p ∈ ptrs t -> H !! p = Some n ->
  exists c, get_edge_symbol p H = Some (c, H) /\
    (c = "-"%char <-> rt = Some p) /\
    (c = "092"%char <->
     exists q nq, parent n = Some q /\ H !! q = Some nq /\ left nq = Some p) /\
    (c = "/"%char <->
     exists q nq, parent n = Some q /\ H !! q = Some nq /\ right nq = Some p).
Proof.
  intros (HR & Hroot & Hnd & Hinc) Hp Hn.
  assert (rt = Some p -> parent n = None) as Hrootp.
  { intros ->. destruct t as [|l0 p0 k0 r0]; simpl in Hroot; [done|].
    injection Hroot as ->. destruct HR as ((n' & Hn' & _ & Pn & _) & _).
    congruence. }
  destruct (focus _ _ Hp) as (cx & l & k & r & E). subst t.
  rewrite ptrs_plug in Hnd.
  pose proof HR as HR0. apply Rep_plug in HR0. destruct HR0 as [HRf HRc].
  destruct HRf as ((n' & Hn' & _ & Pn & _) & _).
  assert (n' = n) as -> by congruence.
  unfold get_edge_symbol. rewrite (bind_get _ _ _ _ Hn), Pn.
  destruct cx as [|f cx]; simpl.
  - exists "-"%char. split; [done|]. simpl in Hroot, Pn. split_and!.
    + by rewrite <- Hroot.
    + split; [done|]. intros (q & nq & Hq & _). congruence.
    + split; [done|]. intros (q & nq & Hq & _). congruence.
  - simpl in Pn. destruct f as [q kq rq|lq q kq]; simpl in HRc, Hnd |- *.
    + destruct HRc as ((nq & Hnq & _ & _ & Lq & Rq) & _ & _).
      rewrite (bind_get _ _ _ _ Hnq), bool_decide_true by done. simpl in Lq.
      exists "092"%char. split; [done|]. split_and!.
      * split; [done|]. intros Hrt. specialize (Hrootp Hrt). congruence.
      * split; [|done]. intros _. by exists q, nq.
      * split; [done|]. intros (q' & nq' & Hq' & Hnq' & Rq').
        assert (q' = q) as -> by congruence.
        assert (nq' = nq) as -> by congruence.
        rewrite Rq' in Rq. apply eq_sym, rootp_ptrs in Rq.
        exfalso. apply NoDup_app in Hnd. destruct Hnd as (_ & _ & Hnd).
        apply NoDup_app in Hnd. destruct Hnd as (_ & Hd & _).
        apply (Hd p); [set_solver|]. right. apply elem_of_app. by left.
    + destruct HRc as ((nq & Hnq & _ & _ & Lq & Rq) & _ & _).
      simpl in Lq, Rq.
      assert (left nq <> Some p) as Hl.
      { intros Hl. rewrite Hl in Lq. apply eq_sym, rootp_ptrs in Lq.
        apply NoDup_app in Hnd. destruct Hnd as (_ & Hd & _).
        apply (Hd p); [|set_solver].
        apply elem_of_app. right. apply elem_of_app. by left. }
      rewrite (bind_get _ _ _ _ Hnq), bool_decide_false by done.
      exists "/"%char. split; [done|]. split_and!.
      * split; [done|]. intros Hrt. specialize (Hrootp Hrt). congruence.
      * split; [done|]. intros (q' & nq' & Hq' & Hnq' & Lq').
        assert (q' = q) as -> by congruence.
        assert (nq' = nq) as -> by congruence. done.
      * split; [|done]. intros _. by exists q, nq.
Qed.

(** X24: [get_edge_symbol] at a node of a map of a reachable state
    returns without changing the store.  It answers '-' exactly for the
    root of the map, the backslash exactly when the node is the left
    child of its parent, and '/' exactly when it is the right child of
    its parent. *)
Theorem get_edge_symbol_classifies :
  forall w a m p n,
    reachable w -> snd w !! a = Some m ->
    in_subtree (fst w) (root m) p -> fst w !! p = Some n ->
    exists c, get_edge_symbol p (fst w) = Some (c, fst w) /\
      (c = "-"%char <-> root m = Some p) /\
      (c = "092"%char <->
       exists q nq, parent n = Some q /\ fst w !! q = Some nq /\
                    left nq = Some p) /\
      (c = "/"%char <->
       exists q nq, parent n = Some q /\ fst w !! q = Some nq /\
                    right nq = Some p).
Proof.
  intros w a m p n Hw Ha Hp Hn. destruct (reachable_tree w a m Hw Ha) as [t Hinv].
  apply (tree_inv_in_subtree _ _ _ _ Hinv) in Hp.
  by apply (get_edge_symbol_tree _ _ t).
Qed.

(** X24 for the node at address 3 of map 1 at the end of
    [client_program], the right child of the root. *)
Lemma get_edge_symbol_classifies_witness :
  exists c, get_edge_symbol 3%positive (fst client_world)
            = Some (c, fst client_world) /\
    (c = "-"%char <-> root client_map1 = Some 3%positive) /\
    (c = "092"%char <->
     exists q nq, parent (default (mkNode 0 0 0 0 None None None)
                            (fst client_world !! 3%positive)) = Some q /\
                  fst client_world !! q = Some nq /\ left nq = Some 3%positive) /\
    (c = "/"%char <->
     exists q nq, parent (default (mkNode 0 0 0 0 None None None)
                            (fst client_world !! 3%positive)) = Some q /\
                  fst client_world !! q = Some nq /\ right nq = Some 3%positive).
Proof.
  exact (get_edge_symbol_classifies client_world 1%positive client_map1 3%positive
           (default (mkNode 0 0 0 0 None None None) (fst client_world !! 3%positive))
           reachable_client_world ltac:(vm_compute; reflexivity)
           ltac:(eapply in_subtree_right; [vm_compute; reflexivity|];
                 eapply in_subtree_here; vm_compute; reflexivity)
           ltac:(vm_compute; reflexivity)).
Defined.
(** X25: [operator[]] is not safe in every state a client program can
    reach.  After the insertions and erasures of [faulting_program], which
    all return, the map does not hold the key 29 and [m[29]] does not
    return, whatever the fuel: the walk of [insert_balance] comes to the
    root with a balance above 1 computed from stale heights while the root
    has no right child, and [try_fix_balance] runs
    [root = right; right->parent = nullptr]. *)
Theorem index_can_fault :
  exists w a m k,
    reachable w /\ snd w !! a = Some m /\ ~ contains (fst w) (root m) k /\
    forall fuel, index fuel m k (fst w) = None.
Proof.
  exists faulting_world, 1%positive, faulting_map, 29.
  assert (reachable faulting_world) as Hw.
  { apply (run_reachable 100 faulting_program empty_world); [apply reachable_empty|].
    vm_compute. reflexivity. }
  assert (snd faulting_world !! 1%positive = Some faulting_map) as Ha
    by (vm_compute; reflexivity).
  split; [done|]. split; [done|]. split.
  - intros Hc. destruct (reachable_tree _ _ _ Hw Ha) as [t Hinv].
    assert (find 100 faulting_map 29 (fst faulting_world)
            = Some (None, fst faulting_world)) as Hf by (vm_compute; reflexivity).
    destruct (find_tree _ _ _ _ _ _ _ Hinv Hf) as [_ Hnot].
    by apply Hnot, (contains_keys _ _ _ _ Hinv).
  - intros fuel.
    remember (fst faulting_world) as H0 eqn:EH. vm_compute in EH. subst H0.
    do 40 (destruct fuel as [|fuel]; [vm_compute; reflexivity|]).
    vm_compute. reflexivity.
Qed.

(** X26: [erase] does no height bookkeeping.  At a node of a map of a
    reachable state it returns for every fuel that is large enough, and
    every node that is left stores the height it stored before. *)
Theorem erase_keeps_heights :
  forall w a m p,
    reachable w -> snd w !! a = Some m ->
    in_subtree (fst w) (root m) p ->
    exists fuel0, forall fuel, (fuel0 <= fuel)%nat ->
      exists m' H',
        erase fuel m (Some p) (fst w) = Some (m', H') /\
        heights_kept (fst w) H'.
Proof.
  intros w a m p Hw Ha Hp.
  destruct (reachable_tree w a m Hw Ha) as [t Hinv].
  pose proof Hinv as (HR & Hroot & Hnd & Hinc).
  apply (tree_inv_in_subtree _ _ _ _ Hinv) in Hp.
  destruct (focus _ _ Hp) as (c & l & k & r & Et). subst t.
  exists (length (ptrs l) + 2)%nat. intros fuel Hf.
  destruct (erase_total fuel m (fst w) c l p k r HR Hnd Hroot Hf) as (m' & H' & E).
  exists m', H'. split; [done|]. by eapply erase_heights_kept.
Qed.

(** X26 at the root of map 1 at the end of [client_program]. *)
Lemma erase_keeps_heights_witness :
  exists fuel0, forall fuel, (fuel0 <= fuel)%nat ->
    exists m' H',
      erase fuel client_map1 (Some 1%positive) (fst client_world) = Some (m', H') /\
      heights_kept (fst client_world) H'.
Proof.
  apply (erase_keeps_heights client_world 1%positive client_map1 1%positive
           reachable_client_world ltac:(vm_compute; reflexivity)
           ltac:(eapply in_subtree_here; vm_compute; reflexivity)).
Defined.

(** * The claims about every reachable state *)

(** The search-tree check on a tree with increasing keys within the
    bounds answers true. *)
Lemma ordered_tree fuel : forall H par t lo hi,
  Rep H par t -> increasing (keys t) ->
  (forall x, x ∈ keys t -> above lo x = true /\ below x hi = true) ->
  (length (ptrs t) < fuel)%nat ->
  ordered fuel (rootp t) lo hi H = Some (true, H).
Proof.
  induction fuel as [|fuel IH]; intros H par t lo hi HR Hinc Hb Hlen; [lia|].
  destruct t as [|l p k r]; simpl; [done|].
  destruct HR as ((np & Hnp & Kn & _ & Ln & Rn) & Rl & Rr).
  simpl in Hlen. rewrite length_app in Hlen. simpl in Hlen.
  simpl in Hinc. apply increasing_app in Hinc.
  destruct Hinc as (Il & Ir & Hlr). simpl in Ir. destruct Ir as [Hk Ir].
  rewrite Forall_forall in Hk.
  rewrite (bind_get _ _ _ _ Hnp), Ln, Rn, Kn. unfold bind.
  rewrite (IH H (Some p) l lo (Some k) Rl Il); [|intros x Hx|lia].
  2:{ split; [apply Hb; simpl; set_solver|]. simpl. apply Z.ltb_lt.
      apply Hlr; [done|set_solver]. }
  rewrite (IH H (Some p) r (Some k) hi Rr Ir); [|intros x Hx|lia].
  2:{ split; [|apply Hb; simpl; set_solver]. simpl. apply Z.ltb_lt. by apply Hk. }
  destruct (Hb k) as [-> ->]; [simpl; set_solver|]. done.
Qed.

(** C4: in every state a client program reaches through the public
    interface, every node of every map has only smaller keys in its left
    subtree and only larger keys in its right subtree; and the recursive
    search-tree check [ordered] returns true on every map, for every fuel
    that is large enough. *)
Theorem C4_reachable_ordered :
  forall w a m,
    reachable w -> snd w !! a = Some m ->
    search_tree (fst w) (root m) /\
    exists fuel0, forall fuel, (fuel0 <= fuel)%nat ->
      ordered fuel (root m) None None (fst w) = Some (true, fst w).
Proof.
  intros w a m Hw Ha. destruct (reachable_tree w a m Hw Ha) as [t Hinv].
  split; [by eapply tree_inv_search_tree|].
  destruct Hinv as (HR & <- & _ & Hinc).
  exists (S (length (ptrs t))). intros fuel Hfuel.
  apply (ordered_tree fuel _ None); [done|done|done|lia].
Qed.

(** C4 for map 2 at the end of [client_program], whose root is the node
    at address 9. *)
Lemma C4_reachable_ordered_witness :
  search_tree (fst client_world) (Some 9%positive) /\
  exists fuel0, forall fuel, (fuel0 <= fuel)%nat ->
    ordered fuel (Some 9%positive) None None (fst client_world)
    = Some (true, fst client_world).
Proof.
  exact (C4_reachable_ordered client_world 2%positive client_map2
           reachable_client_world ltac:(vm_compute; reflexivity)).
Defined.

(** C9: erasing a node with two children, in any state a client program
    reaches.  The in-order predecessor is the rightmost node below the left
    child; it holds the largest key of the map below the key of the node.
    For every fuel that is large enough [erase] returns; the node is still
    in the map, at the same place (same parent, same right child), and now
    holds the key and the value of the predecessor; the node of the
    predecessor is released; no other node has its key or value changed;
    [size_] goes down by one; the result is a search tree holding the old
    pairs but the one of the erased key.  On the seven-key map, erasing 5
    leaves 1, 3, 4, 7, 8, 9 in search-tree order.  On the map built from
    3, 2, 4, 1 with [m[2] = 20], where the predecessor of the root has a
    left child, erasing 3 leaves three nodes holding (1, 0), (2, 20) and
    (4, 0), the root holding (2, 20). *)
Theorem C9_erase_two_children :
  (forall w a m node n l r,
      reachable w -> snd w !! a = Some m ->
      in_subtree (fst w) (root m) node ->
      fst w !! node = Some n -> left n = Some l -> right n = Some r ->
      exists predecessor np,
        rightmost (fst w) l predecessor /\
        fst w !! predecessor = Some np /\
        key np < key n /\
        (forall k', contains (fst w) (root m) k' -> k' < key n -> k' <= key np) /\
        exists fuel0, forall fuel, (fuel0 <= fuel)%nat ->
          exists m' H',
            erase fuel m (Some node) (fst w) = Some (m', H') /\
            (exists n', H' !! node = Some n' /\
                        key n' = key np /\ value n' = value np /\
                        parent n' = parent n /\ right n' = right n) /\
            H' !! predecessor = None /\
            (forall q, q <> node -> q <> predecessor ->
                       kv_of H' q = kv_of (fst w) q) /\
            size_ m' = to_unsigned (size_ m - 1) /\
            in_subtree H' (root m') node /\
            search_tree H' (root m') /\
            (forall k' v', holds H' (root m') k' v' <->
                           k' <> key n /\ holds (fst w) (root m) k' v'))
  /\ result (let* m := seven_keys 50 in
             let* m := erase_all 50 [5] m in
             let* ks := keys_in_order 50 m in
             let* o := ordered 50 (root m) None None in
             ret (ks, o, size m)) ∅
     = Some ([1; 3; 4; 7; 8; 9], true, 6)
  /\ result (let* m := insert_all 50 [3; 2; 4; 1] empty_map in
             let* m := assign 50 m 2 20 in
             let* m := erase_all 50 [3] m in
             let* ps := pairs 50 (root m) in
             let* o := ordered 50 (root m) None None in
             let* c := count_nodes 50 (root m) in
             let* top := match root m with
                         | Some r => let* n := get r in ret (key n, value n)
                         | None => ret (0, 0)
                         end in
             ret (ps, o, size m, c, top)) ∅
     = Some ([(1, 0); (2, 20); (4, 0)], true, 3, 3, (2, 20)).
Proof.
  split; [|split; vm_compute; reflexivity].
  intros w a m node n l r Hw Ha Hnode Hn Hl Hr.
  destruct (reachable_tree w a m Hw Ha) as [t Hinv].
  pose proof Hinv as (HR & Hroot & Hnd & Hinc).
  pose proof Hnode as Hin. apply (tree_inv_in_subtree _ _ _ _ Hinv) in Hin.
  destruct (focus _ _ Hin) as (c & lt & k & rt & Et). subst t.
  destruct (Rep_focus _ _ _ _ _ _ _ eq_refl HR) as (n0 & Hn0 & Kn & Pn & Ln & Rn).
  assert (n0 = n) as -> by congruence.
  destruct lt as [|la lp lk lb]; [simpl in Ln; congruence|].
  destruct rt as [|ra rp rk rb]; [simpl in Rn; congruence|].
  simpl in Ln, Rn. assert (lp = l) as -> by congruence.
  assert (rp = r) as -> by congruence.
  destruct (erase_two_tree (length (ptrs (Fork la l lk lb)) + 2) m (fst w) c
              la l lk lb node k ra r rk rb HR Hnd Hroot (Nat.le_refl _))
    as (pred & np & l' & _ & Hright & Hp & Hne & Eptrs & Ekeys & _).
  exists pred, np. split; [done|]. split; [done|].
  assert (keys (plug c (Fork (Fork la l lk lb) node k (Fork ra r rk rb))) =
          (ckeys_l c ++ keys l') ++ key np :: key n ::
            (keys (Fork ra r rk rb) ++ ckeys_r c)) as Ek.
  { rewrite keys_plug. cbn [keys]. cbn [keys] in Ekeys. rewrite Ekeys, Kn.
    rewrite <- !app_assoc. simpl. by rewrite <- ?app_assoc. }
  rewrite Ek in Hinc. split.
  { apply increasing_app in Hinc. destruct Hinc as (_ & Hinc & _).
    simpl in Hinc. destruct Hinc as (Hall & _).
    apply Forall_cons in Hall. tauto. }
  split.
  { intros k' Hk' Hlt. apply (contains_keys _ _ _ _ Hinv) in Hk'.
    rewrite Ek in Hk'. by eapply increasing_before. }
  exists (length (ptrs (Fork la l lk lb)) + 2)%nat. intros fuel Hfuel.
  destruct (erase_two_tree fuel m (fst w) c la l lk lb node k ra r rk rb
              HR Hnd Hroot Hfuel)
    as (pred' & np' & l'' & H' & Hright' & Hp' & _ & Eptrs' & Ekeys' & E & HR' &
        Hgone & Hkvn & Hkv).
  assert (pred' = pred) as ->.
  { rewrite Eptrs in Eptrs'. apply app_inj_2 in Eptrs'; [|done].
    destruct Eptrs' as [_ [= ->]]. done. }
  assert (np' = np) as -> by congruence.
  eexists _, H'. split; [exact E|].
  destruct (erase_tree _ _ _ _ _ _ _ _ Hinv Hin Hn E)
    as (t' & _ & Hsz & Hholds & _).
  assert (tree_inv H' (rootp (plug c (Fork l'' node (key np) (Fork ra r rk rb))))
            (plug c (Fork l'' node (key np) (Fork ra r rk rb)))) as Hinv'.
  { split; [done|]. split; [done|]. split.
    - revert Hnd. rewrite !ptrs_plug. cbn [ptrs]. cbn [ptrs] in Eptrs'.
      rewrite Eptrs'. intros Hnd. nd_norm. nd_solve.
    - assert (keys l'' = keys l') as El''.
      { rewrite Ekeys in Ekeys'. apply app_inj_2 in Ekeys'; [|done]. by destruct Ekeys'. }
      rewrite keys_plug.
      change (keys (Fork l'' node (key np) (Fork ra r rk rb)))
        with (keys l'' ++ key np :: keys (Fork ra r rk rb)).
      rewrite El''.
      replace ((ckeys_l c ++ keys l') ++ key np :: key n :: keys (Fork ra r rk rb) ++ ckeys_r c)
        with (((ckeys_l c ++ keys l') ++ [key np]) ++ key n :: keys (Fork ra r rk rb) ++ ckeys_r c)
        in Hinc by (rewrite <- !app_assoc; simpl; by rewrite <- ?app_assoc).
      apply increasing_remove in Hinc.
      clear Ek. generalize dependent (keys (Fork ra r rk rb)). intros KR Hinc.
      rewrite <- ?app_assoc in Hinc. rewrite <- ?app_assoc. exact Hinc. }
  split.
  { destruct (Rep_focus _ _ _ _ _ _ _ eq_refl HR') as (n' & Hn' & Kn' & Pn' & _ & Rn').
    exists n'. split; [done|]. split; [done|]. split.
    - unfold kv_of in Hkvn. rewrite Hn' in Hkvn. simpl in Hkvn. congruence.
    - split; [congruence|]. simpl in Rn'. congruence. }
  split; [done|]. split; [done|]. split; [done|]. split.
  { apply (tree_inv_in_subtree _ _ _ _ Hinv'). rewrite ptrs_plug. simpl. set_solver. }
  split; [by eapply tree_inv_search_tree|done].
Qed.

(** C9 at the root of map 1 at the end of [client_program]: the root holds
    4, its predecessor is the node holding 3, which has a left child. *)
Lemma C9_erase_two_children_witness :
  exists predecessor np,
    rightmost (fst client_world) 2%positive predecessor /\
    fst client_world !! predecessor = Some np /\
    key np < 4 /\
    (forall k', contains (fst client_world) (root client_map1) k' ->
                k' < 4 -> k' <= key np) /\
    exists fuel0, forall fuel, (fuel0 <= fuel)%nat ->
      exists m' H',
        erase fuel client_map1 (Some 1%positive) (fst client_world)
          = Some (m', H') /\
        (exists n', H' !! 1%positive = Some n' /\
                    key n' = key np /\ value n' = value np /\
                    parent n' = None /\ right n' = Some 3%positive) /\
        H' !! predecessor = None /\
        (forall q, q <> 1%positive -> q <> predecessor ->
                   kv_of H' q = kv_of (fst client_world) q) /\
        size_ m' = to_unsigned (size_ client_map1 - 1) /\
        in_subtree H' (root m') 1%positive /\
        search_tree H' (root m') /\
        (forall k' v', holds H' (root m') k' v' <->
                       k' <> 4 /\ holds (fst client_world) (root client_map1) k' v').
Proof.
  exact (proj1 C9_erase_two_children client_world 1%positive client_map1
           1%positive
           (mkNode 4 0 3 (-1) None (Some 2%positive) (Some 3%positive))
           2%positive 3%positive reachable_client_world
           ltac:(vm_compute; reflexivity)
           ltac:(eapply in_subtree_here; vm_compute; reflexivity)
           ltac:(vm_compute; reflexivity) eq_refl eq_refl).
Defined.
